(** * go-tensor-flow: the layer / backprop / optimizer engine

    A shallow embedding of the Go package [nn] and the properties of its
    numeric core.  The sources are src/layers.go, src/activations.go,
    src/model.go (the model, and after it the optimizers),
    src/unnamed/part_000 (tensors and convolution) and
    src/unnamed/part_001 (the losses, and after them the matrices).
    [NewConvLayer] is not embedded: no statement below is about it.

    Conventions of the embedding.
    - [float64] is Rocq's primitive [float]: IEEE 754 binary64 with the
      operations rounded to nearest-even, as Go computes them.  Nothing is
      idealised to real numbers; a sum is the sum in the order the loop
      takes it.  Where a statement is about rounding (the range and the
      sum of a softmax), it is about the real numbers that the [float64]
      values stand for ([value]), and is proved from the specification of
      the operations in the Standard Library ([SpecFloat]).
    - [int] is [Z]; where the program does arithmetic on an [int] the 64-bit
      wrap-around is written out ([Go.wrap64]); integer division truncates
      towards zero and panics on a zero divisor.
    - A function that returns [(T, error)] returns a [result T]; [Err]
      carries the message of the Go error, [Panic] is a run-time panic
      (index out of range, nil dereference, negative [make] length, integer
      division by zero).
    - A method with a pointer receiver takes the receiver's value and gives
      the new value back together with its result.  After [Err] the state
      given back is the one the caller observes; after [Panic] the run is
      over and the state is of no interest.
    - A [*Matrix] is modelled by its value, and [Sequential] holds a
      layer value per position.  This is the program's behaviour when the
      layers of a model are distinct objects, the buffers of a layer are
      those its constructor allocated, and a caller does not hand a layer
      one of its own matrices: then no matrix is written through one
      pointer and read through another.  [UpdateWeights] writes into the
      layers, so for it the condition matters most: [ByPointer] keeps the
      layers in a heap and the model holds their addresses, as the
      program does, and [UpdateWeights_distinct_layers] shows that the two
      agree when no layer is in the model twice.
    - The functions of Go's [math] package are outside the repository and
      are taken as an interface ([GoMath]); so is the random source of
      [math/rand] ([GoRand]).
    - [Fit] has a loop whose step is an argument, so its embedding takes
      fuel: a bound on the number of batches of an epoch.  What [Fit]
      prints is kept as the list of the arguments of its calls of
      [fmt.Printf]. *)

From Stdlib Require Import ZArith Floats.
From Stdlib Require Reals Lra.
From stdpp Require Import base list strings gmap pretty.

Local Open Scope Z_scope.

(** ** Go run-time notions *)

Module Go.

Inductive result (A : Type) : Type :=
| Ok (a : A)
| Err (msg : string)
| Panic.
Arguments Ok {A} a.
Arguments Err {A} msg.
Arguments Panic {A}.

#[global] Instance result_ret : MRet result := fun _ a => Ok a.
#[global] Instance result_bind : MBind result := fun _ _ f r =>
  match r with
  | Ok a => f a
  | Err msg => Err msg
  | Panic => Panic
  end.

(** 64-bit two's complement wrap-around of [int] arithmetic. *)
Definition wrap64 (z : Z) : Z := (z + 2 ^ 63) `mod` 2 ^ 64 - 2 ^ 63.

(** [x / y] on [int]: truncated, panics when [y == 0]. *)
Definition int_div (x y : Z) : result Z :=
  if y =? 0 then Panic else Ok (wrap64 (x ÷ y)).

(** [float64(n)] for an [int] n: the nearest binary64, ties to even. *)
Definition float64_of_int (n : Z) : float :=
  SF2Prim (binary_normalize prec emax n 0 false).

(** [s[i]] on a slice. *)
Definition index {A} (s : list A) (i : Z) : result A :=
  if i <? 0 then Panic
  else match s !! Z.to_nat i with
       | Some x => Ok x
       | None => Panic
       end.

(** [s[i] = x] on a slice. *)
Definition assign {A} (s : list A) (i : Z) (x : A) : result (list A) :=
  if (i <? 0) || (Z.of_nat (length s) <=? i) then Panic
  else Ok (<[Z.to_nat i := x]> s).

(** [make([]T, n)]: zero-filled, panics on a negative length. *)
Definition make {A} (zero : A) (n : Z) : result (list A) :=
  if n <? 0 then Panic else Ok (replicate (Z.to_nat n) zero).

(** [for i := lo; i < hi; i++ { s = body(i, s) }], [hi] fixed. *)
Fixpoint loop {St} (n : nat) (i : Z) (body : Z -> St -> result St) (s : St)
  : result St :=
  match n with
  | O => Ok s
  | S n' => s' ← body i s; loop n' (i + 1) body s'
  end.

Definition for_ {St} (lo hi : Z) (body : Z -> St -> result St) (s : St)
  : result St :=
  loop (Z.to_nat (hi - lo)) lo body s.

(** [for i, x := range xs { s = body(i, x, s) }]. *)
Fixpoint range_from {A St} (i : Z) (xs : list A)
    (body : Z -> A -> St -> result St) (s : St) : result St :=
  match xs with
  | [] => Ok s
  | x :: xs' => s' ← body i x s; range_from (i + 1) xs' body s'
  end.

End Go.
Export Go.

(** The functions of Go's [math] package the program calls. *)
Class GoMath := {
  Exp : float -> float;
  Log : float -> float;
  Pow : float -> float -> float;
  Sqrt : float -> float;
  Max : float -> float -> float;
  Min : float -> float -> float
}.

(** The indices [0, 1, ..., n-1] and a sum over them in loop order, starting
    from [0.0]. *)
Definition upto (n : Z) : list Z := Z.of_nat <$> seq 0 (Z.to_nat n).

Definition fsum (n : Z) (f : Z -> float) : float :=
  foldl (fun acc k => (acc + f k)%float) 0%float (upto n).

(** ** Matrices (src/unnamed/part_001, second half) *)

Module Matrix.

Record t := mk { Rows : Z; Cols : Z; Data : list (list float) }.

(** The invariant every matrix built by [NewMatrix] has: [Rows] rows of
    [Cols] elements each. *)
Definition wf (m : t) : bool :=
  (0 <=? Rows m) && (0 <=? Cols m)
  && (Z.of_nat (length (Data m)) =? Rows m)
  && forallb (fun r => Z.of_nat (length r) =? Cols m) (Data m).

Definition same_shape (a b : t) : bool :=
  (Rows a =? Rows b) && (Cols a =? Cols b).

(** [d[i][j]] and [d[i][j] = x] on a [[][]float64]. *)
Definition get (d : list (list float)) (i j : Z) : result float :=
  row ← index d i; index row j.

Definition set (d : list (list float)) (i j : Z) (x : float)
  : result (list (list float)) :=
  row ← index d i; row' ← assign row j x; assign d i row'.

(** The entry for use in statements; [0] outside the matrix. *)
Definition entry (m : t) (i j : Z) : float :=
  match get (Data m) i j with
  | Ok x => x
  | _ => 0%float
  end.

Definition NewMatrix (rows cols : Z) : result t :=
  data ← make [] rows;
  data ← range_from 0 data (fun i _ data =>
            row ← make 0%float cols; assign data i row) data;
  Ok (mk rows cols data).

Definition Multiply (m other : t) : result t :=
  if negb (Cols m =? Rows other) then
    Err ("incompatible dimensions: (" +:+ pretty (Rows m) +:+ ", "
           +:+ pretty (Cols m) +:+ ") and (" +:+ pretty (Rows other)
           +:+ ", " +:+ pretty (Cols other) +:+ ")")
  else
    result ← NewMatrix (Rows m) (Cols other);
    data ← for_ 0 (Rows m) (fun i data =>
              for_ 0 (Cols other) (fun j data =>
                sum ← for_ 0 (Cols m) (fun k sum =>
                         a ← get (Data m) i k;
                         b ← get (Data other) k j;
                         Ok (sum + a * b)%float) 0%float;
                set data i j sum) data) (Data result);
    Ok (mk (Rows result) (Cols result) data).

Definition Add (m other : t) : result t :=
  if negb (Rows m =? Rows other) || negb (Cols m =? Cols other) then
    Err "incompatible dimensions"
  else
    result ← NewMatrix (Rows m) (Cols m);
    data ← for_ 0 (Rows m) (fun i data =>
              for_ 0 (Cols m) (fun j data =>
                a ← get (Data m) i j;
                b ← get (Data other) i j;
                set data i j (a + b)%float) data) (Data result);
    Ok (mk (Rows result) (Cols result) data).

Definition Scale (m : t) (scalar : float) : result t :=
  result ← NewMatrix (Rows m) (Cols m);
  data ← for_ 0 (Rows m) (fun i data =>
            for_ 0 (Cols m) (fun j data =>
              a ← get (Data m) i j;
              set data i j (a * scalar)%float) data) (Data result);
  Ok (mk (Rows result) (Cols result) data).

End Matrix.

(** ** Activations (src/activations.go) *)

Section Activations.
Context `{GoMath}.

Definition Softmax (input : list float) : result (list float) :=
  max ← index input 0;
  max ← range_from 0 input (fun _ v max =>
           Ok (if (max <? v)%float then v else max)) max;
  expValues ← make 0%float (Z.of_nat (length input));
  '(expValues, sum) ← range_from 0 input (fun i v '(expValues, sum) =>
      expValues ← assign expValues i (Exp (v - max));
      e ← index expValues i;
      Ok (expValues, (sum + e)%float)) (expValues, 0%float);
  output ← make 0%float (Z.of_nat (length input));
  range_from 0 expValues (fun i _ output =>
      e ← index expValues i;
      assign output i (e / sum)%float) output.

Definition SoftmaxMatrix (m : Matrix.t) : result Matrix.t :=
  result ← Matrix.NewMatrix (Matrix.Rows m) (Matrix.Cols m);
  data ← for_ 0 (Matrix.Rows m) (fun i data =>
            row ← index (Matrix.Data m) i;
            row' ← Softmax row;
            assign data i row') (Matrix.Data result);
  Ok (Matrix.mk (Matrix.Rows result) (Matrix.Cols result) data).

End Activations.

Definition ReLU (x : float) : float :=
  if (0 <? x)%float then x else 0%float.

Definition ReLUMatrix (m : Matrix.t) : result Matrix.t :=
  result ← Matrix.NewMatrix (Matrix.Rows m) (Matrix.Cols m);
  data ← for_ 0 (Matrix.Rows m) (fun i data =>
            for_ 0 (Matrix.Cols m) (fun j data =>
              x ← Matrix.get (Matrix.Data m) i j;
              Matrix.set data i j (ReLU x)) data) (Matrix.Data result);
  Ok (Matrix.mk (Matrix.Rows result) (Matrix.Cols result) data).

(** ** Layers (src/layers.go) *)

(** A nilable [*Matrix] field; reading through [nil] panics. *)
Definition deref (p : option Matrix.t) : result Matrix.t :=
  match p with
  | Some m => Ok m
  | None => Panic
  end.

Module Dense.

Record t := mk {
  InputSize : Z;
  OutputSize : Z;
  Weights : Matrix.t;
  Bias : Matrix.t;
  lastInput : option Matrix.t;
  weightsGrad : Matrix.t;
  biasGrad : Matrix.t
}.

Definition set_lastInput (d : t) (input : Matrix.t) : t :=
  mk (InputSize d) (OutputSize d) (Weights d) (Bias d) (Some input)
     (weightsGrad d) (biasGrad d).

Definition set_grads (d : t) (wg bg : list (list float)) : t :=
  mk (InputSize d) (OutputSize d) (Weights d) (Bias d) (lastInput d)
     (Matrix.mk (Matrix.Rows (weightsGrad d)) (Matrix.Cols (weightsGrad d)) wg)
     (Matrix.mk (Matrix.Rows (biasGrad d)) (Matrix.Cols (biasGrad d)) bg).

Definition Forward (d : t) (input : Matrix.t) : t * result Matrix.t :=
  if negb (Matrix.Cols input =? InputSize d) then
    (d, Err ("input size mismatch: got " +:+ pretty (Matrix.Cols input)
               +:+ ", expected " +:+ pretty (InputSize d)))
  else
    let d := set_lastInput d input in
    (d,
     output ← Matrix.Multiply input (Weights d);
     data ← for_ 0 (Matrix.Rows output) (fun i data =>
               for_ 0 (Matrix.Cols output) (fun j data =>
                 b ← Matrix.get (Matrix.Data (Bias d)) 0 j;
                 x ← Matrix.get data i j;
                 Matrix.set data i j (x + b)%float) data) (Matrix.Data output);
     Ok (Matrix.mk (Matrix.Rows output) (Matrix.Cols output) data)).

(** The three loop nests of [Backward], on the data they write. *)
Definition weights_gradient (d : t) (gradOutput : Matrix.t)
    (batchSize : float) : result (list (list float)) :=
  for_ 0 (InputSize d) (fun i wg =>
    for_ 0 (OutputSize d) (fun j wg =>
      x ← deref (lastInput d);
      sum ← for_ 0 (Matrix.Rows x) (fun b sum =>
               a ← Matrix.get (Matrix.Data x) b i;
               g ← Matrix.get (Matrix.Data gradOutput) b j;
               Ok (sum + a * g)%float) 0%float;
      Matrix.set wg i j (sum / batchSize)%float) wg)
    (Matrix.Data (weightsGrad d)).

Definition bias_gradient (d : t) (gradOutput : Matrix.t)
    (batchSize : float) : result (list (list float)) :=
  for_ 0 (OutputSize d) (fun j bg =>
    sum ← for_ 0 (Matrix.Rows gradOutput) (fun i sum =>
             g ← Matrix.get (Matrix.Data gradOutput) i j;
             Ok (sum + g)%float) 0%float;
    Matrix.set bg 0 j (sum / batchSize)%float)
    (Matrix.Data (biasGrad d)).

Definition input_gradient (d : t) (gradOutput : Matrix.t)
  : result Matrix.t :=
  gradInput ← Matrix.NewMatrix (Matrix.Rows gradOutput) (InputSize d);
  data ← for_ 0 (Matrix.Rows gradOutput) (fun i data =>
            for_ 0 (InputSize d) (fun j data =>
              sum ← for_ 0 (OutputSize d) (fun k sum =>
                       g ← Matrix.get (Matrix.Data gradOutput) i k;
                       w ← Matrix.get (Matrix.Data (Weights d)) j k;
                       Ok (sum + g * w)%float) 0%float;
              Matrix.set data i j sum) data) (Matrix.Data gradInput);
  Ok (Matrix.mk (Matrix.Rows gradInput) (Matrix.Cols gradInput) data).

Definition Backward (d : t) (gradOutput : Matrix.t) : t * result Matrix.t :=
  if negb (Matrix.Cols gradOutput =? OutputSize d) then
    (d, Err "gradient size mismatch")
  else
    let batchSize := float64_of_int (Matrix.Rows gradOutput) in
    match weights_gradient d gradOutput batchSize with
    | Ok wg =>
        match bias_gradient d gradOutput batchSize with
        | Ok bg =>
            let d := set_grads d wg bg in
            (d, input_gradient d gradOutput)
        | Err msg => (d, Err msg)
        | Panic => (d, Panic)
        end
    | Err msg => (d, Err msg)
    | Panic => (d, Panic)
    end.

Definition GetParams (d : t) : list Matrix.t := [Weights d; Bias d].
Definition GetGrads (d : t) : list Matrix.t := [weightsGrad d; biasGrad d].
Definition GetParamNames (d : t) : list string := ["weights"; "bias"].

End Dense.

Module ReLULayer.

Record t := mk { lastInput : option Matrix.t }.

Definition Forward (r : t) (input : Matrix.t) : t * result Matrix.t :=
  (mk (Some input), ReLUMatrix input).

Definition Backward (r : t) (gradOutput : Matrix.t) : t * result Matrix.t :=
  (r,
   gradInput ← Matrix.NewMatrix (Matrix.Rows gradOutput) (Matrix.Cols gradOutput);
   data ← for_ 0 (Matrix.Rows gradOutput) (fun i data =>
             for_ 0 (Matrix.Cols gradOutput) (fun j data =>
               x ← deref (lastInput r);
               v ← Matrix.get (Matrix.Data x) i j;
               if (0 <? v)%float then
                 g ← Matrix.get (Matrix.Data gradOutput) i j;
                 Matrix.set data i j g
               else Ok data) data) (Matrix.Data gradInput);
   Ok (Matrix.mk (Matrix.Rows gradInput) (Matrix.Cols gradInput) data)).

Definition GetParams (r : t) : list Matrix.t := [].
Definition GetGrads (r : t) : list Matrix.t := [].
Definition GetParamNames (r : t) : list string := [].

End ReLULayer.

Module SoftmaxLayer.

Record t := mk { lastOutput : option Matrix.t }.

Section WithMath.
Context `{GoMath}.

Definition Forward (s : t) (input : Matrix.t) : t * result Matrix.t :=
  match SoftmaxMatrix input with
  | Ok out => (mk (Some out), Ok out)
  | Err msg => (s, Err msg)
  | Panic => (s, Panic)
  end.

End WithMath.

Definition Backward (s : t) (gradOutput : Matrix.t) : t * result Matrix.t :=
  (s, Ok gradOutput).

Definition GetParams (s : t) : list Matrix.t := [].
Definition GetGrads (s : t) : list Matrix.t := [].
Definition GetParamNames (s : t) : list string := [].

End SoftmaxLayer.

(** The [Layer] interface over the three implementations the package has. *)
Module Layer.

Inductive t :=
| OfDense (d : Dense.t)
| OfReLU (r : ReLULayer.t)
| OfSoftmax (s : SoftmaxLayer.t).

Definition lift {L} (wrap : L -> t) (x : L * result Matrix.t)
  : t * result Matrix.t :=
  (wrap x.1, x.2).

Section WithMath.
Context `{GoMath}.

Definition Forward (l : t) (input : Matrix.t) : t * result Matrix.t :=
  match l with
  | OfDense d => lift OfDense (Dense.Forward d input)
  | OfReLU r => lift OfReLU (ReLULayer.Forward r input)
  | OfSoftmax s => lift OfSoftmax (SoftmaxLayer.Forward s input)
  end.

End WithMath.

Definition Backward (l : t) (gradOutput : Matrix.t) : t * result Matrix.t :=
  match l with
  | OfDense d => lift OfDense (Dense.Backward d gradOutput)
  | OfReLU r => lift OfReLU (ReLULayer.Backward r gradOutput)
  | OfSoftmax s => lift OfSoftmax (SoftmaxLayer.Backward s gradOutput)
  end.

Definition GetParams (l : t) : list Matrix.t :=
  match l with
  | OfDense d => Dense.GetParams d
  | OfReLU r => ReLULayer.GetParams r
  | OfSoftmax s => SoftmaxLayer.GetParams s
  end.

Definition GetGrads (l : t) : list Matrix.t :=
  match l with
  | OfDense d => Dense.GetGrads d
  | OfReLU r => ReLULayer.GetGrads r
  | OfSoftmax s => SoftmaxLayer.GetGrads s
  end.

Definition GetParamNames (l : t) : list string :=
  match l with
  | OfDense d => Dense.GetParamNames d
  | OfReLU r => ReLULayer.GetParamNames r
  | OfSoftmax s => SoftmaxLayer.GetParamNames s
  end.

(** [GetParams] hands out pointers into the layer; this is the write
    [params[i].Data = data] through the [i]-th of them. *)
Definition store_param (l : t) (i : Z) (data : list (list float)) : t :=
  match l with
  | OfDense d =>
      let w := Dense.Weights d in
      let b := Dense.Bias d in
      if i =? 0 then
        OfDense (Dense.mk (Dense.InputSize d) (Dense.OutputSize d)
                   (Matrix.mk (Matrix.Rows w) (Matrix.Cols w) data) b
                   (Dense.lastInput d) (Dense.weightsGrad d) (Dense.biasGrad d))
      else if i =? 1 then
        OfDense (Dense.mk (Dense.InputSize d) (Dense.OutputSize d)
                   w (Matrix.mk (Matrix.Rows b) (Matrix.Cols b) data)
                   (Dense.lastInput d) (Dense.weightsGrad d) (Dense.biasGrad d))
      else l
  | _ => l
  end.

End Layer.

(** ** Losses (src/unnamed/part_001, first half) *)

Module BinaryCrossEntropy.

Record t := mk { Epsilon : float }.

Section WithMath.
Context `{GoMath}.

Definition clamp (bce : t) (p : float) : float :=
  Max (Epsilon bce) (Min (1 - Epsilon bce)%float p).

Definition Forward (bce : t) (predictions targets : Matrix.t) : result float :=
  if negb (Matrix.Rows predictions =? Matrix.Rows targets)
     || negb (Matrix.Cols predictions =? Matrix.Cols targets) then
    Err ("shape mismatch: predictions " +:+ pretty (Matrix.Rows predictions)
           +:+ "x" +:+ pretty (Matrix.Cols predictions) +:+ ", targets "
           +:+ pretty (Matrix.Rows targets) +:+ "x"
           +:+ pretty (Matrix.Cols targets))
  else
    let n := float64_of_int
               (wrap64 (Matrix.Rows predictions * Matrix.Cols predictions)) in
    totalLoss ← for_ 0 (Matrix.Rows predictions) (fun i totalLoss =>
      for_ 0 (Matrix.Cols predictions) (fun j totalLoss =>
        p ← Matrix.get (Matrix.Data predictions) i j;
        let pred := clamp bce p in
        target ← Matrix.get (Matrix.Data targets) i j;
        Ok (totalLoss
            + - (target * Log pred + (1 - target) * Log (1 - pred)))%float)
        totalLoss) 0%float;
    Ok (totalLoss / n)%float.

Definition Backward (bce : t) (predictions targets : Matrix.t)
  : result Matrix.t :=
  if negb (Matrix.Rows predictions =? Matrix.Rows targets)
     || negb (Matrix.Cols predictions =? Matrix.Cols targets) then
    Err "shape mismatch"
  else
    gradient ← Matrix.NewMatrix (Matrix.Rows predictions)
                                (Matrix.Cols predictions);
    let n := float64_of_int
               (wrap64 (Matrix.Rows predictions * Matrix.Cols predictions)) in
    data ← for_ 0 (Matrix.Rows predictions) (fun i data =>
      for_ 0 (Matrix.Cols predictions) (fun j data =>
        p ← Matrix.get (Matrix.Data predictions) i j;
        let pred := clamp bce p in
        target ← Matrix.get (Matrix.Data targets) i j;
        Matrix.set data i j
          (- (target / pred - (1 - target) / (1 - pred)) / n)%float)
        data) (Matrix.Data gradient);
    Ok (Matrix.mk (Matrix.Rows gradient) (Matrix.Cols gradient) data).

End WithMath.
End BinaryCrossEntropy.

Module CategoricalCrossEntropy.

Record t := mk { Epsilon : float }.

Section WithMath.
Context `{GoMath}.

Definition Forward (cce : t) (predictions targets : Matrix.t) : result float :=
  if negb (Matrix.Rows predictions =? Matrix.Rows targets)
     || negb (Matrix.Cols predictions =? Matrix.Cols targets) then
    Err "shape mismatch"
  else
    let n := float64_of_int (Matrix.Rows predictions) in
    totalLoss ← for_ 0 (Matrix.Rows predictions) (fun i totalLoss =>
      for_ 0 (Matrix.Cols predictions) (fun j totalLoss =>
        p ← Matrix.get (Matrix.Data predictions) i j;
        let pred := Max (Epsilon cce) p in
        target ← Matrix.get (Matrix.Data targets) i j;
        Ok (totalLoss + - target * Log pred)%float)
        totalLoss) 0%float;
    Ok (totalLoss / n)%float.

Definition Backward (cce : t) (predictions targets : Matrix.t)
  : result Matrix.t :=
  if negb (Matrix.Rows predictions =? Matrix.Rows targets)
     || negb (Matrix.Cols predictions =? Matrix.Cols targets) then
    Err "shape mismatch"
  else
    gradient ← Matrix.NewMatrix (Matrix.Rows predictions)
                                (Matrix.Cols predictions);
    let n := float64_of_int (Matrix.Rows predictions) in
    data ← for_ 0 (Matrix.Rows predictions) (fun i data =>
      for_ 0 (Matrix.Cols predictions) (fun j data =>
        p ← Matrix.get (Matrix.Data predictions) i j;
        let pred := Max (Epsilon cce) p in
        target ← Matrix.get (Matrix.Data targets) i j;
        Matrix.set data i j (- target / pred / n)%float)
        data) (Matrix.Data gradient);
    Ok (Matrix.mk (Matrix.Rows gradient) (Matrix.Cols gradient) data).

End WithMath.
End CategoricalCrossEntropy.

Module MSE.

Record t := mk { }.

Definition Forward (mse : t) (predictions targets : Matrix.t) : result float :=
  if negb (Matrix.Rows predictions =? Matrix.Rows targets)
     || negb (Matrix.Cols predictions =? Matrix.Cols targets) then
    Err "shape mismatch"
  else
    let n := float64_of_int
               (wrap64 (Matrix.Rows predictions * Matrix.Cols predictions)) in
    totalLoss ← for_ 0 (Matrix.Rows predictions) (fun i totalLoss =>
      for_ 0 (Matrix.Cols predictions) (fun j totalLoss =>
        target ← Matrix.get (Matrix.Data targets) i j;
        p ← Matrix.get (Matrix.Data predictions) i j;
        let diff := (target - p)%float in
        Ok (totalLoss + diff * diff)%float)
        totalLoss) 0%float;
    Ok (totalLoss / (2 * n))%float.

Definition Backward (mse : t) (predictions targets : Matrix.t)
  : result Matrix.t :=
  if negb (Matrix.Rows predictions =? Matrix.Rows targets)
     || negb (Matrix.Cols predictions =? Matrix.Cols targets) then
    Err "shape mismatch"
  else
    gradient ← Matrix.NewMatrix (Matrix.Rows predictions)
                                (Matrix.Cols predictions);
    let n := float64_of_int
               (wrap64 (Matrix.Rows predictions * Matrix.Cols predictions)) in
    data ← for_ 0 (Matrix.Rows predictions) (fun i data =>
      for_ 0 (Matrix.Cols predictions) (fun j data =>
        target ← Matrix.get (Matrix.Data targets) i j;
        p ← Matrix.get (Matrix.Data predictions) i j;
        Matrix.set data i j (- (target - p) / n)%float)
        data) (Matrix.Data gradient);
    Ok (Matrix.mk (Matrix.Rows gradient) (Matrix.Cols gradient) data).

End MSE.

(** The [Loss] interface over its three implementations. *)
Module Loss.

Inductive t :=
| OfBinaryCrossEntropy (bce : BinaryCrossEntropy.t)
| OfCategoricalCrossEntropy (cce : CategoricalCrossEntropy.t)
| OfMSE (mse : MSE.t).

Section WithMath.
Context `{GoMath}.

Definition Forward (l : t) (predictions targets : Matrix.t) : result float :=
  match l with
  | OfBinaryCrossEntropy bce => BinaryCrossEntropy.Forward bce predictions targets
  | OfCategoricalCrossEntropy cce =>
      CategoricalCrossEntropy.Forward cce predictions targets
  | OfMSE mse => MSE.Forward mse predictions targets
  end.

Definition Backward (l : t) (predictions targets : Matrix.t)
  : result Matrix.t :=
  match l with
  | OfBinaryCrossEntropy bce => BinaryCrossEntropy.Backward bce predictions targets
  | OfCategoricalCrossEntropy cce =>
      CategoricalCrossEntropy.Backward cce predictions targets
  | OfMSE mse => MSE.Backward mse predictions targets
  end.

End WithMath.
End Loss.

(** ** Optimizers (src/model.go, second half) *)

(** [p.Data[i][j]] and [p.Data[i][j] = x] through a nilable [*Matrix]. *)
Definition read (p : option Matrix.t) (i j : Z) : result float :=
  m ← deref p; Matrix.get (Matrix.Data m) i j.

Definition write (p : option Matrix.t) (i j : Z) (x : float)
  : result (option Matrix.t) :=
  m ← deref p;
  data ← Matrix.set (Matrix.Data m) i j x;
  Ok (Some (Matrix.mk (Matrix.Rows m) (Matrix.Cols m) data)).

(** The map entry a local pointer refers to, after writes through it. *)
Definition write_back (name : string) (p : option Matrix.t)
    (mp : gmap string Matrix.t) : gmap string Matrix.t :=
  match p with
  | Some m => <[name := m]> mp
  | None => mp
  end.

Module AdamOptimizer.

Record t := mk {
  LearningRate : float;
  Beta1 : float;
  Beta2 : float;
  Epsilon : float;
  T : Z;
  M : gmap string Matrix.t;
  V : gmap string Matrix.t
}.

Definition NewAdamOptimizer (learningRate : float) : t :=
  mk learningRate 0x1.ccccccccccccdp-1%float 0x1.ff7ced916872bp-1%float
     0x1.5798ee2308c3ap-27%float 0 ∅ ∅.

Section WithMath.
Context `{GoMath}.

(** The five loop nests of [Update]; [m] and [v] are the moment matrices
    of the parameter, [t] the step counter after its increment. *)
Definition first_moment (adam : t) (params gradients : Matrix.t)
    (m : option Matrix.t) : result (option Matrix.t) :=
  for_ 0 (Matrix.Rows params) (fun i m =>
    for_ 0 (Matrix.Cols params) (fun j m =>
      x ← read m i j;
      g ← Matrix.get (Matrix.Data gradients) i j;
      write m i j (Beta1 adam * x + (1 - Beta1 adam) * g)%float) m) m.

Definition second_moment (adam : t) (params gradients : Matrix.t)
    (v : option Matrix.t) : result (option Matrix.t) :=
  for_ 0 (Matrix.Rows params) (fun i v =>
    for_ 0 (Matrix.Cols params) (fun j v =>
      x ← read v i j;
      g ← Matrix.get (Matrix.Data gradients) i j;
      write v i j (Beta2 adam * x + (1 - Beta2 adam) * g * g)%float) v) v.

Definition corrected (beta : float) (t : Z) (params : Matrix.t)
    (m : option Matrix.t) : result Matrix.t :=
  hat ← Matrix.NewMatrix (Matrix.Rows params) (Matrix.Cols params);
  data ← for_ 0 (Matrix.Rows params) (fun i data =>
    for_ 0 (Matrix.Cols params) (fun j data =>
      x ← read m i j;
      Matrix.set data i j (x / (1 - Pow beta (float64_of_int t)))%float)
      data) (Matrix.Data hat);
  Ok (Matrix.mk (Matrix.Rows hat) (Matrix.Cols hat) data).

Definition step (adam : t) (params mHat vHat : Matrix.t) : result Matrix.t :=
  updated ← Matrix.NewMatrix (Matrix.Rows params) (Matrix.Cols params);
  data ← for_ 0 (Matrix.Rows params) (fun i data =>
    for_ 0 (Matrix.Cols params) (fun j data =>
      p ← Matrix.get (Matrix.Data params) i j;
      mh ← Matrix.get (Matrix.Data mHat) i j;
      vh ← Matrix.get (Matrix.Data vHat) i j;
      Matrix.set data i j
        (p - LearningRate adam * mh / (Sqrt vh + Epsilon adam))%float)
      data) (Matrix.Data updated);
  Ok (Matrix.mk (Matrix.Rows updated) (Matrix.Cols updated) data).

Definition Update (adam : t) (paramName : string)
    (params gradients : Matrix.t) : t * result Matrix.t :=
  let adam := mk (LearningRate adam) (Beta1 adam) (Beta2 adam) (Epsilon adam)
                 (wrap64 (T adam + 1)) (M adam) (V adam) in
  let init :=
    match M adam !! paramName with
    | None =>
        m0 ← Matrix.NewMatrix (Matrix.Rows params) (Matrix.Cols params);
        v0 ← Matrix.NewMatrix (Matrix.Rows params) (Matrix.Cols params);
        Ok (<[paramName := m0]> (M adam), <[paramName := v0]> (V adam))
    | Some _ => Ok (M adam, V adam)
    end in
  match init with
  | Ok (M0, V0) =>
      let run :=
        m ← first_moment adam params gradients (M0 !! paramName);
        v ← second_moment adam params gradients (V0 !! paramName);
        mHat ← corrected (Beta1 adam) (T adam) params m;
        vHat ← corrected (Beta2 adam) (T adam) params v;
        updated ← step adam params mHat vHat;
        Ok (m, v, updated) in
      match run with
      | Ok (m, v, updated) =>
          (mk (LearningRate adam) (Beta1 adam) (Beta2 adam) (Epsilon adam)
              (T adam) (write_back paramName m M0) (write_back paramName v V0),
           Ok updated)
      | Err msg => (adam, Err msg)
      | Panic => (adam, Panic)
      end
  | Err msg => (adam, Err msg)
  | Panic => (adam, Panic)
  end.

End WithMath.
End AdamOptimizer.

Module SGD.

Record t := mk {
  LearningRate : float;
  Momentum : float;
  Velocity : gmap string Matrix.t
}.

Definition NewSGD (learningRate momentum : float) : t :=
  mk learningRate momentum ∅.

Definition Update (sgd : t) (paramName : string)
    (params gradients : Matrix.t) : t * result Matrix.t :=
  let init :=
    match Velocity sgd !! paramName with
    | None =>
        v0 ← Matrix.NewMatrix (Matrix.Rows params) (Matrix.Cols params);
        Ok (<[paramName := v0]> (Velocity sgd))
    | Some _ => Ok (Velocity sgd)
    end in
  match init with
  | Ok V0 =>
      let run :=
        updated ← Matrix.NewMatrix (Matrix.Rows params) (Matrix.Cols params);
        '(velocity, data) ← for_ 0 (Matrix.Rows params) (fun i st =>
          for_ 0 (Matrix.Cols params) (fun j '(velocity, data) =>
            x ← read velocity i j;
            g ← Matrix.get (Matrix.Data gradients) i j;
            velocity ← write velocity i j
                         (Momentum sgd * x - LearningRate sgd * g)%float;
            p ← Matrix.get (Matrix.Data params) i j;
            x' ← read velocity i j;
            data ← Matrix.set data i j (p + x')%float;
            Ok (velocity, data)) st)
          (V0 !! paramName, Matrix.Data updated);
        Ok (velocity,
            Matrix.mk (Matrix.Rows updated) (Matrix.Cols updated) data) in
      match run with
      | Ok (velocity, updated) =>
          (mk (LearningRate sgd) (Momentum sgd)
              (write_back paramName velocity V0),
           Ok updated)
      | Err msg => (sgd, Err msg)
      | Panic => (sgd, Panic)
      end
  | Err msg => (sgd, Err msg)
  | Panic => (sgd, Panic)
  end.

End SGD.

(** The [Optimizer] interface over its two implementations. *)
Module Optimizer.

Inductive t :=
| OfAdam (adam : AdamOptimizer.t)
| OfSGD (sgd : SGD.t).

Section WithMath.
Context `{GoMath}.

Definition Update (o : t) (paramName : string) (params gradients : Matrix.t)
  : t * result Matrix.t :=
  match o with
  | OfAdam adam =>
      let '(adam, r) := AdamOptimizer.Update adam paramName params gradients in
      (OfAdam adam, r)
  | OfSGD sgd =>
      let '(sgd, r) := SGD.Update sgd paramName params gradients in
      (OfSGD sgd, r)
  end.

End WithMath.
End Optimizer.

(** ** The sequential model (src/model.go, first half) *)

Module Sequential.

(** [Loss] and [Optimizer] are nil interfaces until [Compile] sets them.
    [updateCalls] is a ghost field, not in the program: the identifiers
    [Optimizer.Update] has been called with, oldest first. *)
Record t := mk {
  Layers : list Layer.t;
  Loss : option Loss.t;
  Optimizer : option Optimizer.t;
  updateCalls : list string
}.

Definition NewSequential : t := mk [] None None [].

Definition Add (s : t) (layer : Layer.t) : t :=
  mk (Layers s ++ [layer]) (Loss s) (Optimizer s) (updateCalls s).

Definition Compile (s : t) (loss : Loss.t) (optimizer : Optimizer.t) : t :=
  mk (Layers s) (Some loss) (Some optimizer) (updateCalls s).

Definition with_layers (s : t) (layers : list Layer.t) : t :=
  mk layers (Loss s) (Optimizer s) (updateCalls s).

Section WithMath.
Context `{GoMath}.

(** The loop of [Forward] from layer [i] on. *)
Fixpoint forward_from (i : Z) (layers : list Layer.t) (output : Matrix.t)
  : list Layer.t * result Matrix.t :=
  match layers with
  | [] => ([], Ok output)
  | layer :: rest =>
      let '(layer, r) := Layer.Forward layer output in
      match r with
      | Ok output =>
          let '(rest, r) := forward_from (i + 1) rest output in
          (layer :: rest, r)
      | Err msg =>
          (layer :: rest,
           Err ("error in layer " +:+ pretty i +:+ ": " +:+ msg))
      | Panic => (layer :: rest, Panic)
      end
  end.

Definition Forward (s : t) (input : Matrix.t) : t * result Matrix.t :=
  let '(layers, r) := forward_from 0 (Layers s) input in
  (with_layers s layers, r).

(** The loop of [Backward] over the layers [i, i+1, ...], last one first. *)
Fixpoint backward_from (i : Z) (layers : list Layer.t) (grad : Matrix.t)
  : list Layer.t * result Matrix.t :=
  match layers with
  | [] => ([], Ok grad)
  | layer :: rest =>
      let '(rest, r) := backward_from (i + 1) rest grad in
      match r with
      | Ok grad =>
          let '(layer, r) := Layer.Backward layer grad in
          (layer :: rest,
           match r with
           | Ok grad => Ok grad
           | Err msg =>
               Err ("error in backward pass at layer " +:+ pretty i
                      +:+ ": " +:+ msg)
           | Panic => Panic
           end)
      | Err msg => (layer :: rest, Err msg)
      | Panic => (layer :: rest, Panic)
      end
  end.

(** [Backward] returns only an error; [Ok ()] is [nil]. *)
Definition Backward (s : t) (gradOutput : Matrix.t) : t * result unit :=
  let '(layers, r) := backward_from 0 (Layers s) gradOutput in
  (with_layers s layers, _ ← r; Ok ()).

(** The body of the inner loop of [UpdateWeights], for parameter [i] of
    the layer at position [layerIdx]. *)
Definition update_param (layerIdx i : Z)
    (st : Layer.t * option Optimizer.t * list string)
  : result (Layer.t * option Optimizer.t * list string) :=
  let '(layer, optimizer, calls) := st in
  name ← index (Layer.GetParamNames layer) i;
  let paramName := "layer_" +:+ pretty layerIdx +:+ "_" +:+ name in
  p ← index (Layer.GetParams layer) i;
  g ← index (Layer.GetGrads layer) i;
  o ← match optimizer with Some o => Ok o | None => Panic end;
  let '(o, r) := Optimizer.Update o paramName p g in
  updated ← r;
  data ← for_ 0 (Matrix.Rows p) (fun r data =>
            for_ 0 (Matrix.Cols p) (fun c data =>
              x ← Matrix.get (Matrix.Data updated) r c;
              Matrix.set data r c x) data) (Matrix.Data p);
  Ok (Layer.store_param layer i data, Some o, calls ++ [paramName]).

(** The outer loop of [UpdateWeights] from position [layerIdx] on, each
    position with a layer of its own ([ByPointer.update_from] is the loop
    over layers that may be shared). *)
Fixpoint update_from (layerIdx : Z) (layers : list Layer.t)
    (st : option Optimizer.t * list string)
  : result (list Layer.t * (option Optimizer.t * list string)) :=
  match layers with
  | [] => Ok ([], st)
  | layer :: rest =>
      '(layer, optimizer, calls) ←
        range_from 0 (Layer.GetParams layer)
          (fun i _ st => update_param layerIdx i st) (layer, st.1, st.2);
      '(rest, st) ← update_from (layerIdx + 1) rest (optimizer, calls);
      Ok (layer :: rest, st)
  end.

(** [UpdateWeights] has no result; it can only panic. *)
Definition UpdateWeights (s : t) : result t :=
  '(layers, (optimizer, calls)) ←
    update_from 0 (Layers s) (Optimizer s, updateCalls s);
  Ok (mk layers (Loss s) optimizer calls).

Definition loss_of (s : t) : result Loss.t :=
  match Loss s with
  | Some l => Ok l
  | None => Panic
  end.

Definition TrainOnBatch (s : t) (X y : Matrix.t) : t * result float :=
  let '(s, r) := Forward s X in
  match r with
  | Ok predictions =>
      match (l ← loss_of s; Loss.Forward l predictions y) with
      | Ok loss =>
          match (l ← loss_of s; Loss.Backward l predictions y) with
          | Ok gradLoss =>
              let '(s, r) := Backward s gradLoss in
              match r with
              | Ok _ =>
                  match UpdateWeights s with
                  | Ok s => (s, Ok loss)
                  | Err msg => (s, Err msg)
                  | Panic => (s, Panic)
                  end
              | Err msg => (s, Err msg)
              | Panic => (s, Panic)
              end
          | Err msg => (s, Err msg)
          | Panic => (s, Panic)
          end
      | Err msg => (s, Err msg)
      | Panic => (s, Panic)
      end
  | Err msg => (s, Err msg)
  | Panic => (s, Panic)
  end.

Definition Predict (s : t) (X : Matrix.t) : t * result Matrix.t :=
  Forward s X.

Definition Evaluate (s : t) (X y : Matrix.t) : t * result float :=
  let '(s, r) := Predict s X in
  (s, predictions ← r; l ← loss_of s; Loss.Forward l predictions y).

(** The block of [Fit] that creates a batch: the rows [i, end) of [X] and
    of [y], copied into two new matrices. *)
Definition batch (X y : Matrix.t) (i end_ : Z) : result (Matrix.t * Matrix.t) :=
  batchX ← Matrix.NewMatrix (wrap64 (end_ - i)) (Matrix.Cols X);
  batchY ← Matrix.NewMatrix (wrap64 (end_ - i)) (Matrix.Cols y);
  '(dx, dy) ← for_ i end_ (fun j '(dx, dy) =>
      dx ← for_ 0 (Matrix.Cols X) (fun k dx =>
              x ← Matrix.get (Matrix.Data X) j k;
              Matrix.set dx (wrap64 (j - i)) k x) dx;
      dy ← for_ 0 (Matrix.Cols y) (fun k dy =>
              x ← Matrix.get (Matrix.Data y) j k;
              Matrix.set dy (wrap64 (j - i)) k x) dy;
      Ok (dx, dy)) (Matrix.Data batchX, Matrix.Data batchY);
  Ok (Matrix.mk (Matrix.Rows batchX) (Matrix.Cols batchX) dx,
      Matrix.mk (Matrix.Rows batchY) (Matrix.Cols batchY) dy).

(** The loop [for i := 0; i < numSamples; i += batchSize] of [Fit], from
    [i] on, with the model, [totalLoss] and [numBatches] as its state.
    [None] is a loop that has not ended when the fuel has run out. *)
Fixpoint train_batches (fuel : nat) (X y : Matrix.t) (batchSize i : Z)
    (s : t) (totalLoss : float) (numBatches : Z)
  : option (t * result (float * Z)) :=
  if negb (i <? Matrix.Rows X) then Some (s, Ok (totalLoss, numBatches))
  else
    match fuel with
    | O => None
    | S fuel =>
        let end_ := wrap64 (i + batchSize) in
        let end_ := if Matrix.Rows X <? end_ then Matrix.Rows X else end_ in
        match batch X y i end_ with
        | Ok (batchX, batchY) =>
            let '(s, r) := TrainOnBatch s batchX batchY in
            match r with
            | Ok loss =>
                train_batches fuel X y batchSize (wrap64 (i + batchSize))
                  s (totalLoss + loss)%float (wrap64 (numBatches + 1))
            | Err msg => Some (s, Err msg)
            | Panic => Some (s, Panic)
            end
        | Err msg => Some (s, Err msg)
        | Panic => Some (s, Panic)
        end
    end.

(** The loop over the epochs, [n] of them from [epoch] on; [out] is what
    has been printed: [(epoch+1, epochs, avgLoss)] for each call of
    [fmt.Printf]. *)
Fixpoint train_epochs (fuel : nat) (X y : Matrix.t) (epochs batchSize : Z)
    (verbose : bool) (n : nat) (epoch : Z) (s : t)
    (out : list (Z * Z * float))
  : option (t * list (Z * Z * float) * result unit) :=
  match n with
  | O => Some (s, out, Ok ())
  | S n =>
      match train_batches fuel X y batchSize 0 s 0%float 0 with
      | None => None
      | Some (s, r) =>
          match r with
          | Ok (totalLoss, numBatches) =>
              let avgLoss := (totalLoss / float64_of_int numBatches)%float in
              let out :=
                if verbose then out ++ [(wrap64 (epoch + 1), epochs, avgLoss)]
                else out in
              train_epochs fuel X y epochs batchSize verbose n (epoch + 1)
                s out
          | Err msg => Some (s, out, Err msg)
          | Panic => Some (s, out, Panic)
          end
      end
  end.

(** [Fit] returns only an error; [Ok ()] is [nil]. *)
Definition Fit (fuel : nat) (s : t) (X y : Matrix.t) (epochs batchSize : Z)
    (verbose : bool) : option (t * list (Z * Z * float) * result unit) :=
  train_epochs fuel X y epochs batchSize verbose (Z.to_nat epochs) 0 s [].

End WithMath.
End Sequential.

(** ** The model with its layers held by pointer

    [Sequential.Layers] is a slice of interface values that hold pointers
    ([*Dense], [*ReLULayer], [*SoftmaxLayer]): a layer that is added twice
    is one object at two positions, and what [UpdateWeights] writes at the
    first is what it reads at the second.  Here the layers are objects of a
    heap and the model holds their addresses; an address without an
    object stands for a nil interface value. *)
Module ByPointer.

Record t := mk {
  Layers : list nat;
  Objects : gmap nat Layer.t;
  Loss : option Loss.t;
  Optimizer : option Optimizer.t;
  updateCalls : list string
}.

Definition Add (s : t) (layer : nat) : t :=
  mk (Layers s ++ [layer]) (Objects s) (Loss s) (Optimizer s) (updateCalls s).

(** The receiver of a method call through the interface value [a]. *)
Definition object (objects : gmap nat Layer.t) (a : nat) : result Layer.t :=
  match objects !! a with
  | Some layer => Ok layer
  | None => Panic
  end.

Section WithMath.
Context `{GoMath}.

(** The outer loop of [UpdateWeights] from position [layerIdx] on: the
    inner loop runs on the object as the heap holds it now, and leaves it
    there. *)
Fixpoint update_from (layerIdx : Z) (layers : list nat)
    (st : gmap nat Layer.t * option Optimizer.t * list string)
  : result (gmap nat Layer.t * option Optimizer.t * list string) :=
  match layers with
  | [] => Ok st
  | a :: rest =>
      let '(objects, optimizer, calls) := st in
      layer ← object objects a;
      '(layer, optimizer, calls) ←
        range_from 0 (Layer.GetParams layer)
          (fun i _ st => Sequential.update_param layerIdx i st)
          (layer, optimizer, calls);
      update_from (layerIdx + 1) rest (<[a := layer]> objects, optimizer, calls)
  end.

Definition UpdateWeights (s : t) : result t :=
  '(objects, optimizer, calls) ←
    update_from 0 (Layers s) (Objects s, Optimizer s, updateCalls s);
  Ok (mk (Layers s) objects (Loss s) optimizer calls).

End WithMath.
End ByPointer.

(** ** Tensors and convolution (src/unnamed/part_000) *)

Module Tensor3D.

Record t := mk {
  Channels : Z;
  Height : Z;
  Width : Z;
  Data : list (list (list float))
}.

Definition wf (x : t) : bool :=
  (0 <=? Channels x) && (0 <=? Height x) && (0 <=? Width x)
  && (Z.of_nat (length (Data x)) =? Channels x)
  && forallb (fun plane =>
       (Z.of_nat (length plane) =? Height x)
       && forallb (fun row => Z.of_nat (length row) =? Width x) plane)
       (Data x).

Definition get (d : list (list (list float))) (c h w : Z) : result float :=
  plane ← index d c; Matrix.get plane h w.

Definition set (d : list (list (list float))) (c h w : Z) (x : float)
  : result (list (list (list float))) :=
  plane ← index d c; plane' ← Matrix.set plane h w x; assign d c plane'.

Definition NewTensor3D (channels height width : Z) : result t :=
  data ← make [] channels;
  data ← range_from 0 data (fun c _ data =>
            plane ← make [] height;
            plane ← range_from 0 plane (fun h _ plane =>
                       row ← make 0%float width; assign plane h row) plane;
            assign data c plane) data;
  Ok (mk channels height width data).

End Tensor3D.

Module ConvLayer.

Record t := mk {
  NumFilters : Z;
  FilterSize : Z;
  Stride : Z;
  Padding : Z;
  InChannels : Z;
  Filters : list (list (list (list float)));
  Bias : list float
}.

(** [Filters] is [NumFilters][InChannels][FilterSize][FilterSize] and [Bias]
    has one entry per filter, as [NewConvLayer] builds them. *)
Definition wf (conv : t) : bool :=
  (0 <=? NumFilters conv) && (0 <=? InChannels conv) && (0 <=? FilterSize conv)
  && (Z.of_nat (length (Bias conv)) =? NumFilters conv)
  && (Z.of_nat (length (Filters conv)) =? NumFilters conv)
  && forallb (fun filter =>
       Tensor3D.wf (Tensor3D.mk (InChannels conv) (FilterSize conv)
                      (FilterSize conv) filter))
       (Filters conv).

Definition weight (conv : t) (f c fh fw : Z) : result float :=
  filter ← index (Filters conv) f; Tensor3D.get filter c fh fw.

(** [(size - FilterSize + 2*Padding)/Stride + 1] on [int]. *)
Definition out_size (conv : t) (size : Z) : result Z :=
  q ← int_div (wrap64 (wrap64 (size - FilterSize conv)
                        + wrap64 (2 * Padding conv)))
              (Stride conv);
  Ok (wrap64 (q + 1)).

(** The three inner loops: the sum for output cell [(f, outH, outW)]. *)
Definition cell (conv : t) (input : Tensor3D.t) (f outH outW : Z)
  : result float :=
  sum ← index (Bias conv) f;
  for_ 0 (InChannels conv) (fun c sum =>
    for_ 0 (FilterSize conv) (fun fh sum =>
      for_ 0 (FilterSize conv) (fun fw sum =>
        let inH := wrap64 (wrap64 (wrap64 (outH * Stride conv) + fh)
                           - Padding conv) in
        let inW := wrap64 (wrap64 (wrap64 (outW * Stride conv) + fw)
                           - Padding conv) in
        if (0 <=? inH) && (inH <? Tensor3D.Height input)
           && (0 <=? inW) && (inW <? Tensor3D.Width input) then
          x ← Tensor3D.get (Tensor3D.Data input) c inH inW;
          w ← weight conv f c fh fw;
          Ok (sum + x * w)%float
        else Ok sum) sum) sum) sum.

Definition Forward (conv : t) (input : Tensor3D.t) : result Tensor3D.t :=
  if negb (Tensor3D.Channels input =? InChannels conv) then
    Err ("input channels mismatch: got " +:+ pretty (Tensor3D.Channels input)
           +:+ ", expected " +:+ pretty (InChannels conv))
  else
    outHeight ← out_size conv (Tensor3D.Height input);
    outWidth ← out_size conv (Tensor3D.Width input);
    output ← Tensor3D.NewTensor3D (NumFilters conv) outHeight outWidth;
    data ← for_ 0 (NumFilters conv) (fun f data =>
              for_ 0 outHeight (fun outH data =>
                for_ 0 outWidth (fun outW data =>
                  sum ← cell conv input f outH outW;
                  Tensor3D.set data f outH outW sum) data) data)
              (Tensor3D.Data output);
    Ok (Tensor3D.mk (Tensor3D.Channels output) (Tensor3D.Height output)
          (Tensor3D.Width output) data).

End ConvLayer.

Module MaxPool2D.

Record t := mk { PoolSize : Z; Stride : Z }.

Definition NewMaxPool2D (poolSize stride : Z) : t := mk poolSize stride.

(** [(size - PoolSize)/Stride + 1] on [int]. *)
Definition out_size (pool : t) (size : Z) : result Z :=
  q ← int_div (wrap64 (size - PoolSize pool)) (Stride pool);
  Ok (wrap64 (q + 1)).

(** The two inner loops: the maximum for output cell [(c, outH, outW)]. *)
Definition cell (pool : t) (input : Tensor3D.t) (c outH outW : Z)
  : result float :=
  maxVal ← Tensor3D.get (Tensor3D.Data input) c
              (wrap64 (outH * Stride pool)) (wrap64 (outW * Stride pool));
  for_ 0 (PoolSize pool) (fun ph maxVal =>
    for_ 0 (PoolSize pool) (fun pw maxVal =>
      let inH := wrap64 (wrap64 (outH * Stride pool) + ph) in
      let inW := wrap64 (wrap64 (outW * Stride pool) + pw) in
      x ← Tensor3D.get (Tensor3D.Data input) c inH inW;
      if (maxVal <? x)%float then
        Tensor3D.get (Tensor3D.Data input) c inH inW
      else Ok maxVal) maxVal) maxVal.

(** [Forward] returns only a tensor; it can only panic. *)
Definition Forward (pool : t) (input : Tensor3D.t) : result Tensor3D.t :=
  outHeight ← out_size pool (Tensor3D.Height input);
  outWidth ← out_size pool (Tensor3D.Width input);
  output ← Tensor3D.NewTensor3D (Tensor3D.Channels input) outHeight outWidth;
  data ← for_ 0 (Tensor3D.Channels input) (fun c data =>
            for_ 0 outHeight (fun outH data =>
              for_ 0 outWidth (fun outW data =>
                maxVal ← cell pool input c outH outW;
                Tensor3D.set data c outH outW maxVal) data) data)
            (Tensor3D.Data output);
  Ok (Tensor3D.mk (Tensor3D.Channels output) (Tensor3D.Height output)
        (Tensor3D.Width output) data).

End MaxPool2D.

(** ** The constructors that draw random numbers
    (src/layers.go, src/unnamed/part_001) *)

(** The functions of Go's [math/rand] package the program calls.  They
    draw from one source, whose state is a [Source]. *)
Class GoRand := {
  Source : Type;
  Float64 : Source -> float * Source;
  NormFloat64 : Source -> float * Source
}.

Section Random.
Context `{GoMath} `{GoRand}.

Definition RandomMatrix (rows cols : Z) (src : Source)
  : result (Matrix.t * Source) :=
  m ← Matrix.NewMatrix rows cols;
  '(data, src) ← for_ 0 rows (fun i st =>
      for_ 0 cols (fun j '(data, src) =>
        let '(x, src) := Float64 src in
        data ← Matrix.set data i j (x * 2 - 1)%float;
        Ok (data, src)) st) (Matrix.Data m, src);
  Ok (Matrix.mk (Matrix.Rows m) (Matrix.Cols m) data, src).

Definition NewDense (inputSize outputSize : Z) (src : Source)
  : result (Dense.t * Source) :=
  weights ← Matrix.NewMatrix inputSize outputSize;
  let scale := Sqrt (2 / float64_of_int inputSize)%float in
  '(data, src) ← for_ 0 inputSize (fun i st =>
      for_ 0 outputSize (fun j '(data, src) =>
        let '(x, src) := NormFloat64 src in
        data ← Matrix.set data i j (x * scale)%float;
        Ok (data, src)) st) (Matrix.Data weights, src);
  bias ← Matrix.NewMatrix 1 outputSize;
  weightsGrad ← Matrix.NewMatrix inputSize outputSize;
  biasGrad ← Matrix.NewMatrix 1 outputSize;
  Ok (Dense.mk inputSize outputSize
        (Matrix.mk (Matrix.Rows weights) (Matrix.Cols weights) data)
        bias None weightsGrad biasGrad,
      src).

End Random.

(** ** Shapes, for the statements *)

(** A [[][]float64] of [r] rows with [c] elements each. *)
Definition shaped (d : list (list float)) (r c : Z) : Prop :=
  Z.of_nat (length d) = r /\ Forall (fun row => Z.of_nat (length row) = c) d.

(** The state of an [r] x [c] buffer [d] while two nested loops write it in
    row-major order: the first [k] cells hold their final value [v], the
    others still what they held in [d0]. *)
Definition filled (r c : Z) (v : Z -> Z -> float) (d0 : list (list float))
    (k : Z) (d : list (list float)) : Prop :=
  shaped d r c /\
  forall i j, 0 <= i < r -> 0 <= j < c ->
    Matrix.get d i j =
      if i * c + j <? k then Ok (v i j) else Matrix.get d0 i j.

(** A call that returned a non-nil [error]. *)
Definition failed {A} (r : result A) : Prop := exists msg, r = Err msg.

(** Equality of two [float64] values as the program can observe it: the
    same value, or equal under [==] (which does not tell [-0] from [+0]).
    A NaN is the same value as a NaN. *)
Definition feq (x y : float) : Prop := x = y \/ (x =? y)%float = true.

(** A matrix of the given shape. *)
Definition has_shape (m : Matrix.t) (r c : Z) : bool :=
  Matrix.wf m && (Matrix.Rows m =? r) && (Matrix.Cols m =? c).

(** The state [NewDense] establishes and [Forward] and [Backward] keep: the
    parameters and their gradient buffers have the layer's sizes, and a
    cached input has [InputSize] columns. *)
Definition Dense_wf (d : Dense.t) : bool :=
  (0 <=? Dense.InputSize d) && (0 <=? Dense.OutputSize d)
  && has_shape (Dense.Weights d) (Dense.InputSize d) (Dense.OutputSize d)
  && has_shape (Dense.Bias d) 1 (Dense.OutputSize d)
  && has_shape (Dense.weightsGrad d) (Dense.InputSize d) (Dense.OutputSize d)
  && has_shape (Dense.biasGrad d) 1 (Dense.OutputSize d)
  && match Dense.lastInput d with
     | Some x => Matrix.wf x && (Matrix.Cols x =? Dense.InputSize d)
     | None => true
     end.

(** The same on the specification of a value, and the zeros. *)
Definition sfeq (a b : spec_float) : Prop := a = b \/ SFeqb a b = true.

Definition sf_is_zero (a : spec_float) : Prop := exists s, a = S754_zero s.

(** The accumulator an optimizer holds for an identifier, if any, has the
    shape of the parameter: the invariant of an identifier that always
    names the same parameter. *)
Definition fits (acc : gmap string Matrix.t) (paramName : string)
    (params : Matrix.t) : bool :=
  match acc !! paramName with
  | Some a => has_shape a (Matrix.Rows params) (Matrix.Cols params)
  | None => true
  end.

(** The value the accumulator has at a cell before an update: what is
    stored, or the zero it is lazily initialised to. *)
Definition prior (acc : gmap string Matrix.t) (paramName : string)
    (i j : Z) : float :=
  match acc !! paramName with
  | Some a => Matrix.entry a i j
  | None => 0%float
  end.

(** A call that did not return an error: it returned normally or
    panicked. *)
Definition no_err {A} (r : result A) : Prop := forall msg, r <> Err msg.

(** The parameter matrices of all the layers of a model. *)
Definition all_params (layers : list Layer.t) : list (list Matrix.t) :=
  Layer.GetParams <$> layers.

(** The state after [Forward] and after [Backward]: only the layers have
    changed, and not their parameters. *)
Definition same_but_caches (s s' : Sequential.t) : Prop :=
  all_params (Sequential.Layers s') = all_params (Sequential.Layers s)
  /\ Sequential.Loss s' = Sequential.Loss s
  /\ Sequential.Optimizer s' = Sequential.Optimizer s
  /\ Sequential.updateCalls s' = Sequential.updateCalls s.

(** A [[][][]float64] of [n] planes of [r] rows with [c] elements each. *)
Definition shaped3 (d : list (list (list float))) (n r c : Z) : Prop :=
  Z.of_nat (length d) = n /\ Forall (fun plane => shaped plane r c) d.

(** Entries of a tensor, of a filter bank and of a bias vector for use in
    statements; [0] outside. *)
Definition tensor_at (x : Tensor3D.t) (c h w : Z) : float :=
  match Tensor3D.get (Tensor3D.Data x) c h w with
  | Ok v => v
  | _ => 0%float
  end.

Definition weight_at (conv : ConvLayer.t) (f c fh fw : Z) : float :=
  match ConvLayer.weight conv f c fh fw with
  | Ok v => v
  | _ => 0%float
  end.

Definition bias_at (conv : ConvLayer.t) (f : Z) : float :=
  match index (ConvLayer.Bias conv) f with
  | Ok v => v
  | _ => 0%float
  end.

(** The value of output cell [(f, outH, outW)] of a convolution: the bias
    of filter [f], to which the products of the receptive window with the
    filter are added channel by channel, row by row, left to right; a
    position of the window outside the input adds nothing.  The indices
    are exact integers here. *)
Definition conv_sum (conv : ConvLayer.t) (input : Tensor3D.t)
    (f outH outW : Z) : float :=
  foldl (fun sum c =>
    foldl (fun sum fh =>
      foldl (fun sum fw =>
        let inH := outH * ConvLayer.Stride conv + fh - ConvLayer.Padding conv in
        let inW := outW * ConvLayer.Stride conv + fw - ConvLayer.Padding conv in
        if (0 <=? inH) && (inH <? Tensor3D.Height input)
           && (0 <=? inW) && (inW <? Tensor3D.Width input) then
          (sum + tensor_at input c inH inW * weight_at conv f c fh fw)%float
        else sum)
        sum (upto (ConvLayer.FilterSize conv)))
      sum (upto (ConvLayer.FilterSize conv)))
    (bias_at conv f) (upto (ConvLayer.InChannels conv)).

(** The configurations on which the size formula of a convolution is the
    textbook one: a positive stride, a filter no larger than the padded
    input, and sizes that 64-bit arithmetic does not overflow on. *)
Definition conv_fits (conv : ConvLayer.t) (input : Tensor3D.t) : bool :=
  (1 <=? ConvLayer.Stride conv) && (ConvLayer.Stride conv <? 2 ^ 31)
  && (0 <=? ConvLayer.Padding conv) && (ConvLayer.Padding conv <? 2 ^ 31)
  && (Tensor3D.Height input <? 2 ^ 31) && (Tensor3D.Width input <? 2 ^ 31)
  && (ConvLayer.FilterSize conv
        <=? Tensor3D.Height input + 2 * ConvLayer.Padding conv)
  && (ConvLayer.FilterSize conv
        <=? Tensor3D.Width input + 2 * ConvLayer.Padding conv).

(** The moment matrices Adam holds for an identifier, if any, both have
    the shape of the parameter; [Update] allocates them together. *)
Definition adam_fits (adam : AdamOptimizer.t) (paramName : string)
    (params : Matrix.t) : bool :=
  match AdamOptimizer.M adam !! paramName, AdamOptimizer.V adam !! paramName with
  | Some m, Some v =>
      has_shape m (Matrix.Rows params) (Matrix.Cols params)
      && has_shape v (Matrix.Rows params) (Matrix.Cols params)
  | None, None => true
  | _, _ => false
  end.

Section AdamValue.
Context `{GoMath}.

(** One cell of an Adam update made with step counter [t]: the new moments
    from the old ones [m0], [v0] and the gradient [g], their bias-corrected
    estimates, and the new parameter value. *)
Definition adam_m (adam : AdamOptimizer.t) (m0 g : float) : float :=
  (AdamOptimizer.Beta1 adam * m0 + (1 - AdamOptimizer.Beta1 adam) * g)%float.

Definition adam_v (adam : AdamOptimizer.t) (v0 g : float) : float :=
  (AdamOptimizer.Beta2 adam * v0 + (1 - AdamOptimizer.Beta2 adam) * g * g)%float.

Definition bias_corrected (beta : float) (t : Z) (x : float) : float :=
  (x / (1 - Pow beta (float64_of_int t)))%float.

Definition adam_value (adam : AdamOptimizer.t) (t : Z)
    (m0 v0 p g : float) : float :=
  let mHat := bias_corrected (AdamOptimizer.Beta1 adam) t (adam_m adam m0 g) in
  let vHat := bias_corrected (AdamOptimizer.Beta2 adam) t (adam_v adam v0 g) in
  (p - AdamOptimizer.LearningRate adam * mHat
         / (Sqrt vHat + AdamOptimizer.Epsilon adam))%float.

End AdamValue.

(** The calls [Optimizer.Update(paramName, params[i], grads[i])] that
    [UpdateWeights] makes: for the layer at position [layerIdx], and for
    the layers from position [layerIdx] on, in the order they are made. *)
Definition layer_calls (layerIdx : Z) (layer : Layer.t)
  : list (string * Matrix.t * Matrix.t) :=
  (fun '(name, p, g) =>
     ("layer_" +:+ pretty layerIdx +:+ "_" +:+ name, p, g))
    <$> zip (zip (Layer.GetParamNames layer) (Layer.GetParams layer))
            (Layer.GetGrads layer).

Fixpoint update_calls (layerIdx : Z) (layers : list Layer.t)
  : list (string * Matrix.t * Matrix.t) :=
  match layers with
  | [] => []
  | layer :: rest =>
      layer_calls layerIdx layer ++ update_calls (layerIdx + 1) rest
  end.

Section Calls.
Context `{GoMath}.

(** The optimizer after a sequence of calls of [Update], and the Adam
    optimizers the calls of a sequence are made on, one after the other. *)
Definition optimizer_after (o : Optimizer.t)
    (calls : list (string * Matrix.t * Matrix.t)) : Optimizer.t :=
  foldl (fun o '(name, p, g) => (Optimizer.Update o name p g).1) o calls.

Fixpoint adam_before (adam : AdamOptimizer.t)
    (calls : list (string * Matrix.t * Matrix.t)) : list AdamOptimizer.t :=
  match calls with
  | [] => []
  | (name, p, g) :: rest =>
      adam :: adam_before (AdamOptimizer.Update adam name p g).1 rest
  end.

Definition adam_after (adam : AdamOptimizer.t)
    (calls : list (string * Matrix.t * Matrix.t)) : AdamOptimizer.t :=
  foldl (fun a '(name, p, g) => (AdamOptimizer.Update a name p g).1)
        adam calls.

End Calls.

(** The number of parameter matrices of a model. *)
Definition param_count (layers : list Layer.t) : Z :=
  Z.of_nat (length (concat (all_params layers))).

(** The values [Softmax] returns on an input: with [max] the running
    maximum of the input from its first element on, the [Exp (v - max)]
    divided by their sum, taken from [0.0] in the order of the input. *)
Definition softmax_values `{GoMath} (input : list float) : list float :=
  match input with
  | [] => []
  | v0 :: _ =>
      let max := foldl (fun m v => if (m <? v)%float then v else m) v0 input in
      let exps := (fun v => Exp (v - max)) <$> input in
      let sum := foldl (fun s e => (s + e)%float) 0%float exps in
      (fun e => (e / sum)%float) <$> exps
  end.

(** The sum of [f i j] over an [r] x [c] matrix in row-major order,
    starting from [0.0]: what two nested loops accumulate. *)
Definition fsum2 (r c : Z) (f : Z -> Z -> float) : float :=
  foldl (fun acc i => foldl (fun acc j => (acc + f i j)%float) acc (upto c))
        0%float (upto r).

(** The parameter [p'] that [UpdateWeights] leaves where [p] was, after
    its loops have copied the cells of [src] into it: the shape of [p], and
    in every cell of that shape what [src] holds there. *)
Definition copied (p src p' : Matrix.t) : Prop :=
  Matrix.Rows p' = Matrix.Rows p /\ Matrix.Cols p' = Matrix.Cols p
  /\ forall r c, 0 <= r < Matrix.Rows p -> 0 <= c < Matrix.Cols p ->
       exists x, Matrix.get (Matrix.Data src) r c = Ok x
                 /\ Matrix.get (Matrix.Data p') r c = Ok x.

(** The identifier [UpdateWeights] passes to the optimizer for the
    parameter called [name] of the layer at position [layerIdx]. *)
Definition param_name (layerIdx : Z) (name : string) : string :=
  "layer_" +:+ pretty layerIdx +:+ "_" +:+ name.

(** What [UpdateWeights] makes of the layer at position [layerIdx] when
    the optimizer is [o] on reaching it.  A dense layer has its weights
    updated under the identifier [layer_<layerIdx>_weights], and then, by
    the optimizer that call leaves, its bias under [layer_<layerIdx>_bias];
    nothing else in it changes.  A layer without parameters stays as it
    is. *)
Definition layer_updated `{GoMath} (o : Optimizer.t) (layerIdx : Z)
    (layer layer' : Layer.t) : Prop :=
  match layer with
  | Layer.OfDense d =>
      let nW := param_name layerIdx "weights" in
      let nB := param_name layerIdx "bias" in
      let o1 := (Optimizer.Update o nW (Dense.Weights d)
                   (Dense.weightsGrad d)).1 in
      exists d' uW uB,
        layer' = Layer.OfDense d'
        /\ (Optimizer.Update o nW (Dense.Weights d) (Dense.weightsGrad d)).2
           = Ok uW
        /\ (Optimizer.Update o1 nB (Dense.Bias d) (Dense.biasGrad d)).2
           = Ok uB
        /\ copied (Dense.Weights d) uW (Dense.Weights d')
        /\ copied (Dense.Bias d) uB (Dense.Bias d')
        /\ Dense.InputSize d' = Dense.InputSize d
        /\ Dense.OutputSize d' = Dense.OutputSize d
        /\ Dense.lastInput d' = Dense.lastInput d
        /\ Dense.weightsGrad d' = Dense.weightsGrad d
        /\ Dense.biasGrad d' = Dense.biasGrad d
  | _ => layer' = layer
  end.

(** The maximum [Softmax] subtracts: the running maximum of the input
    from its first element on. *)
Definition softmax_max (input : list float) : float :=
  match input with
  | [] => 0%float
  | v0 :: _ => foldl (fun m v => if (m <? v)%float then v else m) v0 input
  end.

(** The sum [Softmax] divides by: the [Exp (v - max)] of the input added up
    from [0.0] in the order of the input. *)
Definition softmax_sum `{GoMath} (input : list float) : float :=
  foldl (fun s e => (s + e)%float) 0%float
        ((fun v => Exp (v - softmax_max input)) <$> input).

(** The layers a model holds by pointer, position by position; [None] if
    a position holds a nil interface value. *)
Definition layers_of (s : ByPointer.t) : option (list Layer.t) :=
  mapM (ByPointer.Objects s !!.) (ByPointer.Layers s).

(** The model with a layer value for each position. *)
Definition by_value (s : ByPointer.t) (layers : list Layer.t) : Sequential.t :=
  Sequential.mk layers (ByPointer.Loss s) (ByPointer.Optimizer s)
    (ByPointer.updateCalls s).

(** The heap after the objects at [addresses] have become [layers]. *)
Fixpoint stored (addresses : list nat) (layers : list Layer.t)
    (objects : gmap nat Layer.t) : gmap nat Layer.t :=
  match addresses, layers with
  | a :: addresses, layer :: layers =>
      stored addresses layers (<[a := layer]> objects)
  | _, _ => objects
  end.

(** The running maximum the code keeps: [x] replaces [m] when [x > m]. *)
Definition max_step (m x : float) : float := if (m <? x)%float then x else m.

(** The entries of the input that output cell [(c, outH, outW)] of a
    pooling covers, row by row, and the value the two loops leave in
    [maxVal]: the running maximum over them, from the entry at the corner
    of the window on.  The indices are exact integers here. *)
Definition pool_window (pool : MaxPool2D.t) (input : Tensor3D.t)
    (c outH outW : Z) : list float :=
  concat ((fun ph =>
             (fun pw =>
                tensor_at input c (outH * MaxPool2D.Stride pool + ph)
                                  (outW * MaxPool2D.Stride pool + pw))
               <$> upto (MaxPool2D.PoolSize pool))
            <$> upto (MaxPool2D.PoolSize pool)).

Definition pool_max (pool : MaxPool2D.t) (input : Tensor3D.t)
    (c outH outW : Z) : float :=
  foldl max_step
        (tensor_at input c (outH * MaxPool2D.Stride pool)
                           (outW * MaxPool2D.Stride pool))
        (pool_window pool input c outH outW).

(** The configurations on which a pooling reads inside its input: a
    positive stride, a window of at least one cell and no larger than the
    input, and sizes that 64-bit arithmetic does not overflow on. *)
Definition pool_fits (pool : MaxPool2D.t) (input : Tensor3D.t) : bool :=
  (1 <=? MaxPool2D.Stride pool) && (MaxPool2D.Stride pool <? 2 ^ 31)
  && (1 <=? MaxPool2D.PoolSize pool)
  && (MaxPool2D.PoolSize pool <=? Tensor3D.Height input)
  && (MaxPool2D.PoolSize pool <=? Tensor3D.Width input)
  && (Tensor3D.Height input <? 2 ^ 31) && (Tensor3D.Width input <? 2 ^ 31).

Section Draws.
Context `{GoRand}.

(** The random source after [n] calls of [draw], and the number that call
    number [k] (from 0) returns. *)
Fixpoint source_after (draw : Source -> float * Source) (n : nat)
    (src : Source) : Source :=
  match n with
  | O => src
  | S n => source_after draw n (draw src).2
  end.

Definition drawn (draw : Source -> float * Source) (k : nat) (src : Source)
  : float :=
  (draw (source_after draw k src)).1.

End Draws.

(** The [rows] x [cols] matrix of zeros. *)
Definition zeros (rows cols : Z) : Matrix.t :=
  Matrix.mk rows cols
    (replicate (Z.to_nat rows) (replicate (Z.to_nat cols) 0%float)).

(** ** The real numbers behind [float64]

    The statements about rounding are about real numbers: the value of a
    finite [float64], and what an operation does to the values of its
    arguments. *)

Section RealValues.
Import Reals.
Local Open Scope R_scope.

Definition pow2 (e : Z) : R := powerRZ 2 e.

(** The real number a [float64] stands for; [0] for the infinities and
    the NaN, which are kept apart by [sf_finite]. *)
Definition SF2R (x : spec_float) : R :=
  match x with
  | S754_finite s m e => IZR (cond_Zopp s (Z.pos m)) * pow2 e
  | _ => 0
  end.

Definition value (x : float) : R := SF2R (Prim2SF x).

(** The sum of the values of a list, as a real number. *)
Definition real_sum (l : list float) : R :=
  foldr (fun x s => value x + s) 0 l.

(** The position of a real [t] against the mantissa of a shift record:
    between the mantissa and the next integer, with the round bit telling
    whether it is at least half way and the sticky bit whether it is
    neither the mantissa nor the half. *)
Definition located (mrs : shr_record) (t : R) : Prop :=
  IZR (shr_m mrs) <= t < IZR (shr_m mrs) + 1
  /\ (shr_r mrs = true <-> IZR (shr_m mrs) + / 2 <= t)
  /\ (shr_s mrs = true <-> t <> IZR (shr_m mrs) /\ t <> IZR (shr_m mrs) + / 2).

(** The number of sign [s] that a mantissa [m] of at most [2^53] at the
    exponent [E] stands for. *)
Definition packed (s : bool) (m E : Z) : spec_float :=
  if (m =? 0)%Z then S754_zero s
  else if (m <? 2 ^ 53)%Z then
    (if (E <=? FloatOps.emax - FloatOps.prec)%Z
     then S754_finite s (Z.to_pos m) E
     else S754_infinity s)
  else
    (if (E + 1 <=? FloatOps.emax - FloatOps.prec)%Z
     then S754_finite s (Z.to_pos (2 ^ 52)) (E + 1)
     else S754_infinity s).

(** [z] is a rounding to nearest, with the sign [s], of the real [X], which
    is not negative: a multiple [m * 2^E] of the unit of the format at the
    magnitude of [X], at most half a unit away. *)
Definition rounds (X : R) (s : bool) (z : spec_float) : Prop :=
  exists E m : Z,
    (-1074 <= E)%Z /\ (0 <= m <= 2 ^ 53)%Z /\ 0 <= X
    /\ IZR m - / 2 <= X / pow2 E <= IZR m + / 2
    /\ (E = (-1074)%Z \/ pow2 (E + 52) <= X)
    /\ X < pow2 (E + 53)
    /\ z = packed s m E.

End RealValues.

Definition sf_finite (x : spec_float) : bool :=
  match x with
  | S754_nan | S754_infinity _ => false
  | _ => true
  end.

(** Zero or a positive finite number; zero, a negative finite number or
    minus infinity. *)
Definition sf_nonneg (x : spec_float) : bool :=
  match x with
  | S754_zero _ | S754_finite false _ _ => true
  | _ => false
  end.

Definition sf_nonpos (x : spec_float) : bool :=
  match x with
  | S754_zero _ | S754_finite true _ _ | S754_infinity true => true
  | _ => false
  end.

(** ** Inputs of the examples *)

(** An implementation of [GoMath] to run the examples with.  [Sqrt] is the
    IEEE square root, as Go's is.  The other functions are arbitrary: the
    statements hold for every implementation of the interface, and what
    the examples state does not depend on the values these return. *)
Definition example_math : GoMath := {|
  Exp := fun x => x;
  Log := fun x => x;
  Pow := fun x _ => x;
  Sqrt := PrimFloat.sqrt;
  Max := fun x y => if (x <? y)%float then y else x;
  Min := fun x y => if (y <? x)%float then y else x
|}.

(** An implementation of [GoMath] whose [Exp] has the two values of
    [math.Exp] that the softmax of [[0.1, 0.2]] needs: [Exp(0) = 1] and
    [Exp(-0.1) = 0.9048374180359595], the [float64] nearest to [e^-0.1].
    Elsewhere it is [0]; no example reads it there for its value. *)
Definition exp_math : GoMath := {|
  Exp := fun x =>
    if (x =? 0)%float then 1%float
    else if (x =? -0x1.999999999999ap-4)%float then 0x1.cf46d99d52b3ap-1%float
    else 0%float;
  Log := fun x => x;
  Pow := fun x _ => x;
  Sqrt := PrimFloat.sqrt;
  Max := fun x y => if (x <? y)%float then y else x;
  Min := fun x y => if (y <? x)%float then y else x
|}.

(** The rows [i, end) of a matrix, as a matrix. *)
Definition rows_of (m : Matrix.t) (i end_ : Z) : Matrix.t :=
  Matrix.mk (end_ - i) (Matrix.Cols m)
    (take (Z.to_nat (end_ - i)) (drop (Z.to_nat i) (Matrix.Data m))).

(** The batches of an epoch of [Fit] with a positive [batchSize]: the rows
    [k * batchSize, (k + 1) * batchSize) of [X] and of [y] for
    [k = 0, 1, ...], the last batch ending with the rows of [X]. *)
Definition epoch_batches (X y : Matrix.t) (batchSize : Z)
  : list (Matrix.t * Matrix.t) :=
  (fun k =>
     let i := k * batchSize in
     let end_ := Z.min (i + batchSize) (Matrix.Rows X) in
     (rows_of X i end_, rows_of y i end_))
    <$> upto ((Matrix.Rows X + batchSize - 1) `div` batchSize).

Section FitOnBatches.
Context `{GoMath}.

(** [TrainOnBatch] on the batches of a list, one after the other, up to
    the first that fails; the losses are added up and the batches
    counted. *)
Fixpoint train_on (batches : list (Matrix.t * Matrix.t)) (s : Sequential.t)
    (totalLoss : float) (numBatches : Z)
  : Sequential.t * result (float * Z) :=
  match batches with
  | [] => (s, Ok (totalLoss, numBatches))
  | (batchX, batchY) :: rest =>
      let '(s, r) := Sequential.TrainOnBatch s batchX batchY in
      match r with
      | Ok loss => train_on rest s (totalLoss + loss)%float (numBatches + 1)
      | Err msg => (s, Err msg)
      | Panic => (s, Panic)
      end
  end.

(** [n] epochs on the batches of a list, from epoch number [epoch] on, up
    to the first batch that fails; after each epoch the average loss is
    printed if [verbose]. *)
Fixpoint fit_on (batches : list (Matrix.t * Matrix.t)) (epochs : Z)
    (verbose : bool) (n : nat) (epoch : Z) (s : Sequential.t)
    (out : list (Z * Z * float))
  : Sequential.t * list (Z * Z * float) * result unit :=
  match n with
  | O => (s, out, Ok ())
  | S n =>
      let '(s, r) := train_on batches s 0%float 0 in
      match r with
      | Ok (totalLoss, numBatches) =>
          let avgLoss := (totalLoss / float64_of_int numBatches)%float in
          let out :=
            if verbose then out ++ [(epoch + 1, epochs, avgLoss)] else out in
          fit_on batches epochs verbose n (epoch + 1) s out
      | Err msg => (s, out, Err msg)
      | Panic => (s, out, Panic)
      end
  end.

End FitOnBatches.

(** A random source to run the examples with: a counter, with [Float64]
    returning [0.0] and [0.5] in turn and [NormFloat64] the count. *)
Definition example_rand : GoRand := {|
  Source := Z;
  Float64 := fun n => (if Z.even n then 0%float else 0.5%float, n + 1);
  NormFloat64 := fun n => (float64_of_int n, n + 1)
|}.

Module Examples.

(** [[1 2] [3 4]], [[5] [6]] and [[1] [1]]. *)
Definition A22 : Matrix.t := Matrix.mk 2 2 [[1; 2]; [3; 4]]%float.
Definition B21 : Matrix.t := Matrix.mk 2 1 [[5]; [6]]%float.
Definition ones21 : Matrix.t := Matrix.mk 2 1 [[1]; [1]]%float.

(** The inputs of the examples of the specification: [[2]], [[0]], [[1]]
    and [[0.5]]; [0.1] and [0.95] are the nearest [float64]. *)
Definition two11 : Matrix.t := Matrix.mk 1 1 [[2%float]].
Definition zero11 : Matrix.t := Matrix.mk 1 1 [[0%float]].
Definition one11 : Matrix.t := Matrix.mk 1 1 [[1%float]].
Definition half11 : Matrix.t := Matrix.mk 1 1 [[0.5%float]].
Definition tenth : float := 0x1.999999999999ap-4%float.
Definition ninety_five_hundredths : float := 0x1.e666666666666p-1%float.

(** A dense layer 2 -> 1 that has seen the two samples of [A22]. *)
Definition dense21 : Dense.t :=
  Dense.mk 2 1 (Matrix.mk 2 1 [[1]; [1]]%float) zero11 (Some A22)
    (Matrix.mk 2 1 [[0]; [0]]%float) zero11.

(** A dense layer 1 -> 1 with weight [3] that has seen the one sample
    [[1]], and an upstream gradient of two rows. *)
Definition dense11 : Dense.t :=
  Dense.mk 1 1 (Matrix.mk 1 1 [[3%float]]) zero11 (Some one11) zero11 zero11.

(** A model of one dense layer 2 -> 1 trained with MSE, by SGD and by
    Adam. *)
Definition model_sgd : Sequential.t :=
  Sequential.mk [Layer.OfDense dense21] (Some (Loss.OfMSE MSE.mk))
    (Some (Optimizer.OfSGD (SGD.NewSGD tenth 0))) [].

Definition model_adam : Sequential.t :=
  Sequential.mk [Layer.OfDense dense21] (Some (Loss.OfMSE MSE.mk))
    (Some (Optimizer.OfAdam (AdamOptimizer.NewAdamOptimizer tenth))) [].

(** An SGD optimizer that has updated a 1 x 1 parameter under ["w"]. *)
Definition sgd_used : SGD.t :=
  (SGD.Update (SGD.NewSGD tenth 0) "w" one11 half11).1.

(** A dense layer 1 -> 1 with weight [2], bias [1] and the gradients [4]
    and [8]; a model that holds it at the two addresses 0 and 1, and a
    model that holds the one object at address 0 twice, both with SGD of
    learning rate [0.5] without momentum. *)
Definition dense_graded : Dense.t :=
  Dense.mk 1 1 two11 one11 None (Matrix.mk 1 1 [[4%float]])
    (Matrix.mk 1 1 [[8%float]]).

Definition model_two : ByPointer.t :=
  ByPointer.mk [0%nat; 1%nat]
    {[ 0%nat := Layer.OfDense dense_graded;
       1%nat := Layer.OfDense dense_graded ]}
    None (Some (Optimizer.OfSGD (SGD.NewSGD 0.5 0))) [].

Definition model_twice : ByPointer.t :=
  ByPointer.mk [0%nat; 0%nat] {[ 0%nat := Layer.OfDense dense_graded ]}
    None (Some (Optimizer.OfSGD (SGD.NewSGD 0.5 0))) [].

(** A batch of one sample with three features, which [dense21] refuses. *)
Definition wide13 : Matrix.t := Matrix.mk 1 3 [[1; 2; 3]]%float.

(** One 3 x 3 filter of ones with stride 2 and no padding, and a 2 x 2
    input of one channel. *)
Definition conv3 : ConvLayer.t :=
  ConvLayer.mk 1 3 2 0 1 [[[[1; 1; 1]; [1; 1; 1]; [1; 1; 1]]]]%float
    [0.5%float].
Definition input22 : Tensor3D.t :=
  Tensor3D.mk 1 2 2 [[[1; 2]; [3; 4]]]%float.

(** One 2 x 2 filter of ones with bias [b], stride 1 and no padding, and a
    4 x 4 input of one channel with the entries [a i j]. *)
Definition conv_ones (b : float) : ConvLayer.t :=
  ConvLayer.mk 1 2 1 0 1 [[[[1; 1]; [1; 1]]]]%float [b].
Definition input44 (a : Z -> Z -> float) : Tensor3D.t :=
  Tensor3D.mk 1 4 4
    [[[a 0 0; a 0 1; a 0 2; a 0 3];
      [a 1 0; a 1 1; a 1 2; a 1 3];
      [a 2 0; a 2 1; a 2 2; a 2 3];
      [a 3 0; a 3 1; a 3 2; a 3 3]]].

(** The sum of the 2 x 2 window at [(i, j)] plus the bias, in the order the
    loops add it up. *)
Definition window_sum (a : Z -> Z -> float) (b : float) (i j : Z) : float :=
  (b + a i j + a i (j + 1)%Z + a (i + 1)%Z j + a (i + 1)%Z (j + 1)%Z)%float.

End Examples.

(** * Properties *)

(** ** The run-time notions *)

Lemma bind_Ok {A B} (a : A) (k : A -> result B) : (x ← Ok a; k x) = k a.
Proof. reflexivity. Qed.

Lemma bind_eq_Ok {A B} (r : result A) (k : A -> result B) (b : B) :
  (x ← r; k x) = Ok b -> exists a, r = Ok a /\ k a = Ok b.
Proof. destruct r; try discriminate. intros E. exists a. auto. Qed.

Lemma index_lookup {A} (s : list A) (i : Z) (x : A) :
  0 <= i -> s !! Z.to_nat i = Some x -> index s i = Ok x.
Proof.
  intros Hi E. unfold index.
  destruct (Z.ltb_spec i 0); [lia|]. now rewrite E.
Qed.

Lemma index_Ok_inv {A} (s : list A) (i : Z) (x : A) :
  index s i = Ok x -> 0 <= i < Z.of_nat (length s) /\ s !! Z.to_nat i = Some x.
Proof.
  unfold index. destruct (Z.ltb_spec i 0); [discriminate|].
  destruct (s !! Z.to_nat i) eqn:E; [|discriminate].
  intros [= ->]. split; [|reflexivity].
  apply lookup_lt_Some in E. lia.
Qed.

Lemma index_in_range {A} (s : list A) (i : Z) :
  0 <= i < Z.of_nat (length s) -> exists x, index s i = Ok x.
Proof.
  intros Hi. destruct (lookup_lt_is_Some_2 s (Z.to_nat i)) as [x E]; [lia|].
  exists x. apply index_lookup; [lia|done].
Qed.

Lemma assign_in_range {A} (s : list A) (i : Z) (x : A) :
  0 <= i < Z.of_nat (length s) -> assign s i x = Ok (<[Z.to_nat i := x]> s).
Proof.
  intros Hi. unfold assign.
  destruct (Z.ltb_spec i 0); [lia|].
  destruct (Z.leb_spec (Z.of_nat (length s)) i); [lia|]. reflexivity.
Qed.

Lemma make_Ok {A} (zero : A) (n : Z) :
  0 <= n -> make zero n = Ok (replicate (Z.to_nat n) zero).
Proof. intros Hn. unfold make. destruct (Z.ltb_spec n 0); [lia|done]. Qed.

(** A loop whose body keeps an invariant runs to its end and establishes
    it there. *)
Lemma loop_inv {St} (I : Z -> St -> Prop) (body : Z -> St -> result St) n :
  forall i s,
  I i s ->
  (forall k s, i <= k < i + Z.of_nat n -> I k s ->
     exists s', body k s = Ok s' /\ I (k + 1) s') ->
  exists s', loop n i body s = Ok s' /\ I (i + Z.of_nat n) s'.
Proof.
  induction n as [|n IH]; intros i s Hs Hbody; simpl.
  - exists s. rewrite Z.add_0_r. auto.
  - destruct (Hbody i s) as (s1 & E1 & H1); [lia|done|].
    rewrite E1. simpl.
    destruct (IH (i + 1) s1) as (s2 & E2 & H2); [done| |].
    + intros k s' Hk. apply Hbody. lia.
    + exists s2. split; [done|].
      replace (i + Z.of_nat (S n)) with (i + 1 + Z.of_nat n) by lia. done.
Qed.

Lemma for_inv {St} (I : Z -> St -> Prop) (body : Z -> St -> result St) lo hi s :
  lo <= hi ->
  I lo s ->
  (forall k s, lo <= k < hi -> I k s ->
     exists s', body k s = Ok s' /\ I (k + 1) s') ->
  exists s', for_ lo hi body s = Ok s' /\ I hi s'.
Proof.
  intros Hle Hs Hbody. unfold for_.
  destruct (loop_inv I body (Z.to_nat (hi - lo)) lo s) as (s' & E & H');
    [done| |].
  - intros k s0 Hk. apply Hbody. lia.
  - exists s'. split; [done|].
    replace hi with (lo + Z.of_nat (Z.to_nat (hi - lo))) at 1 by lia. done.
Qed.

(** Two nested loops over the cells of an [r] x [c] grid, the invariant
    indexed by the number of cells already visited in row-major order. *)
Lemma for2_inv {St} (I : Z -> St -> Prop) (body : Z -> Z -> St -> result St)
    r c s :
  0 <= r -> 0 <= c ->
  I 0 s ->
  (forall i j s, 0 <= i < r -> 0 <= j < c -> I (i * c + j) s ->
     exists s', body i j s = Ok s' /\ I (i * c + j + 1) s') ->
  exists s', for_ 0 r (fun i s => for_ 0 c (body i) s) s = Ok s'
             /\ I (r * c) s'.
Proof.
  intros Hr Hc Hs Hbody.
  apply (for_inv (fun i s => I (i * c) s)); [done|done|].
  intros i s1 Hi H1.
  destruct (for_inv (fun j s => I (i * c + j) s) (body i) 0 c s1)
    as (s2 & E2 & H2).
  - done.
  - now rewrite Z.add_0_r.
  - intros j s2 Hj H2. rewrite Z.add_assoc. now apply Hbody.
  - exists s2. split; [done|].
    replace ((i + 1) * c) with (i * c + c) by lia. done.
Qed.

(** A loop that only accumulates is a left fold over its indices. *)
Lemma upto_succ n : 0 <= n -> upto (n + 1) = upto n ++ [n].
Proof.
  intros Hn. unfold upto.
  replace (Z.to_nat (n + 1)) with (S (Z.to_nat n)) by lia.
  rewrite seq_S, fmap_app. simpl. do 2 f_equal. lia.
Qed.

Lemma for_fold {St} (step : St -> Z -> St) (body : Z -> St -> result St) n s :
  0 <= n ->
  (forall k s, 0 <= k < n -> body k s = Ok (step s k)) ->
  for_ 0 n body s = Ok (foldl step s (upto n)).
Proof.
  intros Hn Hbody.
  destruct (for_inv (fun k s' => s' = foldl step s (upto k)) body 0 n s)
    as (s' & E & ->); [done|done| |done].
  intros k s1 Hk ->. exists (step (foldl step s (upto k)) k).
  split; [auto|]. rewrite upto_succ by lia. now rewrite foldl_app.
Qed.

Lemma range_from_inv {A St} (I : Z -> St -> Prop)
    (body : Z -> A -> St -> result St) xs :
  forall i s,
  I i s ->
  (forall k x s, i <= k < i + Z.of_nat (length xs) -> I k s ->
     exists s', body k x s = Ok s' /\ I (k + 1) s') ->
  exists s', range_from i xs body s = Ok s'
             /\ I (i + Z.of_nat (length xs)) s'.
Proof.
  induction xs as [|x xs IH]; intros i s Hs Hbody; simpl.
  - exists s. rewrite Z.add_0_r. auto.
  - destruct (Hbody i x s) as (s1 & E1 & H1); [simpl; lia|done|].
    rewrite E1. simpl.
    destruct (IH (i + 1) s1) as (s2 & E2 & H2); [done| |].
    + intros k y s' Hk. apply Hbody. simpl. lia.
    + exists s2. split; [done|].
      replace (i + Z.of_nat (S (length xs)))
        with (i + 1 + Z.of_nat (length xs)) by lia. done.
Qed.

(** ** Matrices *)

Lemma wf_shaped (m : Matrix.t) :
  Matrix.wf m = true <->
  0 <= Matrix.Rows m /\ 0 <= Matrix.Cols m
  /\ shaped (Matrix.Data m) (Matrix.Rows m) (Matrix.Cols m).
Proof.
  unfold Matrix.wf, shaped.
  rewrite !andb_true_iff, !Z.leb_le, Z.eqb_eq, forallb_forall, Forall_forall.
  setoid_rewrite Z.eqb_eq. setoid_rewrite <- list_elem_of_In. tauto.
Qed.

Lemma shaped_row d r c i row :
  shaped d r c -> d !! i = Some row -> Z.of_nat (length row) = c.
Proof.
  intros [_ H] E. rewrite Forall_lookup in H. eauto.
Qed.

Lemma get_in_range d r c i j :
  shaped d r c -> 0 <= i < r -> 0 <= j < c -> exists x, Matrix.get d i j = Ok x.
Proof.
  intros Hd Hi Hj. unfold Matrix.get.
  destruct (index_in_range d i) as [row E]; [destruct Hd; lia|].
  rewrite E. simpl.
  apply index_Ok_inv in E as [_ E].
  apply index_in_range. rewrite (shaped_row _ _ _ _ _ Hd E). done.
Qed.

Lemma get_Ok_range d r c i j x :
  shaped d r c -> Matrix.get d i j = Ok x -> 0 <= i < r /\ 0 <= j < c.
Proof.
  intros Hd E. unfold Matrix.get in E.
  apply bind_eq_Ok in E as (row & E1 & E2).
  apply index_Ok_inv in E1 as [Hi E1]. apply index_Ok_inv in E2 as [Hj _].
  rewrite (shaped_row _ _ _ _ _ Hd E1) in Hj. destruct Hd. lia.
Qed.

Lemma entry_get m i j x :
  Matrix.get (Matrix.Data m) i j = Ok x -> Matrix.entry m i j = x.
Proof. unfold Matrix.entry. now intros ->. Qed.

Lemma get_entry m i j :
  Matrix.wf m = true -> 0 <= i < Matrix.Rows m -> 0 <= j < Matrix.Cols m ->
  Matrix.get (Matrix.Data m) i j = Ok (Matrix.entry m i j).
Proof.
  intros Hm Hi Hj. apply wf_shaped in Hm as (_ & _ & Hd).
  destruct (get_in_range _ _ _ i j Hd Hi Hj) as [x E].
  now rewrite (entry_get _ _ _ _ E).
Qed.

(** Writing one cell: the shape stays, the cell reads back, the others are
    untouched. *)
Lemma set_spec d r c i j x :
  shaped d r c -> 0 <= i < r -> 0 <= j < c ->
  exists d', Matrix.set d i j x = Ok d' /\ shaped d' r c
    /\ Matrix.get d' i j = Ok x
    /\ forall i' j', (i', j') <> (i, j) ->
         Matrix.get d' i' j' = Matrix.get d i' j'.
Proof.
  intros Hd Hi Hj. unfold Matrix.set.
  destruct (index_in_range d i) as [row E]; [destruct Hd; lia|].
  rewrite E. simpl.
  apply index_Ok_inv in E as [_ E].
  pose proof (shaped_row _ _ _ _ _ Hd E) as Hrow.
  rewrite assign_in_range by lia. simpl.
  rewrite assign_in_range by (destruct Hd; lia).
  eexists. split; [reflexivity|].
  assert (Hlt : (Z.to_nat i < length d)%nat) by (destruct Hd; lia).
  assert (Hlt' : (Z.to_nat j < length row)%nat) by lia.
  split; [|split].
  - destruct Hd as [Hlen Hall]. split.
    + now rewrite length_insert.
    + apply Forall_insert; [done|]. now rewrite length_insert.
  - unfold Matrix.get.
    rewrite (index_lookup _ i (<[Z.to_nat j:=x]> row)); [|lia|];
      [|now apply list_lookup_insert_eq].
    simpl. apply index_lookup; [lia|]. now apply list_lookup_insert_eq.
  - intros i' j' Hne. unfold Matrix.get, index.
    destruct (Z.ltb_spec i' 0); [done|].
    destruct (decide (Z.to_nat i' = Z.to_nat i)) as [Ei|Ei].
    + assert (i' = i) as -> by lia.
      rewrite list_lookup_insert_eq by done. rewrite E. simpl.
      destruct (Z.ltb_spec j' 0); [done|].
      rewrite list_lookup_insert_ne; [done|].
      intros Ej. apply Hne. f_equal. lia.
    + now rewrite list_lookup_insert_ne.
Qed.

(** Writing back the value a cell already holds changes nothing. *)
Lemma set_same d i j x :
  Matrix.get d i j = Ok x -> Matrix.set d i j x = Ok d.
Proof.
  intros E. unfold Matrix.get in E. unfold Matrix.set.
  apply bind_eq_Ok in E as (row & E1 & E2). rewrite E1. simpl.
  apply index_Ok_inv in E1 as [Hi E1]. apply index_Ok_inv in E2 as [Hj E2].
  rewrite assign_in_range by done. simpl.
  rewrite assign_in_range by done.
  rewrite (list_insert_id row _ _ E2). now rewrite (list_insert_id d _ _ E1).
Qed.

Lemma cell_index_inj c i j i' j' :
  0 <= j < c -> 0 <= j' < c -> i * c + j = i' * c + j' -> i = i' /\ j = j'.
Proof.
  intros Hj Hj' E.
  assert (i = i') as ->.
  { destruct (Z.lt_trichotomy i i') as [Hlt|[Heq|Hlt]]; [|done|].
    - assert (c <= (i' - i) * c) by nia. lia.
    - assert (c <= (i - i') * c) by nia. lia. }
  split; [done|lia].
Qed.

Section Filled.

Variables (r c : Z) (v : Z -> Z -> float) (d0 : list (list float)).
Hypothesis Hr : 0 <= r.
Hypothesis Hc : 0 <= c.
Hypothesis H0 : shaped d0 r c.

Lemma filled_init : filled r c v d0 0 d0.
Proof.
  split; [done|]. intros i j Hi Hj.
  destruct (Z.ltb_spec (i * c + j) 0); [nia|done].
Qed.

Lemma filled_current k d i j :
  filled r c v d0 k d -> k = i * c + j -> 0 <= i < r -> 0 <= j < c ->
  Matrix.get d i j = Matrix.get d0 i j.
Proof.
  intros [_ Hcells] -> Hi Hj. rewrite Hcells by done.
  now rewrite Z.ltb_irrefl.
Qed.

Lemma filled_step k d i j :
  filled r c v d0 k d -> k = i * c + j -> 0 <= i < r -> 0 <= j < c ->
  exists d', Matrix.set d i j (v i j) = Ok d' /\ filled r c v d0 (k + 1) d'
             /\ Matrix.get d' i j = Ok (v i j).
Proof.
  intros [Hd Hcells] -> Hi Hj.
  destruct (set_spec d r c i j (v i j)) as (d' & E & Hd' & Hget & Hother);
    [done..|].
  exists d'. split; [done|]. split; [|done]. split; [done|].
  intros i' j' Hi' Hj'.
  destruct (decide ((i', j') = (i, j))) as [[= -> ->]|Hne].
  - rewrite Hget. destruct (Z.ltb_spec (i * c + j) (i * c + j + 1)); [done|lia].
  - rewrite Hother, Hcells by done.
    assert (i' * c + j' <> i * c + j).
    { intros Eq. apply cell_index_inj in Eq as [-> ->]; done. }
    destruct (Z.ltb_spec (i' * c + j') (i * c + j));
      destruct (Z.ltb_spec (i' * c + j') (i * c + j + 1)); (done || lia).
Qed.

Lemma filled_done d i j :
  filled r c v d0 (r * c) d -> 0 <= i < r -> 0 <= j < c ->
  Matrix.get d i j = Ok (v i j).
Proof.
  intros [_ Hcells] Hi Hj. rewrite Hcells by done.
  destruct (Z.ltb_spec (i * c + j) (r * c)); [done|nia].
Qed.

End Filled.

(** Two nested loops that write every cell of an [r] x [c] buffer once, in
    row-major order, each cell from values outside the buffer and from the
    cell's own old content. *)
Lemma fill2 (r c : Z) (v : Z -> Z -> float)
    (body : Z -> Z -> list (list float) -> result (list (list float))) d0 :
  0 <= r -> 0 <= c -> shaped d0 r c ->
  (forall i j d, 0 <= i < r -> 0 <= j < c -> shaped d r c ->
     Matrix.get d i j = Matrix.get d0 i j ->
     body i j d = Matrix.set d i j (v i j)) ->
  exists d', for_ 0 r (fun i d => for_ 0 c (body i) d) d0 = Ok d'
    /\ shaped d' r c
    /\ forall i j, 0 <= i < r -> 0 <= j < c -> Matrix.get d' i j = Ok (v i j).
Proof.
  intros Hr Hc H0 Hbody.
  destruct (for2_inv (filled r c v d0) body r c d0)
    as (d' & E & Hd'); [done|done|now apply filled_init| |].
  - intros i j d Hi Hj Hd.
    assert (Ecur : Matrix.get d i j = Matrix.get d0 i j)
      by now apply (filled_current r c v d0 (i * c + j)).
    rewrite (Hbody i j d Hi Hj (proj1 Hd) Ecur).
    destruct (filled_step r c v d0 (i * c + j) d i j) as (d' & E & Hd' & _);
      [done..|].
    now exists d'.
  - exists d'. split; [done|]. split; [apply Hd'|].
    intros i j. now apply (filled_done r c v d0).
Qed.

Lemma NewMatrix_spec r c :
  0 <= r -> 0 <= c ->
  exists m, Matrix.NewMatrix r c = Ok m
    /\ Matrix.Rows m = r /\ Matrix.Cols m = c
    /\ shaped (Matrix.Data m) r c
    /\ forall i j, 0 <= i < r -> 0 <= j < c ->
         Matrix.get (Matrix.Data m) i j = Ok 0%float.
Proof.
  intros Hr Hc. unfold Matrix.NewMatrix.
  rewrite (make_Ok ([] : list float) r) by done. rewrite bind_Ok.
  set (d0 := replicate (Z.to_nat r) ([] : list float)).
  destruct (range_from_inv
    (fun k (d : list (list float)) => Z.of_nat (length d) = r /\
       forall i, (i < Z.to_nat k)%nat ->
         d !! i = Some (replicate (Z.to_nat c) 0%float))
    (fun i (_ : list float) data => row ← make 0%float c; assign data i row)
    d0 0 d0) as (d & E & Hlen & Hrows).
  - split; [subst d0; rewrite length_replicate; lia|]. intros i Hi. lia.
  - intros k x d Hk [Hlen Hrows]. subst d0. rewrite length_replicate in Hk.
    rewrite make_Ok by done. simpl. rewrite assign_in_range by lia.
    eexists. split; [reflexivity|]. split; [now rewrite length_insert|].
    intros i Hi. destruct (decide (i = Z.to_nat k)) as [->|Hne].
    + apply list_lookup_insert_eq. lia.
    + rewrite list_lookup_insert_ne by done. apply Hrows. lia.
  - rewrite E. simpl. eexists. split; [reflexivity|]. simpl.
    subst d0. rewrite length_replicate in Hrows.
    assert (Hall : forall i, (i < Z.to_nat r)%nat ->
              d !! i = Some (replicate (Z.to_nat c) 0%float)).
    { intros i Hi. apply Hrows. lia. }
    split; [done|]. split; [done|]. split.
    + split; [done|]. apply Forall_lookup. intros i row Ei.
      assert (Hi : (i < Z.to_nat r)%nat) by (apply lookup_lt_Some in Ei; lia).
      rewrite (Hall i Hi) in Ei. injection Ei as <-.
      rewrite length_replicate. lia.
    + intros i j Hi Hj. unfold Matrix.get.
      rewrite (index_lookup d i (replicate (Z.to_nat c) 0%float));
        [|lia|apply Hall; lia].
      simpl. apply index_lookup; [lia|]. apply lookup_replicate_2. lia.
Qed.

(** The accumulation loop of a dot product. *)
Lemma dot_loop (n : Z) (f : Z -> float) (body : Z -> float -> result float) :
  0 <= n ->
  (forall k s, 0 <= k < n -> body k s = Ok (s + f k)%float) ->
  for_ 0 n body 0%float = Ok (fsum n f).
Proof. intros Hn Hbody. unfold fsum. now apply for_fold. Qed.

Lemma Multiply_Ok (A B : Matrix.t) :
  Matrix.wf A = true -> Matrix.wf B = true ->
  Matrix.Cols A = Matrix.Rows B ->
  exists M, Matrix.Multiply A B = Ok M
    /\ Matrix.wf M = true
    /\ Matrix.Rows M = Matrix.Rows A /\ Matrix.Cols M = Matrix.Cols B
    /\ forall i j, 0 <= i < Matrix.Rows A -> 0 <= j < Matrix.Cols B ->
         Matrix.get (Matrix.Data M) i j =
           Ok (fsum (Matrix.Cols A)
                 (fun t => Matrix.entry A i t * Matrix.entry B t j)%float).
Proof.
  intros HA HB Hk. unfold Matrix.Multiply.
  destruct (Z.eqb_spec (Matrix.Cols A) (Matrix.Rows B)); [|done].
  simpl negb. cbv iota.
  pose proof HA as (HrA & HcA & HdA)%wf_shaped.
  pose proof HB as (HrB & HcB & HdB)%wf_shaped.
  destruct (NewMatrix_spec (Matrix.Rows A) (Matrix.Cols B))
    as (R & ER & HRr & HRc & HRd & _); [done..|].
  rewrite ER, bind_Ok.
  destruct (fill2 (Matrix.Rows A) (Matrix.Cols B)
    (fun i j => fsum (Matrix.Cols A)
                  (fun t => Matrix.entry A i t * Matrix.entry B t j)%float)
    (fun i j data =>
       sum ← for_ 0 (Matrix.Cols A) (fun k sum =>
                a ← Matrix.get (Matrix.Data A) i k;
                b ← Matrix.get (Matrix.Data B) k j;
                Ok (sum + a * b)%float) 0%float;
       Matrix.set data i j sum)
    (Matrix.Data R)) as (d & E & Hd & Hcells); [done..| |].
  - intros i j data Hi Hj _ _.
    rewrite (dot_loop (Matrix.Cols A)
               (fun t => Matrix.entry A i t * Matrix.entry B t j)%float).
    + now rewrite bind_Ok.
    + done.
    + intros k s Hk'.
      rewrite (get_entry A i k), bind_Ok by (done || lia).
      now rewrite (get_entry B k j), bind_Ok by (done || lia).
  - rewrite E, bind_Ok. eexists. split; [reflexivity|].
    simpl. rewrite HRr, HRc. split; [|done].
    apply wf_shaped. simpl. done.
Qed.

(** ** IEEE 754 facts the program relies on, from the specification of the
    primitive operations *)

Lemma feq_spec x y : feq x y <-> sfeq (Prim2SF x) (Prim2SF y).
Proof.
  unfold feq, sfeq. rewrite FloatAxioms.eqb_spec. split; intros [E|E]; auto.
  - left. now rewrite E.
  - left. now apply Prim2SF_inj.
Qed.

Lemma feq_refl x : feq x x.
Proof. now left. Qed.

Lemma round_aux_opp s m e l :
  binary_round_aux prec emax (negb s) m e l
  = SFopp (binary_round_aux prec emax s m e l).
Proof.
  unfold binary_round_aux.
  destruct (shr_fexp prec emax m e l) as [mrs e'].
  destruct (shr_fexp prec emax _ e' loc_Exact) as [mrs' e''].
  destruct (shr_m mrs'); [done| |done].
  now destruct (e'' <=? emax - prec).
Qed.

Lemma round_opp s m e :
  binary_round prec emax (negb s) m e = SFopp (binary_round prec emax s m e).
Proof.
  unfold binary_round. destruct (shl_align _ _ _). apply round_aux_opp.
Qed.

Lemma normalize_opp m e :
  binary_normalize prec emax (- m) e false
  = SFopp (binary_normalize prec emax m e false)
  \/ m = 0.
Proof.
  destruct m as [|p|p]; [now right|left..]; simpl.
  - apply (round_opp false).
  - apply (round_opp true).
Qed.

Lemma SFopp_involutive a : SFopp (SFopp a) = a.
Proof. destruct a; simpl; now rewrite ?negb_involutive. Qed.

(** [x - y] is the opposite of [y - x], unless both are a zero. *)
Lemma SFsub_swap a b :
  SFsub prec emax a b = SFopp (SFsub prec emax b a)
  \/ (sf_is_zero (SFsub prec emax a b) /\ sf_is_zero (SFsub prec emax b a)).
Proof.
  destruct a as [sa|sa| |sa ma ea], b as [sb|sb| |sb mb eb];
    try (left; simpl; try destruct sa; try destruct sb; reflexivity);
    try (right; simpl; split; destruct sa, sb; eexists; reflexivity).
  unfold SFsub. rewrite (Z.min_comm eb ea).
  set (x := cond_Zopp sa _). set (y := cond_Zopp sb _).
  replace (x - y) with (- (y - x)) by lia.
  destruct (normalize_opp (y - x) (Z.min ea eb)) as [E|E]; [now left|].
  right. rewrite E. simpl. split; eexists; reflexivity.
Qed.

Lemma SFmul_opp_opp a :
  SFmul prec emax (SFopp a) (SFopp a) = SFmul prec emax a a.
Proof. destruct a as [[]|[]| |[] m e]; reflexivity. Qed.

Lemma SFmul_zero_zero a b :
  sf_is_zero a -> sf_is_zero b -> SFmul prec emax a a = SFmul prec emax b b.
Proof. intros [[] ->] [[] ->]; reflexivity. Qed.

Lemma SFdiv_opp_l a n :
  SFdiv prec emax (SFopp a) n = SFopp (SFdiv prec emax a n).
Proof.
  destruct a as [sa|sa| |sa ma ea], n as [sn|sn| |sn mn en]; simpl;
    try reflexivity; try (destruct sa, sn; reflexivity).
  destruct (SFdiv_core_binary _ _ _ _ _ _) as [[mz ez] lz].
  rewrite <- round_aux_opp. now destruct sa, sn.
Qed.

Lemma SFdiv_zero_sfeq a b n :
  sf_is_zero a -> sf_is_zero b ->
  sfeq (SFdiv prec emax a n) (SFopp (SFdiv prec emax b n)).
Proof.
  intros [sa ->] [sb ->].
  destruct n as [sn|sn| |sn mn en]; simpl; try (now left); now right.
Qed.

(** The square of a difference does not depend on its direction. *)
Lemma sub_sq_comm (x y : float) :
  ((x - y) * (x - y) = (y - x) * (y - x))%float.
Proof.
  apply Prim2SF_inj. rewrite !FloatAxioms.mul_spec, !FloatAxioms.sub_spec. unfold SF64mul, SF64sub.
  destruct (SFsub_swap (Prim2SF x) (Prim2SF y)) as [E|[Hz Hz']].
  - rewrite E. apply SFmul_opp_opp.
  - now apply SFmul_zero_zero.
Qed.

(** Swapping the operands of the difference flips the sign of
    [-(x - y) / n]. *)
Lemma neg_sub_div_swap (x y n : float) :
  feq (- (x - y) / n)%float (- (- (y - x) / n))%float.
Proof.
  apply feq_spec.
  rewrite FloatAxioms.opp_spec, !FloatAxioms.div_spec, !FloatAxioms.opp_spec, !FloatAxioms.sub_spec.
  unfold SF64div, SF64sub.
  destruct (SFsub_swap (Prim2SF x) (Prim2SF y)) as [E|[Hz Hz']].
  - left. rewrite E, SFopp_involutive, SFdiv_opp_l. now rewrite SFopp_involutive.
  - apply SFdiv_zero_sfeq.
    + destruct Hz as [s ->]. now exists (negb s).
    + destruct Hz' as [s ->]. now exists (negb s).
Qed.

(** Adding [0*0 - x] is subtracting [x]. *)
Lemma add_zero_sub (p x : float) :
  feq (p + (0 * 0 - x))%float (p - x)%float.
Proof.
  apply feq_spec. rewrite FloatAxioms.add_spec, !FloatAxioms.sub_spec, FloatAxioms.mul_spec.
  unfold SF64add, SF64sub, SF64mul.
  change (Prim2SF 0) with (S754_zero false).
  destruct (Prim2SF p) as [sp|sp| |sp mp ep], (Prim2SF x) as [sx|sx| |sx mx ex];
    simpl; try (now left);
    try (destruct sp, sx; simpl; (now left) || (now right)).
Qed.

(** A value that is [<= 0] is not [> 0]. *)
Lemma leb_zero_not_pos (x : float) :
  (x <=? 0)%float = true -> (0 <? x)%float = false.
Proof.
  rewrite FloatAxioms.leb_spec, FloatAxioms.ltb_spec. change (Prim2SF 0) with (S754_zero false).
  destruct (Prim2SF x) as [s|[]| |[] m e]; simpl; done.
Qed.

Lemma one_spec : Prim2SF 1 = S754_finite false 4503599627370496 (-52).
Proof. reflexivity. Qed.

Lemma digits_shift52 (m : positive) :
  Zpos (digits2_pos (4503599627370496 * m)) = Zpos (digits2_pos m) + 52.
Proof.
  change (4503599627370496 * m)%positive with
    (m~0~0~0~0~0~0~0~0~0~0~0~0~0~0~0~0~0~0~0~0~0~0~0~0~0~0
      ~0~0~0~0~0~0~0~0~0~0~0~0~0~0~0~0~0~0~0~0~0~0~0~0~0~0)%positive.
  cbn [digits2_pos]. rewrite !Pos2Z.inj_succ. lia.
Qed.

Lemma shr52 (m : positive) :
  SpecFloat.iter_pos shr_1 52
    {| shr_m := Zpos (4503599627370496 * m); shr_r := false; shr_s := false |}
  = {| shr_m := Zpos m; shr_r := false; shr_s := false |}.
Proof. reflexivity. Qed.

Lemma SFmul_one_finite s m e :
  bounded prec emax m e = true ->
  SFmul prec emax (S754_finite s m e) (S754_finite false 4503599627370496 (-52))
  = S754_finite s m e.
Proof.
  intros Hb. unfold bounded, canonical_mantissa in Hb.
  apply andb_prop in Hb as [Hcan Hmax]. apply Z.eqb_eq in Hcan.
  unfold SFmul, binary_round_aux, shr_fexp.
  rewrite Pos.mul_comm. cbn [Zdigits2]. rewrite digits_shift52.
  replace (Zpos (digits2_pos m) + 52 + (e + -52))
    with (Zpos (digits2_pos m) + e) by lia.
  rewrite Hcan. replace (e - (e + -52)) with 52 by lia.
  cbn [shr shr_record_of_loc]. rewrite shr52. cbn [shr_m loc_of_shr_record round_nearest_even
    shr_record_of_loc Zdigits2].
  replace (e + -52 + 52) with e by lia.
  rewrite Hcan, Z.sub_diag. cbn [shr shr_m]. rewrite Hmax.
  now destruct s.
Qed.

(** Multiplying by [1.0] is exact. *)
Lemma mul_one (x : float) : (x * 1)%float = x.
Proof.
  apply Prim2SF_inj. rewrite FloatAxioms.mul_spec, one_spec.
  pose proof (Prim2SF_valid x) as Hv.
  destruct (Prim2SF x) as [[]|[]| |s m e]; try reflexivity.
  now apply SFmul_one_finite.
Qed.

Lemma same_shape_eq a b :
  Matrix.same_shape a b = true <->
  Matrix.Rows a = Matrix.Rows b /\ Matrix.Cols a = Matrix.Cols b.
Proof. unfold Matrix.same_shape. rewrite andb_true_iff, !Z.eqb_eq. tauto. Qed.

(** ** The ReLU layer *)

Lemma ReLU_Backward_cells (r : ReLULayer.t) (X g : Matrix.t) :
  ReLULayer.lastInput r = Some X ->
  Matrix.wf X = true -> Matrix.wf g = true -> Matrix.same_shape X g = true ->
  exists out, ReLULayer.Backward r g = (r, Ok out)
    /\ Matrix.wf out = true /\ Matrix.same_shape out g = true
    /\ forall i j, 0 <= i < Matrix.Rows g -> 0 <= j < Matrix.Cols g ->
         Matrix.get (Matrix.Data out) i j =
           Ok (if (0 <? Matrix.entry X i j)%float then Matrix.entry g i j
               else 0%float).
Proof.
  intros HX HwX Hwg [Hr Hc]%same_shape_eq. unfold ReLULayer.Backward.
  pose proof Hwg as (Hrg & Hcg & Hdg)%wf_shaped.
  destruct (NewMatrix_spec (Matrix.Rows g) (Matrix.Cols g))
    as (R & ER & HRr & HRc & HRd & HR0); [done..|].
  rewrite ER, bind_Ok.
  destruct (fill2 (Matrix.Rows g) (Matrix.Cols g)
    (fun i j => if (0 <? Matrix.entry X i j)%float then Matrix.entry g i j
                else 0%float)
    (fun i j data =>
       x ← deref (ReLULayer.lastInput r);
       v ← Matrix.get (Matrix.Data x) i j;
       if (0 <? v)%float then
         g0 ← Matrix.get (Matrix.Data g) i j; Matrix.set data i j g0
       else Ok data)
    (Matrix.Data R)) as (d & E & Hd & Hcells); [done..| |].
  - intros i j data Hi Hj _ Hcur. rewrite HX. simpl deref. rewrite bind_Ok.
    rewrite (get_entry X i j), bind_Ok by (done || lia).
    destruct (0 <? Matrix.entry X i j)%float.
    + now rewrite (get_entry g i j), bind_Ok.
    + symmetry. apply set_same. rewrite Hcur. now apply HR0.
  - rewrite E, bind_Ok. eexists. split; [reflexivity|].
    split; [|split; [|done]].
    + apply wf_shaped. simpl. rewrite HRr, HRc. done.
    + apply same_shape_eq. simpl. done.
Qed.

Lemma has_shape_spec m r c :
  has_shape m r c = true <->
  Matrix.wf m = true /\ Matrix.Rows m = r /\ Matrix.Cols m = c.
Proof. unfold has_shape. rewrite !andb_true_iff, !Z.eqb_eq. tauto. Qed.

Lemma has_shape_shaped m r c :
  has_shape m r c = true -> 0 <= r /\ 0 <= c /\ shaped (Matrix.Data m) r c.
Proof.
  intros (Hw & <- & <-)%has_shape_spec. now apply wf_shaped.
Qed.

Lemma for_one {St} (body : Z -> St -> result St) s :
  for_ 0 1 body s = body 0 s.
Proof. unfold for_. simpl. now destruct (body 0 s). Qed.

(** One loop that writes every cell of row [0] of a [1] x [c] buffer. *)
Lemma fill_row (c : Z) (v : Z -> float)
    (body : Z -> list (list float) -> result (list (list float))) d0 :
  0 <= c -> shaped d0 1 c ->
  (forall j d, 0 <= j < c -> shaped d 1 c ->
     Matrix.get d 0 j = Matrix.get d0 0 j ->
     body j d = Matrix.set d 0 j (v j)) ->
  exists d', for_ 0 c body d0 = Ok d' /\ shaped d' 1 c
    /\ forall j, 0 <= j < c -> Matrix.get d' 0 j = Ok (v j).
Proof.
  intros Hc H0 Hbody.
  destruct (fill2 1 c (fun _ j => v j) (fun _ j d => body j d) d0)
    as (d' & E & Hd' & Hcells); [lia|done|done| |].
  - intros i j d Hi Hj Hd Hcur. assert (i = 0) as -> by lia. now apply Hbody.
  - rewrite for_one in E. exists d'. split; [done|]. split; [done|].
    intros j Hj. apply Hcells; [lia|done].
Qed.

(** ** The dense layer *)

Section DenseBackward.

Variables (d : Dense.t) (X g : Matrix.t).
Hypothesis Hd : Dense_wf d = true.
Hypothesis HX : Dense.lastInput d = Some X.
Hypothesis Hg : Matrix.wf g = true.
Hypothesis Hcols : Matrix.Cols g = Dense.OutputSize d.
Hypothesis Hrows : Matrix.Rows X <= Matrix.Rows g.

Let batch := float64_of_int (Matrix.Rows g).

Lemma Dense_wf_parts :
  0 <= Dense.InputSize d /\ 0 <= Dense.OutputSize d
  /\ has_shape (Dense.Weights d) (Dense.InputSize d) (Dense.OutputSize d) = true
  /\ has_shape (Dense.weightsGrad d) (Dense.InputSize d) (Dense.OutputSize d) = true
  /\ has_shape (Dense.biasGrad d) 1 (Dense.OutputSize d) = true
  /\ Matrix.wf X = true /\ Matrix.Cols X = Dense.InputSize d.
Proof.
  unfold Dense_wf in Hd. rewrite HX in Hd.
  rewrite !andb_true_iff, !Z.leb_le, Z.eqb_eq in Hd. tauto.
Qed.

Lemma weights_gradient_cells :
  exists wg, Dense.weights_gradient d g batch = Ok wg
    /\ shaped wg (Dense.InputSize d) (Dense.OutputSize d)
    /\ forall i j, 0 <= i < Dense.InputSize d -> 0 <= j < Dense.OutputSize d ->
         Matrix.get wg i j =
           Ok (fsum (Matrix.Rows X)
                 (fun b => Matrix.entry X b i * Matrix.entry g b j) / batch)%float.
Proof.
  destruct Dense_wf_parts as (Hin & Hout & HW & Hwg & Hbg & HwX & HcX).
  pose proof HwX as (HrX & _)%wf_shaped.
  apply has_shape_shaped in Hwg as (_ & _ & Hwg).
  unfold Dense.weights_gradient.
  apply fill2; [done..|].
  intros i j data Hi Hj _ _. rewrite HX. simpl deref. rewrite bind_Ok.
  rewrite (dot_loop (Matrix.Rows X)
             (fun b => Matrix.entry X b i * Matrix.entry g b j)%float);
    [now rewrite bind_Ok|done|].
  intros b s Hb.
  rewrite (get_entry X b i), bind_Ok by (done || lia).
  now rewrite (get_entry g b j), bind_Ok by (done || lia).
Qed.

Lemma bias_gradient_cells :
  exists bg, Dense.bias_gradient d g batch = Ok bg
    /\ shaped bg 1 (Dense.OutputSize d)
    /\ forall j, 0 <= j < Dense.OutputSize d ->
         Matrix.get bg 0 j =
           Ok (fsum (Matrix.Rows g) (fun b => Matrix.entry g b j) / batch)%float.
Proof.
  destruct Dense_wf_parts as (Hin & Hout & HW & Hwg & Hbg & HwX & HcX).
  pose proof Hg as (Hrg & _)%wf_shaped.
  apply has_shape_shaped in Hbg as (_ & _ & Hbg).
  unfold Dense.bias_gradient.
  apply fill_row; [done..|].
  intros j data Hj _ _.
  rewrite (dot_loop (Matrix.Rows g) (fun b => Matrix.entry g b j));
    [now rewrite bind_Ok|done|].
  intros b s Hb.
  now rewrite (get_entry g b j), bind_Ok by (done || lia).
Qed.

Lemma input_gradient_cells (d' : Dense.t) :
  Dense.InputSize d' = Dense.InputSize d ->
  Dense.OutputSize d' = Dense.OutputSize d ->
  Dense.Weights d' = Dense.Weights d ->
  exists gi, Dense.input_gradient d' g = Ok gi
    /\ has_shape gi (Matrix.Rows g) (Dense.InputSize d) = true
    /\ forall b i, 0 <= b < Matrix.Rows g -> 0 <= i < Dense.InputSize d ->
         Matrix.get (Matrix.Data gi) b i =
           Ok (fsum (Dense.OutputSize d)
                 (fun k => Matrix.entry g b k
                           * Matrix.entry (Dense.Weights d) i k)%float).
Proof.
  intros Ein Eout EW.
  destruct Dense_wf_parts as (Hin & Hout & HW & Hwg & Hbg & HwX & HcX).
  apply has_shape_spec in HW as (HW & HWr & HWc).
  pose proof Hg as (Hrg & _)%wf_shaped.
  unfold Dense.input_gradient. rewrite Ein, Eout, EW.
  destruct (NewMatrix_spec (Matrix.Rows g) (Dense.InputSize d))
    as (R & ER & HRr & HRc & HRd & _); [done..|].
  rewrite ER, bind_Ok.
  destruct (fill2 (Matrix.Rows g) (Dense.InputSize d)
    (fun b i => fsum (Dense.OutputSize d)
                  (fun k => Matrix.entry g b k
                            * Matrix.entry (Dense.Weights d) i k)%float)
    (fun i j data =>
       sum ← for_ 0 (Dense.OutputSize d) (fun k sum =>
                x ← Matrix.get (Matrix.Data g) i k;
                w ← Matrix.get (Matrix.Data (Dense.Weights d)) j k;
                Ok (sum + x * w)%float) 0%float;
       Matrix.set data i j sum)
    (Matrix.Data R)) as (data & E & Hdata & Hcells); [done..| |].
  - intros b i data Hb Hi _ _.
    rewrite (dot_loop (Dense.OutputSize d)
               (fun k => Matrix.entry g b k
                         * Matrix.entry (Dense.Weights d) i k)%float);
      [now rewrite bind_Ok|done|].
    intros k s Hk.
    rewrite (get_entry g b k), bind_Ok by (done || lia).
    now rewrite (get_entry (Dense.Weights d) i k), bind_Ok by (done || lia).
  - rewrite E, bind_Ok. eexists. split; [reflexivity|]. split; [|done].
    apply has_shape_spec. simpl. rewrite HRr, HRc.
    split; [|done]. apply wf_shaped. simpl. done.
Qed.

(** What [Backward] leaves in the layer and returns, for an upstream
    gradient with at least as many rows as the cached input. *)
Lemma Dense_Backward_cells :
  exists d' gi, Dense.Backward d g = (d', Ok gi)
    /\ Dense_wf d' = true
    /\ Dense.Weights d' = Dense.Weights d /\ Dense.Bias d' = Dense.Bias d
    /\ (forall i j, 0 <= i < Dense.InputSize d -> 0 <= j < Dense.OutputSize d ->
          Matrix.get (Matrix.Data (Dense.weightsGrad d')) i j =
            Ok (fsum (Matrix.Rows X)
                  (fun b => Matrix.entry X b i * Matrix.entry g b j) / batch)%float)
    /\ (forall j, 0 <= j < Dense.OutputSize d ->
          Matrix.get (Matrix.Data (Dense.biasGrad d')) 0 j =
            Ok (fsum (Matrix.Rows g) (fun b => Matrix.entry g b j) / batch)%float)
    /\ has_shape gi (Matrix.Rows g) (Dense.InputSize d) = true
    /\ (forall b i, 0 <= b < Matrix.Rows g -> 0 <= i < Dense.InputSize d ->
          Matrix.get (Matrix.Data gi) b i =
            Ok (fsum (Dense.OutputSize d)
                  (fun k => Matrix.entry g b k
                            * Matrix.entry (Dense.Weights d) i k)%float)).
Proof.
  destruct weights_gradient_cells as (wg & Ewg & Hwg & Hwcells).
  destruct bias_gradient_cells as (bg & Ebg & Hbg & Hbcells).
  destruct (input_gradient_cells (Dense.set_grads d wg bg))
    as (gi & Egi & Hgi & Hgcells); [done..|].
  unfold Dense.Backward. rewrite Hcols, Z.eqb_refl. simpl negb. cbv iota.
  fold batch. rewrite Ewg, Ebg. cbv zeta. rewrite Egi.
  exists (Dense.set_grads d wg bg), gi.
  split; [done|]. split; [|done].
  destruct Dense_wf_parts as (Hin & Hout & HW & Hwg0 & Hbg0 & HwX & HcX).
  apply has_shape_spec in Hwg0 as (_ & Hr1 & Hc1).
  apply has_shape_spec in Hbg0 as (_ & Hr2 & Hc2).
  unfold Dense_wf in *. simpl.
  rewrite !andb_true_iff in Hd. rewrite !andb_true_iff.
  repeat split; try tauto.
  - apply has_shape_spec. simpl. split; [|done].
    apply wf_shaped. simpl. rewrite Hr1, Hc1. done.
  - apply has_shape_spec. simpl. split; [|done].
    apply wf_shaped. simpl. rewrite Hr2, Hc2. split; [lia|done].
Qed.

End DenseBackward.

(** Two loops with the same bounds and bodies that agree on their range
    compute the same. *)
Lemma loop_ext {St} (body body' : Z -> St -> result St) n :
  forall i s,
  (forall k s, i <= k < i + Z.of_nat n -> body k s = body' k s) ->
  loop n i body s = loop n i body' s.
Proof.
  induction n as [|n IH]; intros i s Hext; simpl; [done|].
  rewrite (Hext i s) by lia.
  destruct (body' i s) as [s1| |]; simpl; [|done..].
  apply IH. intros k s' Hk. apply Hext. lia.
Qed.

Lemma for_ext {St} (body body' : Z -> St -> result St) lo hi s :
  (forall k s, lo <= k < hi -> body k s = body' k s) ->
  for_ lo hi body s = for_ lo hi body' s.
Proof. intros Hext. apply loop_ext. intros k s' Hk. apply Hext. lia. Qed.

(** ** The mean squared error *)

Section MSE.

Variables (mse : MSE.t) (P T : Matrix.t).
Hypothesis HP : Matrix.wf P = true.
Hypothesis HT : Matrix.wf T = true.
Hypothesis Hshape : Matrix.same_shape P T = true.

Let n := float64_of_int (wrap64 (Matrix.Rows P * Matrix.Cols P)).

Lemma MSE_Forward_Ok : exists loss, MSE.Forward mse P T = Ok loss.
Proof.
  pose proof Hshape as [Hr Hc]%same_shape_eq.
  pose proof HP as (HrP & HcP & _)%wf_shaped.
  unfold MSE.Forward. rewrite Hr, Hc, !Z.eqb_refl. simpl.
  destruct (for2_inv (fun _ (_ : float) => True)
    (fun i j totalLoss =>
       target ← Matrix.get (Matrix.Data T) i j;
       p ← Matrix.get (Matrix.Data P) i j;
       Ok (totalLoss + (target - p) * (target - p))%float)
    (Matrix.Rows T) (Matrix.Cols T) 0%float) as (s & E & _);
    [lia|lia|done| |].
  - intros i j s Hi Hj _.
    rewrite (get_entry T i j), bind_Ok by done.
    rewrite (get_entry P i j), bind_Ok by (done || lia). eauto.
  - rewrite E. simpl. eauto.
Qed.

Lemma MSE_Forward_swap : MSE.Forward mse P T = MSE.Forward mse T P.
Proof.
  pose proof Hshape as [Hr Hc]%same_shape_eq.
  unfold MSE.Forward. rewrite Hr, Hc, !Z.eqb_refl. simpl.
  f_equal. apply for_ext. intros i s Hi. apply for_ext. intros j s' Hj.
  rewrite (get_entry T i j), (get_entry P i j), !bind_Ok by (done || lia).
  now rewrite sub_sq_comm.
Qed.

Lemma MSE_Backward_cells :
  exists G, MSE.Backward mse P T = Ok G
    /\ Matrix.wf G = true /\ Matrix.same_shape G P = true
    /\ forall i j, 0 <= i < Matrix.Rows P -> 0 <= j < Matrix.Cols P ->
         Matrix.get (Matrix.Data G) i j =
           Ok (- (Matrix.entry T i j - Matrix.entry P i j) / n)%float.
Proof.
  pose proof Hshape as [Hr Hc]%same_shape_eq.
  pose proof HP as (HrP & HcP & _)%wf_shaped.
  unfold MSE.Backward. rewrite Hr, Hc, !Z.eqb_refl. simpl negb. cbv iota.
  rewrite <- Hr, <- Hc. fold n.
  destruct (NewMatrix_spec (Matrix.Rows P) (Matrix.Cols P))
    as (R & ER & HRr & HRc & HRd & _); [done..|].
  rewrite ER, bind_Ok.
  destruct (fill2 (Matrix.Rows P) (Matrix.Cols P)
    (fun i j => - (Matrix.entry T i j - Matrix.entry P i j) / n)%float
    (fun i j data =>
       target ← Matrix.get (Matrix.Data T) i j;
       p ← Matrix.get (Matrix.Data P) i j;
       Matrix.set data i j (- (target - p) / n)%float)
    (Matrix.Data R)) as (d & E & Hd & Hcells); [done..| |].
  - intros i j data Hi Hj _ _.
    rewrite (get_entry T i j), bind_Ok by (done || lia).
    now rewrite (get_entry P i j), bind_Ok.
  - rewrite E, bind_Ok. eexists. split; [reflexivity|].
    split; [|split; [|done]].
    + apply wf_shaped. simpl. rewrite HRr, HRc. done.
    + apply same_shape_eq. simpl. done.
Qed.

End MSE.

(** ** SGD with momentum *)

Lemma read_Some m i j : read (Some m) i j = Matrix.get (Matrix.Data m) i j.
Proof. reflexivity. Qed.

(** The accumulator after its lazy initialisation. *)
Lemma lazy_init (acc : gmap string Matrix.t) (name : string) (p : Matrix.t) :
  Matrix.wf p = true -> fits acc name p = true ->
  exists acc0 a0,
    match acc !! name with
    | None =>
        a0 ← Matrix.NewMatrix (Matrix.Rows p) (Matrix.Cols p);
        Ok (<[name := a0]> acc)
    | Some _ => Ok acc
    end = Ok acc0
    /\ acc0 !! name = Some a0
    /\ (forall other, other <> name -> acc0 !! other = acc !! other)
    /\ <[name := a0]> acc0 = <[name := a0]> acc
    /\ Matrix.Rows a0 = Matrix.Rows p /\ Matrix.Cols a0 = Matrix.Cols p
    /\ shaped (Matrix.Data a0) (Matrix.Rows p) (Matrix.Cols p)
    /\ forall i j, 0 <= i < Matrix.Rows p -> 0 <= j < Matrix.Cols p ->
         Matrix.get (Matrix.Data a0) i j = Ok (prior acc name i j).
Proof.
  intros (Hr & Hc & _)%wf_shaped Hfit. unfold fits, prior in *.
  destruct (acc !! name) as [a|] eqn:E.
  - exists acc, a. apply has_shape_spec in Hfit as (Hw & Hra & Hca).
    split; [done|]. split; [done|]. split; [done|]. split; [done|].
    split; [done|]. split; [done|]. split.
    + apply wf_shaped in Hw as (_ & _ & Hw). now rewrite Hra, Hca in Hw.
    + intros i j Hi Hj. apply get_entry; [done|lia..].
  - destruct (NewMatrix_spec (Matrix.Rows p) (Matrix.Cols p))
      as (R & ER & HRr & HRc & HRd & HR0); [done..|].
    rewrite ER, bind_Ok. exists (<[name := R]> acc), R.
    split; [done|]. split; [apply lookup_insert_eq|].
    split; [intros other Hne; now apply lookup_insert_ne|].
    split; [apply insert_insert_eq|]. done.
Qed.

Section SGDUpdate.

Variables (sgd : SGD.t) (name : string) (p g : Matrix.t).
Hypothesis Hp : Matrix.wf p = true.
Hypothesis Hg : Matrix.wf g = true.
Hypothesis Hshape : Matrix.same_shape p g = true.
Hypothesis Hfit : fits (SGD.Velocity sgd) name p = true.

(** The new velocity and the new parameter at a cell. *)
Let vel (i j : Z) : float :=
  (SGD.Momentum sgd * prior (SGD.Velocity sgd) name i j
   - SGD.LearningRate sgd * Matrix.entry g i j)%float.
Let upd (i j : Z) : float := (Matrix.entry p i j + vel i j)%float.

Lemma SGD_Update_cells :
  exists sgd' v' u, SGD.Update sgd name p g = (sgd', Ok u)
    /\ SGD.LearningRate sgd' = SGD.LearningRate sgd
    /\ SGD.Momentum sgd' = SGD.Momentum sgd
    /\ SGD.Velocity sgd' = <[name := v']> (SGD.Velocity sgd)
    /\ has_shape v' (Matrix.Rows p) (Matrix.Cols p) = true
    /\ has_shape u (Matrix.Rows p) (Matrix.Cols p) = true
    /\ forall i j, 0 <= i < Matrix.Rows p -> 0 <= j < Matrix.Cols p ->
         Matrix.get (Matrix.Data v') i j = Ok (vel i j)
         /\ Matrix.get (Matrix.Data u) i j = Ok (upd i j).
Proof.
  pose proof Hshape as [Hr Hc]%same_shape_eq.
  pose proof Hp as (Hrp & Hcp & _)%wf_shaped.
  destruct (lazy_init (SGD.Velocity sgd) name p Hp Hfit)
    as (V0 & v0 & EV0 & Hv0 & _ & Hins & Hv0r & Hv0c & Hv0d & Hv0cells).
  destruct (NewMatrix_spec (Matrix.Rows p) (Matrix.Cols p))
    as (R & ER & HRr & HRc & HRd & _); [done..|].
  set (r := Matrix.Rows p) in *. set (c := Matrix.Cols p) in *.
  destruct (for2_inv
    (fun k (st : option Matrix.t * list (list float)) =>
       (exists m, st.1 = Some m /\ Matrix.Rows m = r /\ Matrix.Cols m = c
                  /\ filled r c vel (Matrix.Data v0) k (Matrix.Data m))
       /\ filled r c upd (Matrix.Data R) k st.2)
    (fun i j '(velocity, data) =>
       x ← read velocity i j;
       g0 ← Matrix.get (Matrix.Data g) i j;
       velocity ← write velocity i j
                    (SGD.Momentum sgd * x - SGD.LearningRate sgd * g0)%float;
       p0 ← Matrix.get (Matrix.Data p) i j;
       x' ← read velocity i j;
       data ← Matrix.set data i j (p0 + x')%float;
       Ok (velocity, data))
    r c (Some v0, Matrix.Data R))
    as ([vopt data] & E & (m & Em & Hmr & Hmc & Hm) & Hdata);
    [done|done| | |].
  - split; [|now apply filled_init].
    exists v0. split; [done|]. split; [done|]. split; [done|].
    now apply filled_init.
  - intros i j [velocity data] Hi Hj [(m & Em & Hmr & Hmc & Hm) Hdata].
    simpl in Em, Hdata. subst velocity.
    rewrite read_Some.
    rewrite (filled_current r c vel _ (i * c + j) _ i j Hm) by done.
    rewrite Hv0cells, bind_Ok by done.
    rewrite (get_entry g i j), bind_Ok by (done || lia).
    destruct (filled_step r c vel (Matrix.Data v0) (i * c + j) _ i j Hm)
      as (dm & Edm & Hdm & Hgetm); [done..|].
    unfold write. simpl deref. rewrite bind_Ok. fold (vel i j).
    rewrite Edm, !bind_Ok.
    rewrite (get_entry p i j), bind_Ok by done.
    rewrite read_Some. simpl Matrix.Data. rewrite Hgetm, bind_Ok.
    destruct (filled_step r c upd (Matrix.Data R) (i * c + j) _ i j Hdata)
      as (dd & Edd & Hdd & _); [done..|].
    fold (upd i j). rewrite Edd, bind_Ok.
    eexists. split; [reflexivity|]. split; [|done].
    eexists. split; [reflexivity|]. done.
  - simpl in Em, Hdata. subst vopt.
    unfold SGD.Update. fold r c. rewrite EV0, ER, bind_Ok, Hv0.
    rewrite E, bind_Ok. simpl write_back.
    exists (SGD.mk (SGD.LearningRate sgd) (SGD.Momentum sgd) (<[name := m]> V0)),
      m, (Matrix.mk (Matrix.Rows R) (Matrix.Cols R) data).
    split; [done|]. split; [done|]. split; [done|]. split.
    { simpl. rewrite <- (insert_insert_eq V0 name m v0).
      rewrite Hins. apply insert_insert_eq. }
    split; [|split].
    + apply has_shape_spec. split; [|done]. apply wf_shaped.
      rewrite Hmr, Hmc. split; [done|]. split; [done|]. apply Hm.
    + apply has_shape_spec. simpl. split; [|done]. apply wf_shaped. simpl.
      rewrite HRr, HRc. split; [done|]. split; [done|]. apply Hdata.
    + intros i j Hi Hj. split.
      * now apply (filled_done r c vel (Matrix.Data v0)).
      * now apply (filled_done r c upd (Matrix.Data R)).
Qed.

End SGDUpdate.

(** ** Calls that cannot return an error *)

Lemma no_err_Ok {A} (a : A) : no_err (Ok a).
Proof. intros msg. discriminate. Qed.

Lemma no_err_Panic {A} : no_err (@Panic A).
Proof. intros msg. discriminate. Qed.

Lemma no_err_bind {A B} (r : result A) (k : A -> result B) :
  no_err r -> (forall a, no_err (k a)) -> no_err (r ≫= k).
Proof.
  intros Hr Hk msg. destruct r as [a|msg'|]; simpl.
  - apply Hk.
  - now destruct (Hr msg').
  - discriminate.
Qed.

Lemma no_err_index {A} (s : list A) i : no_err (index s i).
Proof.
  intros msg. unfold index. destruct (i <? 0); [done|].
  now destruct (s !! Z.to_nat i).
Qed.

Lemma no_err_assign {A} (s : list A) i x : no_err (assign s i x).
Proof. intros msg. unfold assign. now destruct (_ || _). Qed.

Lemma no_err_make {A} (zero : A) n : no_err (make zero n).
Proof. intros msg. unfold make. now destruct (n <? 0). Qed.

Lemma no_err_loop {St} (body : Z -> St -> result St) n :
  (forall i s, no_err (body i s)) -> forall i s, no_err (loop n i body s).
Proof.
  intros Hbody. induction n as [|n IH]; intros i s; simpl.
  - apply no_err_Ok.
  - apply no_err_bind; [apply Hbody|]. intros s'. apply IH.
Qed.

Lemma no_err_for {St} (body : Z -> St -> result St) lo hi s :
  (forall i s, no_err (body i s)) -> no_err (for_ lo hi body s).
Proof. intros Hbody. now apply no_err_loop. Qed.

Lemma no_err_range_from {A St} (body : Z -> A -> St -> result St) xs :
  (forall i x s, no_err (body i x s)) ->
  forall i s, no_err (range_from i xs body s).
Proof.
  intros Hbody. induction xs as [|x xs IH]; intros i s; simpl.
  - apply no_err_Ok.
  - apply no_err_bind; [apply Hbody|]. intros s'. apply IH.
Qed.

Lemma no_err_get d i j : no_err (Matrix.get d i j).
Proof.
  apply no_err_bind; [apply no_err_index|]. intros. apply no_err_index.
Qed.

Lemma no_err_set d i j x : no_err (Matrix.set d i j x).
Proof.
  apply no_err_bind; [apply no_err_index|]. intros row.
  apply no_err_bind; [apply no_err_assign|]. intros. apply no_err_assign.
Qed.

Lemma no_err_NewMatrix r c : no_err (Matrix.NewMatrix r c).
Proof.
  apply no_err_bind; [apply no_err_make|]. intros data.
  apply no_err_bind; [|intros; apply no_err_Ok].
  apply no_err_range_from. intros i x s.
  apply no_err_bind; [apply no_err_make|]. intros. apply no_err_assign.
Qed.

Lemma no_err_deref p : no_err (deref p).
Proof. intros msg. now destruct p. Qed.

Lemma no_err_read p i j : no_err (read p i j).
Proof.
  apply no_err_bind; [apply no_err_deref|]. intros. apply no_err_get.
Qed.

Lemma no_err_write p i j x : no_err (write p i j x).
Proof.
  apply no_err_bind; [apply no_err_deref|]. intros m.
  apply no_err_bind; [apply no_err_set|]. intros. apply no_err_Ok.
Qed.

(** One step of backward-chaining through a computation built from the
    operations above. *)
Ltac no_err_step :=
  first
    [ apply no_err_Ok | apply no_err_Panic
    | apply no_err_get | apply no_err_set | apply no_err_read
    | apply no_err_write | apply no_err_index | apply no_err_assign
    | apply no_err_make | apply no_err_deref | apply no_err_NewMatrix
    | apply no_err_for; intros ? ?
    | apply no_err_range_from; intros ? ? ?
    | apply no_err_bind; [|intros ?]
    | match goal with |- no_err (let '(_, _) := ?x in _) => destruct x end
    | match goal with |- no_err (match ?x with _ => _ end) => destruct x end ].

Ltac no_err_auto := repeat no_err_step.

(** The shape every stateful call of the program has: a computation, its
    result handed on, an error or a panic passed through with the state. *)
Lemma no_err_through {A B St} (r : result A) (k : A -> St * result B)
    (s : St) :
  no_err r -> (forall a, no_err (k a).2) ->
  no_err (match r with
          | Ok a => k a
          | Err msg => (s, Err msg)
          | Panic => (s, Panic)
          end).2.
Proof.
  intros Hr Hk. destruct r as [a|msg'|]; simpl.
  - apply Hk.
  - now destruct (Hr msg').
  - apply no_err_Panic.
Qed.

Lemma no_err_SGD_Update sgd name p g : no_err (SGD.Update sgd name p g).2.
Proof.
  unfold SGD.Update.
  apply no_err_through; [destruct (_ !! _); no_err_auto|].
  intros V0. apply no_err_through; [no_err_auto|].
  intros [velocity updated]. apply no_err_Ok.
Qed.

(** ** What a failed training step leaves behind *)

Section Sequential.
Context `{GoMath}.

Lemma no_err_Adam_Update adam name p g :
  no_err (AdamOptimizer.Update adam name p g).2.
Proof.
  unfold AdamOptimizer.Update. cbv zeta.
  apply no_err_through; [simpl; destruct (_ !! _); no_err_auto|].
  intros [M0 V0]. apply no_err_through.
  - unfold AdamOptimizer.first_moment, AdamOptimizer.second_moment,
      AdamOptimizer.corrected, AdamOptimizer.step. no_err_auto.
  - intros [[m v] updated]. apply no_err_Ok.
Qed.

Lemma no_err_Optimizer_Update o name p g :
  no_err (Optimizer.Update o name p g).2.
Proof.
  destruct o as [adam|sgd]; simpl.
  - pose proof (no_err_Adam_Update adam name p g).
    now destruct (AdamOptimizer.Update adam name p g).
  - pose proof (no_err_SGD_Update sgd name p g).
    now destruct (SGD.Update sgd name p g).
Qed.

Lemma no_err_update_param idx i st :
  no_err (Sequential.update_param idx i st).
Proof.
  unfold Sequential.update_param. destruct st as [[layer optimizer] calls].
  apply no_err_bind; [apply no_err_index|]. intros name. cbv zeta.
  apply no_err_bind; [apply no_err_index|]. intros p.
  apply no_err_bind; [apply no_err_index|]. intros g.
  apply no_err_bind; [destruct optimizer; no_err_auto|]. intros o.
  pose proof (no_err_Optimizer_Update o
                ("layer_" +:+ pretty idx +:+ "_" +:+ name) p g) as Hu.
  destruct (Optimizer.Update _ _ _ _) as [o' updated]. simpl in Hu.
  apply no_err_bind; [done|]. intros u.
  apply no_err_bind; [no_err_auto|]. intros data. apply no_err_Ok.
Qed.

Lemma no_err_update_from layers :
  forall idx st, no_err (Sequential.update_from idx layers st).
Proof.
  induction layers as [|layer rest IH]; intros idx st; simpl.
  - apply no_err_Ok.
  - apply no_err_bind.
    + apply no_err_range_from. intros. apply no_err_update_param.
    + intros [[layer' optimizer] calls].
      apply no_err_bind; [apply IH|]. intros [rest' st']. apply no_err_Ok.
Qed.

Lemma no_err_UpdateWeights s : no_err (Sequential.UpdateWeights s).
Proof.
  unfold Sequential.UpdateWeights.
  apply no_err_bind; [apply no_err_update_from|].
  intros [layers [optimizer calls]]. apply no_err_Ok.
Qed.

(** [Forward] and [Backward] of a layer write its caches and gradient
    buffers, never its parameters. *)
Lemma Layer_Forward_params l input :
  Layer.GetParams (Layer.Forward l input).1 = Layer.GetParams l.
Proof.
  destruct l as [d|r|s]; simpl; [|done..].
  unfold Dense.Forward. now destruct (negb _).
Qed.

Lemma Layer_Backward_params l grad :
  Layer.GetParams (Layer.Backward l grad).1 = Layer.GetParams l.
Proof.
  destruct l as [d|r|s]; simpl; [|done..].
  unfold Dense.Backward. destruct (negb _); [done|].
  destruct (Dense.weights_gradient _ _ _); [|done..].
  now destruct (Dense.bias_gradient _ _ _).
Qed.

Lemma forward_from_params layers :
  forall i input,
  all_params (Sequential.forward_from i layers input).1 = all_params layers.
Proof.
  induction layers as [|l rest IH]; intros i input; simpl; [done|].
  pose proof (Layer_Forward_params l input) as Hl.
  destruct (Layer.Forward l input) as [l' [out|msg|]]; simpl in *.
  - specialize (IH (i + 1) out).
    destruct (Sequential.forward_from (i + 1) rest out) as [rest' r].
    simpl in *. unfold all_params in *. simpl. now rewrite Hl, IH.
  - unfold all_params. simpl. now rewrite Hl.
  - unfold all_params. simpl. now rewrite Hl.
Qed.

Lemma backward_from_params layers :
  forall i grad,
  all_params (Sequential.backward_from i layers grad).1 = all_params layers.
Proof.
  induction layers as [|l rest IH]; intros i grad; simpl; [done|].
  specialize (IH (i + 1) grad).
  destruct (Sequential.backward_from (i + 1) rest grad)
    as [rest' [g|msg|]]; simpl in *.
  - pose proof (Layer_Backward_params l g) as Hl.
    destruct (Layer.Backward l g) as [l' r]. simpl in *.
    unfold all_params in *. simpl. now rewrite Hl, IH.
  - unfold all_params in *. simpl. now rewrite IH.
  - unfold all_params in *. simpl. now rewrite IH.
Qed.

Lemma Forward_same s X : same_but_caches s (Sequential.Forward s X).1.
Proof.
  unfold Sequential.Forward.
  pose proof (forward_from_params (Sequential.Layers s) 0 X) as Hp.
  destruct (Sequential.forward_from 0 (Sequential.Layers s) X) as [layers r].
  now split.
Qed.

Lemma Backward_same s g : same_but_caches s (Sequential.Backward s g).1.
Proof.
  unfold Sequential.Backward.
  pose proof (backward_from_params (Sequential.Layers s) 0 g) as Hp.
  destruct (Sequential.backward_from 0 (Sequential.Layers s) g) as [layers r].
  now split.
Qed.

Lemma same_but_caches_trans s1 s2 s3 :
  same_but_caches s1 s2 -> same_but_caches s2 s3 -> same_but_caches s1 s3.
Proof.
  intros (A1 & B1 & C1 & D1) (A2 & B2 & C2 & D2).
  repeat split; congruence.
Qed.

Lemma TrainOnBatch_error s X y s' msg :
  Sequential.TrainOnBatch s X y = (s', Err msg) -> same_but_caches s s'.
Proof.
  unfold Sequential.TrainOnBatch.
  pose proof (Forward_same s X) as H1.
  destruct (Sequential.Forward s X) as [s1 [predictions|m|]]; simpl in H1;
    [|now intros [= <- _]|done].
  destruct (Sequential.loss_of s1 ≫= _) as [loss|m|];
    [|now intros [= <- _]|done].
  destruct (Sequential.loss_of s1 ≫= _) as [gradLoss|m|];
    [|now intros [= <- _]|done].
  pose proof (Backward_same s1 gradLoss) as H2.
  destruct (Sequential.Backward s1 gradLoss) as [s2 [u|m|]]; simpl in H2;
    [|intros [= <- _]; now apply (same_but_caches_trans s s1)|done].
  pose proof (no_err_UpdateWeights s2) as H3.
  destruct (Sequential.UpdateWeights s2) as [s3|m|]; [done| |done].
  now destruct (H3 m).
Qed.

(** A model without layers hands its input back. *)
Lemma Forward_no_layers s X :
  Sequential.Layers s = [] -> Sequential.Forward s X = (s, Ok X).
Proof. destruct s as [layers loss opt calls]. simpl. now intros ->. Qed.

End Sequential.

(** ** Convolution *)

Lemma wrap64_small z :
  - 9223372036854775808 <= z < 9223372036854775808 -> wrap64 z = z.
Proof.
  intros Hz. unfold wrap64.
  change (2 ^ 63) with 9223372036854775808.
  change (2 ^ 64) with 18446744073709551616.
  rewrite Z.mod_small; lia.
Qed.

Lemma shaped3_plane d n r c i plane :
  shaped3 d n r c -> d !! i = Some plane -> shaped plane r c.
Proof. intros [_ H] E. rewrite Forall_lookup in H. eauto. Qed.

Lemma Tensor3D_wf_shaped3 (x : Tensor3D.t) :
  Tensor3D.wf x = true <->
  0 <= Tensor3D.Channels x /\ 0 <= Tensor3D.Height x /\ 0 <= Tensor3D.Width x
  /\ shaped3 (Tensor3D.Data x) (Tensor3D.Channels x) (Tensor3D.Height x)
       (Tensor3D.Width x).
Proof.
  unfold Tensor3D.wf, shaped3, shaped.
  rewrite !andb_true_iff, !Z.leb_le, Z.eqb_eq, forallb_forall, Forall_forall.
  setoid_rewrite andb_true_iff. setoid_rewrite forallb_forall.
  setoid_rewrite Forall_forall.
  setoid_rewrite Z.eqb_eq. setoid_rewrite <- list_elem_of_In. tauto.
Qed.

Lemma get3_in_range d n r c f i j :
  shaped3 d n r c -> 0 <= f < n -> 0 <= i < r -> 0 <= j < c ->
  exists x, Tensor3D.get d f i j = Ok x.
Proof.
  intros Hd Hf Hi Hj. unfold Tensor3D.get.
  destruct (index_in_range d f) as [plane E]; [destruct Hd; lia|].
  rewrite E, bind_Ok. apply index_Ok_inv in E as [_ E].
  apply (get_in_range plane r c); [|done..].
  now apply (shaped3_plane d n r c (Z.to_nat f)).
Qed.

Lemma tensor_at_get (x : Tensor3D.t) c h w :
  Tensor3D.wf x = true ->
  0 <= c < Tensor3D.Channels x -> 0 <= h < Tensor3D.Height x ->
  0 <= w < Tensor3D.Width x ->
  Tensor3D.get (Tensor3D.Data x) c h w = Ok (tensor_at x c h w).
Proof.
  intros (_ & _ & _ & Hx)%Tensor3D_wf_shaped3 Hc Hh Hw.
  destruct (get3_in_range _ _ _ _ c h w Hx Hc Hh Hw) as [v E].
  unfold tensor_at. now rewrite E.
Qed.

Lemma ConvLayer_wf_parts (conv : ConvLayer.t) :
  ConvLayer.wf conv = true ->
  0 <= ConvLayer.NumFilters conv /\ 0 <= ConvLayer.InChannels conv
  /\ 0 <= ConvLayer.FilterSize conv
  /\ Z.of_nat (length (ConvLayer.Bias conv)) = ConvLayer.NumFilters conv
  /\ Z.of_nat (length (ConvLayer.Filters conv)) = ConvLayer.NumFilters conv
  /\ Forall (fun filter =>
       shaped3 filter (ConvLayer.InChannels conv) (ConvLayer.FilterSize conv)
         (ConvLayer.FilterSize conv)) (ConvLayer.Filters conv).
Proof.
  unfold ConvLayer.wf. intros Hwf.
  rewrite !andb_true_iff, !Z.leb_le, !Z.eqb_eq, forallb_forall in Hwf.
  destruct Hwf as (((((? & ?) & ?) & ?) & ?) & Hall).
  repeat split; try done.
  apply Forall_forall. intros filter Hin%list_elem_of_In. apply Hall in Hin.
  now apply Tensor3D_wf_shaped3 in Hin as (_ & _ & _ & Hin).
Qed.

Lemma weight_at_get (conv : ConvLayer.t) f c fh fw :
  ConvLayer.wf conv = true ->
  0 <= f < ConvLayer.NumFilters conv -> 0 <= c < ConvLayer.InChannels conv ->
  0 <= fh < ConvLayer.FilterSize conv -> 0 <= fw < ConvLayer.FilterSize conv ->
  ConvLayer.weight conv f c fh fw = Ok (weight_at conv f c fh fw).
Proof.
  intros (_ & _ & _ & _ & Hlen & Hall)%ConvLayer_wf_parts Hf Hc Hfh Hfw.
  unfold weight_at, ConvLayer.weight.
  destruct (index_in_range (ConvLayer.Filters conv) f) as [filter E]; [lia|].
  rewrite E, bind_Ok. apply index_Ok_inv in E as [_ E].
  rewrite Forall_lookup in Hall.
  destruct (get3_in_range _ _ _ _ c fh fw (Hall _ _ E) Hc Hfh Hfw) as [v Ev].
  now rewrite Ev.
Qed.

Lemma bias_at_index (conv : ConvLayer.t) f :
  ConvLayer.wf conv = true -> 0 <= f < ConvLayer.NumFilters conv ->
  index (ConvLayer.Bias conv) f = Ok (bias_at conv f).
Proof.
  intros (_ & _ & _ & Hlen & _)%ConvLayer_wf_parts Hf.
  destruct (index_in_range (ConvLayer.Bias conv) f) as [v E]; [lia|].
  unfold bias_at. now rewrite E.
Qed.

Lemma NewTensor3D_spec n r c :
  0 <= n -> 0 <= r -> 0 <= c ->
  exists x, Tensor3D.NewTensor3D n r c = Ok x
    /\ Tensor3D.Channels x = n /\ Tensor3D.Height x = r
    /\ Tensor3D.Width x = c /\ shaped3 (Tensor3D.Data x) n r c.
Proof.
  intros Hn Hr Hc. unfold Tensor3D.NewTensor3D.
  rewrite (make_Ok ([] : list (list float)) n) by done. rewrite bind_Ok.
  destruct (NewMatrix_spec r c) as (m & Em & _ & _ & Hm & _); [done..|].
  unfold Matrix.NewMatrix in Em.
  apply bind_eq_Ok in Em as (rows & Erows & Em).
  apply bind_eq_Ok in Em as (plane & Eplane & [= <-]). simpl in Hm.
  set (d0 := replicate (Z.to_nat n) ([] : list (list float))).
  destruct (range_from_inv
    (fun k (d : list (list (list float))) => Z.of_nat (length d) = n /\
       forall i, (i < Z.to_nat k)%nat -> d !! i = Some plane)
    (fun c0 (_ : list (list float)) data =>
       plane ← make [] r;
       plane ← range_from 0 plane (fun h _ plane =>
                  row ← make 0%float c; assign plane h row) plane;
       assign data c0 plane)
    d0 0 d0) as (d & E & Hlen & Hplanes).
  - split; [subst d0; rewrite length_replicate; lia|]. intros i Hi. lia.
  - intros k x d Hk [Hlen Hplanes]. subst d0. rewrite length_replicate in Hk.
    rewrite Erows, bind_Ok, Eplane, bind_Ok. rewrite assign_in_range by lia.
    eexists. split; [reflexivity|]. split; [now rewrite length_insert|].
    intros i Hi. destruct (decide (i = Z.to_nat k)) as [->|Hne].
    + apply list_lookup_insert_eq. lia.
    + rewrite list_lookup_insert_ne by done. apply Hplanes. lia.
  - rewrite E, bind_Ok. eexists. split; [reflexivity|]. simpl.
    split; [done|]. split; [done|]. split; [done|]. split; [done|].
    subst d0. rewrite length_replicate in Hplanes.
    apply Forall_lookup. intros i p Ei.
    assert (Hi : (i < Z.to_nat n)%nat) by (apply lookup_lt_Some in Ei; lia).
    rewrite Hplanes in Ei by lia. now injection Ei as <-.
Qed.

(** Three nested loops that write every cell of an [n] x [r] x [c] buffer
    once, plane by plane. *)
Lemma fill3 (n r c : Z) (v : Z -> Z -> Z -> float)
    (body : Z -> Z -> Z -> list (list (list float))
            -> result (list (list (list float)))) d0 :
  0 <= n -> 0 <= r -> 0 <= c -> shaped3 d0 n r c ->
  (forall f i j d, 0 <= f < n -> 0 <= i < r -> 0 <= j < c ->
     body f i j d = Tensor3D.set d f i j (v f i j)) ->
  exists d',
    for_ 0 n (fun f d => for_ 0 r (fun i d => for_ 0 c (body f i) d) d) d0
      = Ok d'
    /\ shaped3 d' n r c
    /\ forall f i j, 0 <= f < n -> 0 <= i < r -> 0 <= j < c ->
         Tensor3D.get d' f i j = Ok (v f i j).
Proof.
  intros Hn Hr Hc H0 Hbody.
  destruct (for_inv
    (fun f d => shaped3 d n r c /\
       forall f' i j, 0 <= f' < f -> 0 <= i < r -> 0 <= j < c ->
         Tensor3D.get d f' i j = Ok (v f' i j))
    (fun f d => for_ 0 r (fun i d => for_ 0 c (body f i) d) d) 0 n d0)
    as (d' & E & Hd' & Hcells); [done| | |].
  - split; [done|]. intros; lia.
  - intros f d Hf [Hd Hdone].
    destruct (lookup_lt_is_Some_2 d (Z.to_nat f)) as [plane0 Eplane0];
      [destruct Hd; lia|].
    pose proof (shaped3_plane _ _ _ _ _ _ Hd Eplane0) as Hplane0.
    destruct (for2_inv
      (fun k d1 => exists plane, d1 = <[Z.to_nat f := plane]> d
                                 /\ filled r c (v f) plane0 k plane)
      (body f) r c d) as (d1 & E1 & plane & -> & Hplane); [done|done| | |].
    + exists plane0. split; [now rewrite list_insert_id|].
      now apply filled_init.
    + intros i j d1 Hi Hj (plane & -> & Hplane).
      rewrite Hbody by done. unfold Tensor3D.set.
      assert (Hlt : (Z.to_nat f < length d)%nat) by (destruct Hd; lia).
      rewrite (index_lookup _ f plane), bind_Ok;
        [|lia|now apply list_lookup_insert_eq].
      destruct (filled_step r c (v f) plane0 (i * c + j) plane i j)
        as (plane' & E' & Hplane' & _); [done..|].
      rewrite E', bind_Ok. rewrite assign_in_range
        by (rewrite length_insert; lia).
      rewrite list_insert_insert_eq. eauto.
    + exists (<[Z.to_nat f := plane]> d). split; [done|].
      assert (Hlt : (Z.to_nat f < length d)%nat) by (destruct Hd; lia).
      split.
      * destruct Hd as [Hlen Hall]. split; [now rewrite length_insert|].
        apply Forall_insert; [done|]. apply Hplane.
      * intros f' i j Hf' Hi Hj. unfold Tensor3D.get.
        destruct (decide (f' = f)) as [->|Hne].
        -- rewrite (index_lookup _ f plane), bind_Ok;
             [|lia|now apply list_lookup_insert_eq].
           now apply (filled_done r c (v f) plane0).
        -- specialize (Hdone f' i j). unfold Tensor3D.get in Hdone.
           rewrite <- Hdone by (done || lia). unfold index.
           destruct (f' <? 0); [done|].
           rewrite list_lookup_insert_ne; [done|lia].
  - exists d'. split; [done|]. split; [done|].
    intros f i j Hf Hi Hj. apply Hcells; (done || lia).
Qed.

Section ConvForward.

Variables (conv : ConvLayer.t) (input : Tensor3D.t).
Hypothesis Hconv : ConvLayer.wf conv = true.
Hypothesis Hinput : Tensor3D.wf input = true.
Hypothesis Hch : Tensor3D.Channels input = ConvLayer.InChannels conv.
Hypothesis Hfit : conv_fits conv input = true.

(** The textbook output size along an axis of length [size]. *)
Let out (size : Z) : Z :=
  (size - ConvLayer.FilterSize conv + 2 * ConvLayer.Padding conv)
    `div` ConvLayer.Stride conv + 1.

Lemma conv_fits_parts :
  1 <= ConvLayer.Stride conv < 2147483648
  /\ 0 <= ConvLayer.Padding conv < 2147483648
  /\ 0 <= Tensor3D.Height input < 2147483648
  /\ 0 <= Tensor3D.Width input < 2147483648
  /\ 0 <= ConvLayer.FilterSize conv
       <= Tensor3D.Height input + 2 * ConvLayer.Padding conv
  /\ ConvLayer.FilterSize conv
       <= Tensor3D.Width input + 2 * ConvLayer.Padding conv.
Proof.
  pose proof Hconv as (_ & _ & HF & _)%ConvLayer_wf_parts.
  pose proof Hinput as (_ & HH & HW & _)%Tensor3D_wf_shaped3.
  unfold conv_fits in Hfit. change (2 ^ 31) with 2147483648 in Hfit.
  rewrite !andb_true_iff, !Z.leb_le, !Z.ltb_lt in Hfit. lia.
Qed.

Lemma out_bounds size :
  0 <= size < 2147483648 ->
  ConvLayer.FilterSize conv <= size + 2 * ConvLayer.Padding conv ->
  1 <= out size < 17179869184
  /\ forall o, 0 <= o < out size ->
       0 <= o * ConvLayer.Stride conv
         <= size - ConvLayer.FilterSize conv + 2 * ConvLayer.Padding conv.
Proof.
  intros Hsize HF.
  destruct conv_fits_parts as (HS & HP & _ & _ & HF0 & _).
  unfold out.
  set (x := size - ConvLayer.FilterSize conv + 2 * ConvLayer.Padding conv).
  assert (Hx : 0 <= x < 8589934592) by (subst x; lia).
  pose proof (Z.mul_div_le x (ConvLayer.Stride conv)) as Hq.
  assert (H0 : 0 <= x `div` ConvLayer.Stride conv)
    by (apply Z.div_pos; lia).
  split; [nia|]. intros o Ho. nia.
Qed.

Lemma out_size_spec size :
  0 <= size < 2147483648 ->
  ConvLayer.FilterSize conv <= size + 2 * ConvLayer.Padding conv ->
  ConvLayer.out_size conv size = Ok (out size).
Proof.
  intros Hsize HF.
  destruct conv_fits_parts as (HS & HP & _ & _ & HF0 & _).
  destruct (out_bounds size Hsize HF) as [Hout _]. unfold out in *.
  unfold ConvLayer.out_size, int_div.
  destruct (Z.eqb_spec (ConvLayer.Stride conv) 0); [lia|].
  rewrite bind_Ok.
  rewrite (wrap64_small (size - _)), (wrap64_small (2 * _)) by lia.
  rewrite (wrap64_small (size - _ + _)) by lia.
  rewrite Z.quot_div_nonneg by lia.
  rewrite (wrap64_small (_ `div` _)) by lia.
  now rewrite wrap64_small by lia.
Qed.

Lemma cell_spec f outH outW :
  0 <= f < ConvLayer.NumFilters conv ->
  0 <= outH < out (Tensor3D.Height input) ->
  0 <= outW < out (Tensor3D.Width input) ->
  ConvLayer.cell conv input f outH outW = Ok (conv_sum conv input f outH outW).
Proof.
  intros Hf HoH HoW.
  destruct conv_fits_parts as (HS & HP & HH & HW & HFH & HFW).
  destruct (out_bounds _ HH (proj2 HFH)) as [_ HbH].
  destruct (out_bounds _ HW HFW) as [_ HbW].
  specialize (HbH outH HoH). specialize (HbW outW HoW).
  pose proof Hconv as (_ & HC & _)%ConvLayer_wf_parts.
  unfold ConvLayer.cell, conv_sum.
  rewrite bias_at_index, bind_Ok by done.
  apply for_fold; [done|]. intros c s Hc.
  apply for_fold; [lia|]. intros fh s' Hfh.
  apply for_fold; [lia|]. intros fw s'' Hfw.
  rewrite (wrap64_small (outH * _)), (wrap64_small (outW * _)) by lia.
  rewrite (wrap64_small (outH * _ + _)), (wrap64_small (outW * _ + _)) by lia.
  rewrite !wrap64_small by lia.
  destruct (_ && _) eqn:Hin; [|done].
  rewrite !andb_true_iff, !Z.leb_le, !Z.ltb_lt in Hin.
  rewrite tensor_at_get, bind_Ok by (done || lia).
  now rewrite weight_at_get, bind_Ok by (done || lia).
Qed.

Lemma ConvLayer_Forward_cells :
  exists output, ConvLayer.Forward conv input = Ok output
    /\ Tensor3D.wf output = true
    /\ Tensor3D.Channels output = ConvLayer.NumFilters conv
    /\ Tensor3D.Height output = out (Tensor3D.Height input)
    /\ Tensor3D.Width output = out (Tensor3D.Width input)
    /\ forall f outH outW,
         0 <= f < ConvLayer.NumFilters conv ->
         0 <= outH < out (Tensor3D.Height input) ->
         0 <= outW < out (Tensor3D.Width input) ->
         Tensor3D.get (Tensor3D.Data output) f outH outW
           = Ok (conv_sum conv input f outH outW).
Proof.
  destruct conv_fits_parts as (HS & HP & HH & HW & HFH & HFW).
  destruct (out_bounds _ HH (proj2 HFH)) as [HoH _].
  destruct (out_bounds _ HW HFW) as [HoW _].
  pose proof Hconv as (HN & _)%ConvLayer_wf_parts.
  unfold ConvLayer.Forward. rewrite Hch, Z.eqb_refl. simpl negb. cbv iota.
  rewrite !out_size_spec, !bind_Ok by (done || lia).
  destruct (NewTensor3D_spec (ConvLayer.NumFilters conv)
              (out (Tensor3D.Height input)) (out (Tensor3D.Width input)))
    as (R & ER & HRc & HRh & HRw & HRd); [lia..|].
  rewrite ER, bind_Ok.
  destruct (fill3 (ConvLayer.NumFilters conv)
              (out (Tensor3D.Height input)) (out (Tensor3D.Width input))
              (conv_sum conv input)
              (fun f outH outW data =>
                 sum ← ConvLayer.cell conv input f outH outW;
                 Tensor3D.set data f outH outW sum)
              (Tensor3D.Data R)) as (d & E & Hd & Hcells); [lia..|done| |].
  - intros f i j data Hf Hi Hj. now rewrite cell_spec, bind_Ok.
  - rewrite E, bind_Ok. eexists. split; [reflexivity|]. simpl.
    rewrite HRc, HRh, HRw. split; [|done].
    apply Tensor3D_wf_shaped3. simpl.
    split; [lia|]. split; [lia|]. split; [lia|done].
Qed.

End ConvForward.

(** ** Adam *)

(** Two nested loops that rewrite every cell of a matrix reached through
    a pointer. *)
Lemma fill2_ptr (v : Z -> Z -> float)
    (body : Z -> Z -> option Matrix.t -> result (option Matrix.t))
    (m0 : Matrix.t) r c :
  0 <= r -> 0 <= c -> shaped (Matrix.Data m0) r c ->
  (forall i j m, 0 <= i < r -> 0 <= j < c ->
     Matrix.get (Matrix.Data m) i j = Matrix.get (Matrix.Data m0) i j ->
     body i j (Some m) = write (Some m) i j (v i j)) ->
  exists m', for_ 0 r (fun i m => for_ 0 c (body i) m) (Some m0) = Ok (Some m')
    /\ Matrix.Rows m' = Matrix.Rows m0 /\ Matrix.Cols m' = Matrix.Cols m0
    /\ shaped (Matrix.Data m') r c
    /\ forall i j, 0 <= i < r -> 0 <= j < c ->
         Matrix.get (Matrix.Data m') i j = Ok (v i j).
Proof.
  intros Hr Hc H0 Hbody.
  destruct (for2_inv
    (fun k (st : option Matrix.t) =>
       exists m, st = Some m /\ Matrix.Rows m = Matrix.Rows m0
                 /\ Matrix.Cols m = Matrix.Cols m0
                 /\ filled r c v (Matrix.Data m0) k (Matrix.Data m))
    body r c (Some m0)) as (st & E & m' & -> & Hr' & Hc' & Hm');
    [done|done| | |].
  - exists m0. split; [done|]. split; [done|]. split; [done|].
    now apply filled_init.
  - intros i j st Hi Hj (m & -> & Hrm & Hcm & Hm).
    rewrite Hbody by
      (try done; now apply (filled_current r c v (Matrix.Data m0) (i * c + j))).
    destruct (filled_step r c v (Matrix.Data m0) (i * c + j) _ i j Hm)
      as (d & Ed & Hd & _); [done..|].
    unfold write. simpl deref. rewrite bind_Ok, Ed, bind_Ok.
    eexists. split; [reflexivity|]. eexists. split; [reflexivity|]. done.
  - exists m'. split; [done|]. split; [done|]. split; [done|].
    split; [apply Hm'|].
    intros i j. now apply (filled_done r c v (Matrix.Data m0)).
Qed.

Section AdamUpdate.
Context `{GoMath}.

Lemma Adam_Update_T adam name p g :
  AdamOptimizer.T (AdamOptimizer.Update adam name p g).1
  = wrap64 (AdamOptimizer.T adam + 1).
Proof.
  unfold AdamOptimizer.Update. cbv zeta.
  destruct (match _ !! _ with Some _ => _ | None => _ end) as [[M0 V0]| |];
    [|done..].
  now destruct (AdamOptimizer.first_moment _ _ _ _ ≫= _) as [[[m v] u]| |].
Qed.

Variables (adam : AdamOptimizer.t) (name : string) (p g : Matrix.t).
Hypothesis Hp : Matrix.wf p = true.
Hypothesis Hg : Matrix.wf g = true.
Hypothesis Hshape : Matrix.same_shape p g = true.
Hypothesis Hfit : adam_fits adam name p = true.

Let t := wrap64 (AdamOptimizer.T adam + 1).
Let m1 (i j : Z) : float :=
  adam_m adam (prior (AdamOptimizer.M adam) name i j) (Matrix.entry g i j).
Let v1 (i j : Z) : float :=
  adam_v adam (prior (AdamOptimizer.V adam) name i j) (Matrix.entry g i j).

Lemma adam_fits_parts :
  fits (AdamOptimizer.M adam) name p = true
  /\ fits (AdamOptimizer.V adam) name p = true
  /\ (AdamOptimizer.M adam !! name = None
      <-> AdamOptimizer.V adam !! name = None).
Proof.
  unfold adam_fits, fits in *.
  destruct (AdamOptimizer.M adam !! name), (AdamOptimizer.V adam !! name);
    try done.
  apply andb_true_iff in Hfit as [-> ->]. done.
Qed.

Lemma Adam_Update_cells :
  exists adam' m' v' u, AdamOptimizer.Update adam name p g = (adam', Ok u)
    /\ AdamOptimizer.T adam' = t
    /\ AdamOptimizer.LearningRate adam' = AdamOptimizer.LearningRate adam
    /\ AdamOptimizer.Beta1 adam' = AdamOptimizer.Beta1 adam
    /\ AdamOptimizer.Beta2 adam' = AdamOptimizer.Beta2 adam
    /\ AdamOptimizer.Epsilon adam' = AdamOptimizer.Epsilon adam
    /\ AdamOptimizer.M adam' = <[name := m']> (AdamOptimizer.M adam)
    /\ AdamOptimizer.V adam' = <[name := v']> (AdamOptimizer.V adam)
    /\ has_shape m' (Matrix.Rows p) (Matrix.Cols p) = true
    /\ has_shape v' (Matrix.Rows p) (Matrix.Cols p) = true
    /\ has_shape u (Matrix.Rows p) (Matrix.Cols p) = true
    /\ forall i j, 0 <= i < Matrix.Rows p -> 0 <= j < Matrix.Cols p ->
         Matrix.get (Matrix.Data m') i j = Ok (m1 i j)
         /\ Matrix.get (Matrix.Data v') i j = Ok (v1 i j)
         /\ Matrix.get (Matrix.Data u) i j =
              Ok (adam_value adam t
                    (prior (AdamOptimizer.M adam) name i j)
                    (prior (AdamOptimizer.V adam) name i j)
                    (Matrix.entry p i j) (Matrix.entry g i j)).
Proof.
  pose proof Hshape as [Hr Hc]%same_shape_eq.
  pose proof Hp as (Hrp & Hcp & _)%wf_shaped.
  destruct adam_fits_parts as (HfM & HfV & Hboth).
  destruct (lazy_init (AdamOptimizer.M adam) name p Hp HfM)
    as (M0 & m0 & EM0 & Hm0 & _ & HinsM & Hm0r & Hm0c & Hm0d & Hm0cells).
  destruct (lazy_init (AdamOptimizer.V adam) name p Hp HfV)
    as (V0 & v0 & EV0 & Hv0 & _ & HinsV & Hv0r & Hv0c & Hv0d & Hv0cells).
  set (r := Matrix.Rows p) in *. set (c := Matrix.Cols p) in *.
  set (adam1 := AdamOptimizer.mk (AdamOptimizer.LearningRate adam)
                  (AdamOptimizer.Beta1 adam) (AdamOptimizer.Beta2 adam)
                  (AdamOptimizer.Epsilon adam) t (AdamOptimizer.M adam)
                  (AdamOptimizer.V adam)).
  (* first moment *)
  destruct (fill2_ptr m1
    (fun i j m =>
       x ← read m i j;
       g0 ← Matrix.get (Matrix.Data g) i j;
       write m i j (AdamOptimizer.Beta1 adam1 * x
                    + (1 - AdamOptimizer.Beta1 adam1) * g0)%float)
    m0 r c) as (m' & Em' & Hm'r & Hm'c & Hm'd & Hm'cells); [done..| |].
  { intros i j m Hi Hj Hcur. rewrite read_Some, Hcur, Hm0cells, bind_Ok by done.
    now rewrite (get_entry g i j), bind_Ok by (done || lia). }
  (* second moment *)
  destruct (fill2_ptr v1
    (fun i j v =>
       x ← read v i j;
       g0 ← Matrix.get (Matrix.Data g) i j;
       write v i j (AdamOptimizer.Beta2 adam1 * x
                    + (1 - AdamOptimizer.Beta2 adam1) * g0 * g0)%float)
    v0 r c) as (v' & Ev' & Hv'r & Hv'c & Hv'd & Hv'cells); [done..| |].
  { intros i j v Hi Hj Hcur. rewrite read_Some, Hcur, Hv0cells, bind_Ok by done.
    now rewrite (get_entry g i j), bind_Ok by (done || lia). }
  (* the two bias corrections *)
  assert (Hcorr : forall beta (a : Matrix.t) (w : Z -> Z -> float),
    (forall i j, 0 <= i < r -> 0 <= j < c ->
       Matrix.get (Matrix.Data a) i j = Ok (w i j)) ->
    exists hat, AdamOptimizer.corrected beta t p (Some a) = Ok hat
      /\ Matrix.wf hat = true
      /\ Matrix.Rows hat = r /\ Matrix.Cols hat = c
      /\ forall i j, 0 <= i < r -> 0 <= j < c ->
           Matrix.get (Matrix.Data hat) i j
             = Ok (bias_corrected beta t (w i j))).
  { intros beta a w Ha. unfold AdamOptimizer.corrected. fold r c.
    destruct (NewMatrix_spec r c) as (R & ER & HRr & HRc & HRd & _); [done..|].
    rewrite ER, bind_Ok.
    destruct (fill2 r c (fun i j => bias_corrected beta t (w i j))
      (fun i j data =>
         x ← read (Some a) i j;
         Matrix.set data i j (x / (1 - Pow beta (float64_of_int t)))%float)
      (Matrix.Data R)) as (d & E & Hd & Hcells); [done..| |].
    - intros i j data Hi Hj _ _. now rewrite read_Some, Ha, bind_Ok.
    - rewrite E, bind_Ok. eexists. split; [reflexivity|]. simpl.
      rewrite HRr, HRc. split; [|done]. apply wf_shaped. simpl. done. }
  destruct (Hcorr (AdamOptimizer.Beta1 adam) m' m1 Hm'cells)
    as (mHat & EmHat & HwmHat & HmHatr & HmHatc & HmHatcells).
  destruct (Hcorr (AdamOptimizer.Beta2 adam) v' v1 Hv'cells)
    as (vHat & EvHat & HwvHat & HvHatr & HvHatc & HvHatcells).
  (* the step *)
  destruct (NewMatrix_spec r c) as (R & ER & HRr & HRc & HRd & _); [done..|].
  destruct (fill2 r c
    (fun i j => adam_value adam t (prior (AdamOptimizer.M adam) name i j)
                  (prior (AdamOptimizer.V adam) name i j)
                  (Matrix.entry p i j) (Matrix.entry g i j))
    (fun i j data =>
       p0 ← Matrix.get (Matrix.Data p) i j;
       mh ← Matrix.get (Matrix.Data mHat) i j;
       vh ← Matrix.get (Matrix.Data vHat) i j;
       Matrix.set data i j
         (p0 - AdamOptimizer.LearningRate adam1 * mh
               / (Sqrt vh + AdamOptimizer.Epsilon adam1))%float)
    (Matrix.Data R)) as (d & E & Hd & Hcells); [done..| |].
  { intros i j data Hi Hj _ _.
    rewrite (get_entry p i j), bind_Ok by done.
    now rewrite HmHatcells, bind_Ok, HvHatcells, bind_Ok by done. }
  (* the call *)
  unfold AdamOptimizer.Update. cbv zeta. fold t r c. fold adam1.
  assert (Einit :
    match AdamOptimizer.M adam1 !! name with
    | Some _ => Ok (AdamOptimizer.M adam1, AdamOptimizer.V adam1)
    | None =>
        m0 ← Matrix.NewMatrix r c;
        v0 ← Matrix.NewMatrix r c;
        Ok (<[name:=m0]> (AdamOptimizer.M adam1),
            <[name:=v0]> (AdamOptimizer.V adam1))
    end = Ok (M0, V0)).
  { simpl AdamOptimizer.M. simpl AdamOptimizer.V.
    destruct (AdamOptimizer.M adam !! name) as [a|] eqn:EM.
    - destruct (AdamOptimizer.V adam !! name) as [b|] eqn:EV.
      + now injection EM0 as <-; injection EV0 as <-.
      + destruct Hboth as [_ Hb]. discriminate (Hb eq_refl).
    - destruct Hboth as [Hb _]. rewrite (Hb eq_refl) in EV0.
      destruct (Matrix.NewMatrix r c) as [z| |]; [|done..].
      rewrite bind_Ok in *. now injection EM0 as <-; injection EV0 as <-. }
  rewrite Einit, Hm0, Hv0.
  unfold AdamOptimizer.first_moment, AdamOptimizer.second_moment.
  fold r c. rewrite Em', bind_Ok, Ev', bind_Ok.
  simpl AdamOptimizer.Beta1. simpl AdamOptimizer.Beta2. simpl AdamOptimizer.T.
  rewrite EmHat, bind_Ok, EvHat, bind_Ok.
  unfold AdamOptimizer.step. fold r c. rewrite ER, bind_Ok, E, !bind_Ok.
  simpl write_back.
  eexists _, m', v', _. split; [reflexivity|]. simpl.
  repeat (split; [done|]).
  split. { rewrite <- (insert_insert_eq M0 name m' m0), HinsM.
           apply insert_insert_eq. }
  split. { rewrite <- (insert_insert_eq V0 name v' v0), HinsV.
           apply insert_insert_eq. }
  split. { apply has_shape_spec. rewrite Hm'r, Hm'c. split; [|done].
           apply wf_shaped. rewrite Hm'r, Hm'c, Hm0r, Hm0c. done. }
  split. { apply has_shape_spec. rewrite Hv'r, Hv'c. split; [|done].
           apply wf_shaped. rewrite Hv'r, Hv'c, Hv0r, Hv0c. done. }
  split. { apply has_shape_spec. simpl. split; [|done].
           apply wf_shaped. simpl. rewrite HRr, HRc. done. }
  intros i j Hi Hj. split; [now apply Hm'cells|].
  split; [now apply Hv'cells|now apply Hcells].
Qed.

End AdamUpdate.

(** ** The calls of [Update] in a training step *)

Section UpdateWeights.
Context `{GoMath}.

Lemma update_param_Dense idx i d o log st' :
  i = 0 \/ i = 1 ->
  Sequential.update_param idx i (Layer.OfDense d, Some o, log) = Ok st' ->
  exists name p g data,
    layer_calls idx (Layer.OfDense d) !! Z.to_nat i = Some (name, p, g)
    /\ st' = (Layer.store_param (Layer.OfDense d) i data,
              Some (Optimizer.Update o name p g).1, log ++ [name]).
Proof.
  intros Hi E. unfold Sequential.update_param in E.
  destruct Hi as [-> | ->]; simpl in E;
    destruct (Optimizer.Update o _ _ _) as [o' r] eqn:Eo;
    apply bind_eq_Ok in E as (u & -> & E);
    apply bind_eq_Ok in E as (data & _ & [= <-]);
    eexists _, _, _, data; (split; [reflexivity|]); now rewrite Eo.
Qed.

Lemma store_param_Dense_lists d i data :
  i = 0 \/ i = 1 ->
  exists d', Layer.store_param (Layer.OfDense d) i data = Layer.OfDense d'
    /\ Dense.weightsGrad d' = Dense.weightsGrad d
    /\ Dense.biasGrad d' = Dense.biasGrad d
    /\ (i = 0 -> Dense.Bias d' = Dense.Bias d).
Proof. intros [-> | ->]; simpl; eexists; split; done. Qed.

Lemma update_from_calls layers :
  forall idx o log layers' opt' log',
  Sequential.update_from idx layers (Some o, log) = Ok (layers', (opt', log')) ->
  opt' = Some (optimizer_after o (update_calls idx layers))
  /\ log' = log ++ (update_calls idx layers).*1.*1
  /\ length layers' = length layers.
Proof.
  induction layers as [|layer rest IH]; intros idx o log layers' opt' log' E.
  - simpl in E. injection E as <- <- <-. simpl. now rewrite app_nil_r.
  - simpl in E. apply bind_eq_Ok in E as ([[layer1 opt1] log1] & E1 & E).
    apply bind_eq_Ok in E as ([rest' [opt2 log2]] & E2 & [= <- <- <-]).
    assert (Hlayer : opt1 = Some (optimizer_after o (layer_calls idx layer))
                     /\ log1 = log ++ (layer_calls idx layer).*1.*1).
    { destruct layer as [d|r|s]; [|simpl in E1; now injection E1 as <- <- <-;
        rewrite app_nil_r..].
      change (Layer.GetParams (Layer.OfDense d))
        with [Dense.Weights d; Dense.Bias d] in E1.
      cbn [range_from fst snd] in E1.
      apply bind_eq_Ok in E1 as (st1 & Ea & E1).
      apply bind_eq_Ok in E1 as (st2 & Eb & [= ->]).
      apply update_param_Dense in Ea as (n0 & p0 & g0 & data0 & Ec0 & ->);
        [|now left].
      destruct (store_param_Dense_lists d 0 data0) as (d1 & Ed1 & Hwg & Hbg & Hb);
        [now left|].
      rewrite Ed1 in Eb.
      apply update_param_Dense in Eb as (n1 & p1 & g1 & data1 & Ec1 & Est);
        [|now right].
      injection Est as -> -> ->.
      simpl in Ec0, Ec1. injection Ec0 as <- <- <-. injection Ec1 as <- <- <-.
      rewrite Hbg, (Hb eq_refl). simpl. now rewrite <- app_assoc. }
    destruct Hlayer as [-> ->].
    apply IH in E2 as (-> & -> & Hlen). simpl.
    unfold optimizer_after. rewrite foldl_app, !fmap_app, app_assoc.
    now rewrite Hlen.
Qed.

Lemma optimizer_after_Adam adam calls :
  optimizer_after (Optimizer.OfAdam adam) calls
  = Optimizer.OfAdam (adam_after adam calls).
Proof.
  revert adam. induction calls as [|[[name p] g] rest IH]; intros adam; [done|].
  unfold optimizer_after, adam_after in *. simpl.
  destruct (AdamOptimizer.Update adam name p g) as [adam' r]. simpl. apply IH.
Qed.

Lemma update_calls_length layers :
  forall idx, Z.of_nat (length (update_calls idx layers)) = param_count layers.
Proof.
  unfold param_count, all_params.
  induction layers as [|layer rest IH]; intros idx; [done|]. simpl.
  rewrite !length_app, !Nat2Z.inj_add, IH. f_equal.
  now destruct layer.
Qed.

(** Without overflow every call advances the counter by one. *)
Lemma adam_after_T calls :
  forall adam,
  0 <= AdamOptimizer.T adam ->
  AdamOptimizer.T adam + Z.of_nat (length calls) < 9223372036854775808 ->
  AdamOptimizer.T (adam_after adam calls)
  = AdamOptimizer.T adam + Z.of_nat (length calls).
Proof.
  induction calls as [|[[name p] g] rest IH]; intros adam H0 Hmax; simpl.
  - lia.
  - simpl length in Hmax. unfold adam_after in *. simpl.
    pose proof (Adam_Update_T adam name p g) as HT.
    rewrite wrap64_small in HT by lia.
    rewrite IH; rewrite HT; lia.
Qed.

Lemma adam_before_T calls :
  forall adam j a,
  0 <= AdamOptimizer.T adam ->
  AdamOptimizer.T adam + Z.of_nat (length calls) < 9223372036854775808 ->
  adam_before adam calls !! j = Some a ->
  AdamOptimizer.T a = AdamOptimizer.T adam + Z.of_nat j.
Proof.
  induction calls as [|[[name p] g] rest IH]; intros adam j a H0 Hmax E;
    [done|].
  simpl length in Hmax. simpl in E. destruct j as [|j].
  - injection E as <-. lia.
  - simpl in E.
    pose proof (Adam_Update_T adam name p g) as HT.
    rewrite wrap64_small in HT by lia.
    apply IH in E; rewrite ?HT; lia.
Qed.

Lemma adam_before_length adam calls :
  length (adam_before adam calls) = length calls.
Proof.
  revert adam. induction calls as [|[[name p] g] rest IH]; intros adam; [done|].
  simpl. now rewrite IH.
Qed.

(** A training step that succeeds has gone through [UpdateWeights]. *)
Lemma TrainOnBatch_Ok s X y s' loss :
  Sequential.TrainOnBatch s X y = (s', Ok loss) ->
  exists s2, same_but_caches s s2 /\ Sequential.UpdateWeights s2 = Ok s'.
Proof.
  unfold Sequential.TrainOnBatch.
  pose proof (Forward_same s X) as H1.
  destruct (Sequential.Forward s X) as [s1 [predictions|m|]]; simpl in H1;
    [|done..].
  destruct (Sequential.loss_of s1 ≫= _) as [l|m|]; [|done..].
  destruct (Sequential.loss_of s1 ≫= _) as [gradLoss|m|]; [|done..].
  pose proof (Backward_same s1 gradLoss) as H2.
  destruct (Sequential.Backward s1 gradLoss) as [s2 [u|m|]]; simpl in H2;
    [|done..].
  destruct (Sequential.UpdateWeights s2) as [s3|m|] eqn:E3; [|done..].
  intros [= <- _]. exists s2. split; [|done].
  now apply (same_but_caches_trans s s1).
Qed.

End UpdateWeights.

(** ** Softmax *)

Lemma running_max_loop (xs : list float) :
  forall i m0,
  range_from i xs (fun _ v max => Ok (if (max <? v)%float then v else max)) m0
  = Ok (foldl (fun m v => if (m <? v)%float then v else m) m0 xs).
Proof.
  induction xs as [|x xs IH]; intros i m0; simpl; [done|]. apply IH.
Qed.

(** Writing [f v] at position [i] for every element [v] at position [i],
    into a buffer of the same length, while adding up what was written. *)
Lemma map_sum_loop (f : float -> float) (todo : list float) :
  forall (done : list float) (s : float),
  range_from (Z.of_nat (length done)) todo
    (fun i v '(buf, sum) =>
       buf ← assign buf i (f v);
       e ← index buf i;
       Ok (buf, (sum + e)%float))
    ((f <$> done) ++ replicate (length todo) 0%float, s)
  = Ok (f <$> (done ++ todo),
        foldl (fun s e => (s + e)%float) s (f <$> todo)).
Proof.
  induction todo as [|v todo IH]; intros done s.
  - simpl. now rewrite !app_nil_r.
  - cbn [range_from length replicate].
    assert (Hlen : length (f <$> done) = length done) by apply length_fmap.
    rewrite assign_in_range
      by (rewrite length_app, Hlen; simpl; lia).
    rewrite bind_Ok, Nat2Z.id.
    rewrite insert_app_r_alt by lia.
    rewrite Hlen, Nat.sub_diag. cbn [list_insert insert].
    rewrite (index_lookup _ _ (f v)); [|lia|].
    2:{ rewrite Nat2Z.id, lookup_app_r by lia.
        now rewrite Hlen, Nat.sub_diag. }
    rewrite bind_Ok.
    replace (Z.of_nat (length done) + 1) with (Z.of_nat (length (done ++ [v])))
      by (rewrite length_app; simpl; lia).
    replace ((f <$> done) ++ f v :: replicate (length todo) 0%float)
      with ((f <$> (done ++ [v])) ++ replicate (length todo) 0%float)
      by (rewrite fmap_app, <- app_assoc; done).
    rewrite bind_Ok, IH. now rewrite <- app_assoc.
Qed.

(** Writing [g (ev[i])] at every position [i] of a buffer as long as
    [ev]. *)
Lemma map_index_loop (g : float -> float) (todo : list float) :
  forall (done : list float),
  range_from (Z.of_nat (length done)) todo
    (fun i (_ : float) out =>
       e ← index (done ++ todo) i; assign out i (g e))
    ((g <$> done) ++ replicate (length todo) 0%float)
  = Ok (g <$> (done ++ todo)).
Proof.
  induction todo as [|v todo IH]; intros done.
  - simpl. now rewrite !app_nil_r.
  - cbn [range_from length replicate].
    assert (Hlen : length (g <$> done) = length done) by apply length_fmap.
    rewrite (index_lookup _ _ v); [|lia|].
    2:{ rewrite Nat2Z.id, lookup_app_r by lia. now rewrite Nat.sub_diag. }
    rewrite bind_Ok.
    rewrite assign_in_range
      by (rewrite length_app, Hlen; simpl; lia).
    rewrite bind_Ok, Nat2Z.id.
    rewrite insert_app_r_alt by lia.
    rewrite Hlen, Nat.sub_diag. cbn [list_insert insert].
    replace (Z.of_nat (length done) + 1) with (Z.of_nat (length (done ++ [v])))
      by (rewrite length_app; simpl; lia).
    replace ((g <$> done) ++ g v :: replicate (length todo) 0%float)
      with ((g <$> (done ++ [v])) ++ replicate (length todo) 0%float)
      by (rewrite fmap_app, <- app_assoc; done).
    specialize (IH (done ++ [v])). rewrite <- app_assoc in IH. simpl in IH.
    rewrite IH. done.
Qed.

Lemma map_sum_loop0 (f : float -> float) (xs : list float) :
  range_from 0 xs
    (fun i v '(buf, sum) =>
       buf ← assign buf i (f v);
       e ← index buf i;
       Ok (buf, (sum + e)%float))
    (replicate (length xs) 0%float, 0%float)
  = Ok (f <$> xs, foldl (fun s e => (s + e)%float) 0%float (f <$> xs)).
Proof. exact (map_sum_loop f xs [] 0%float). Qed.

Lemma map_index_loop0 (g : float -> float) (xs : list float) :
  range_from 0 xs
    (fun i (_ : float) out => e ← index xs i; assign out i (g e))
    (replicate (length xs) 0%float)
  = Ok (g <$> xs).
Proof. exact (map_index_loop g xs []). Qed.

(** What [Softmax] computes on a nonempty input: with [m] the running
    maximum of the input, the values [Exp (v - m)] divided by their sum,
    added up from [0.0] in order. *)
Lemma Softmax_formula `{GoMath} (v0 : float) (rest : list float) :
  let input := v0 :: rest in
  let m := foldl (fun m v => if (m <? v)%float then v else m) v0 input in
  let exps := (fun v => Exp (v - m)) <$> input in
  let sum := foldl (fun s e => (s + e)%float) 0%float exps in
  Softmax input = Ok ((fun e => (e / sum)%float) <$> exps).
Proof.
  intros input m exps sum. unfold Softmax.
  change (index input 0) with (Ok v0). rewrite bind_Ok.
  rewrite running_max_loop, bind_Ok. fold m.
  rewrite make_Ok, bind_Ok, Nat2Z.id by lia.
  rewrite map_sum_loop0, bind_Ok. fold exps. fold sum.
  rewrite bind_Ok.
  replace (length input) with (length exps) by apply length_fmap.
  apply map_index_loop0.
Qed.

(** * The embedding on small inputs *)

Example wrap64_overflow : wrap64 (9223372036854775807 + 1) = - 9223372036854775808.
Proof. reflexivity. Qed.

Example int_div_truncates : int_div (-1) 2 = Ok 0 /\ (-1) `div` 2 = -1.
Proof. split; reflexivity. Qed.

Example int_div_by_zero : int_div 1 0 = Panic.
Proof. reflexivity. Qed.

Example float64_of_int_rounds :
  float64_of_int 3 = 3%float
  /\ float64_of_int 9007199254740993 = 9007199254740992%float.
Proof. split; reflexivity. Qed.

Example NewMatrix_zeroes :
  Matrix.NewMatrix 2 3 = Ok (Matrix.mk 2 3 [[0; 0; 0]; [0; 0; 0]]%float).
Proof. reflexivity. Qed.

Example NewMatrix_negative : Matrix.NewMatrix (-1) 1 = Panic.
Proof. reflexivity. Qed.

Example Multiply_example :
  Matrix.Multiply Examples.A22 Examples.B21
  = Ok (Matrix.mk 2 1 [[17]; [39]]%float).
Proof. reflexivity. Qed.

Example Multiply_mismatch :
  Matrix.Multiply Examples.B21 Examples.A22
  = Err "incompatible dimensions: (2, 1) and (2, 2)".
Proof. vm_compute. reflexivity. Qed.

Example Dense_Forward_example :
  Dense.Forward Examples.dense21 Examples.A22
  = (Examples.dense21, Ok (Matrix.mk 2 1 [[3]; [7]]%float)).
Proof. reflexivity. Qed.

Example Dense_Forward_mismatch :
  Dense.Forward Examples.dense21 Examples.wide13
  = (Examples.dense21, Err "input size mismatch: got 3, expected 2").
Proof. vm_compute. reflexivity. Qed.

Example Dense_Backward_example :
  (Dense.Backward Examples.dense21 Examples.ones21).2
  = Ok (Matrix.mk 2 2 [[1; 1]; [1; 1]]%float)
  /\ Dense.weightsGrad (Dense.Backward Examples.dense21 Examples.ones21).1
     = Matrix.mk 2 1 [[2]; [3]]%float
  /\ Dense.biasGrad (Dense.Backward Examples.dense21 Examples.ones21).1
     = Matrix.mk 1 1 [[1%float]].
Proof. repeat split; reflexivity. Qed.

Example ReLU_Backward_example :
  (ReLULayer.Backward
     (ReLULayer.mk (Some (Matrix.mk 2 2 [[1; -2]; [0; 4]]%float)))
     (Matrix.mk 2 2 [[5; 6]; [7; 8]]%float)).2
  = Ok (Matrix.mk 2 2 [[5; 0]; [0; 8]]%float).
Proof. reflexivity. Qed.

Example ReLU_Backward_before_Forward :
  (ReLULayer.Backward (ReLULayer.mk None) Examples.A22).2 = Panic.
Proof. reflexivity. Qed.

Example MSE_Forward_example :
  MSE.Forward MSE.mk Examples.A22 (Matrix.mk 2 2 [[1; 2]; [3; 2]]%float)
  = Ok 0.5%float.
Proof. reflexivity. Qed.

Example ConvLayer_Forward_example :
  ConvLayer.Forward (Examples.conv_ones 0.5)
    (Examples.input44 (fun i j => float64_of_int (4 * i + j + 1)))
  = Ok (Tensor3D.mk 1 3 3
          [[[14.5; 18.5; 22.5]; [30.5; 34.5; 38.5]; [46.5; 50.5; 54.5]]]%float).
Proof. reflexivity. Qed.

(** * The claims *)

(** Two values that [==] tells apart are different. *)
Lemma float_neq (x y : float) :
  (x =? y)%float = false -> is_nan x = false -> x <> y.
Proof.
  intros Hne Hnan ->. unfold is_nan in Hnan. rewrite Hne in Hnan. discriminate.
Qed.

(** ** C4: matrix multiplication *)

(** C4. For well-formed matrices [A] (m x k) and [B] (r x n), [Multiply]
    returns an error exactly when [k <> r]; otherwise it returns the
    m x n matrix whose entry [(i, j)] is the sum over [t < k] of
    [A[i][t] * B[t][j]], added up in the order of the loop. *)
Theorem Multiply_spec (A B : Matrix.t) :
  Matrix.wf A = true -> Matrix.wf B = true ->
  (failed (Matrix.Multiply A B) <-> Matrix.Cols A <> Matrix.Rows B)
  /\ (Matrix.Cols A = Matrix.Rows B ->
      exists M, Matrix.Multiply A B = Ok M
        /\ Matrix.wf M = true
        /\ Matrix.Rows M = Matrix.Rows A /\ Matrix.Cols M = Matrix.Cols B
        /\ forall i j, 0 <= i < Matrix.Rows A -> 0 <= j < Matrix.Cols B ->
             Matrix.get (Matrix.Data M) i j =
               Ok (fsum (Matrix.Cols A)
                     (fun t => Matrix.entry A i t * Matrix.entry B t j)%float)).
Proof.
  intros HA HB. split; [|now apply Multiply_Ok].
  split.
  - intros [msg E] Hk.
    destruct (Multiply_Ok A B HA HB Hk) as (M & EM & _). congruence.
  - intros Hk. unfold failed, Matrix.Multiply.
    destruct (Z.eqb_spec (Matrix.Cols A) (Matrix.Rows B)); [done|].
    simpl. eauto.
Qed.

Lemma Multiply_spec_witness :
  Matrix.wf Examples.A22 = true /\ Matrix.wf Examples.B21 = true
  /\ exists M, Matrix.Multiply Examples.A22 Examples.B21 = Ok M
       /\ Matrix.Rows M = 2 /\ Matrix.Cols M = 1.
Proof.
  split; [reflexivity|]. split; [reflexivity|].
  destruct (Multiply_spec Examples.A22 Examples.B21 eq_refl eq_refl)
    as [_ HOk].
  destruct (HOk eq_refl) as (M & E & _ & Hr & Hc & _).
  exists M. split; [exact E|]. split; [exact Hr|exact Hc].
Defined.

(** ** C5: the backward pass of the ReLU layer *)

(** C5. For a ReLU layer whose cached forward input [X] has the shape of
    [gradOutput], [Backward] returns a matrix of that shape with entry
    [(i, j)] equal to [gradOutput[i][j]] where [X[i][j] > 0] and to [0]
    where [X[i][j] <= 0]. *)
Theorem ReLU_Backward_spec (r : ReLULayer.t) (X g : Matrix.t) :
  ReLULayer.lastInput r = Some X ->
  Matrix.wf X = true -> Matrix.wf g = true -> Matrix.same_shape X g = true ->
  exists out, ReLULayer.Backward r g = (r, Ok out)
    /\ Matrix.wf out = true /\ Matrix.same_shape out g = true
    /\ forall i j, 0 <= i < Matrix.Rows g -> 0 <= j < Matrix.Cols g ->
         ((0 <? Matrix.entry X i j)%float = true ->
            Matrix.get (Matrix.Data out) i j = Ok (Matrix.entry g i j))
         /\ ((Matrix.entry X i j <=? 0)%float = true ->
            Matrix.get (Matrix.Data out) i j = Ok 0%float).
Proof.
  intros HX HwX Hwg Hshape.
  destruct (ReLU_Backward_cells r X g HX HwX Hwg Hshape)
    as (out & E & Hwf & Hs & Hcells).
  exists out. split; [done|]. split; [done|]. split; [done|].
  intros i j Hi Hj. rewrite Hcells by done. split.
  - now intros ->.
  - intros Hle. now rewrite (leb_zero_not_pos _ Hle).
Qed.

Lemma ReLU_Backward_spec_witness :
  Matrix.wf Examples.A22 = true
  /\ Matrix.same_shape Examples.A22 Examples.A22 = true
  /\ exists out,
       ReLULayer.Backward (ReLULayer.mk (Some Examples.A22)) Examples.A22
         = (ReLULayer.mk (Some Examples.A22), Ok out)
       /\ Matrix.wf out = true.
Proof.
  split; [reflexivity|]. split; [reflexivity|].
  destruct (ReLU_Backward_spec (ReLULayer.mk (Some Examples.A22))
              Examples.A22 Examples.A22 eq_refl eq_refl eq_refl eq_refl)
    as (out & E & Hwf & _).
  exists out. split; [exact E|exact Hwf].
Defined.

(** ** C1: the backward pass of the dense layer *)

(** C1, as the specification states it, fails: with a cached input of one
    row and an upstream gradient of two rows and [OutputSize] columns,
    [Backward] divides the weight-gradient sum over the one cached row by
    two.  The claim gives [(1/1) * (1 * 1) = 1], the program [0.5]. *)
Lemma Dense_Backward_rows_counterexample :
  Dense_wf Examples.dense11 = true
  /\ Dense.lastInput Examples.dense11 = Some Examples.one11
  /\ Matrix.wf Examples.ones21 = true
  /\ Matrix.Cols Examples.ones21 = Dense.OutputSize Examples.dense11
  /\ Matrix.get
       (Matrix.Data
          (Dense.weightsGrad
             (Dense.Backward Examples.dense11 Examples.ones21).1)) 0 0
     = Ok 0.5%float
  /\ (fsum (Matrix.Rows Examples.one11)
        (fun b => Matrix.entry Examples.one11 b 0
                  * Matrix.entry Examples.ones21 b 0)
      / float64_of_int (Matrix.Rows Examples.one11))%float = 1%float
  /\ ~ (forall d' gradInput,
          Dense.Backward Examples.dense11 Examples.ones21
            = (d', Ok gradInput) ->
          Matrix.get (Matrix.Data (Dense.weightsGrad d')) 0 0
          = Ok (fsum (Matrix.Rows Examples.one11)
                  (fun b => Matrix.entry Examples.one11 b 0
                            * Matrix.entry Examples.ones21 b 0)
                / float64_of_int (Matrix.Rows Examples.one11))%float).
Proof.
  repeat (split; [reflexivity|]). intros Hclaim.
  assert (Hneq : 0.5%float <> 1%float) by now apply float_neq.
  apply Hneq.
  specialize (Hclaim _ _ eq_refl).
  apply (f_equal (fun r => match r with Ok x => x | _ => 0%float end))
    in Hclaim.
  exact Hclaim.
Qed.

(** C1, amended.  For a dense layer in the state its constructor and its
    methods establish, with cached forward input [X] of [B] rows, and an
    upstream gradient of [OutputSize] columns and [B] rows, [Backward]
    leaves the parameters alone, sets weight gradient [(i, j)] to the sum
    over [b < B] of [X[b][i] * gradOutput[b][j]] divided by [B] and bias
    gradient [j] to the sum over [b < B] of [gradOutput[b][j]] divided by
    [B], and returns the B x InputSize matrix with entry [(b, i)] the sum
    over [k < OutputSize] of [gradOutput[b][k] * Weights[i][k]], not
    divided. *)
Theorem Dense_Backward_spec (d : Dense.t) (X g : Matrix.t) :
  Dense_wf d = true ->
  Dense.lastInput d = Some X ->
  Matrix.wf g = true ->
  Matrix.Cols g = Dense.OutputSize d ->
  Matrix.Rows g = Matrix.Rows X ->
  let B := Matrix.Rows X in
  exists d' gradInput, Dense.Backward d g = (d', Ok gradInput)
    /\ Dense.Weights d' = Dense.Weights d /\ Dense.Bias d' = Dense.Bias d
    /\ (forall i j, 0 <= i < Dense.InputSize d -> 0 <= j < Dense.OutputSize d ->
          Matrix.get (Matrix.Data (Dense.weightsGrad d')) i j =
            Ok (fsum B (fun b => Matrix.entry X b i * Matrix.entry g b j)
                / float64_of_int B)%float)
    /\ (forall j, 0 <= j < Dense.OutputSize d ->
          Matrix.get (Matrix.Data (Dense.biasGrad d')) 0 j =
            Ok (fsum B (fun b => Matrix.entry g b j) / float64_of_int B)%float)
    /\ has_shape gradInput B (Dense.InputSize d) = true
    /\ (forall b i, 0 <= b < B -> 0 <= i < Dense.InputSize d ->
          Matrix.get (Matrix.Data gradInput) b i =
            Ok (fsum (Dense.OutputSize d)
                  (fun k => Matrix.entry g b k
                            * Matrix.entry (Dense.Weights d) i k)%float)).
Proof.
  intros Hd HX Hg Hcols Hrows B. subst B.
  destruct (Dense_Backward_cells d X g Hd HX Hg Hcols)
    as (d' & gi & E & _ & HW & HB & Hwg & Hbg & Hgi & Hcells); [lia|].
  rewrite Hrows in *. now exists d', gi.
Qed.

Lemma Dense_Backward_spec_witness :
  Dense_wf Examples.dense21 = true
  /\ Matrix.wf Examples.ones21 = true
  /\ exists d' gradInput,
       Dense.Backward Examples.dense21 Examples.ones21 = (d', Ok gradInput)
       /\ Dense.Weights d' = Dense.Weights Examples.dense21.
Proof.
  split; [reflexivity|]. split; [reflexivity|].
  destruct (Dense_Backward_spec Examples.dense21 Examples.A22 Examples.ones21
              eq_refl eq_refl eq_refl eq_refl eq_refl)
    as (d' & gi & E & HW & _).
  exists d', gi. split; [exact E|exact HW].
Defined.

(** ** C6: the mean squared error *)

(** C6, as the specification states it, fails in its example: for
    [P = [[2]]] and [T = [[0]]] the gradient [-(T - P) / N] is [[2]], not
    [[-2]]. *)
Lemma MSE_gradient_counterexample :
  MSE.Backward MSE.mk Examples.two11 Examples.zero11
    = Ok (Matrix.mk 1 1 [[2%float]])
  /\ MSE.Backward MSE.mk Examples.two11 Examples.zero11
       <> Ok (Matrix.mk 1 1 [[(-2)%float]]).
Proof.
  split; [reflexivity|].
  intros E. assert (Hneq : 2%float <> (-2)%float) by now apply float_neq.
  apply Hneq.
  apply (f_equal (fun r => match r with
                           | Ok m => Matrix.entry m 0 0
                           | _ => 0%float
                           end)) in E.
  exact E.
Qed.

(** C6, amended.  For well-formed matrices [P] and [T] of one shape,
    [Forward(P, T)] and [Forward(T, P)] return the same loss, and
    [Backward(P, T)] and [Backward(T, P)] return matrices of that shape
    whose entries are opposite, as [float64] values compare (a NaN on one
    side is a NaN on the other).  For [P = [[2]]] and [T = [[0]]],
    [Forward] returns [2.0] and [Backward] returns [[2.0]]. *)
Theorem MSE_symmetry (mse : MSE.t) (P T : Matrix.t) :
  Matrix.wf P = true -> Matrix.wf T = true -> Matrix.same_shape P T = true ->
  (exists loss, MSE.Forward mse P T = Ok loss /\ MSE.Forward mse T P = Ok loss)
  /\ (exists G G', MSE.Backward mse P T = Ok G /\ MSE.Backward mse T P = Ok G'
        /\ Matrix.same_shape G P = true /\ Matrix.same_shape G' P = true
        /\ forall i j, 0 <= i < Matrix.Rows P -> 0 <= j < Matrix.Cols P ->
             feq (Matrix.entry G i j) (- Matrix.entry G' i j)%float)
  /\ MSE.Forward mse Examples.two11 Examples.zero11 = Ok 2%float
  /\ MSE.Backward mse Examples.two11 Examples.zero11
       = Ok (Matrix.mk 1 1 [[2%float]]).
Proof.
  intros HP HT Hshape.
  assert (Hshape' : Matrix.same_shape T P = true).
  { apply same_shape_eq in Hshape as [Hr Hc]. apply same_shape_eq. now split. }
  pose proof Hshape as [Hr Hc]%same_shape_eq.
  split; [|split; [|now destruct mse]].
  - destruct (MSE_Forward_Ok mse P T HP HT Hshape) as [loss E].
    exists loss. split; [done|]. now rewrite <- (MSE_Forward_swap mse P T).
  - destruct (MSE_Backward_cells mse P T HP HT Hshape)
      as (G & EG & _ & HsG & HG).
    destruct (MSE_Backward_cells mse T P HT HP Hshape')
      as (G' & EG' & _ & HsG' & HG').
    exists G, G'. split; [done|]. split; [done|]. split; [done|]. split.
    { apply same_shape_eq in HsG' as [? ?]. apply same_shape_eq. split; lia. }
    intros i j Hi Hj.
    rewrite (entry_get G i j _ (HG i j Hi Hj)).
    rewrite (entry_get G' i j _ (HG' i j ltac:(lia) ltac:(lia))).
    rewrite <- Hr, <- Hc. apply neg_sub_div_swap.
Qed.

Lemma MSE_symmetry_witness :
  Matrix.wf Examples.two11 = true /\ Matrix.wf Examples.zero11 = true
  /\ Matrix.same_shape Examples.two11 Examples.zero11 = true
  /\ exists loss, MSE.Forward MSE.mk Examples.two11 Examples.zero11 = Ok loss
       /\ MSE.Forward MSE.mk Examples.zero11 Examples.two11 = Ok loss.
Proof.
  split; [reflexivity|]. split; [reflexivity|]. split; [reflexivity|].
  exact (proj1 (MSE_symmetry MSE.mk Examples.two11 Examples.zero11
                  eq_refl eq_refl eq_refl)).
Defined.

(** ** C7: stochastic gradient descent with momentum *)

(** C7, as the specification states it, fails: [Update] takes the
    velocity it holds for the identifier as it is and never compares its
    shape with the parameter's.  After an update of a 1 x 1 parameter
    under ["w"], an update of a 2 x 2 parameter with a 2 x 2 gradient
    under the same identifier reads [velocity.Data[0][1]] of the 1 x 1
    velocity and panics, where the claim has it return [p + velocity]. *)
Lemma SGD_Update_reused_identifier_counterexample :
  Matrix.wf Examples.A22 = true
  /\ Matrix.same_shape Examples.A22 Examples.A22 = true
  /\ (exists v, SGD.Velocity Examples.sgd_used !! "w" = Some v
                /\ Matrix.Rows v = 1 /\ Matrix.Cols v = 1)
  /\ (SGD.Update Examples.sgd_used "w" Examples.A22 Examples.A22).2 = Panic
  /\ ~ (exists updated,
          (SGD.Update Examples.sgd_used "w" Examples.A22 Examples.A22).2
          = Ok updated).
Proof.
  assert (E : (SGD.Update Examples.sgd_used "w" Examples.A22 Examples.A22).2
              = Panic) by (vm_compute; reflexivity).
  split; [reflexivity|]. split; [reflexivity|]. split.
  { vm_compute. eexists. split; [reflexivity|]. split; reflexivity. }
  split; [exact E|]. intros [updated E']. rewrite E in E'. discriminate E'.
Qed.

(** C7, amended.  For an identifier, a parameter matrix [p] and a gradient
    matrix [g] of one shape, and a velocity held for the identifier, if
    there is one, of that shape too, [Update] sets the velocity it holds
    for the identifier to [Momentum * velocity - LearningRate * g], cell
    by cell, where the old velocity is zero at the first use of the
    identifier, and returns [p + velocity].  With [Momentum = 0] the first
    update returns [p - LearningRate * g], as [float64] values compare; for
    [p = 1.0], [g = 0.5], [LearningRate = 0.1] it returns [0.95]. *)
Theorem SGD_Update_spec (sgd : SGD.t) (name : string) (p g : Matrix.t) :
  Matrix.wf p = true -> Matrix.wf g = true ->
  Matrix.same_shape p g = true ->
  fits (SGD.Velocity sgd) name p = true ->
  let velocity i j :=
    (SGD.Momentum sgd * prior (SGD.Velocity sgd) name i j
     - SGD.LearningRate sgd * Matrix.entry g i j)%float in
  (exists sgd' v' updated, SGD.Update sgd name p g = (sgd', Ok updated)
     /\ SGD.LearningRate sgd' = SGD.LearningRate sgd
     /\ SGD.Momentum sgd' = SGD.Momentum sgd
     /\ SGD.Velocity sgd' = <[name := v']> (SGD.Velocity sgd)
     /\ has_shape v' (Matrix.Rows p) (Matrix.Cols p) = true
     /\ has_shape updated (Matrix.Rows p) (Matrix.Cols p) = true
     /\ (forall i j, 0 <= i < Matrix.Rows p -> 0 <= j < Matrix.Cols p ->
           Matrix.get (Matrix.Data v') i j = Ok (velocity i j)
           /\ Matrix.get (Matrix.Data updated) i j
                = Ok (Matrix.entry p i j + velocity i j)%float)
     /\ (SGD.Momentum sgd = 0%float -> SGD.Velocity sgd !! name = None ->
         forall i j, 0 <= i < Matrix.Rows p -> 0 <= j < Matrix.Cols p ->
           feq (Matrix.entry updated i j)
               (Matrix.entry p i j
                - SGD.LearningRate sgd * Matrix.entry g i j)%float))
  /\ (SGD.Update (SGD.NewSGD Examples.tenth 0) name Examples.one11
        Examples.half11).2
       = Ok (Matrix.mk 1 1 [[Examples.ninety_five_hundredths]]).
Proof.
  intros Hp Hg Hshape Hfit velocity. split.
  - destruct (SGD_Update_cells sgd name p g Hp Hg Hshape Hfit)
      as (sgd' & v' & u & E & Hlr & Hmom & HV & Hv' & Hu & Hcells).
    exists sgd', v', u. repeat (split; [done|]).
    intros Hzero Hfresh i j Hi Hj.
    destruct (Hcells i j Hi Hj) as [_ Eu].
    rewrite (entry_get u i j _ Eu).
    unfold prior. rewrite Hfresh, Hzero. apply add_zero_sub.
  - unfold SGD.Update, SGD.NewSGD. cbn [SGD.Velocity].
    rewrite lookup_empty.
    change (Matrix.NewMatrix (Matrix.Rows Examples.one11)
              (Matrix.Cols Examples.one11))
      with (Ok (Matrix.mk 1 1 [[0%float]])).
    rewrite !bind_Ok, lookup_insert_eq. reflexivity.
Qed.

Lemma SGD_Update_spec_witness :
  Matrix.wf Examples.one11 = true /\ Matrix.wf Examples.half11 = true
  /\ Matrix.same_shape Examples.one11 Examples.half11 = true
  /\ fits (SGD.Velocity (SGD.NewSGD Examples.tenth 0)) "w" Examples.one11
     = true
  /\ exists sgd' updated,
       SGD.Update (SGD.NewSGD Examples.tenth 0) "w" Examples.one11
         Examples.half11 = (sgd', Ok updated)
       /\ SGD.Momentum sgd' = 0%float.
Proof.
  split; [reflexivity|]. split; [reflexivity|]. split; [reflexivity|].
  split; [reflexivity|].
  destruct (proj1 (SGD_Update_spec (SGD.NewSGD Examples.tenth 0) "w"
                     Examples.one11 Examples.half11
                     eq_refl eq_refl eq_refl eq_refl))
    as (sgd' & v' & u & E & _ & Hmom & _).
  exists sgd', u. split; [exact E|exact Hmom].
Defined.

(** ** C9: the forward pass of the convolution layer *)

(** C9, as the specification states it, fails: Go's integer division
    truncates towards zero.  With a 3 x 3 filter, stride 2 and no padding
    on a 2 x 2 input, [(2 - 3 + 0) / 2 + 1] is [1] in the program, while
    the floor of the quotient, plus one, is [0]. *)
Lemma ConvLayer_floor_counterexample :
  ConvLayer.wf Examples.conv3 = true
  /\ Tensor3D.wf Examples.input22 = true
  /\ Tensor3D.Channels Examples.input22 = ConvLayer.InChannels Examples.conv3
  /\ ConvLayer.Forward Examples.conv3 Examples.input22
     = Ok (Tensor3D.mk 1 1 1 [[[10.5%float]]])
  /\ (Tensor3D.Height Examples.input22 - ConvLayer.FilterSize Examples.conv3
      + 2 * ConvLayer.Padding Examples.conv3)
       `div` ConvLayer.Stride Examples.conv3 + 1 = 0
  /\ ~ (forall output,
          ConvLayer.Forward Examples.conv3 Examples.input22 = Ok output ->
          Tensor3D.Height output
          = (Tensor3D.Height Examples.input22
             - ConvLayer.FilterSize Examples.conv3
             + 2 * ConvLayer.Padding Examples.conv3)
              `div` ConvLayer.Stride Examples.conv3 + 1).
Proof.
  repeat (split; [reflexivity|]). intros Hclaim.
  specialize (Hclaim _ eq_refl). discriminate Hclaim.
Qed.

(** C9, amended.  For a well-formed convolution layer with a stride of at
    least one, no negative padding and a filter no larger than the padded
    input (sizes below [2^31]): if [input.Channels <> InChannels],
    [Forward] returns an error; otherwise it returns a tensor of
    [NumFilters] channels whose size along each axis is
    [floor((inputSize - FilterSize + 2 * Padding) / Stride) + 1], each cell
    being the bias of the filter plus the products of the filter with its
    receptive window over all channels, a position outside the input
    adding nothing ([conv_sum]).  For one 2 x 2 filter of ones, stride 1
    and no padding on one channel of 4 x 4, the result is 3 x 3, each cell
    the sum of its 2 x 2 window plus the bias. *)
Theorem ConvLayer_Forward_spec (conv : ConvLayer.t) (input : Tensor3D.t) :
  ConvLayer.wf conv = true -> Tensor3D.wf input = true ->
  conv_fits conv input = true ->
  let out size :=
    (size - ConvLayer.FilterSize conv + 2 * ConvLayer.Padding conv)
      `div` ConvLayer.Stride conv + 1 in
  (Tensor3D.Channels input <> ConvLayer.InChannels conv ->
     failed (ConvLayer.Forward conv input))
  /\ (Tensor3D.Channels input = ConvLayer.InChannels conv ->
      exists output, ConvLayer.Forward conv input = Ok output
        /\ Tensor3D.wf output = true
        /\ Tensor3D.Channels output = ConvLayer.NumFilters conv
        /\ Tensor3D.Height output = out (Tensor3D.Height input)
        /\ Tensor3D.Width output = out (Tensor3D.Width input)
        /\ forall f outH outW,
             0 <= f < ConvLayer.NumFilters conv ->
             0 <= outH < out (Tensor3D.Height input) ->
             0 <= outW < out (Tensor3D.Width input) ->
             Tensor3D.get (Tensor3D.Data output) f outH outW
               = Ok (conv_sum conv input f outH outW))
  /\ (forall (a : Z -> Z -> float) (b : float),
        let w := Examples.window_sum a b in
        ConvLayer.Forward (Examples.conv_ones b) (Examples.input44 a)
        = Ok (Tensor3D.mk 1 3 3
                [[[w 0 0; w 0 1; w 0 2];
                  [w 1 0; w 1 1; w 1 2];
                  [w 2 0; w 2 1; w 2 2]]])).
Proof.
  intros Hconv Hinput Hfit out. split; [|split].
  - intros Hne. unfold failed, ConvLayer.Forward.
    destruct (Z.eqb_spec (Tensor3D.Channels input) (ConvLayer.InChannels conv));
      [done|]. simpl. eauto.
  - intros Hch. now apply ConvLayer_Forward_cells.
  - intros a b w. subst w. unfold Examples.window_sum.
    vm_compute. rewrite !mul_one. reflexivity.
Qed.

Lemma ConvLayer_Forward_spec_witness :
  ConvLayer.wf (Examples.conv_ones 0.5) = true
  /\ Tensor3D.wf (Examples.input44 (fun i j => float64_of_int (4 * i + j)))
     = true
  /\ conv_fits (Examples.conv_ones 0.5)
       (Examples.input44 (fun i j => float64_of_int (4 * i + j))) = true
  /\ exists output,
       ConvLayer.Forward (Examples.conv_ones 0.5)
         (Examples.input44 (fun i j => float64_of_int (4 * i + j)))
       = Ok output
       /\ Tensor3D.Height output = 3 /\ Tensor3D.Width output = 3.
Proof.
  split; [reflexivity|]. split; [reflexivity|]. split; [reflexivity|].
  destruct (proj1 (proj2
    (ConvLayer_Forward_spec (Examples.conv_ones 0.5)
       (Examples.input44 (fun i j => float64_of_int (4 * i + j)))
       eq_refl eq_refl eq_refl)) eq_refl)
    as (output & E & _ & _ & HH & HW & _).
  exists output. split; [exact E|]. split; [exact HH|exact HW].
Defined.

(** ** C10, C3, C2: the sequential model *)

Section Model.
Context `{GoMath}.

(** C10. On a model without layers [Forward], and so [Predict], succeeds
    and returns its input, and leaves the model as it is. *)
Theorem Forward_empty_model (s : Sequential.t) (X : Matrix.t) :
  Sequential.Layers s = [] ->
  Sequential.Forward s X = (s, Ok X) /\ Sequential.Predict s X = (s, Ok X).
Proof.
  intros Hempty. unfold Sequential.Predict. now rewrite Forward_no_layers.
Qed.

(** C3. If [TrainOnBatch] returns an error, [Optimizer.Update] has not
    been called, the optimizer is as it was, and every layer holds the
    parameter matrices it held before the call.  (An error can only come
    from the forward pass, the loss or the backward pass: the update stage
    returns none.) *)
Theorem TrainOnBatch_error_keeps_parameters
    (s : Sequential.t) (X y : Matrix.t) (s' : Sequential.t) (msg : string) :
  Sequential.TrainOnBatch s X y = (s', Err msg) ->
  Sequential.updateCalls s' = Sequential.updateCalls s
  /\ Sequential.Optimizer s' = Sequential.Optimizer s
  /\ all_params (Sequential.Layers s') = all_params (Sequential.Layers s).
Proof.
  intros E. apply TrainOnBatch_error in E as (Hp & _ & Ho & Hc). done.
Qed.

(** C2. Every call of [AdamOptimizer.Update] increments the one counter
    [T], whatever the identifier, and divides the two moment estimates by
    [1 - Beta1^T] and [1 - Beta2^T] for the incremented [T]
    ([adam_value]).  A training step that succeeds on a model of [k]
    parameter matrices makes [k] calls, one per parameter, on optimizers
    whose counters are [T, T+1, ..., T+k-1], so that the call for
    parameter number [j] corrects with [T + j + 1], and leaves the counter
    at [T + k].  (Counters are taken below [2^63], where they wrap.) *)
Theorem Adam_step_counter :
  (forall adam name p g,
     AdamOptimizer.T (AdamOptimizer.Update adam name p g).1
     = wrap64 (AdamOptimizer.T adam + 1))
  /\ (forall adam name p g,
        Matrix.wf p = true -> Matrix.wf g = true ->
        Matrix.same_shape p g = true -> adam_fits adam name p = true ->
        exists adam' updated,
          AdamOptimizer.Update adam name p g = (adam', Ok updated)
          /\ forall i j, 0 <= i < Matrix.Rows p -> 0 <= j < Matrix.Cols p ->
               Matrix.get (Matrix.Data updated) i j =
                 Ok (adam_value adam (wrap64 (AdamOptimizer.T adam + 1))
                       (prior (AdamOptimizer.M adam) name i j)
                       (prior (AdamOptimizer.V adam) name i j)
                       (Matrix.entry p i j) (Matrix.entry g i j)))
  /\ (forall s X y s' loss adam,
        Sequential.TrainOnBatch s X y = (s', Ok loss) ->
        Sequential.Optimizer s = Some (Optimizer.OfAdam adam) ->
        let k := param_count (Sequential.Layers s) in
        0 <= AdamOptimizer.T adam ->
        AdamOptimizer.T adam + k < 2 ^ 63 ->
        exists s2 adam',
          same_but_caches s s2 /\ Sequential.UpdateWeights s2 = Ok s'
          /\ let calls := update_calls 0 (Sequential.Layers s2) in
             Z.of_nat (length calls) = k
             /\ Sequential.updateCalls s'
                = Sequential.updateCalls s ++ calls.*1.*1
             /\ Sequential.Optimizer s' = Some (Optimizer.OfAdam adam')
             /\ adam' = adam_after adam calls
             /\ AdamOptimizer.T adam' = AdamOptimizer.T adam + k
             /\ length (adam_before adam calls) = length calls
             /\ forall j a, adam_before adam calls !! j = Some a ->
                  AdamOptimizer.T a = AdamOptimizer.T adam + Z.of_nat j
                  /\ forall name p g,
                       calls !! j = Some (name, p, g) ->
                       Matrix.wf p = true -> Matrix.wf g = true ->
                       Matrix.same_shape p g = true ->
                       adam_fits a name p = true ->
                       exists a' updated,
                         AdamOptimizer.Update a name p g = (a', Ok updated)
                         /\ forall i i', 0 <= i < Matrix.Rows p ->
                              0 <= i' < Matrix.Cols p ->
                              Matrix.get (Matrix.Data updated) i i' =
                                Ok (adam_value a
                                      (AdamOptimizer.T adam + Z.of_nat j + 1)
                                      (prior (AdamOptimizer.M a) name i i')
                                      (prior (AdamOptimizer.V a) name i i')
                                      (Matrix.entry p i i')
                                      (Matrix.entry g i i'))).
Proof.
  split; [apply Adam_Update_T|]. split.
  - intros adam name p g Hp Hg Hshape Hfit.
    destruct (Adam_Update_cells adam name p g Hp Hg Hshape Hfit)
      as (adam' & m' & v' & u & E & Hrest).
    exists adam', u. split; [done|].
    intros i j Hi Hj. now apply Hrest.
  - intros s X y s' loss adam E Hopt k H0 Hmax.
    change (2 ^ 63) with 9223372036854775808 in Hmax.
    apply TrainOnBatch_Ok in E as (s2 & (Hp & Hl & Ho & Hc) & E).
    unfold Sequential.UpdateWeights in E.
    apply bind_eq_Ok in E as ([layers' [opt' log']] & E & [= <-]).
    rewrite Ho, Hopt, Hc in E.
    pose proof E as E'.
    apply update_from_calls in E as (-> & -> & _).
    assert (Hk : Z.of_nat (length (update_calls 0 (Sequential.Layers s2))) = k).
    { rewrite update_calls_length. unfold k, param_count. now rewrite Hp. }
    exists s2, (adam_after adam (update_calls 0 (Sequential.Layers s2))).
    split; [done|]. split.
    { unfold Sequential.UpdateWeights. now rewrite Ho, Hopt, Hc, E'. }
    cbv zeta. split; [done|]. split; [done|].
    split; [simpl; now rewrite optimizer_after_Adam|]. split; [done|].
    split; [rewrite adam_after_T; lia|].
    split; [apply adam_before_length|].
    intros j a Ha.
    assert (HT : AdamOptimizer.T a = AdamOptimizer.T adam + Z.of_nat j).
    { apply (adam_before_T (update_calls 0 (Sequential.Layers s2)) adam j a H0);
        [lia|done]. }
    split; [done|].
    intros name p g _ Hwp Hwg Hshape Hfit.
    apply lookup_lt_Some in Ha. rewrite adam_before_length in Ha.
    destruct (Adam_Update_cells a name p g Hwp Hwg Hshape Hfit)
      as (a' & m' & v' & u & Eu & Hrest).
    exists a', u. split; [done|]. intros i i' Hi Hi'.
    rewrite <- HT, <- (wrap64_small (AdamOptimizer.T a + 1)) by lia.
    now apply Hrest.
Qed.

End Model.

Lemma Forward_empty_model_witness :
  Sequential.Layers Sequential.NewSequential = []
  /\ @Sequential.Forward example_math Sequential.NewSequential Examples.A22
     = (Sequential.NewSequential, Ok Examples.A22).
Proof.
  split; [reflexivity|].
  exact (proj1 (@Forward_empty_model example_math Sequential.NewSequential
                  Examples.A22 eq_refl)).
Defined.

Lemma TrainOnBatch_error_keeps_parameters_witness :
  @Sequential.TrainOnBatch example_math Examples.model_sgd Examples.wide13
    Examples.zero11
  = (Examples.model_sgd,
     Err "error in layer 0: input size mismatch: got 3, expected 2")
  /\ Sequential.updateCalls Examples.model_sgd = []
  /\ all_params (Sequential.Layers Examples.model_sgd)
     = [[Dense.Weights Examples.dense21; Dense.Bias Examples.dense21]].
Proof.
  assert (E : @Sequential.TrainOnBatch example_math Examples.model_sgd
                Examples.wide13 Examples.zero11
              = (Examples.model_sgd,
                 Err "error in layer 0: input size mismatch: got 3, expected 2"))
    by (vm_compute; reflexivity).
  split; [exact E|].
  destruct (@TrainOnBatch_error_keeps_parameters example_math _ _ _ _ _ E)
    as (Hcalls & _ & Hparams).
  split; [exact Hcalls|exact Hparams].
Defined.

Lemma Adam_step_counter_witness :
  exists adam',
    (@Sequential.TrainOnBatch example_math Examples.model_adam Examples.A22
       Examples.ones21).2 = Ok 10%float
    /\ Sequential.Optimizer
         (@Sequential.TrainOnBatch example_math Examples.model_adam
            Examples.A22 Examples.ones21).1
       = Some (Optimizer.OfAdam adam')
    /\ AdamOptimizer.T adam' = 2.
Proof.
  assert (E : @Sequential.TrainOnBatch example_math Examples.model_adam
                Examples.A22 Examples.ones21
              = ((@Sequential.TrainOnBatch example_math Examples.model_adam
                    Examples.A22 Examples.ones21).1, Ok 10%float))
    by (vm_compute; reflexivity).
  destruct (proj2 (proj2 (@Adam_step_counter example_math)) _ _ _ _ _ _ E
              eq_refl (Z.le_refl 0) eq_refl)
    as (s2 & adam' & _ & _ & _ & _ & Ho & _ & HT & _).
  exists adam'. split; [now rewrite E|]. split; [exact Ho|exact HT].
Defined.

(** * Further properties of the code *)

(** ** Floating-point addition and multiplication commute *)

Lemma SFadd_comm a b : SFadd prec emax a b = SFadd prec emax b a.
Proof.
  destruct a as [[]|[]| |[] ma ea], b as [[]|[]| |[] mb eb]; try reflexivity;
    cbn [SFadd]; rewrite (Z.min_comm eb ea); f_equal; apply Z.add_comm.
Qed.

Lemma SFmul_comm a b : SFmul prec emax a b = SFmul prec emax b a.
Proof.
  destruct a as [[]|[]| |[] ma ea], b as [[]|[]| |[] mb eb]; try reflexivity;
    cbn [SFmul xorb]; rewrite (Pos.mul_comm mb ma), (Z.add_comm eb ea);
    reflexivity.
Qed.

Lemma float_add_comm (x y : float) : (x + y = y + x)%float.
Proof.
  apply Prim2SF_inj. rewrite !FloatAxioms.add_spec. apply SFadd_comm.
Qed.

Lemma float_mul_comm (x y : float) : (x * y = y * x)%float.
Proof.
  apply Prim2SF_inj. rewrite !FloatAxioms.mul_spec. apply SFmul_comm.
Qed.

(** ** Two buffers of one shape with the same cells are the same *)

Lemma get_lookup d i j x :
  Matrix.get d i j = Ok x ->
  exists row, d !! Z.to_nat i = Some row /\ row !! Z.to_nat j = Some x.
Proof.
  unfold Matrix.get. intros E.
  apply bind_eq_Ok in E as (row & Erow & Ex).
  apply index_Ok_inv in Erow as [_ Erow]. apply index_Ok_inv in Ex as [_ Ex].
  eauto.
Qed.

Lemma shaped_ext d d' r c :
  shaped d r c -> shaped d' r c ->
  (forall i j, 0 <= i < r -> 0 <= j < c ->
     Matrix.get d i j = Matrix.get d' i j) ->
  d = d'.
Proof.
  intros [Hlen Hrows] [Hlen' Hrows'] Hcells.
  apply list_eq_same_length with (n := length d); [lia|lia|].
  intros i row row' Hi Erow Erow'.
  pose proof (Forall_lookup_1 _ _ _ _ Hrows Erow) as Hl.
  pose proof (Forall_lookup_1 _ _ _ _ Hrows' Erow') as Hl'.
  simpl in Hl, Hl'.
  apply list_eq_same_length with (n := length row); [lia|lia|].
  intros j x x' Hj Ex Ex'.
  assert (E : Matrix.get d (Z.of_nat i) (Z.of_nat j) = Ok x).
  { unfold Matrix.get.
    rewrite (index_lookup d (Z.of_nat i) row) by (lia || now rewrite Nat2Z.id).
    rewrite bind_Ok. apply index_lookup; [lia|now rewrite Nat2Z.id]. }
  assert (E' : Matrix.get d' (Z.of_nat i) (Z.of_nat j) = Ok x').
  { unfold Matrix.get.
    rewrite (index_lookup d' (Z.of_nat i) row') by (lia || now rewrite Nat2Z.id).
    rewrite bind_Ok. apply index_lookup; [lia|now rewrite Nat2Z.id]. }
  rewrite Hcells in E by lia. rewrite E in E'.
  apply (f_equal (fun r => match r with Ok v => v | _ => x end)) in E'.
  exact E'.
Qed.

Lemma Matrix_ext (a b : Matrix.t) :
  Matrix.wf a = true -> Matrix.wf b = true ->
  Matrix.Rows a = Matrix.Rows b -> Matrix.Cols a = Matrix.Cols b ->
  (forall i j, 0 <= i < Matrix.Rows a -> 0 <= j < Matrix.Cols a ->
     Matrix.get (Matrix.Data a) i j = Matrix.get (Matrix.Data b) i j) ->
  a = b.
Proof.
  intros (_ & _ & Ha)%wf_shaped (_ & _ & Hb)%wf_shaped Hr Hc Hcells.
  destruct a as [ra ca da], b as [rb cb db]. simpl in *. subst rb cb.
  f_equal. eapply shaped_ext; eauto.
Qed.

(** ** Matrices: allocation, sum and scaling *)

Lemma NewMatrix_replicate rows cols :
  0 <= rows -> 0 <= cols ->
  Matrix.NewMatrix rows cols
  = Ok (Matrix.mk rows cols
          (replicate (Z.to_nat rows) (replicate (Z.to_nat cols) 0%float))).
Proof.
  intros Hr Hc.
  destruct (NewMatrix_spec rows cols Hr Hc) as (m & E & Hmr & Hmc & Hd & Hz).
  rewrite E. f_equal. destruct m as [r c d]. simpl in *. subst r c. f_equal.
  apply (shaped_ext _ _ rows cols); [done| |].
  - split; [rewrite length_replicate; lia|].
    apply Forall_replicate. rewrite length_replicate. lia.
  - intros i j Hi Hj. rewrite Hz by done. symmetry. unfold Matrix.get.
    rewrite (index_lookup _ i (replicate (Z.to_nat cols) 0%float));
      [|lia|apply lookup_replicate_2; lia].
    rewrite bind_Ok. apply index_lookup; [lia|]. apply lookup_replicate_2. lia.
Qed.

Lemma NewMatrix_no_rows cols : Matrix.NewMatrix 0 cols = Ok (Matrix.mk 0 cols []).
Proof. reflexivity. Qed.

Lemma NewMatrix_negative_rows rows cols :
  rows < 0 -> Matrix.NewMatrix rows cols = Panic.
Proof.
  intros Hr. unfold Matrix.NewMatrix, make.
  destruct (Z.ltb_spec rows 0); [reflexivity|lia].
Qed.

Lemma NewMatrix_negative_cols rows cols :
  0 < rows -> cols < 0 -> Matrix.NewMatrix rows cols = Panic.
Proof.
  intros Hr Hc. unfold Matrix.NewMatrix.
  rewrite (make_Ok ([] : list float) rows) by lia. rewrite bind_Ok.
  destruct (Z.to_nat rows) as [|n] eqn:En; [lia|].
  assert (E : make 0%float cols = Panic).
  { unfold make. destruct (Z.ltb_spec cols 0); [reflexivity|lia]. }
  cbn [replicate range_from]. now rewrite E.
Qed.

(** X1. [NewMatrix(rows, cols)] returns the [rows] x [cols] matrix of
    [+0.0] when neither argument is negative.  It panics exactly when
    [rows] is negative, or [rows] is positive and [cols] negative: with no
    rows no row is allocated, and [NewMatrix(0, cols)] is a matrix without
    rows whose [Cols] is [cols], negative or not. *)
Theorem NewMatrix_total (rows cols : Z) :
  (0 <= rows /\ 0 <= cols ->
     Matrix.NewMatrix rows cols
     = Ok (Matrix.mk rows cols
             (replicate (Z.to_nat rows) (replicate (Z.to_nat cols) 0%float))))
  /\ (Matrix.NewMatrix rows cols = Panic
        <-> rows < 0 \/ (0 < rows /\ cols < 0))
  /\ Matrix.NewMatrix 0 cols = Ok (Matrix.mk 0 cols []).
Proof.
  split; [|split].
  - intros [Hr Hc]. now apply NewMatrix_replicate.
  - split.
    + intros E. destruct (Z.lt_trichotomy rows 0) as [?|[->|Hr]]; [lia| |].
      * rewrite NewMatrix_no_rows in E. discriminate E.
      * destruct (Z.lt_ge_cases cols 0) as [?|Hc]; [lia|].
        rewrite NewMatrix_replicate in E by lia. discriminate E.
    + intros [Hr|[Hr Hc]].
      * now apply NewMatrix_negative_rows.
      * now apply NewMatrix_negative_cols.
  - apply NewMatrix_no_rows.
Qed.

Section MatrixSum.
Variables a b : Matrix.t.
Hypothesis Ha : Matrix.wf a = true.
Hypothesis Hb : Matrix.wf b = true.
Hypothesis Hshape : Matrix.same_shape a b = true.

Lemma Add_cells :
  exists m, Matrix.Add a b = Ok m
    /\ Matrix.wf m = true /\ Matrix.same_shape m a = true
    /\ forall i j, 0 <= i < Matrix.Rows a -> 0 <= j < Matrix.Cols a ->
         Matrix.get (Matrix.Data m) i j
         = Ok (Matrix.entry a i j + Matrix.entry b i j)%float.
Proof.
  pose proof Hshape as [Hr Hc]%same_shape_eq.
  pose proof Ha as (Hra & Hca & _)%wf_shaped.
  unfold Matrix.Add. rewrite <- Hr, <- Hc, !Z.eqb_refl. simpl negb. cbv iota.
  destruct (NewMatrix_spec (Matrix.Rows a) (Matrix.Cols a))
    as (R & ER & HRr & HRc & HRd & _); [done..|].
  rewrite ER, bind_Ok.
  destruct (fill2 (Matrix.Rows a) (Matrix.Cols a)
    (fun i j => Matrix.entry a i j + Matrix.entry b i j)%float
    (fun i j data =>
       x ← Matrix.get (Matrix.Data a) i j;
       y ← Matrix.get (Matrix.Data b) i j;
       Matrix.set data i j (x + y)%float)
    (Matrix.Data R)) as (d & E & Hd & Hcells); [done..| |].
  - intros i j data Hi Hj _ _.
    rewrite (get_entry a i j), bind_Ok by done.
    now rewrite (get_entry b i j), bind_Ok by (done || lia).
  - rewrite E, bind_Ok. eexists. split; [reflexivity|].
    split; [|split; [|done]].
    + apply wf_shaped. simpl. rewrite HRr, HRc. done.
    + apply same_shape_eq. simpl. done.
Qed.

End MatrixSum.

Lemma same_shape_sym a b : Matrix.same_shape a b = Matrix.same_shape b a.
Proof.
  unfold Matrix.same_shape.
  now rewrite (Z.eqb_sym (Matrix.Rows a)), (Z.eqb_sym (Matrix.Cols a)).
Qed.

Lemma Add_mismatch a b :
  Matrix.same_shape a b = false ->
  Matrix.Add a b = Err "incompatible dimensions".
Proof.
  unfold Matrix.same_shape, Matrix.Add. intros E.
  destruct (Matrix.Rows a =? Matrix.Rows b); [|reflexivity].
  simpl in E. now rewrite E.
Qed.

Lemma Add_commutes (a b : Matrix.t) :
  Matrix.wf a = true -> Matrix.wf b = true ->
  Matrix.Add a b = Matrix.Add b a.
Proof.
  intros Ha Hb. destruct (Matrix.same_shape a b) eqn:Es.
  - assert (Es' : Matrix.same_shape b a = true) by now rewrite same_shape_sym.
    destruct (Add_cells a b Ha Hb Es) as (m & Em & Hm & Hs & Hcells).
    destruct (Add_cells b a Hb Ha Es') as (m' & Em' & Hm' & Hs' & Hcells').
    rewrite Em, Em'. f_equal.
    apply same_shape_eq in Hs as [Hr Hc], Hs' as [Hr' Hc'], Es as [Er Ec].
    apply Matrix_ext; [done|done|lia|lia|].
    intros i j Hi Hj. rewrite Hcells, Hcells' by lia.
    now rewrite float_add_comm.
  - rewrite (Add_mismatch a b Es). symmetry. apply Add_mismatch.
    now rewrite same_shape_sym.
Qed.

(** X2. [Add] returns the error ["incompatible dimensions"] exactly when
    the two matrices differ in [Rows] or in [Cols].  On well-formed matrices
    of one shape it returns a well-formed matrix of that shape whose entry
    [(i, j)] is [a[i][j] + b[i][j]].  It is commutative: [a.Add(b)] and
    [b.Add(a)] return the same error or the same matrix, entry for entry
    the same [float64]. *)
Theorem Add_spec (a b : Matrix.t) :
  Matrix.wf a = true -> Matrix.wf b = true ->
  (failed (Matrix.Add a b) <-> Matrix.same_shape a b = false)
  /\ (Matrix.same_shape a b = false ->
        Matrix.Add a b = Err "incompatible dimensions")
  /\ (Matrix.same_shape a b = true ->
        exists m, Matrix.Add a b = Ok m
          /\ Matrix.wf m = true
          /\ Matrix.Rows m = Matrix.Rows a /\ Matrix.Cols m = Matrix.Cols a
          /\ forall i j, 0 <= i < Matrix.Rows a -> 0 <= j < Matrix.Cols a ->
               Matrix.get (Matrix.Data m) i j
               = Ok (Matrix.entry a i j + Matrix.entry b i j)%float)
  /\ Matrix.Add a b = Matrix.Add b a.
Proof.
  intros Ha Hb. split; [|split; [|split]].
  - split.
    + intros [msg E]. destruct (Matrix.same_shape a b) eqn:Es; [|done].
      destruct (Add_cells a b Ha Hb Es) as (m & Em & _).
      rewrite Em in E. discriminate E.
    + intros Es. eexists. now apply Add_mismatch.
  - apply Add_mismatch.
  - intros Es. destruct (Add_cells a b Ha Hb Es) as (m & Em & Hm & Hs & Hcells).
    apply same_shape_eq in Hs as [Hr Hc]. exists m. done.
  - now apply Add_commutes.
Qed.

Lemma Add_spec_witness :
  Matrix.wf Examples.B21 = true /\ Matrix.wf Examples.ones21 = true
  /\ Matrix.Add Examples.B21 Examples.ones21
     = Ok (Matrix.mk 2 1 [[6]; [7]]%float)
  /\ Matrix.Add Examples.B21 Examples.ones21
     = Matrix.Add Examples.ones21 Examples.B21.
Proof.
  split; [reflexivity|]. split; [reflexivity|]. split; [reflexivity|].
  exact (proj2 (proj2 (proj2
    (Add_spec Examples.B21 Examples.ones21 eq_refl eq_refl)))).
Defined.

Lemma Scale_cells (m : Matrix.t) (scalar : float) :
  Matrix.wf m = true ->
  exists r, Matrix.Scale m scalar = Ok r
    /\ Matrix.wf r = true
    /\ Matrix.Rows r = Matrix.Rows m /\ Matrix.Cols r = Matrix.Cols m
    /\ forall i j, 0 <= i < Matrix.Rows m -> 0 <= j < Matrix.Cols m ->
         Matrix.get (Matrix.Data r) i j = Ok (Matrix.entry m i j * scalar)%float.
Proof.
  intros Hm. pose proof Hm as (Hr & Hc & _)%wf_shaped.
  unfold Matrix.Scale.
  destruct (NewMatrix_spec (Matrix.Rows m) (Matrix.Cols m))
    as (R & ER & HRr & HRc & HRd & _); [done..|].
  rewrite ER, bind_Ok.
  destruct (fill2 (Matrix.Rows m) (Matrix.Cols m)
    (fun i j => Matrix.entry m i j * scalar)%float
    (fun i j data =>
       x ← Matrix.get (Matrix.Data m) i j;
       Matrix.set data i j (x * scalar)%float)
    (Matrix.Data R)) as (d & E & Hd & Hcells); [done..| |].
  - intros i j data Hi Hj _ _. now rewrite (get_entry m i j), bind_Ok.
  - rewrite E, bind_Ok. eexists. split; [reflexivity|].
    split; [|done].
    apply wf_shaped. simpl. rewrite HRr, HRc. done.
Qed.

(** X3. On a well-formed matrix [Scale] returns a new well-formed matrix of
    the same shape whose entry [(i, j)] is [m[i][j] * scalar]; scaling by
    [1.0] returns a copy equal to the matrix, NaNs, infinities and signed
    zeros included. *)
Theorem Scale_spec (m : Matrix.t) (scalar : float) :
  Matrix.wf m = true ->
  (exists r, Matrix.Scale m scalar = Ok r
     /\ Matrix.wf r = true
     /\ Matrix.Rows r = Matrix.Rows m /\ Matrix.Cols r = Matrix.Cols m
     /\ forall i j, 0 <= i < Matrix.Rows m -> 0 <= j < Matrix.Cols m ->
          Matrix.get (Matrix.Data r) i j
          = Ok (Matrix.entry m i j * scalar)%float)
  /\ Matrix.Scale m 1 = Ok m.
Proof.
  intros Hm. split; [now apply Scale_cells|].
  destruct (Scale_cells m 1 Hm) as (r & E & Hr & Hrows & Hcols & Hcells).
  rewrite E. f_equal. apply Matrix_ext; [done..|].
  intros i j Hi Hj. rewrite Hcells by lia. rewrite mul_one.
  symmetry. apply get_entry; [done|lia|lia].
Qed.

Lemma Scale_spec_witness :
  Matrix.wf Examples.A22 = true
  /\ Matrix.Scale Examples.A22 2 = Ok (Matrix.mk 2 2 [[2; 4]; [6; 8]]%float)
  /\ Matrix.Scale Examples.A22 1 = Ok Examples.A22.
Proof.
  split; [reflexivity|]. split; [reflexivity|].
  exact (proj2 (Scale_spec Examples.A22 2 eq_refl)).
Defined.

(** ** Activations *)

Lemma ltb_leb (x y : float) : (x <? y)%float = true -> (x <=? y)%float = true.
Proof.
  rewrite FloatAxioms.ltb_spec, FloatAxioms.leb_spec. unfold SFltb, SFleb.
  now destruct (SFcompare (Prim2SF x) (Prim2SF y)) as [[]|].
Qed.

Lemma ReLU_cases (x : float) :
  ((0 <? x)%float = true /\ ReLU x = x)
  \/ ((0 <? x)%float = false /\ ReLU x = 0%float).
Proof. unfold ReLU. destruct (0 <? x)%float; auto. Qed.

Lemma ReLU_idempotent (x : float) : ReLU (ReLU x) = ReLU x.
Proof.
  destruct (ReLU_cases x) as [[E ->]|[E ->]]; [|reflexivity].
  unfold ReLU. now rewrite E.
Qed.

Lemma ReLU_nonneg (x : float) : (0 <=? ReLU x)%float = true.
Proof.
  destruct (ReLU_cases x) as [[E ->]|[E ->]]; [|reflexivity].
  now apply ltb_leb.
Qed.

Lemma ReLUMatrix_cells (m : Matrix.t) :
  Matrix.wf m = true ->
  exists r, ReLUMatrix m = Ok r
    /\ Matrix.wf r = true
    /\ Matrix.Rows r = Matrix.Rows m /\ Matrix.Cols r = Matrix.Cols m
    /\ forall i j, 0 <= i < Matrix.Rows m -> 0 <= j < Matrix.Cols m ->
         Matrix.get (Matrix.Data r) i j = Ok (ReLU (Matrix.entry m i j)).
Proof.
  intros Hm. pose proof Hm as (Hr & Hc & _)%wf_shaped.
  unfold ReLUMatrix.
  destruct (NewMatrix_spec (Matrix.Rows m) (Matrix.Cols m))
    as (R & ER & HRr & HRc & HRd & _); [done..|].
  rewrite ER, bind_Ok.
  destruct (fill2 (Matrix.Rows m) (Matrix.Cols m)
    (fun i j => ReLU (Matrix.entry m i j))
    (fun i j data =>
       x ← Matrix.get (Matrix.Data m) i j;
       Matrix.set data i j (ReLU x))
    (Matrix.Data R)) as (d & E & Hd & Hcells); [done..| |].
  - intros i j data Hi Hj _ _. now rewrite (get_entry m i j), bind_Ok.
  - rewrite E, bind_Ok. eexists. split; [reflexivity|].
    split; [|done].
    apply wf_shaped. simpl. rewrite HRr, HRc. done.
Qed.

(** X4. On a well-formed matrix [ReLUMatrix] returns a new well-formed
    matrix of the same shape whose entry [(i, j)] is [m[i][j]] where that
    is above zero and [+0.0] elsewhere, also for a NaN and for [-0.0]: no
    entry of the result is negative or a NaN.  Applying it to its own
    result changes nothing. *)
Theorem ReLUMatrix_spec (m : Matrix.t) :
  Matrix.wf m = true ->
  exists r, ReLUMatrix m = Ok r
    /\ Matrix.wf r = true
    /\ Matrix.Rows r = Matrix.Rows m /\ Matrix.Cols r = Matrix.Cols m
    /\ (forall i j, 0 <= i < Matrix.Rows m -> 0 <= j < Matrix.Cols m ->
          Matrix.get (Matrix.Data r) i j
          = Ok (if (0 <? Matrix.entry m i j)%float then Matrix.entry m i j
                else 0%float)
          /\ (0 <=? Matrix.entry r i j)%float = true)
    /\ ReLUMatrix r = Ok r.
Proof.
  intros Hm.
  destruct (ReLUMatrix_cells m Hm) as (r & E & Hr & Hrows & Hcols & Hcells).
  exists r. repeat (split; [done|]). split.
  - intros i j Hi Hj. split; [now apply Hcells|].
    rewrite (entry_get r i j _ (Hcells i j Hi Hj)). apply ReLU_nonneg.
  - destruct (ReLUMatrix_cells r Hr) as (r' & E' & Hr' & Hrows' & Hcols' & Hcells').
    rewrite E'. f_equal. apply Matrix_ext; [done|done|lia|lia|].
    intros i j Hi Hj. rewrite Hrows', Hcols' in *. rewrite Hcells' by lia.
    rewrite (entry_get r i j _ (Hcells i j ltac:(lia) ltac:(lia))).
    rewrite ReLU_idempotent. symmetry. apply Hcells; lia.
Qed.

Lemma ReLUMatrix_spec_witness :
  Matrix.wf (Matrix.mk 1 3 [[-1; 0; 2]]%float) = true
  /\ exists r, ReLUMatrix (Matrix.mk 1 3 [[-1; 0; 2]]%float) = Ok r
       /\ Matrix.Data r = [[0; 0; 2]]%float.
Proof.
  split; [reflexivity|].
  destruct (ReLUMatrix_spec (Matrix.mk 1 3 [[-1; 0; 2]]%float) eq_refl)
    as (r & E & _).
  exists r. split; [exact E|].
  apply (f_equal (fun x => match x with
                           | Ok m => Matrix.Data m
                           | _ => []
                           end)) in E.
  symmetry. exact E.
Defined.

(** ** Softmax row by row *)

Lemma for_first_Panic {St} (body : Z -> St -> result St) lo hi s :
  lo < hi -> body lo s = Panic -> for_ lo hi body s = Panic.
Proof.
  intros Hlt E. unfold for_.
  destruct (Z.to_nat (hi - lo)) as [|n] eqn:En; [lia|].
  cbn [loop]. now rewrite E.
Qed.

(** A loop that writes [f] of each row of [D] into the slot of a buffer. *)
Lemma map_rows_loop {A B} (f : A -> result B) (g : A -> B)
    (D : list A) (buf : list B) :
  length buf = length D ->
  (forall x, x ∈ D -> f x = Ok (g x)) ->
  for_ 0 (Z.of_nat (length D))
    (fun i data => row ← index D i; row' ← f row; assign data i row') buf
  = Ok (g <$> D).
Proof.
  intros Hlen Hf.
  destruct (for_inv
    (fun k (data : list B) => length data = length D /\
       forall i, (i < Z.to_nat k)%nat -> data !! i = g <$> D !! i)
    (fun i data => row ← index D i; row' ← f row; assign data i row')
    0 (Z.of_nat (length D)) buf) as (d & E & Hd & Hcells).
  - lia.
  - split; [done|]. intros i Hi. lia.
  - intros k data Hk [Hl Hcells].
    destruct (lookup_lt_is_Some_2 D (Z.to_nat k)) as [row Erow]; [lia|].
    rewrite (index_lookup D k row) by (lia || done). rewrite bind_Ok.
    rewrite (Hf row) by (eapply list_elem_of_lookup_2; eauto).
    rewrite bind_Ok, assign_in_range by lia.
    eexists. split; [reflexivity|]. split; [now rewrite length_insert|].
    intros i Hi. destruct (decide (i = Z.to_nat k)) as [->|Hne].
    + rewrite list_lookup_insert_eq by lia. now rewrite Erow.
    + rewrite list_lookup_insert_ne by done. apply Hcells. lia.
  - rewrite E. f_equal.
    apply list_eq. intros i. rewrite list_lookup_fmap.
    destruct (decide (i < length D)%nat) as [Hi|Hi].
    + apply Hcells. lia.
    + rewrite !lookup_ge_None_2 by lia. done.
Qed.

Section SoftmaxRows.
Context `{GoMath}.

Lemma Softmax_values (input : list float) :
  input <> [] -> Softmax input = Ok (softmax_values input).
Proof.
  destruct input as [|v0 rest]; [done|]. intros _.
  apply (Softmax_formula v0 rest).
Qed.

Lemma softmax_values_length (input : list float) :
  length (softmax_values input) = length input.
Proof.
  destruct input as [|v0 rest]; [done|].
  unfold softmax_values. now rewrite !length_fmap.
Qed.

Lemma SoftmaxMatrix_map (m : Matrix.t) :
  Matrix.wf m = true -> Matrix.Rows m = 0 \/ 1 <= Matrix.Cols m ->
  SoftmaxMatrix m
  = Ok (Matrix.mk (Matrix.Rows m) (Matrix.Cols m)
          (softmax_values <$> Matrix.Data m)).
Proof.
  intros Hm Hne. pose proof Hm as (Hr & Hc & Hlen & Hrows)%wf_shaped.
  unfold SoftmaxMatrix.
  destruct (NewMatrix_spec (Matrix.Rows m) (Matrix.Cols m))
    as (R & ER & HRr & HRc & [HRlen _] & _); [done..|].
  rewrite ER, bind_Ok, <- Hlen.
  rewrite (map_rows_loop Softmax softmax_values).
  - rewrite bind_Ok, HRr, HRc, Hlen. reflexivity.
  - lia.
  - intros row Hrow. apply Softmax_values. intros ->.
    rewrite Forall_forall in Hrows. specialize (Hrows _ Hrow). simpl in Hrows.
    destruct Hne as [Hz|Hpos]; [|lia].
    apply list_elem_of_lookup_1 in Hrow as [i Hi].
    apply lookup_lt_Some in Hi. lia.
Qed.

Lemma SoftmaxMatrix_no_columns (m : Matrix.t) :
  Matrix.wf m = true -> 1 <= Matrix.Rows m -> Matrix.Cols m = 0 ->
  SoftmaxMatrix m = Panic.
Proof.
  intros Hm Hrows Hcols. pose proof Hm as (Hr & Hc & Hlen & Hall)%wf_shaped.
  unfold SoftmaxMatrix.
  destruct (NewMatrix_spec (Matrix.Rows m) (Matrix.Cols m))
    as (R & ER & HRr & HRc & [HRlen _] & _); [done..|].
  rewrite ER, bind_Ok. rewrite for_first_Panic; [done|lia|].
  destruct (lookup_lt_is_Some_2 (Matrix.Data m) (Z.to_nat 0)) as [row Erow];
    [lia|].
  rewrite (index_lookup (Matrix.Data m) 0 row) by (lia || done).
  rewrite bind_Ok.
  pose proof (Forall_lookup_1 _ _ _ _ Hall Erow) as Hl. simpl in Hl.
  destruct row; [|simpl in Hl; lia]. reflexivity.
Qed.

End SoftmaxRows.

Section SoftmaxTheorems.
Context `{GoMath}.

(** X5. On a well-formed matrix with at least one column, or with no rows,
    [SoftmaxMatrix] returns the matrix of the same shape whose rows are the
    [Softmax] of the rows: [Exp (v - max) / sum] entry by entry, with the
    maximum and the sum taken in the order of the row.  A matrix with rows
    but no columns makes it panic, in [Softmax] at [input[0]].  The softmax
    layer returns the same and keeps the matrix it returned as
    [lastOutput]. *)
Theorem SoftmaxMatrix_spec (m : Matrix.t) :
  Matrix.wf m = true ->
  (Matrix.Rows m = 0 \/ 1 <= Matrix.Cols m ->
     let out := Matrix.mk (Matrix.Rows m) (Matrix.Cols m)
                  (softmax_values <$> Matrix.Data m) in
     SoftmaxMatrix m = Ok out
     /\ Matrix.wf out = true
     /\ forall s, SoftmaxLayer.Forward s m
                  = (SoftmaxLayer.mk (Some out), Ok out))
  /\ (1 <= Matrix.Rows m /\ Matrix.Cols m = 0 ->
        SoftmaxMatrix m = Panic
        /\ forall s, (SoftmaxLayer.Forward s m).2 = Panic).
Proof.
  intros Hm. split.
  - intros Hne out. pose proof (SoftmaxMatrix_map m Hm Hne) as E.
    split; [exact E|]. split.
    + pose proof Hm as (Hr & Hc & Hlen & Hrows)%wf_shaped.
      apply wf_shaped. subst out. simpl. split; [done|]. split; [done|].
      split; [now rewrite length_fmap|].
      apply Forall_fmap. eapply Forall_impl; [exact Hrows|].
      intros row Hrow. simpl in *. now rewrite softmax_values_length.
    + intros s. unfold SoftmaxLayer.Forward. now rewrite E.
  - intros [Hrows Hcols].
    pose proof (SoftmaxMatrix_no_columns m Hm Hrows Hcols) as E.
    split; [exact E|]. intros s. unfold SoftmaxLayer.Forward. now rewrite E.
Qed.

End SoftmaxTheorems.

Lemma SoftmaxMatrix_spec_witness :
  Matrix.wf (Matrix.mk 2 0 [[]; []]) = true
  /\ @SoftmaxMatrix example_math (Matrix.mk 2 0 [[]; []]) = Panic
  /\ Matrix.wf Examples.A22 = true
  /\ @SoftmaxMatrix example_math Examples.A22
     = Ok (Matrix.mk 2 2
             (@softmax_values example_math <$> Matrix.Data Examples.A22)).
Proof.
  split; [reflexivity|]. split.
  - refine (proj1 (proj2 (@SoftmaxMatrix_spec example_math
                            (Matrix.mk 2 0 [[]; []]) eq_refl) _)).
    split; [simpl; lia|reflexivity].
  - split; [reflexivity|].
    refine (proj1 (proj1 (@SoftmaxMatrix_spec example_math Examples.A22
                            eq_refl) _)).
    right. simpl. lia.
Defined.

(** ** The forward pass of the dense layer *)

Section DenseForward.
Variable d : Dense.t.
Variable input : Matrix.t.
Hypothesis Hd : Dense_wf d = true.
Hypothesis Hinput : Matrix.wf input = true.

Lemma Dense_wf_all :
  0 <= Dense.InputSize d /\ 0 <= Dense.OutputSize d
  /\ has_shape (Dense.Weights d) (Dense.InputSize d) (Dense.OutputSize d) = true
  /\ has_shape (Dense.Bias d) 1 (Dense.OutputSize d) = true
  /\ has_shape (Dense.weightsGrad d) (Dense.InputSize d) (Dense.OutputSize d)
     = true
  /\ has_shape (Dense.biasGrad d) 1 (Dense.OutputSize d) = true.
Proof.
  unfold Dense_wf in Hd.
  repeat match type of Hd with
         | (_ && _ = true) => apply andb_prop in Hd as [Hd ?]
         end.
  repeat split; (done || lia).
Qed.

Lemma Dense_Forward_wf : Dense_wf (Dense.Forward d input).1 = true.
Proof.
  unfold Dense.Forward.
  destruct (negb (Matrix.Cols input =? Dense.InputSize d)) eqn:Ec; [done|].
  cbn [fst]. apply negb_false_iff, Z.eqb_eq in Ec.
  destruct Dense_wf_all as (Hi & Ho & HW & HB & HWg & HBg).
  unfold Dense_wf, Dense.set_lastInput. cbn.
  rewrite HW, HB, HWg, HBg, Hinput, Ec, Z.eqb_refl.
  destruct (Z.leb_spec 0 (Dense.InputSize d)); [|lia].
  destruct (Z.leb_spec 0 (Dense.OutputSize d)); [|lia]. reflexivity.
Qed.

Hypothesis Hcols : Matrix.Cols input = Dense.InputSize d.

Lemma Dense_Forward_cells :
  exists out, Dense.Forward d input = (Dense.set_lastInput d input, Ok out)
    /\ Matrix.wf out = true
    /\ Matrix.Rows out = Matrix.Rows input
    /\ Matrix.Cols out = Dense.OutputSize d
    /\ forall i j, 0 <= i < Matrix.Rows input -> 0 <= j < Dense.OutputSize d ->
         Matrix.get (Matrix.Data out) i j
         = Ok (fsum (Dense.InputSize d)
                 (fun k => Matrix.entry input i k
                           * Matrix.entry (Dense.Weights d) k j)
               + Matrix.entry (Dense.Bias d) 0 j)%float.
Proof.
  destruct Dense_wf_all as (Hi & Ho & HW & HB & _).
  apply has_shape_spec in HW as (HW & HWr & HWc).
  apply has_shape_spec in HB as (HB & HBr & HBc).
  pose proof Hinput as (Hr & _)%wf_shaped.
  unfold Dense.Forward. rewrite Hcols, Z.eqb_refl. cbn [negb].
  cbn [Dense.set_lastInput Dense.Weights Dense.Bias].
  destruct (Multiply_Ok input (Dense.Weights d) Hinput HW) as
    (M & EM & HM & HMr & HMc & HMcells); [lia|].
  rewrite EM, bind_Ok.
  pose proof HM as (_ & _ & HMd)%wf_shaped.
  rewrite HMr, HMc, HWc in *.
  destruct (fill2 (Matrix.Rows input) (Dense.OutputSize d)
    (fun i j => fsum (Dense.InputSize d)
                  (fun k => Matrix.entry input i k
                            * Matrix.entry (Dense.Weights d) k j)
                + Matrix.entry (Dense.Bias d) 0 j)%float
    (fun i j data =>
       b ← Matrix.get (Matrix.Data (Dense.Bias d)) 0 j;
       x ← Matrix.get data i j;
       Matrix.set data i j (x + b)%float)
    (Matrix.Data M)) as (data & E & Hdata & Hcells); [done..| |].
  - intros i j data Hi' Hj _ Hget.
    rewrite (get_entry (Dense.Bias d) 0 j), bind_Ok by (done || lia).
    rewrite Hget, HMcells, bind_Ok by lia. now rewrite Hcols.
  - rewrite E, bind_Ok. eexists. split; [reflexivity|].
    split; [|done]. apply wf_shaped. simpl. done.
Qed.

End DenseForward.

Lemma Dense_Forward_mismatch_unchanged (d : Dense.t) (input : Matrix.t) :
  Matrix.Cols input <> Dense.InputSize d ->
  Dense.Forward d input
  = (d, Err ("input size mismatch: got " +:+ pretty (Matrix.Cols input)
               +:+ ", expected " +:+ pretty (Dense.InputSize d))).
Proof.
  intros Hne. unfold Dense.Forward.
  destruct (Z.eqb_spec (Matrix.Cols input) (Dense.InputSize d)); done.
Qed.

(** X6. For a dense layer in the state its constructor and its methods
    leave it in and a well-formed [input]: [Forward] returns an error
    exactly when [input.Cols] differs from [InputSize], and then the layer
    is unchanged, its cached input included.  Otherwise it caches [input],
    changes nothing else, and returns the [input.Rows] x [OutputSize] matrix
    with entry [(i, j)] the dot product of row [i] of the input with column
    [j] of the weights, summed from [0.0] in the order of [k], plus
    [Bias[0][j]].  Either way the layer stays in such a state. *)
Theorem Dense_Forward_spec (d : Dense.t) (input : Matrix.t) :
  Dense_wf d = true -> Matrix.wf input = true ->
  (failed (Dense.Forward d input).2
     <-> Matrix.Cols input <> Dense.InputSize d)
  /\ (Matrix.Cols input <> Dense.InputSize d ->
        Dense.Forward d input
        = (d, Err ("input size mismatch: got " +:+ pretty (Matrix.Cols input)
                     +:+ ", expected " +:+ pretty (Dense.InputSize d))))
  /\ (Matrix.Cols input = Dense.InputSize d ->
        exists out,
          Dense.Forward d input = (Dense.set_lastInput d input, Ok out)
          /\ Matrix.wf out = true
          /\ Matrix.Rows out = Matrix.Rows input
          /\ Matrix.Cols out = Dense.OutputSize d
          /\ forall i j,
               0 <= i < Matrix.Rows input -> 0 <= j < Dense.OutputSize d ->
               Matrix.get (Matrix.Data out) i j
               = Ok (fsum (Dense.InputSize d)
                       (fun k => Matrix.entry input i k
                                 * Matrix.entry (Dense.Weights d) k j)
                     + Matrix.entry (Dense.Bias d) 0 j)%float)
  /\ Dense_wf (Dense.Forward d input).1 = true.
Proof.
  intros Hd Hinput. split; [|split; [|split]].
  - split.
    + intros [msg E] Hcols.
      destruct (Dense_Forward_cells d input Hd Hinput Hcols) as (out & Eo & _).
      rewrite Eo in E. discriminate E.
    + intros Hne. rewrite Dense_Forward_mismatch_unchanged by done.
      eexists. reflexivity.
  - apply Dense_Forward_mismatch_unchanged.
  - now apply Dense_Forward_cells.
  - now apply Dense_Forward_wf.
Qed.

Lemma Dense_Forward_spec_witness :
  Dense_wf Examples.dense21 = true /\ Matrix.wf Examples.A22 = true
  /\ (Dense.Forward Examples.dense21 Examples.A22).2
     = Ok (Matrix.mk 2 1 [[3]; [7]]%float)
  /\ Dense_wf (Dense.Forward Examples.dense21 Examples.A22).1 = true.
Proof.
  split; [reflexivity|]. split; [reflexivity|]. split; [reflexivity|].
  exact (proj2 (proj2 (proj2
    (Dense_Forward_spec Examples.dense21 Examples.A22 eq_refl eq_refl)))).
Defined.

(** ** A backward pass before any forward pass *)

(** X7. A layer that has not run [Forward] has no cached input, and its
    [Backward] panics on the nil pointer as soon as it reads it: the dense
    layer when [InputSize] and [OutputSize] are at least 1 and the gradient
    has [OutputSize] columns, the ReLU layer when the gradient has at least
    one row and one column. *)
Theorem Backward_before_Forward_panics :
  (forall (d : Dense.t) (gradOutput : Matrix.t),
     Dense.lastInput d = None ->
     1 <= Dense.InputSize d -> 1 <= Dense.OutputSize d ->
     Matrix.Cols gradOutput = Dense.OutputSize d ->
     (Dense.Backward d gradOutput).2 = Panic)
  /\ (forall (r : ReLULayer.t) (gradOutput : Matrix.t),
        ReLULayer.lastInput r = None ->
        1 <= Matrix.Rows gradOutput -> 1 <= Matrix.Cols gradOutput ->
        (ReLULayer.Backward r gradOutput).2 = Panic).
Proof.
  split.
  - intros d g Hnil Hi Ho Hcols. unfold Dense.Backward.
    rewrite Hcols, Z.eqb_refl. cbn [negb].
    assert (E : Dense.weights_gradient d g
                  (float64_of_int (Matrix.Rows g)) = Panic).
    { unfold Dense.weights_gradient.
      apply for_first_Panic; [lia|]. apply for_first_Panic; [lia|].
      now rewrite Hnil. }
    now rewrite E.
  - intros r g Hnil Hrows Hcols. unfold ReLULayer.Backward. cbn [snd].
    destruct (NewMatrix_spec (Matrix.Rows g) (Matrix.Cols g))
      as (R & ER & _); [lia..|].
    rewrite ER, bind_Ok.
    rewrite for_first_Panic; [done|lia|].
    apply for_first_Panic; [lia|]. now rewrite Hnil.
Qed.

(** ** The ReLU layer: forward, then backward *)

(** X8. The ReLU layer's [Forward] on a well-formed [X] never fails: it
    returns [ReLUMatrix X] and caches [X].  A [Backward] that follows, with
    a well-formed gradient of the shape of [X], returns the gradient at the
    cells where [X] is above zero and [+0.0] at the others, and leaves the
    cache as it is. *)
Theorem ReLULayer_Forward_then_Backward (r : ReLULayer.t) (X g : Matrix.t) :
  Matrix.wf X = true -> Matrix.wf g = true ->
  Matrix.same_shape X g = true ->
  exists Y G,
    ReLULayer.Forward r X = (ReLULayer.mk (Some X), Ok Y)
    /\ ReLUMatrix X = Ok Y
    /\ ReLULayer.Backward (ReLULayer.mk (Some X)) g
       = (ReLULayer.mk (Some X), Ok G)
    /\ Matrix.wf G = true /\ Matrix.same_shape G g = true
    /\ forall i j, 0 <= i < Matrix.Rows g -> 0 <= j < Matrix.Cols g ->
         Matrix.get (Matrix.Data Y) i j
         = Ok (if (0 <? Matrix.entry X i j)%float then Matrix.entry X i j
               else 0%float)
         /\ Matrix.get (Matrix.Data G) i j
            = Ok (if (0 <? Matrix.entry X i j)%float then Matrix.entry g i j
                  else 0%float).
Proof.
  intros HX Hg Hshape.
  destruct (ReLUMatrix_cells X HX) as (Y & EY & HY & HYr & HYc & HYcells).
  destruct (ReLU_Backward_cells (ReLULayer.mk (Some X)) X g eq_refl HX Hg Hshape)
    as (G & EG & HG & HGs & HGcells).
  apply same_shape_eq in Hshape as [Hr Hc].
  exists Y, G. split; [unfold ReLULayer.Forward; now rewrite EY|].
  repeat (split; [done|]).
  intros i j Hi Hj. split; [|now apply HGcells].
  apply HYcells; lia.
Qed.

Lemma ReLULayer_Forward_then_Backward_witness :
  Matrix.wf (Matrix.mk 1 2 [[-1; 2]]%float) = true
  /\ Matrix.wf (Matrix.mk 1 2 [[5; 7]]%float) = true
  /\ exists Y G,
       ReLULayer.Forward (ReLULayer.mk None) (Matrix.mk 1 2 [[-1; 2]]%float)
       = (ReLULayer.mk (Some (Matrix.mk 1 2 [[-1; 2]]%float)), Ok Y)
       /\ ReLULayer.Backward
            (ReLULayer.mk (Some (Matrix.mk 1 2 [[-1; 2]]%float)))
            (Matrix.mk 1 2 [[5; 7]]%float)
          = (ReLULayer.mk (Some (Matrix.mk 1 2 [[-1; 2]]%float)), Ok G).
Proof.
  split; [reflexivity|]. split; [reflexivity|].
  destruct (ReLULayer_Forward_then_Backward (ReLULayer.mk None)
              (Matrix.mk 1 2 [[-1; 2]]%float) (Matrix.mk 1 2 [[5; 7]]%float)
              eq_refl eq_refl eq_refl) as (Y & G & EY & _ & EG & _).
  exists Y, G. split; [exact EY|exact EG].
Defined.

(** ** The losses *)

Lemma sum2_loop (r c : Z) (f : Z -> Z -> float)
    (body : Z -> Z -> float -> result float) :
  0 <= r -> 0 <= c ->
  (forall i j s, 0 <= i < r -> 0 <= j < c -> body i j s = Ok (s + f i j)%float) ->
  for_ 0 r (fun i s => for_ 0 c (fun j s => body i j s) s) 0%float
  = Ok (fsum2 r c f).
Proof.
  intros Hr Hc Hbody. unfold fsum2.
  apply (for_fold
    (fun acc i => foldl (fun acc j => (acc + f i j)%float) acc (upto c)));
    [done|].
  intros i s Hi.
  apply (for_fold (fun acc j => (acc + f i j)%float)); [done|].
  intros j s' Hj. now apply Hbody.
Qed.

Lemma shape_mismatch_cases (P T : Matrix.t) :
  negb (Matrix.Rows P =? Matrix.Rows T) || negb (Matrix.Cols P =? Matrix.Cols T)
  = negb (Matrix.same_shape P T).
Proof.
  unfold Matrix.same_shape.
  now destruct (Matrix.Rows P =? Matrix.Rows T),
               (Matrix.Cols P =? Matrix.Cols T).
Qed.

Section Losses.
Context `{GoMath}.
Variables P T : Matrix.t.
Hypothesis HP : Matrix.wf P = true.
Hypothesis HT : Matrix.wf T = true.
Hypothesis Hshape : Matrix.same_shape P T = true.

Let count := float64_of_int (wrap64 (Matrix.Rows P * Matrix.Cols P)).

Lemma loss_shapes :
  Matrix.Rows T = Matrix.Rows P /\ Matrix.Cols T = Matrix.Cols P
  /\ 0 <= Matrix.Rows P /\ 0 <= Matrix.Cols P.
Proof.
  pose proof Hshape as [Hr Hc]%same_shape_eq.
  pose proof HP as (HrP & HcP & _)%wf_shaped. lia.
Qed.

(** A loss gradient: a new matrix of the shape of [P] filled cell by
    cell. *)
Lemma gradient_loop (v : Z -> Z -> float)
    (body : Z -> Z -> list (list float) -> result (list (list float))) :
  (forall i j data, 0 <= i < Matrix.Rows P -> 0 <= j < Matrix.Cols P ->
     body i j data = Matrix.set data i j (v i j)) ->
  exists G,
    (gradient ← Matrix.NewMatrix (Matrix.Rows P) (Matrix.Cols P);
     data ← for_ 0 (Matrix.Rows P) (fun i data =>
       for_ 0 (Matrix.Cols P) (body i) data) (Matrix.Data gradient);
     Ok (Matrix.mk (Matrix.Rows gradient) (Matrix.Cols gradient) data)) = Ok G
    /\ Matrix.wf G = true
    /\ Matrix.Rows G = Matrix.Rows P /\ Matrix.Cols G = Matrix.Cols P
    /\ forall i j, 0 <= i < Matrix.Rows P -> 0 <= j < Matrix.Cols P ->
         Matrix.get (Matrix.Data G) i j = Ok (v i j).
Proof.
  intros Hbody. destruct loss_shapes as (Hr & Hc & HrP & HcP).
  destruct (NewMatrix_spec (Matrix.Rows P) (Matrix.Cols P))
    as (R & ER & HRr & HRc & HRd & _); [done..|].
  rewrite ER, bind_Ok.
  destruct (fill2 (Matrix.Rows P) (Matrix.Cols P) v body (Matrix.Data R))
    as (d & E & Hd & Hcells); [done..| |].
  - intros i j data Hi Hj _ _. now apply Hbody.
  - rewrite E, bind_Ok. eexists. split; [reflexivity|].
    split; [|done]. apply wf_shaped. simpl. rewrite HRr, HRc. done.
Qed.

Lemma BCE_Forward_value (bce : BinaryCrossEntropy.t) :
  BinaryCrossEntropy.Forward bce P T
  = Ok (fsum2 (Matrix.Rows P) (Matrix.Cols P) (fun i j =>
          let pred := BinaryCrossEntropy.clamp bce (Matrix.entry P i j) in
          let target := Matrix.entry T i j in
          - (target * Log pred + (1 - target) * Log (1 - pred))) / count)%float.
Proof.
  destruct loss_shapes as (Hr & Hc & HrP & HcP).
  unfold BinaryCrossEntropy.Forward.
  rewrite shape_mismatch_cases, Hshape. cbn [negb].
  rewrite (sum2_loop (Matrix.Rows P) (Matrix.Cols P) (fun i j =>
          let pred := BinaryCrossEntropy.clamp bce (Matrix.entry P i j) in
          let target := Matrix.entry T i j in
          - (target * Log pred + (1 - target) * Log (1 - pred)))%float);
    [reflexivity|done|done|].
  intros i j s Hi Hj.
  rewrite (get_entry P i j), bind_Ok by done.
  now rewrite (get_entry T i j), bind_Ok by (done || lia).
Qed.

Lemma BCE_Backward_cells (bce : BinaryCrossEntropy.t) :
  exists G, BinaryCrossEntropy.Backward bce P T = Ok G
    /\ Matrix.wf G = true
    /\ Matrix.Rows G = Matrix.Rows P /\ Matrix.Cols G = Matrix.Cols P
    /\ forall i j, 0 <= i < Matrix.Rows P -> 0 <= j < Matrix.Cols P ->
         Matrix.get (Matrix.Data G) i j
         = Ok (let pred := BinaryCrossEntropy.clamp bce (Matrix.entry P i j) in
               let target := Matrix.entry T i j in
               - (target / pred - (1 - target) / (1 - pred)) / count)%float.
Proof.
  destruct loss_shapes as (Hr & Hc & HrP & HcP).
  unfold BinaryCrossEntropy.Backward.
  rewrite shape_mismatch_cases, Hshape. cbn [negb].
  apply (gradient_loop
    (fun i j =>
       let pred := BinaryCrossEntropy.clamp bce (Matrix.entry P i j) in
       let target := Matrix.entry T i j in
       - (target / pred - (1 - target) / (1 - pred)) / count)%float
    (fun i j data =>
       p ← Matrix.get (Matrix.Data P) i j;
       let pred := BinaryCrossEntropy.clamp bce p in
       target ← Matrix.get (Matrix.Data T) i j;
       Matrix.set data i j
         (- (target / pred - (1 - target) / (1 - pred)) / count)%float)).
  intros i j data Hi Hj.
  rewrite (get_entry P i j), bind_Ok by done.
  now rewrite (get_entry T i j), bind_Ok by (done || lia).
Qed.

Lemma CCE_Forward_value (cce : CategoricalCrossEntropy.t) :
  CategoricalCrossEntropy.Forward cce P T
  = Ok (fsum2 (Matrix.Rows P) (Matrix.Cols P) (fun i j =>
          - Matrix.entry T i j
          * Log (Max (CategoricalCrossEntropy.Epsilon cce)
                     (Matrix.entry P i j)))
        / float64_of_int (Matrix.Rows P))%float.
Proof.
  destruct loss_shapes as (Hr & Hc & HrP & HcP).
  unfold CategoricalCrossEntropy.Forward.
  rewrite shape_mismatch_cases, Hshape. cbn [negb].
  rewrite (sum2_loop (Matrix.Rows P) (Matrix.Cols P) (fun i j =>
          - Matrix.entry T i j
          * Log (Max (CategoricalCrossEntropy.Epsilon cce)
                     (Matrix.entry P i j)))%float);
    [reflexivity|done|done|].
  intros i j s Hi Hj.
  rewrite (get_entry P i j), bind_Ok by done.
  now rewrite (get_entry T i j), bind_Ok by (done || lia).
Qed.

Lemma CCE_Backward_cells (cce : CategoricalCrossEntropy.t) :
  exists G, CategoricalCrossEntropy.Backward cce P T = Ok G
    /\ Matrix.wf G = true
    /\ Matrix.Rows G = Matrix.Rows P /\ Matrix.Cols G = Matrix.Cols P
    /\ forall i j, 0 <= i < Matrix.Rows P -> 0 <= j < Matrix.Cols P ->
         Matrix.get (Matrix.Data G) i j
         = Ok (- Matrix.entry T i j
               / Max (CategoricalCrossEntropy.Epsilon cce) (Matrix.entry P i j)
               / float64_of_int (Matrix.Rows P))%float.
Proof.
  destruct loss_shapes as (Hr & Hc & HrP & HcP).
  unfold CategoricalCrossEntropy.Backward.
  rewrite shape_mismatch_cases, Hshape. cbn [negb].
  apply (gradient_loop
    (fun i j =>
       - Matrix.entry T i j
       / Max (CategoricalCrossEntropy.Epsilon cce) (Matrix.entry P i j)
       / float64_of_int (Matrix.Rows P))%float
    (fun i j data =>
       p ← Matrix.get (Matrix.Data P) i j;
       let pred := Max (CategoricalCrossEntropy.Epsilon cce) p in
       target ← Matrix.get (Matrix.Data T) i j;
       Matrix.set data i j
         (- target / pred / float64_of_int (Matrix.Rows P))%float)).
  intros i j data Hi Hj.
  rewrite (get_entry P i j), bind_Ok by done.
  now rewrite (get_entry T i j), bind_Ok by (done || lia).
Qed.

Lemma MSE_Forward_value (mse : MSE.t) :
  MSE.Forward mse P T
  = Ok (fsum2 (Matrix.Rows P) (Matrix.Cols P) (fun i j =>
          (Matrix.entry T i j - Matrix.entry P i j)
          * (Matrix.entry T i j - Matrix.entry P i j))
        / (2 * count))%float.
Proof.
  destruct loss_shapes as (Hr & Hc & HrP & HcP).
  unfold MSE.Forward.
  rewrite shape_mismatch_cases, Hshape. cbn [negb].
  rewrite (sum2_loop (Matrix.Rows P) (Matrix.Cols P) (fun i j =>
          (Matrix.entry T i j - Matrix.entry P i j)
          * (Matrix.entry T i j - Matrix.entry P i j))%float);
    [reflexivity|done|done|].
  intros i j s Hi Hj.
  rewrite (get_entry T i j), bind_Ok by (done || lia).
  now rewrite (get_entry P i j), bind_Ok by done.
Qed.

End Losses.

Lemma fsum2_no_rows c f : fsum2 0 c f = 0%float.
Proof. reflexivity. Qed.

Lemma fsum2_no_cols r f : fsum2 r 0 f = 0%float.
Proof.
  unfold fsum2. change (upto 0) with (@nil Z). cbn [foldl].
  induction (upto r) as [|i l IH]; [reflexivity|exact IH].
Qed.

Section LossTheorems.
Context `{GoMath}.

(** X9. Binary cross-entropy on well-formed matrices of one shape, with
    [pred] the prediction clamped into [[Epsilon, 1 - Epsilon]] by
    [math.Max] and [math.Min] and [N = float64(Rows * Cols)]: [Forward]
    returns the sum of [-(y * Log pred + (1 - y) * Log (1 - pred))] over the
    cells in row-major order, divided by [N]; [Backward] returns the matrix
    of that shape with the cells [-(y / pred - (1 - y) / (1 - pred)) / N]. *)
Theorem BinaryCrossEntropy_spec (bce : BinaryCrossEntropy.t) (P T : Matrix.t) :
  Matrix.wf P = true -> Matrix.wf T = true ->
  Matrix.same_shape P T = true ->
  let N := float64_of_int (wrap64 (Matrix.Rows P * Matrix.Cols P)) in
  let pred i j := Max (BinaryCrossEntropy.Epsilon bce)
                      (Min (1 - BinaryCrossEntropy.Epsilon bce)%float
                           (Matrix.entry P i j)) in
  let y i j := Matrix.entry T i j in
  BinaryCrossEntropy.Forward bce P T
  = Ok (fsum2 (Matrix.Rows P) (Matrix.Cols P) (fun i j =>
          - (y i j * Log (pred i j) + (1 - y i j) * Log (1 - pred i j))) / N)%float
  /\ exists G, BinaryCrossEntropy.Backward bce P T = Ok G
       /\ Matrix.wf G = true /\ Matrix.same_shape G P = true
       /\ forall i j, 0 <= i < Matrix.Rows P -> 0 <= j < Matrix.Cols P ->
            Matrix.get (Matrix.Data G) i j
            = Ok (- (y i j / pred i j - (1 - y i j) / (1 - pred i j)) / N)%float.
Proof.
  intros HP HT Hshape N pred y. split.
  - apply (BCE_Forward_value P T HP HT Hshape bce).
  - destruct (BCE_Backward_cells P T HP HT Hshape bce)
      as (G & E & HG & Hr & Hc & Hcells).
    exists G. split; [done|]. split; [done|]. split; [|exact Hcells].
    apply same_shape_eq. done.
Qed.

(** X10. Categorical cross-entropy on well-formed matrices of one shape,
    with [pred = math.Max(Epsilon, p)]: [Forward] returns the sum of
    [-y * Log pred] over the cells in row-major order divided by
    [float64(Rows)], the number of samples and not of cells; [Backward]
    returns the matrix of that shape with the cells [-y / pred / Rows]. *)
Theorem CategoricalCrossEntropy_spec (cce : CategoricalCrossEntropy.t)
    (P T : Matrix.t) :
  Matrix.wf P = true -> Matrix.wf T = true ->
  Matrix.same_shape P T = true ->
  let N := float64_of_int (Matrix.Rows P) in
  let pred i j := Max (CategoricalCrossEntropy.Epsilon cce)
                      (Matrix.entry P i j) in
  let y i j := Matrix.entry T i j in
  CategoricalCrossEntropy.Forward cce P T
  = Ok (fsum2 (Matrix.Rows P) (Matrix.Cols P) (fun i j =>
          - y i j * Log (pred i j)) / N)%float
  /\ exists G, CategoricalCrossEntropy.Backward cce P T = Ok G
       /\ Matrix.wf G = true /\ Matrix.same_shape G P = true
       /\ forall i j, 0 <= i < Matrix.Rows P -> 0 <= j < Matrix.Cols P ->
            Matrix.get (Matrix.Data G) i j
            = Ok (- y i j / pred i j / N)%float.
Proof.
  intros HP HT Hshape N pred y. split.
  - apply (CCE_Forward_value P T HP HT Hshape cce).
  - destruct (CCE_Backward_cells P T HP HT Hshape cce)
      as (G & E & HG & Hr & Hc & Hcells).
    exists G. split; [done|]. split; [done|]. split; [|exact Hcells].
    apply same_shape_eq. done.
Qed.

(** X11. Mean squared error on well-formed matrices of one shape, with
    [N = float64(Rows * Cols)]: [Forward] returns the sum of [(y - p)^2]
    over the cells in row-major order divided by [2 * N]; [Backward]
    returns the matrix of that shape with the cells [-(y - p) / N]. *)
Theorem MSE_spec (mse : MSE.t) (P T : Matrix.t) :
  Matrix.wf P = true -> Matrix.wf T = true ->
  Matrix.same_shape P T = true ->
  let N := float64_of_int (wrap64 (Matrix.Rows P * Matrix.Cols P)) in
  MSE.Forward mse P T
  = Ok (fsum2 (Matrix.Rows P) (Matrix.Cols P) (fun i j =>
          (Matrix.entry T i j - Matrix.entry P i j)
          * (Matrix.entry T i j - Matrix.entry P i j)) / (2 * N))%float
  /\ exists G, MSE.Backward mse P T = Ok G
       /\ Matrix.wf G = true /\ Matrix.same_shape G P = true
       /\ forall i j, 0 <= i < Matrix.Rows P -> 0 <= j < Matrix.Cols P ->
            Matrix.get (Matrix.Data G) i j
            = Ok (- (Matrix.entry T i j - Matrix.entry P i j) / N)%float.
Proof.
  intros HP HT Hshape N. split.
  - apply (MSE_Forward_value P T HP HT Hshape mse).
  - apply (MSE_Backward_cells mse P T HP HT Hshape).
Qed.

Lemma Loss_Forward_Ok (l : Loss.t) (P T : Matrix.t) :
  Matrix.wf P = true -> Matrix.wf T = true ->
  Matrix.same_shape P T = true ->
  exists loss, Loss.Forward l P T = Ok loss.
Proof.
  intros HP HT Hshape. destruct l as [bce|cce|mse]; cbn [Loss.Forward].
  - rewrite (BCE_Forward_value P T HP HT Hshape bce). eauto.
  - rewrite (CCE_Forward_value P T HP HT Hshape cce). eauto.
  - rewrite (MSE_Forward_value P T HP HT Hshape mse). eauto.
Qed.

Lemma Loss_Backward_Ok (l : Loss.t) (P T : Matrix.t) :
  Matrix.wf P = true -> Matrix.wf T = true ->
  Matrix.same_shape P T = true ->
  exists G, Loss.Backward l P T = Ok G
    /\ Matrix.wf G = true /\ Matrix.same_shape G P = true.
Proof.
  intros HP HT Hshape. destruct l as [bce|cce|mse]; cbn [Loss.Backward].
  - destruct (BCE_Backward_cells P T HP HT Hshape bce)
      as (G & E & HG & Hr & Hc & _).
    exists G. split; [done|]. split; [done|]. now apply same_shape_eq.
  - destruct (CCE_Backward_cells P T HP HT Hshape cce)
      as (G & E & HG & Hr & Hc & _).
    exists G. split; [done|]. split; [done|]. now apply same_shape_eq.
  - destruct (MSE_Backward_cells mse P T HP HT Hshape) as (G & E & HG & Hs & _).
    exists G. done.
Qed.

Lemma Loss_mismatch (l : Loss.t) (P T : Matrix.t) :
  Matrix.same_shape P T = false ->
  Loss.Backward l P T = Err "shape mismatch"
  /\ Loss.Forward l P T
     = Err (match l with
            | Loss.OfBinaryCrossEntropy _ =>
                "shape mismatch: predictions " +:+ pretty (Matrix.Rows P)
                  +:+ "x" +:+ pretty (Matrix.Cols P) +:+ ", targets "
                  +:+ pretty (Matrix.Rows T) +:+ "x" +:+ pretty (Matrix.Cols T)
            | _ => "shape mismatch"
            end).
Proof.
  intros Hshape.
  destruct l as [bce|cce|mse]; cbn [Loss.Forward Loss.Backward];
    unfold BinaryCrossEntropy.Forward, BinaryCrossEntropy.Backward,
      CategoricalCrossEntropy.Forward, CategoricalCrossEntropy.Backward,
      MSE.Forward, MSE.Backward;
    rewrite !shape_mismatch_cases, Hshape; done.
Qed.

(** X12. Every loss checks the shapes first: on well-formed matrices
    [Forward] and [Backward] return an error exactly when predictions and
    targets differ in [Rows] or [Cols], and otherwise a loss and a gradient
    of the shape of the predictions, without a panic.  The message is
    ["shape mismatch"], except that [BinaryCrossEntropy.Forward] appends
    the two shapes. *)
Theorem Loss_error_iff_shape (l : Loss.t) (P T : Matrix.t) :
  Matrix.wf P = true -> Matrix.wf T = true ->
  (failed (Loss.Forward l P T) <-> Matrix.same_shape P T = false)
  /\ (failed (Loss.Backward l P T) <-> Matrix.same_shape P T = false)
  /\ (Matrix.same_shape P T = true ->
        (exists loss, Loss.Forward l P T = Ok loss)
        /\ exists G, Loss.Backward l P T = Ok G
             /\ Matrix.wf G = true /\ Matrix.same_shape G P = true)
  /\ (Matrix.same_shape P T = false ->
        Loss.Backward l P T = Err "shape mismatch"
        /\ Loss.Forward l P T
           = Err (match l with
                  | Loss.OfBinaryCrossEntropy _ =>
                      "shape mismatch: predictions " +:+ pretty (Matrix.Rows P)
                        +:+ "x" +:+ pretty (Matrix.Cols P) +:+ ", targets "
                        +:+ pretty (Matrix.Rows T) +:+ "x"
                        +:+ pretty (Matrix.Cols T)
                  | _ => "shape mismatch"
                  end)).
Proof.
  intros HP HT. split; [|split; [|split]].
  - split.
    + intros [msg E]. destruct (Matrix.same_shape P T) eqn:Es; [|done].
      destruct (Loss_Forward_Ok l P T HP HT Es) as [loss El].
      rewrite El in E. discriminate E.
    + intros Es. destruct (Loss_mismatch l P T Es) as [_ E].
      rewrite E. eexists. reflexivity.
  - split.
    + intros [msg E]. destruct (Matrix.same_shape P T) eqn:Es; [|done].
      destruct (Loss_Backward_Ok l P T HP HT Es) as (G & EG & _).
      rewrite EG in E. discriminate E.
    + intros Es. destruct (Loss_mismatch l P T Es) as [E _].
      rewrite E. eexists. reflexivity.
  - intros Es. split; [now apply Loss_Forward_Ok|now apply Loss_Backward_Ok].
  - apply Loss_mismatch.
Qed.

(** X13. On a batch without samples a loss does not fail: for well-formed
    predictions and targets of one shape with no rows, [Forward] of every
    loss returns NaN, the quotient [0.0 / 0.0].  Binary cross-entropy and
    the mean squared error, which divide by the number of cells, return NaN
    also on matrices with rows but no columns. *)
Theorem Loss_empty_batch (l : Loss.t) (P T : Matrix.t) :
  Matrix.wf P = true -> Matrix.wf T = true ->
  Matrix.same_shape P T = true ->
  (Matrix.Rows P = 0 -> Loss.Forward l P T = Ok nan)
  /\ (Matrix.Cols P = 0 ->
        match l with
        | Loss.OfCategoricalCrossEntropy _ => True
        | _ => Loss.Forward l P T = Ok nan
        end).
Proof.
  intros HP HT Hshape. split.
  - intros Hr. destruct l as [bce|cce|mse]; cbn [Loss.Forward].
    + rewrite (BCE_Forward_value P T HP HT Hshape bce), Hr. reflexivity.
    + rewrite (CCE_Forward_value P T HP HT Hshape cce), Hr. reflexivity.
    + rewrite (MSE_Forward_value P T HP HT Hshape mse), Hr. reflexivity.
  - intros Hc. destruct l as [bce|cce|mse]; cbn [Loss.Forward]; [|done|].
    + rewrite (BCE_Forward_value P T HP HT Hshape bce), Hc.
      rewrite fsum2_no_cols, Z.mul_0_r. reflexivity.
    + rewrite (MSE_Forward_value P T HP HT Hshape mse), Hc.
      rewrite fsum2_no_cols, Z.mul_0_r. reflexivity.
Qed.

End LossTheorems.

Lemma BinaryCrossEntropy_spec_witness :
  Matrix.wf Examples.half11 = true /\ Matrix.wf Examples.one11 = true
  /\ exists G,
       @BinaryCrossEntropy.Backward example_math
         (BinaryCrossEntropy.mk Examples.tenth) Examples.half11 Examples.one11
       = Ok G
       /\ Matrix.wf G = true.
Proof.
  split; [reflexivity|]. split; [reflexivity|].
  destruct (@BinaryCrossEntropy_spec example_math
              (BinaryCrossEntropy.mk Examples.tenth)
              Examples.half11 Examples.one11 eq_refl eq_refl eq_refl)
    as (_ & G & E & HG & _).
  exists G. split; [exact E|exact HG].
Defined.

Lemma CategoricalCrossEntropy_spec_witness :
  Matrix.wf Examples.half11 = true /\ Matrix.wf Examples.one11 = true
  /\ exists G,
       @CategoricalCrossEntropy.Backward example_math
         (CategoricalCrossEntropy.mk Examples.tenth)
         Examples.half11 Examples.one11
       = Ok G
       /\ Matrix.wf G = true.
Proof.
  split; [reflexivity|]. split; [reflexivity|].
  destruct (@CategoricalCrossEntropy_spec example_math
              (CategoricalCrossEntropy.mk Examples.tenth)
              Examples.half11 Examples.one11 eq_refl eq_refl eq_refl)
    as (_ & G & E & HG & _).
  exists G. split; [exact E|exact HG].
Defined.

Lemma MSE_spec_witness :
  Matrix.wf Examples.two11 = true /\ Matrix.wf Examples.zero11 = true
  /\ MSE.Forward MSE.mk Examples.two11 Examples.zero11 = Ok 2%float.
Proof.
  split; [reflexivity|]. split; [reflexivity|].
  exact (proj1 (MSE_spec MSE.mk Examples.two11 Examples.zero11
                  eq_refl eq_refl eq_refl)).
Defined.

Lemma Loss_error_iff_shape_witness :
  Matrix.wf Examples.A22 = true /\ Matrix.wf Examples.B21 = true
  /\ failed (@Loss.Forward example_math (Loss.OfMSE MSE.mk)
               Examples.A22 Examples.B21).
Proof.
  split; [reflexivity|]. split; [reflexivity|].
  exact (proj2 (proj1 (@Loss_error_iff_shape example_math (Loss.OfMSE MSE.mk)
                         Examples.A22 Examples.B21 eq_refl eq_refl)) eq_refl).
Defined.

Lemma Loss_empty_batch_witness :
  Matrix.wf (Matrix.mk 0 2 []) = true
  /\ @Loss.Forward example_math (Loss.OfMSE MSE.mk)
       (Matrix.mk 0 2 []) (Matrix.mk 0 2 []) = Ok nan.
Proof.
  split; [reflexivity|].
  exact (proj1 (@Loss_empty_batch example_math (Loss.OfMSE MSE.mk)
                  (Matrix.mk 0 2 []) (Matrix.mk 0 2 [])
                  eq_refl eq_refl eq_refl) eq_refl).
Defined.

(** ** The optimizers: what an update leaves alone, and what it keeps *)

Lemma write_back_other (name other : string) (p : option Matrix.t)
    (acc : gmap string Matrix.t) :
  other <> name -> write_back name p acc !! other = acc !! other.
Proof.
  intros Hne. destruct p as [m|]; [|done]. simpl.
  now rewrite lookup_insert_ne.
Qed.

Lemma lazy_other (name other : string) (acc acc0 : gmap string Matrix.t)
    (r c : Z) :
  other <> name ->
  match acc !! name with
  | None => a0 ← Matrix.NewMatrix r c; Ok (<[name := a0]> acc)
  | Some _ => Ok acc
  end = Ok acc0 ->
  acc0 !! other = acc !! other.
Proof.
  intros Hne E. destruct (acc !! name).
  - now injection E as <-.
  - destruct (Matrix.NewMatrix r c) as [a0| |]; try discriminate E.
    simpl in E. injection E as <-. now rewrite lookup_insert_ne.
Qed.

Lemma SGD_Update_frame (sgd : SGD.t) (name : string) (p g : Matrix.t) :
  let sgd' := (SGD.Update sgd name p g).1 in
  SGD.LearningRate sgd' = SGD.LearningRate sgd
  /\ SGD.Momentum sgd' = SGD.Momentum sgd
  /\ forall other, other <> name ->
       SGD.Velocity sgd' !! other = SGD.Velocity sgd !! other.
Proof.
  unfold SGD.Update.
  destruct (match SGD.Velocity sgd !! name with
            | None => _
            | Some _ => _
            end) as [V0| |] eqn:Einit; [|done..].
  match goal with
  | |- context [match ?r with Ok _ => _ | Err _ => _ | Panic => _ end] =>
      destruct r as [[velocity updated]| |]; [|done..]
  end.
  cbn. split; [done|]. split; [done|]. intros other Hne.
  rewrite write_back_other by done. eapply lazy_other; eauto.
Qed.

Section AdamFrame.
Context `{GoMath}.

Lemma Adam_Update_frame (adam : AdamOptimizer.t) (name : string)
    (p g : Matrix.t) :
  let adam' := (AdamOptimizer.Update adam name p g).1 in
  AdamOptimizer.LearningRate adam' = AdamOptimizer.LearningRate adam
  /\ AdamOptimizer.Beta1 adam' = AdamOptimizer.Beta1 adam
  /\ AdamOptimizer.Beta2 adam' = AdamOptimizer.Beta2 adam
  /\ AdamOptimizer.Epsilon adam' = AdamOptimizer.Epsilon adam
  /\ forall other, other <> name ->
       AdamOptimizer.M adam' !! other = AdamOptimizer.M adam !! other
       /\ AdamOptimizer.V adam' !! other = AdamOptimizer.V adam !! other.
Proof.
  unfold AdamOptimizer.Update. cbn [AdamOptimizer.M AdamOptimizer.V
    AdamOptimizer.LearningRate AdamOptimizer.Beta1 AdamOptimizer.Beta2
    AdamOptimizer.Epsilon AdamOptimizer.T].
  destruct (AdamOptimizer.M adam !! name) as [m|] eqn:Em.
  - match goal with
    | |- context [match ?r with Ok _ => _ | Err _ => _ | Panic => _ end] =>
        destruct r as [[[m' v'] updated]| |]
    end; cbn; do 4 (split; [done|]); intros other Hne;
      rewrite ?write_back_other by done; done.
  - destruct (Matrix.NewMatrix (Matrix.Rows p) (Matrix.Cols p)) as [m0| |];
      cbn; [|by do 4 (split; [done|])..].
    match goal with
    | |- context [match ?r with Ok _ => _ | Err _ => _ | Panic => _ end] =>
        destruct r as [[[m' v'] updated]| |]
    end; cbn; do 4 (split; [done|]); intros other Hne;
      rewrite ?write_back_other, ?lookup_insert_ne by done; done.
Qed.

(** X14. An update is local to its identifier: whatever it returns,
    [Update] of either optimizer leaves the accumulators stored under every
    other identifier as they are (the velocities of SGD, the two moments of
    Adam) and does not change the hyperparameters. *)
Theorem Update_frame (o : Optimizer.t) (name : string) (p g : Matrix.t) :
  match o, (Optimizer.Update o name p g).1 with
  | Optimizer.OfSGD sgd, Optimizer.OfSGD sgd' =>
      SGD.LearningRate sgd' = SGD.LearningRate sgd
      /\ SGD.Momentum sgd' = SGD.Momentum sgd
      /\ forall other, other <> name ->
           SGD.Velocity sgd' !! other = SGD.Velocity sgd !! other
  | Optimizer.OfAdam adam, Optimizer.OfAdam adam' =>
      AdamOptimizer.LearningRate adam' = AdamOptimizer.LearningRate adam
      /\ AdamOptimizer.Beta1 adam' = AdamOptimizer.Beta1 adam
      /\ AdamOptimizer.Beta2 adam' = AdamOptimizer.Beta2 adam
      /\ AdamOptimizer.Epsilon adam' = AdamOptimizer.Epsilon adam
      /\ forall other, other <> name ->
           AdamOptimizer.M adam' !! other = AdamOptimizer.M adam !! other
           /\ AdamOptimizer.V adam' !! other = AdamOptimizer.V adam !! other
  | _, _ => False
  end.
Proof.
  destruct o as [adam|sgd]; cbn [Optimizer.Update].
  - pose proof (Adam_Update_frame adam name p g) as Hf.
    destruct (AdamOptimizer.Update adam name p g) as [adam' r]. exact Hf.
  - pose proof (SGD_Update_frame sgd name p g) as Hf.
    destruct (SGD.Update sgd name p g) as [sgd' r]. exact Hf.
Qed.

End AdamFrame.

Lemma prior_insert (acc : gmap string Matrix.t) (name : string)
    (a : Matrix.t) i j :
  prior (<[name := a]> acc) name i j = Matrix.entry a i j.
Proof. unfold prior. now rewrite lookup_insert_eq. Qed.

Lemma fits_insert (acc : gmap string Matrix.t) (name : string)
    (a p : Matrix.t) :
  has_shape a (Matrix.Rows p) (Matrix.Cols p) = true ->
  fits (<[name := a]> acc) name p = true.
Proof. intros Ha. unfold fits. now rewrite lookup_insert_eq. Qed.

(** X15. Momentum carries over from one update to the next.  After an
    update for an identifier the velocity stored under it is
    [v1 = Momentum * v0 - LearningRate * g1], and it has the shape of the
    parameter; a second update for the same identifier, with a parameter
    [p2] and a gradient [g2] of that shape, starts from it and returns
    [p2 + (Momentum * v1 - LearningRate * g2)]. *)
Theorem SGD_momentum_accumulates (sgd : SGD.t) (name : string)
    (p1 g1 p2 g2 : Matrix.t) :
  Matrix.wf p1 = true -> Matrix.wf g1 = true ->
  Matrix.wf p2 = true -> Matrix.wf g2 = true ->
  Matrix.same_shape p1 g1 = true -> Matrix.same_shape p2 g2 = true ->
  Matrix.same_shape p1 p2 = true ->
  fits (SGD.Velocity sgd) name p1 = true ->
  exists sgd1 u1 sgd2 u2,
    SGD.Update sgd name p1 g1 = (sgd1, Ok u1)
    /\ SGD.Update sgd1 name p2 g2 = (sgd2, Ok u2)
    /\ fits (SGD.Velocity sgd1) name p2 = true
    /\ forall i j, 0 <= i < Matrix.Rows p1 -> 0 <= j < Matrix.Cols p1 ->
         let v1 := (SGD.Momentum sgd * prior (SGD.Velocity sgd) name i j
                    - SGD.LearningRate sgd * Matrix.entry g1 i j)%float in
         prior (SGD.Velocity sgd1) name i j = v1
         /\ Matrix.get (Matrix.Data u2) i j
            = Ok (Matrix.entry p2 i j
                  + (SGD.Momentum sgd * v1
                     - SGD.LearningRate sgd * Matrix.entry g2 i j))%float.
Proof.
  intros Hp1 Hg1 Hp2 Hg2 Hs1 Hs2 Hs12 Hfit.
  destruct (SGD_Update_cells sgd name p1 g1 Hp1 Hg1 Hs1 Hfit)
    as (sgd1 & v' & u1 & E1 & Hlr & Hmom & HV & Hv' & Hu1 & Hcells1).
  apply same_shape_eq in Hs12 as [Hr Hc].
  assert (Hfit1 : fits (SGD.Velocity sgd1) name p2 = true).
  { rewrite HV. apply fits_insert. now rewrite <- Hr, <- Hc. }
  destruct (SGD_Update_cells sgd1 name p2 g2 Hp2 Hg2 Hs2 Hfit1)
    as (sgd2 & v'' & u2 & E2 & _ & _ & _ & _ & _ & Hcells2).
  exists sgd1, u1, sgd2, u2. repeat (split; [done|]).
  intros i j Hi Hj v1.
  destruct (Hcells1 i j Hi Hj) as [Ev1 _].
  assert (Eprior : prior (SGD.Velocity sgd1) name i j = v1).
  { rewrite HV, prior_insert. now apply entry_get. }
  split; [exact Eprior|].
  destruct (Hcells2 i j) as [_ Eu2]; [lia..|].
  rewrite Eu2, Eprior, Hlr, Hmom. reflexivity.
Qed.

Lemma SGD_momentum_accumulates_witness :
  Matrix.wf Examples.one11 = true /\ Matrix.wf Examples.half11 = true
  /\ exists sgd1 u1 sgd2 u2,
       SGD.Update (SGD.NewSGD Examples.tenth 0.5) "w"
         Examples.one11 Examples.half11 = (sgd1, Ok u1)
       /\ SGD.Update sgd1 "w" Examples.one11 Examples.half11 = (sgd2, Ok u2).
Proof.
  split; [reflexivity|]. split; [reflexivity|].
  destruct (SGD_momentum_accumulates (SGD.NewSGD Examples.tenth 0.5) "w"
              Examples.one11 Examples.half11 Examples.one11 Examples.half11
              eq_refl eq_refl eq_refl eq_refl eq_refl eq_refl eq_refl eq_refl)
    as (sgd1 & u1 & sgd2 & u2 & E1 & E2 & _).
  exists sgd1, u1, sgd2, u2. split; [exact E1|exact E2].
Defined.

Section AdamMoments.
Context `{GoMath}.

(** X16. Adam keeps its two moment estimates per identifier.  After an
    update for an identifier, with well-formed parameter and gradient of
    one shape, the matrices stored under it in [M] and [V] have the shape
    of the parameter and the cells [Beta1 * m + (1 - Beta1) * g] and
    [Beta2 * v + (1 - Beta2) * g * g], where [m] and [v] are the cells
    stored before, or zero at the first use of the identifier; so the next
    update for the identifier finds them in place. *)
Theorem Adam_moments_stored (adam : AdamOptimizer.t) (name : string)
    (p g : Matrix.t) :
  Matrix.wf p = true -> Matrix.wf g = true ->
  Matrix.same_shape p g = true -> adam_fits adam name p = true ->
  exists adam' updated m' v',
    AdamOptimizer.Update adam name p g = (adam', Ok updated)
    /\ AdamOptimizer.M adam' !! name = Some m'
    /\ AdamOptimizer.V adam' !! name = Some v'
    /\ has_shape m' (Matrix.Rows p) (Matrix.Cols p) = true
    /\ has_shape v' (Matrix.Rows p) (Matrix.Cols p) = true
    /\ adam_fits adam' name p = true
    /\ forall i j, 0 <= i < Matrix.Rows p -> 0 <= j < Matrix.Cols p ->
         Matrix.get (Matrix.Data m') i j
         = Ok (AdamOptimizer.Beta1 adam * prior (AdamOptimizer.M adam) name i j
               + (1 - AdamOptimizer.Beta1 adam) * Matrix.entry g i j)%float
         /\ Matrix.get (Matrix.Data v') i j
            = Ok (AdamOptimizer.Beta2 adam
                  * prior (AdamOptimizer.V adam) name i j
                  + (1 - AdamOptimizer.Beta2 adam) * Matrix.entry g i j
                    * Matrix.entry g i j)%float.
Proof.
  intros Hp Hg Hshape Hfit.
  destruct (Adam_Update_cells adam name p g Hp Hg Hshape Hfit)
    as (adam' & m' & v' & u & E & _ & _ & _ & _ & _ & HM & HV & Hm' & Hv' & _
        & Hcells).
  exists adam', u, m', v'. split; [done|].
  split; [rewrite HM; apply lookup_insert_eq|].
  split; [rewrite HV; apply lookup_insert_eq|].
  split; [done|]. split; [done|]. split.
  - unfold adam_fits. rewrite HM, HV, !lookup_insert_eq, Hm', Hv'. done.
  - intros i j Hi Hj. destruct (Hcells i j Hi Hj) as (Em & Ev & _). done.
Qed.

End AdamMoments.

Lemma Adam_moments_stored_witness :
  Matrix.wf Examples.one11 = true /\ Matrix.wf Examples.half11 = true
  /\ exists adam' updated m' v',
       @AdamOptimizer.Update example_math
         (AdamOptimizer.NewAdamOptimizer Examples.tenth) "w"
         Examples.one11 Examples.half11 = (adam', Ok updated)
       /\ AdamOptimizer.M adam' !! "w" = Some m'
       /\ AdamOptimizer.V adam' !! "w" = Some v'.
Proof.
  split; [reflexivity|]. split; [reflexivity|].
  destruct (@Adam_moments_stored example_math
              (AdamOptimizer.NewAdamOptimizer Examples.tenth) "w"
              Examples.one11 Examples.half11 eq_refl eq_refl eq_refl eq_refl)
    as (adam' & u & m' & v' & E & EM & EV & _).
  exists adam', u, m', v'. split; [exact E|]. split; [exact EM|exact EV].
Defined.

(** ** Loops that are known to have ended normally *)

Lemma loop_inv_Ok {St} (I : Z -> St -> Prop) (body : Z -> St -> result St) n :
  forall i s s',
  I i s ->
  (forall k s s1, i <= k < i + Z.of_nat n -> I k s -> body k s = Ok s1 ->
     I (k + 1) s1) ->
  loop n i body s = Ok s' -> I (i + Z.of_nat n) s'.
Proof.
  induction n as [|n IH]; intros i s s' Hi Hstep E.
  - simpl in E. injection E as <-. now rewrite Z.add_0_r.
  - cbn [loop] in E. apply bind_eq_Ok in E as (s1 & E1 & E).
    replace (i + Z.of_nat (S n)) with (i + 1 + Z.of_nat n) by lia.
    apply (IH (i + 1) s1 s'); [|intros k s2 s3 Hk; apply Hstep; lia|done].
    apply (Hstep i s s1); [lia|done|done].
Qed.

Lemma for_inv_Ok {St} (I : Z -> St -> Prop) (body : Z -> St -> result St)
    lo hi s s' :
  lo <= hi -> I lo s ->
  (forall k s s1, lo <= k < hi -> I k s -> body k s = Ok s1 -> I (k + 1) s1) ->
  for_ lo hi body s = Ok s' -> I hi s'.
Proof.
  intros Hle Hlo Hstep E. unfold for_ in E.
  replace hi with (lo + Z.of_nat (Z.to_nat (hi - lo))) at 1 by lia.
  eapply loop_inv_Ok; [exact Hlo| |exact E].
  intros k s1 s2 Hk. apply Hstep. lia.
Qed.

Lemma for2_inv_Ok {St} (I : Z -> St -> Prop)
    (body : Z -> Z -> St -> result St) r c s s' :
  0 <= r -> 0 <= c -> I 0 s ->
  (forall i j s s1, 0 <= i < r -> 0 <= j < c -> I (i * c + j) s ->
     body i j s = Ok s1 -> I (i * c + j + 1) s1) ->
  for_ 0 r (fun i s => for_ 0 c (body i) s) s = Ok s' -> I (r * c) s'.
Proof.
  intros Hr Hc H0 Hstep E.
  apply (for_inv_Ok (fun i s => I (i * c) s)
           (fun i s => for_ 0 c (body i) s) 0 r s s'); [done|done| |done].
  intros i s1 s2 Hi HI E2.
  replace ((i + 1) * c) with (i * c + c) by lia.
  apply (for_inv_Ok (fun j s => I (i * c + j) s) (body i) 0 c s1 s2);
    [done|now rewrite Z.add_0_r| |done].
  intros j s3 s4 Hj HI3 E3. rewrite Z.add_assoc. now apply (Hstep i j s3).
Qed.

Lemma for_empty {St} (body : Z -> St -> result St) lo hi s :
  hi <= lo -> for_ lo hi body s = Ok s.
Proof.
  intros Hle. unfold for_. now replace (Z.to_nat (hi - lo)) with 0%nat by lia.
Qed.

(** ** A write to a cell, whatever the shape of the buffer *)

Lemma index_insert_eq {A} (s : list A) (i : Z) (x : A) :
  0 <= i < Z.of_nat (length s) -> index (<[Z.to_nat i := x]> s) i = Ok x.
Proof.
  intros Hi. apply index_lookup; [lia|]. apply list_lookup_insert_eq. lia.
Qed.

Lemma index_insert_ne {A} (s : list A) (i i' : Z) (x : A) :
  0 <= i -> i' <> i -> index (<[Z.to_nat i := x]> s) i' = index s i'.
Proof.
  intros Hi Hne. unfold index. destruct (i' <? 0) eqn:E; [done|].
  apply Z.ltb_ge in E. rewrite list_lookup_insert_ne by lia. done.
Qed.

Lemma set_get d i j x d' :
  Matrix.set d i j x = Ok d' ->
  Matrix.get d' i j = Ok x
  /\ forall i' j', (i', j') <> (i, j) -> Matrix.get d' i' j' = Matrix.get d i' j'.
Proof.
  unfold Matrix.set. intros E.
  apply bind_eq_Ok in E as (row & Erow & E).
  apply bind_eq_Ok in E as (row' & Erow' & E).
  pose proof Erow as [Hi Hrow]%index_Ok_inv.
  unfold assign in Erow', E.
  destruct ((j <? 0) || (Z.of_nat (length row) <=? j)) eqn:Ej; [done|].
  destruct ((i <? 0) || (Z.of_nat (length d) <=? i)) eqn:Ei; [done|].
  injection Erow' as <-. injection E as <-.
  apply orb_false_iff in Ej as [Hj0%Z.ltb_ge Hj1%Z.leb_gt].
  unfold Matrix.get. split.
  - rewrite index_insert_eq, bind_Ok by lia. apply index_insert_eq. lia.
  - intros i' j' Hne. destruct (decide (i' = i)) as [->|Hi'].
    + rewrite index_insert_eq, bind_Ok by lia. rewrite Erow, bind_Ok.
      apply index_insert_ne; [lia|]. congruence.
    + rewrite index_insert_ne by lia. done.
Qed.

Lemma copy_loop (p updated : Matrix.t) data :
  for_ 0 (Matrix.Rows p) (fun r data =>
    for_ 0 (Matrix.Cols p) (fun c data =>
      x ← Matrix.get (Matrix.Data updated) r c;
      Matrix.set data r c x) data) (Matrix.Data p) = Ok data ->
  copied p updated (Matrix.mk (Matrix.Rows p) (Matrix.Cols p) data).
Proof.
  intros E. split; [done|]. split; [done|]. cbn [Matrix.Data].
  intros r c Hr Hc.
  pose proof (for2_inv_Ok
    (fun k data => forall r c, 0 <= r -> 0 <= c < Matrix.Cols p ->
       r * Matrix.Cols p + c < k ->
       exists x, Matrix.get (Matrix.Data updated) r c = Ok x
                 /\ Matrix.get data r c = Ok x)
    (fun r c data =>
       x ← Matrix.get (Matrix.Data updated) r c; Matrix.set data r c x)
    (Matrix.Rows p) (Matrix.Cols p) (Matrix.Data p) data) as Hinv.
  apply Hinv; [lia|lia| | |exact E|lia|lia|nia].
  - intros r' c' Hr' Hc' Hlt. nia.
  - intros i j d d1 Hi Hj Hd Ed r' c' Hr' Hc' Hlt.
    apply bind_eq_Ok in Ed as (x & Ex & Eset).
    apply set_get in Eset as [Hsame Hother].
    destruct (decide ((r', c') = (i, j))) as [[= -> ->]|Hne].
    + eauto.
    + rewrite Hother by done. apply Hd; [done..|].
      assert (r' * Matrix.Cols p + c' <> i * Matrix.Cols p + j).
      { intros Heq. apply cell_index_inj in Heq as [-> ->]; [done|lia..]. }
      lia.
Qed.

(** ** What [UpdateWeights] writes *)

Section UpdateWeightsValues.
Context `{GoMath}.

Lemma update_param_inv idx i layer o log st' :
  Sequential.update_param idx i (layer, Some o, log) = Ok st' ->
  exists n p g updated data,
    index (Layer.GetParamNames layer) i = Ok n
    /\ index (Layer.GetParams layer) i = Ok p
    /\ index (Layer.GetGrads layer) i = Ok g
    /\ (Optimizer.Update o (param_name idx n) p g).2 = Ok updated
    /\ copied p updated (Matrix.mk (Matrix.Rows p) (Matrix.Cols p) data)
    /\ st' = (Layer.store_param layer i data,
              Some (Optimizer.Update o (param_name idx n) p g).1,
              log ++ [param_name idx n]).
Proof.
  intros E. unfold Sequential.update_param in E.
  apply bind_eq_Ok in E as (n & En & E).
  apply bind_eq_Ok in E as (p & Ep & E).
  apply bind_eq_Ok in E as (g & Eg & E).
  rewrite bind_Ok in E. fold (param_name idx n) in E.
  destruct (Optimizer.Update o (param_name idx n) p g) as [o' r] eqn:Eo.
  apply bind_eq_Ok in E as (updated & -> & E).
  apply bind_eq_Ok in E as (data & Edata & [= <-]).
  exists n, p, g, updated, data. rewrite Eo. do 4 (split; [done|]).
  split; [now apply copy_loop|done].
Qed.

Lemma update_layer idx (layer : Layer.t) o log layer1 opt1 log1 :
  range_from 0 (Layer.GetParams layer)
    (fun i _ st => Sequential.update_param idx i st)
    (layer, Some o, log) = Ok (layer1, opt1, log1) ->
  layer_updated o idx layer layer1
  /\ opt1 = Some (optimizer_after o (layer_calls idx layer)).
Proof.
  intros E. destruct layer as [d|r|s];
    [|cbn in E; now injection E as <- <- <-..].
  change (Layer.GetParams (Layer.OfDense d))
    with [Dense.Weights d; Dense.Bias d] in E.
  cbn [range_from] in E.
  apply bind_eq_Ok in E as (st1 & Ea & E).
  apply bind_eq_Ok in E as (st2 & Eb & [= ->]).
  apply update_param_inv in Ea
    as (n0 & p0 & g0 & u0 & data0 & En0 & Ep0 & Eg0 & Eu0 & Hc0 & ->).
  cbn in En0, Ep0, Eg0.
  injection En0 as <-. injection Ep0 as <-. injection Eg0 as <-.
  cbn [Layer.store_param Z.eqb] in Eb.
  apply update_param_inv in Eb
    as (n1 & p1 & g1 & u1 & data1 & En1 & Ep1 & Eg1 & Eu1 & Hc1 & Est).
  cbn in En1, Ep1, Eg1.
  injection En1 as <-. injection Ep1 as <-. injection Eg1 as <-.
  cbn [Layer.store_param Z.eqb Dense.Weights Dense.Bias Dense.InputSize
       Dense.OutputSize Dense.lastInput Dense.weightsGrad Dense.biasGrad
       Matrix.Rows Matrix.Cols] in Est.
  injection Est as -> -> ->. split; [|reflexivity].
  unfold layer_updated. eexists _, u0, u1. split; [reflexivity|]. cbn.
  split; [done|]. split; [done|]. split; [exact Hc0|]. split; [exact Hc1|].
  done.
Qed.

Lemma optimizer_after_app o calls1 calls2 :
  optimizer_after o (calls1 ++ calls2)
  = optimizer_after (optimizer_after o calls1) calls2.
Proof. unfold optimizer_after. apply foldl_app. Qed.

Lemma update_from_values layers :
  forall idx o log layers' st',
  Sequential.update_from idx layers (Some o, log) = Ok (layers', st') ->
  forall k layer, layers !! k = Some layer ->
    exists layer',
      layers' !! k = Some layer'
      /\ layer_updated
           (optimizer_after o (update_calls idx (take k layers)))
           (idx + Z.of_nat k) layer layer'.
Proof.
  induction layers as [|l rest IH]; intros idx o log layers' st' E k layer Hk;
    [done|].
  cbn [Sequential.update_from fst snd] in E.
  apply bind_eq_Ok in E as ([[layer1 opt1] log1] & E1 & E).
  apply bind_eq_Ok in E as ([rest' st2] & E2 & [= <- <-]).
  apply update_layer in E1 as [Hl ->].
  destruct k as [|k].
  - injection Hk as <-. exists layer1. split; [done|].
    cbn [take update_calls]. now rewrite Z.add_0_r.
  - cbn [lookup list_lookup] in Hk.
    destruct (IH _ _ _ _ _ E2 k layer Hk) as (layer' & Hk' & Hupd).
    exists layer'. split; [done|].
    cbn [take update_calls]. rewrite optimizer_after_app.
    now replace (idx + Z.of_nat (S k)) with (idx + 1 + Z.of_nat k) by lia.
Qed.

(** What [UpdateWeights] does to a model with a layer value per position,
    when it does not panic. *)
Lemma UpdateWeights_values (s s' : Sequential.t) (o : Optimizer.t) :
  Sequential.UpdateWeights s = Ok s' ->
  Sequential.Optimizer s = Some o ->
  length (Sequential.Layers s') = length (Sequential.Layers s)
  /\ Sequential.Loss s' = Sequential.Loss s
  /\ Sequential.Optimizer s'
     = Some (optimizer_after o (update_calls 0 (Sequential.Layers s)))
  /\ forall k layer,
       Sequential.Layers s !! k = Some layer ->
       exists layer',
         Sequential.Layers s' !! k = Some layer'
         /\ layer_updated
              (optimizer_after o
                 (update_calls 0 (take k (Sequential.Layers s))))
              (Z.of_nat k) layer layer'.
Proof.
  intros E Ho. unfold Sequential.UpdateWeights in E. rewrite Ho in E.
  apply bind_eq_Ok in E as ([layers' [opt' log']] & E & [= <-]).
  cbn [Sequential.Layers Sequential.Loss Sequential.Optimizer].
  pose proof (update_from_calls _ _ _ _ _ _ _ E) as (-> & _ & Hlen).
  split; [done|]. split; [done|]. split; [done|].
  intros k layer Hk.
  destruct (update_from_values _ _ _ _ _ _ E k layer Hk) as (layer' & Hk' & Hupd).
  exists layer'. split; [done|]. exact Hupd.
Qed.

(** ** Layers held by pointer *)

Lemma stored_other (addresses : list nat) :
  forall layers objects a,
  a ∉ addresses -> stored addresses layers objects !! a = objects !! a.
Proof.
  induction addresses as [|b addresses IH]; intros layers objects a Ha;
    [done|].
  destruct layers as [|layer layers]; [done|]. cbn [stored].
  apply not_elem_of_cons in Ha as [Hne Ha].
  rewrite IH by done. now rewrite lookup_insert_ne.
Qed.

Lemma stored_at (addresses : list nat) :
  forall layers objects k a layer,
  NoDup addresses ->
  addresses !! k = Some a -> layers !! k = Some layer ->
  stored addresses layers objects !! a = Some layer.
Proof.
  induction addresses as [|b addresses IH];
    intros layers objects k a layer Hnd Ha Hl; [done|].
  destruct layers as [|l0 layers]; [done|]. cbn [stored].
  apply NoDup_cons in Hnd as [Hb Hnd].
  destruct k as [|k].
  - injection Ha as ->. injection Hl as ->.
    rewrite stored_other by done. apply lookup_insert_eq.
  - exact (IH layers _ k a layer Hnd Ha Hl).
Qed.

Lemma mapM_insert_other (objects : gmap nat Layer.t) a layer addresses :
  a ∉ addresses ->
  mapM (<[a := layer]> objects !!.) addresses = mapM (objects !!.) addresses.
Proof.
  intros Ha. apply Forall_mapM_ext, Forall_forall.
  intros b Hb. apply lookup_insert_ne. intros ->. done.
Qed.

(** When no layer is in the model twice, the loop over the pointers is
    the loop over the values. *)
Lemma update_from_distinct (addresses : list nat) :
  forall idx objects layers optimizer calls,
  NoDup addresses ->
  mapM (objects !!.) addresses = Some layers ->
  ByPointer.update_from idx addresses (objects, optimizer, calls)
  = match Sequential.update_from idx layers (optimizer, calls) with
    | Ok (layers', (optimizer', calls')) =>
        Ok (stored addresses layers' objects, optimizer', calls')
    | Err msg => Err msg
    | Panic => Panic
    end.
Proof.
  induction addresses as [|a addresses IH];
    intros idx objects layers optimizer calls Hnd Hl.
  - injection Hl as <-. reflexivity.
  - apply NoDup_cons in Hnd as [Ha Hnd].
    apply mapM_Some_1 in Hl.
    apply Forall2_cons_inv_l in Hl as (layer & rest & Hla & Hrest & ->).
    apply mapM_Some_2 in Hrest.
    cbn [ByPointer.update_from Sequential.update_from fst snd].
    unfold ByPointer.object. rewrite Hla, bind_Ok.
    destruct (range_from 0 (Layer.GetParams layer)
                (fun i _ st => Sequential.update_param idx i st)
                (layer, optimizer, calls)) as [[[layer1 o1] c1]|msg|];
      [|reflexivity..].
    rewrite !bind_Ok.
    rewrite (IH (idx + 1) (<[a := layer1]> objects) rest o1 c1 Hnd)
      by now rewrite mapM_insert_other.
    destruct (Sequential.update_from (idx + 1) rest (o1, c1))
      as [[rest' [o' c']]|msg|]; reflexivity.
Qed.

(** A run of the loop that ends normally has found a layer at every
    address. *)
Lemma update_from_objects (addresses : list nat) :
  forall idx objects optimizer calls st',
  NoDup addresses ->
  ByPointer.update_from idx addresses (objects, optimizer, calls) = Ok st' ->
  exists layers, mapM (objects !!.) addresses = Some layers.
Proof.
  induction addresses as [|a addresses IH];
    intros idx objects optimizer calls st' Hnd E; [now exists []|].
  apply NoDup_cons in Hnd as [Ha Hnd].
  cbn [ByPointer.update_from] in E.
  apply bind_eq_Ok in E as (layer & Hla & E).
  apply bind_eq_Ok in E as ([[layer1 o1] c1] & _ & E).
  apply IH in E as [rest Hrest]; [|done].
  rewrite mapM_insert_other in Hrest by done.
  unfold ByPointer.object in Hla.
  destruct (objects !! a) as [l|] eqn:Hl; [|discriminate Hla].
  exists (l :: rest). apply mapM_Some_2. constructor; [done|].
  now apply mapM_Some_1.
Qed.

Lemma UpdateWeights_distinct_layers (s : ByPointer.t) (layers : list Layer.t) :
  NoDup (ByPointer.Layers s) ->
  layers_of s = Some layers ->
  ByPointer.UpdateWeights s
  = match Sequential.UpdateWeights (by_value s layers) with
    | Ok s' =>
        Ok (ByPointer.mk (ByPointer.Layers s)
              (stored (ByPointer.Layers s) (Sequential.Layers s')
                 (ByPointer.Objects s))
              (Sequential.Loss s') (Sequential.Optimizer s')
              (Sequential.updateCalls s'))
    | Err msg => Err msg
    | Panic => Panic
    end.
Proof.
  intros Hnd Hl. unfold ByPointer.UpdateWeights, Sequential.UpdateWeights.
  rewrite (update_from_distinct _ 0 _ layers _ _ Hnd Hl).
  cbn [by_value Sequential.Layers Sequential.Loss Sequential.Optimizer
       Sequential.updateCalls].
  destruct (Sequential.update_from 0 layers
              (ByPointer.Optimizer s, ByPointer.updateCalls s))
    as [[layers' [o' c']]|msg|]; reflexivity.
Qed.

(** X17. What [UpdateWeights] does to a model whose optimizer is set and
    whose layers are distinct objects (no layer has been added twice),
    when it does not panic: no position holds a nil layer; the model keeps
    its layers and its loss; a layer without parameters is left as it is;
    the dense layer at position [k] gets, cell by cell, the weights that
    [Optimizer.Update("layer_k_weights", Weights, weightsGrad)] returned and
    then the bias that [Optimizer.Update("layer_k_bias", Bias, biasGrad)]
    returned, the calls being made on the optimizer as the updates of the
    layers before it have left it; its gradients and its cached input are
    not touched.  The optimizer of the model is the one left by the last
    call, and an object that is not a layer of the model is not
    touched. *)
Theorem UpdateWeights_spec (s s' : ByPointer.t) (o : Optimizer.t) :
  NoDup (ByPointer.Layers s) ->
  ByPointer.UpdateWeights s = Ok s' ->
  ByPointer.Optimizer s = Some o ->
  exists layers,
    layers_of s = Some layers
    /\ ByPointer.Layers s' = ByPointer.Layers s
    /\ ByPointer.Loss s' = ByPointer.Loss s
    /\ ByPointer.Optimizer s'
       = Some (optimizer_after o (update_calls 0 layers))
    /\ (forall k a layer,
          ByPointer.Layers s !! k = Some a ->
          ByPointer.Objects s !! a = Some layer ->
          exists layer',
            ByPointer.Objects s' !! a = Some layer'
            /\ layer_updated
                 (optimizer_after o (update_calls 0 (take k layers)))
                 (Z.of_nat k) layer layer')
    /\ (forall a, a ∉ ByPointer.Layers s ->
          ByPointer.Objects s' !! a = ByPointer.Objects s !! a).
Proof.
  intros Hnd E Ho.
  assert (Hl : exists layers, layers_of s = Some layers).
  { unfold ByPointer.UpdateWeights in E.
    apply bind_eq_Ok in E as ([[objects o'] c'] & E & _).
    exact (update_from_objects _ _ _ _ _ _ Hnd E). }
  destruct Hl as [layers Hl]. exists layers. split; [exact Hl|].
  rewrite (UpdateWeights_distinct_layers s layers Hnd Hl) in E.
  destruct (Sequential.UpdateWeights (by_value s layers)) as [v'|msg|] eqn:Ev;
    [|discriminate E..].
  injection E as <-.
  cbn [ByPointer.Layers ByPointer.Loss ByPointer.Optimizer ByPointer.Objects].
  destruct (UpdateWeights_values (by_value s layers) v' o Ev Ho)
    as (Hlen & Hloss & Hopt & Hlayers).
  cbn [by_value Sequential.Layers Sequential.Loss] in Hlen, Hloss, Hopt, Hlayers.
  split; [done|]. split; [done|]. split; [done|]. split.
  - intros k a layer Hk Ha.
    assert (Hlk : layers !! k = Some layer).
    { apply mapM_Some_1 in Hl.
      destruct (Forall2_lookup_l _ _ _ _ _ Hl Hk) as (l & Hlk & Hal).
      cbn in Hal. rewrite Ha in Hal. now injection Hal as <-. }
    destruct (Hlayers k layer Hlk) as (layer' & Hk' & Hupd).
    exists layer'. split; [|exact Hupd].
    exact (stored_at _ _ _ k a layer' Hnd Hk Hk').
  - intros a Ha. now apply stored_other.
Qed.

End UpdateWeightsValues.

Lemma UpdateWeights_spec_witness :
  NoDup (ByPointer.Layers Examples.model_two)
  /\ exists s' layers,
       @ByPointer.UpdateWeights example_math Examples.model_two = Ok s'
       /\ layers_of Examples.model_two = Some layers
       /\ ByPointer.Layers s' = [0%nat; 1%nat].
Proof.
  assert (Hnd : NoDup (ByPointer.Layers Examples.model_two)).
  { cbn. apply NoDup_cons. split; [|apply NoDup_singleton].
    intros Hin. apply list_elem_of_singleton in Hin. discriminate Hin. }
  split; [exact Hnd|].
  assert (E : exists s',
            @ByPointer.UpdateWeights example_math Examples.model_two = Ok s').
  { vm_compute. eexists. reflexivity. }
  destruct E as [s' E]. exists s'.
  destruct (@UpdateWeights_spec example_math Examples.model_two s' _ Hnd E
              eq_refl) as (layers & Hl & HL & _).
  exists layers. split; [exact E|]. split; [exact Hl|exact HL].
Defined.

(** The condition of X17 is needed.  One dense layer with weight [2], bias
    [1] and the gradients [4] and [8], under SGD with learning rate [0.5]:
    held at two addresses, each copy ends with weight [0] and bias [-3];
    added twice, the one object is updated at both positions and ends
    with weight [-2] and bias [-7]. *)
Example UpdateWeights_layer_added_twice :
  (exists s' d0 d1,
     @ByPointer.UpdateWeights example_math Examples.model_two = Ok s'
     /\ ByPointer.Objects s' !! 0%nat = Some (Layer.OfDense d0)
     /\ ByPointer.Objects s' !! 1%nat = Some (Layer.OfDense d1)
     /\ Dense.Weights d0 = Matrix.mk 1 1 [[0%float]]
     /\ Dense.Bias d0 = Matrix.mk 1 1 [[(-3)%float]]
     /\ Dense.Weights d1 = Matrix.mk 1 1 [[0%float]]
     /\ Dense.Bias d1 = Matrix.mk 1 1 [[(-3)%float]])
  /\ (exists s' d,
        @ByPointer.UpdateWeights example_math Examples.model_twice = Ok s'
        /\ ByPointer.Objects s' !! 0%nat = Some (Layer.OfDense d)
        /\ Dense.Weights d = Matrix.mk 1 1 [[(-2)%float]]
        /\ Dense.Bias d = Matrix.mk 1 1 [[(-7)%float]]
        /\ ByPointer.updateCalls s'
           = ["layer_0_weights"; "layer_0_bias";
              "layer_1_weights"; "layer_1_bias"]).
Proof.
  split.
  - vm_compute. eexists _, _, _. split; [reflexivity|].
    split; [reflexivity|]. split; [reflexivity|]. repeat split.
  - vm_compute. eexists _, _. split; [reflexivity|].
    split; [reflexivity|]. repeat split.
Qed.

(** ** The identifiers of the parameters *)

Lemma list_ascii_of_string_app (s1 s2 : string) :
  String.list_ascii_of_string (s1 +:+ s2)
  = String.list_ascii_of_string s1 ++ String.list_ascii_of_string s2.
Proof. induction s1 as [|a s1 IH]; [done|]. simpl. now rewrite IH. Qed.

Lemma list_ascii_of_string_inj (s1 s2 : string) :
  String.list_ascii_of_string s1 = String.list_ascii_of_string s2 -> s1 = s2.
Proof.
  intros E. rewrite <- (String.string_of_list_ascii_of_string s1),
    <- (String.string_of_list_ascii_of_string s2). now rewrite E.
Qed.

Lemma string_app_inv_tail (a b suffix : string) :
  a +:+ suffix = b +:+ suffix -> a = b.
Proof.
  intros E. apply (f_equal String.list_ascii_of_string) in E.
  rewrite !list_ascii_of_string_app in E. apply app_inv_tail in E.
  now apply list_ascii_of_string_inj.
Qed.

Lemma weights_bias_differ (a b : string) : a +:+ "_weights" <> b +:+ "_bias".
Proof.
  intros E. apply (f_equal String.list_ascii_of_string) in E.
  rewrite !list_ascii_of_string_app in E.
  apply (f_equal (@rev _)) in E. rewrite !rev_app_distr in E.
  simpl in E. discriminate E.
Qed.

Lemma param_name_inj (i i' : Z) (n n' : string) :
  n = "weights" \/ n = "bias" -> n' = "weights" \/ n' = "bias" ->
  param_name i n = param_name i' n' -> i = i' /\ n = n'.
Proof.
  unfold param_name. intros Hn Hn' E.
  apply (inj (String.app "layer_")) in E.
  destruct Hn as [-> | ->], Hn' as [-> | ->].
  - apply string_app_inv_tail in E. now apply (inj pretty) in E.
  - now apply weights_bias_differ in E.
  - symmetry in E. now apply weights_bias_differ in E.
  - apply string_app_inv_tail in E. now apply (inj pretty) in E.
Qed.

Lemma layer_calls_names idx layer :
  (layer_calls idx layer).*1.*1
  = param_name idx <$> Layer.GetParamNames layer.
Proof. now destruct layer. Qed.

Lemma GetParamNames_cases layer n :
  n ∈ Layer.GetParamNames layer -> n = "weights" \/ n = "bias".
Proof.
  destruct layer as [d|r|s]; cbn; intros Hn; [|by apply elem_of_nil in Hn..].
  apply elem_of_cons in Hn as [->|Hn]; [now left|].
  apply elem_of_cons in Hn as [->|Hn]; [now right|].
  by apply elem_of_nil in Hn.
Qed.

Lemma update_calls_names_from idx layers x :
  x ∈ (update_calls idx layers).*1.*1 ->
  exists k n, idx <= k /\ (n = "weights" \/ n = "bias") /\ x = param_name k n.
Proof.
  revert idx. induction layers as [|l rest IH]; intros idx Hx.
  - by apply elem_of_nil in Hx.
  - cbn [update_calls] in Hx. rewrite !fmap_app, layer_calls_names in Hx.
    apply elem_of_app in Hx as [Hx|Hx].
    + apply list_elem_of_fmap in Hx as (n & -> & Hn).
      exists idx, n. split; [lia|]. split; [|done].
      eapply GetParamNames_cases; eauto.
    + apply IH in Hx as (k & n & Hk & Hn & ->). exists k, n.
      split; [lia|done].
Qed.

Lemma update_calls_NoDup layers :
  forall idx, NoDup (update_calls idx layers).*1.*1.
Proof.
  induction layers as [|l rest IH]; intros idx; [constructor|].
  cbn [update_calls]. rewrite !fmap_app, layer_calls_names.
  apply NoDup_app. split; [|split; [|apply IH]].
  - destruct l as [d|r|s]; cbn; [|constructor..].
    apply NoDup_cons. split; [|apply NoDup_singleton].
    intros Hin%list_elem_of_singleton.
    apply param_name_inj in Hin as [_ Hin]; [done|auto..].
  - intros x Hx Hx'.
    apply list_elem_of_fmap in Hx as (n & -> & Hn).
    apply GetParamNames_cases in Hn.
    apply update_calls_names_from in Hx' as (k & n' & Hk & Hn' & E).
    apply param_name_inj in E as [-> _]; [lia|done..].
Qed.

Section Names.
Context `{GoMath}.

(** X18. Every parameter matrix of a model has an identifier of its own.
    The identifiers [UpdateWeights] passes to [Optimizer.Update], in the
    order of the calls, are [layer_k_weights] and [layer_k_bias] for each
    dense layer, [k] being the position of the layer among all the layers
    of the model; no two of them are equal, so that no two parameters share
    an accumulator of the optimizer. *)
Theorem UpdateWeights_identifiers (s s' : Sequential.t) (o : Optimizer.t) :
  Sequential.UpdateWeights s = Ok s' ->
  Sequential.Optimizer s = Some o ->
  let names :=
    concat (imap (fun k layer =>
                    param_name (Z.of_nat k) <$> Layer.GetParamNames layer)
                 (Sequential.Layers s)) in
  Sequential.updateCalls s' = Sequential.updateCalls s ++ names
  /\ NoDup names.
Proof.
  intros E Ho names. unfold Sequential.UpdateWeights in E. rewrite Ho in E.
  apply bind_eq_Ok in E as ([layers' [opt' log']] & E & [= <-]).
  cbn [Sequential.updateCalls].
  pose proof (update_from_calls _ _ _ _ _ _ _ E) as (_ & -> & _).
  assert (Enames : forall layers idx,
            (update_calls idx layers).*1.*1
            = concat (imap (fun k layer =>
                param_name (idx + Z.of_nat k) <$> Layer.GetParamNames layer)
                layers)).
  { induction layers as [|l rest IH]; intros idx; [done|].
    cbn [update_calls imap concat].
    rewrite !fmap_app, layer_calls_names, Z.add_0_r. f_equal.
    rewrite IH. f_equal. apply imap_ext. intros k x _. simpl.
    f_equal. f_equal. lia. }
  assert (names = (update_calls 0 (Sequential.Layers s)).*1.*1) as ->.
  { rewrite Enames. subst names. f_equal. }
  split; [done|]. apply update_calls_NoDup.
Qed.

End Names.

Lemma UpdateWeights_identifiers_witness :
  exists s',
    @Sequential.UpdateWeights example_math Examples.model_sgd = Ok s'
    /\ Sequential.updateCalls s' = ["layer_0_weights"; "layer_0_bias"].
Proof.
  assert (E : exists s',
            @Sequential.UpdateWeights example_math Examples.model_sgd = Ok s').
  { vm_compute. eexists. reflexivity. }
  destruct E as [s' E]. exists s'. split; [exact E|].
  exact (proj1 (@UpdateWeights_identifiers example_math Examples.model_sgd s'
                  _ E eq_refl)).
Defined.

(** ** The passes through a model, layer by layer *)

Section Passes.
Context `{GoMath}.

Lemma forward_from_app (l1 l2 : list Layer.t) :
  forall i X,
  Sequential.forward_from i (l1 ++ l2) X
  = let '(l1', r) := Sequential.forward_from i l1 X in
    match r with
    | Ok out =>
        let '(l2', r2) :=
          Sequential.forward_from (i + Z.of_nat (length l1)) l2 out in
        (l1' ++ l2', r2)
    | Err msg => (l1' ++ l2, Err msg)
    | Panic => (l1' ++ l2, Panic)
    end.
Proof.
  induction l1 as [|l l1 IH]; intros i X.
  - cbn. rewrite Z.add_0_r.
    now destruct (Sequential.forward_from i l2 X).
  - cbn [app Sequential.forward_from length].
    destruct (Layer.Forward l X) as [l' [out|msg|]]; [|done..].
    rewrite IH.
    destruct (Sequential.forward_from (i + 1) l1 out) as [l1' [out1|msg|]];
      [|done..].
    replace (i + 1 + Z.of_nat (length l1)) with (i + Z.of_nat (S (length l1)))
      by lia.
    now destruct (Sequential.forward_from _ l2 out1).
Qed.

Lemma backward_from_app (l1 l2 : list Layer.t) :
  forall i g,
  Sequential.backward_from i (l1 ++ l2) g
  = let '(l2', r) :=
      Sequential.backward_from (i + Z.of_nat (length l1)) l2 g in
    match r with
    | Ok g' =>
        let '(l1', r1) := Sequential.backward_from i l1 g' in
        (l1' ++ l2', r1)
    | Err msg => (l1 ++ l2', Err msg)
    | Panic => (l1 ++ l2', Panic)
    end.
Proof.
  induction l1 as [|l l1 IH]; intros i g.
  - cbn. rewrite Z.add_0_r.
    now destruct (Sequential.backward_from i l2 g) as [l2' [g'|msg|]].
  - cbn [app Sequential.backward_from length]. rewrite IH.
    replace (i + 1 + Z.of_nat (length l1)) with (i + Z.of_nat (S (length l1)))
      by lia.
    destruct (Sequential.backward_from _ l2 g) as [l2' [g'|msg|]]; [|done..].
    destruct (Sequential.backward_from (i + 1) l1 g') as [l1' [g1|msg|]];
      [|done..].
    now destruct (Layer.Backward l g1).
Qed.

Lemma Forward_after_Add (s : Sequential.t) (layer : Layer.t) (X : Matrix.t) :
  Sequential.Forward (Sequential.Add s layer) X
  = let '(s1, r) := Sequential.Forward s X in
    match r with
    | Ok out =>
        let '(layer', r') := Layer.Forward layer out in
        (Sequential.Add s1 layer',
         match r' with
         | Err msg =>
             Err ("error in layer "
                    +:+ pretty (Z.of_nat (length (Sequential.Layers s)))
                    +:+ ": " +:+ msg)
         | _ => r'
         end)
    | _ => (Sequential.Add s1 layer, r)
    end.
Proof.
  unfold Sequential.Forward, Sequential.Add.
  cbn [Sequential.Layers Sequential.Loss Sequential.Optimizer
       Sequential.updateCalls].
  rewrite forward_from_app.
  destruct (Sequential.forward_from 0 (Sequential.Layers s) X)
    as [l1' [out|msg|]]; [|done..].
  cbn [Sequential.forward_from Z.add].
  now destruct (Layer.Forward layer out) as [layer' [out'|msg|]].
Qed.

Lemma Forward_stops_at_error (s : Sequential.t) (X out : Matrix.t)
    (before after before' : list Layer.t) (layer layer' : Layer.t)
    (msg : string) :
  Sequential.Layers s = before ++ layer :: after ->
  Sequential.Forward (Sequential.with_layers s before) X
  = (Sequential.with_layers s before', Ok out) ->
  Layer.Forward layer out = (layer', Err msg) ->
  Sequential.Forward s X
  = (Sequential.with_layers s (before' ++ layer' :: after),
     Err ("error in layer " +:+ pretty (Z.of_nat (length before))
            +:+ ": " +:+ msg)).
Proof.
  intros Hs Ebefore Elayer. unfold Sequential.Forward in *.
  cbn [Sequential.with_layers Sequential.Layers] in Ebefore.
  rewrite Hs, forward_from_app.
  destruct (Sequential.forward_from 0 before X) as [l1' r].
  injection Ebefore as -> ->.
  cbn [Sequential.forward_from Z.add]. now rewrite Elayer.
Qed.

(** X19. [Forward] goes through the layers first to last, and [Add]
    appends.  The model with [layer] appended runs the layers it had, which
    see the same inputs and end in the same state as without it; if they
    succeed their output goes to [layer]; if one of them fails, [layer] is
    not called.  In general, if the layers before position [n] succeed and
    give [out], and the layer at [n] returns an error on [out], then
    [Forward] returns ["error in layer n: "] followed by that error, and the
    layers after [n] are not called and keep the state they had. *)
Theorem Forward_layer_by_layer (s : Sequential.t) (X : Matrix.t) :
  (forall layer,
     Sequential.Forward (Sequential.Add s layer) X
     = let '(s1, r) := Sequential.Forward s X in
       match r with
       | Ok out =>
           let '(layer', r') := Layer.Forward layer out in
           (Sequential.Add s1 layer',
            match r' with
            | Err msg =>
                Err ("error in layer "
                       +:+ pretty (Z.of_nat (length (Sequential.Layers s)))
                       +:+ ": " +:+ msg)
            | _ => r'
            end)
       | _ => (Sequential.Add s1 layer, r)
       end)
  /\ (forall out before after before' layer layer' msg,
        Sequential.Layers s = before ++ layer :: after ->
        Sequential.Forward (Sequential.with_layers s before) X
        = (Sequential.with_layers s before', Ok out) ->
        Layer.Forward layer out = (layer', Err msg) ->
        Sequential.Forward s X
        = (Sequential.with_layers s (before' ++ layer' :: after),
           Err ("error in layer " +:+ pretty (Z.of_nat (length before))
                  +:+ ": " +:+ msg))).
Proof.
  split.
  - intros layer. apply Forward_after_Add.
  - intros out before after before' layer layer' msg.
    apply Forward_stops_at_error.
Qed.

(** X20. [Backward] visits the layers last to first: with [layer] appended
    to a model the gradient goes through [layer] first and what it returns
    goes through the layers the model had.  An error of [layer] is returned
    as ["error in backward pass at layer n: ..."], with [n] the number of
    layers before it, and then no other layer is called; an error of an
    earlier layer is the one the model without [layer] returns. *)
Theorem Backward_Add (s : Sequential.t) (layer : Layer.t) (g : Matrix.t) :
  Sequential.Backward (Sequential.Add s layer) g
  = let '(layer', r) := Layer.Backward layer g in
    match r with
    | Ok g' =>
        let '(s1, r1) := Sequential.Backward s g' in
        (Sequential.Add s1 layer', r1)
    | Err msg =>
        (Sequential.Add s layer',
         Err ("error in backward pass at layer "
                +:+ pretty (Z.of_nat (length (Sequential.Layers s)))
                +:+ ": " +:+ msg))
    | Panic => (Sequential.Add s layer', Panic)
    end.
Proof.
  unfold Sequential.Backward, Sequential.Add.
  cbn [Sequential.Layers Sequential.Loss Sequential.Optimizer
       Sequential.updateCalls].
  rewrite backward_from_app.
  cbn [Sequential.backward_from Z.add].
  destruct (Layer.Backward layer g) as [layer' [g'|msg|]]; [|done..].
  now destruct (Sequential.backward_from 0 (Sequential.Layers s) g')
    as [l1' [g1|msg|]].
Qed.

(** X21. [Predict] and [Evaluate] do not train: whatever they return, the
    parameters of all layers, the loss and the optimizer are as before the
    call, and [Optimizer.Update] has not been called; only the layers'
    caches may have changed.  [Evaluate] returns the loss of the
    predictions against the targets.  On a model for which [Compile] has
    not been called, and whose forward pass succeeds, [Evaluate] and
    [TrainOnBatch] panic on the nil [Loss], and leave the parameters as
    they were. *)
Theorem Evaluate_does_not_train (s : Sequential.t) (X y : Matrix.t) :
  same_but_caches s (Sequential.Predict s X).1
  /\ same_but_caches s (Sequential.Evaluate s X y).1
  /\ (forall s' predictions l,
        Sequential.Predict s X = (s', Ok predictions) ->
        Sequential.Loss s = Some l ->
        Sequential.Evaluate s X y = (s', Loss.Forward l predictions y))
  /\ (forall s' predictions,
        Sequential.Predict s X = (s', Ok predictions) ->
        Sequential.Loss s = None ->
        Sequential.Evaluate s X y = (s', Panic)
        /\ Sequential.TrainOnBatch s X y = (s', Panic)).
Proof.
  pose proof (Forward_same s X) as Hsame.
  unfold Sequential.Evaluate, Sequential.TrainOnBatch, Sequential.Predict.
  destruct (Sequential.Forward s X) as [s1 r] eqn:E. cbn [fst] in *.
  split; [done|]. split; [done|]. split.
  - intros s' P l [= -> ->] Hl.
    destruct Hsame as (_ & HL & _). unfold Sequential.loss_of.
    rewrite HL, Hl. reflexivity.
  - intros s' P [= -> ->] Hl.
    destruct Hsame as (_ & HL & _). unfold Sequential.loss_of.
    rewrite HL, Hl. split; reflexivity.
Qed.

End Passes.

Lemma Forward_layer_by_layer_witness :
  @Sequential.Forward example_math
    (Sequential.mk [Layer.OfReLU (ReLULayer.mk None);
                    Layer.OfDense Examples.dense21;
                    Layer.OfReLU (ReLULayer.mk None)] None None [])
    Examples.wide13
  = (Sequential.mk [Layer.OfReLU (ReLULayer.mk (Some Examples.wide13));
                    Layer.OfDense Examples.dense21;
                    Layer.OfReLU (ReLULayer.mk None)] None None [],
     Err "error in layer 1: input size mismatch: got 3, expected 2").
Proof.
  exact (proj2 (@Forward_layer_by_layer example_math
           (Sequential.mk [Layer.OfReLU (ReLULayer.mk None);
                           Layer.OfDense Examples.dense21;
                           Layer.OfReLU (ReLULayer.mk None)] None None [])
           Examples.wide13) Examples.wide13
           [Layer.OfReLU (ReLULayer.mk None)]
           [Layer.OfReLU (ReLULayer.mk None)]
           [Layer.OfReLU (ReLULayer.mk (Some Examples.wide13))]
           (Layer.OfDense Examples.dense21) (Layer.OfDense Examples.dense21)
           "input size mismatch: got 3, expected 2"
           eq_refl eq_refl eq_refl).
Defined.

(** ** A training step on one dense layer *)

Lemma Dense_Backward_keeps (d : Dense.t) (g : Matrix.t) :
  let d' := (Dense.Backward d g).1 in
  Dense.InputSize d' = Dense.InputSize d
  /\ Dense.OutputSize d' = Dense.OutputSize d
  /\ Dense.Weights d' = Dense.Weights d
  /\ Dense.Bias d' = Dense.Bias d
  /\ Dense.lastInput d' = Dense.lastInput d.
Proof.
  unfold Dense.Backward.
  destruct (negb _); [done|].
  destruct (Dense.weights_gradient _ _ _); [|done..].
  destruct (Dense.bias_gradient _ _ _); done.
Qed.

Lemma copy_loop_Ok (p u : Matrix.t) :
  Matrix.wf p = true ->
  has_shape u (Matrix.Rows p) (Matrix.Cols p) = true ->
  for_ 0 (Matrix.Rows p) (fun r data =>
    for_ 0 (Matrix.Cols p) (fun c data =>
      x ← Matrix.get (Matrix.Data u) r c;
      Matrix.set data r c x) data) (Matrix.Data p)
  = Ok (Matrix.Data u)
  /\ Matrix.mk (Matrix.Rows p) (Matrix.Cols p) (Matrix.Data u) = u.
Proof.
  intros (Hr & Hc & Hp)%wf_shaped Hu.
  pose proof Hu as (Hwu & Hru & Hcu)%has_shape_spec.
  pose proof (has_shape_shaped _ _ _ Hu) as (_ & _ & Hud).
  destruct (fill2 (Matrix.Rows p) (Matrix.Cols p)
    (fun r c => Matrix.entry u r c)
    (fun r c data =>
       x ← Matrix.get (Matrix.Data u) r c; Matrix.set data r c x)
    (Matrix.Data p)) as (d & E & Hd & Hcells); [done..| |].
  - intros r c data Hr' Hc' _ _.
    now rewrite (get_entry u r c), bind_Ok by (done || lia).
  - split.
    + rewrite E. f_equal.
      apply (shaped_ext _ _ (Matrix.Rows p) (Matrix.Cols p)); [done..|].
      intros r c Hr' Hc'. rewrite Hcells by done.
      symmetry. apply get_entry; [done|lia|lia].
    + destruct u as [ru cu du]. cbn in *. now subst.
Qed.

Lemma fits_other (acc : gmap string Matrix.t) (name other : string)
    (a p : Matrix.t) :
  other <> name ->
  fits (<[name := a]> acc) other p = fits acc other p.
Proof. intros Hne. unfold fits. now rewrite lookup_insert_ne. Qed.

Lemma prior_other (acc : gmap string Matrix.t) (name other : string)
    (a : Matrix.t) i j :
  other <> name ->
  prior (<[name := a]> acc) other i j = prior acc other i j.
Proof. intros Hne. unfold prior. now rewrite lookup_insert_ne. Qed.

(** Reduction through the plumbing of the model. *)
Ltac step_cbn :=
  cbn [fst snd Sequential.Layers Sequential.Loss Sequential.Optimizer
       Sequential.updateCalls Sequential.with_layers Sequential.loss_of
       Sequential.forward_from Sequential.backward_from
       Sequential.update_from Layer.Forward Layer.Backward Layer.lift].

Section Step.
Context `{GoMath}.

Lemma update_param_SGD idx i (layer : Layer.t) sgd sgd' log n p g u :
  index (Layer.GetParamNames layer) i = Ok n ->
  index (Layer.GetParams layer) i = Ok p ->
  index (Layer.GetGrads layer) i = Ok g ->
  SGD.Update sgd (param_name idx n) p g = (sgd', Ok u) ->
  Matrix.wf p = true ->
  has_shape u (Matrix.Rows p) (Matrix.Cols p) = true ->
  Sequential.update_param idx i (layer, Some (Optimizer.OfSGD sgd), log)
  = Ok (Layer.store_param layer i (Matrix.Data u),
        Some (Optimizer.OfSGD sgd'), log ++ [param_name idx n]).
Proof.
  intros En Ep Eg Eu Hp Hu. unfold Sequential.update_param.
  rewrite En, Ep, Eg, !bind_Ok. fold (param_name idx n).
  cbn [Optimizer.Update]. rewrite Eu, bind_Ok.
  destruct (copy_loop_Ok p u Hp Hu) as [-> _]. now rewrite bind_Ok.
Qed.

(** The two updates of a dense layer at position [idx], by SGD. *)
Lemma update_Dense_SGD (d : Dense.t) (sgd : SGD.t) (log : list string)
    (idx : Z) :
  Dense_wf d = true ->
  let nW := param_name idx "weights" in
  let nB := param_name idx "bias" in
  fits (SGD.Velocity sgd) nW (Dense.Weights d) = true ->
  fits (SGD.Velocity sgd) nB (Dense.Bias d) = true ->
  exists W' B' sgd',
    range_from 0 (Layer.GetParams (Layer.OfDense d))
      (fun i _ st => Sequential.update_param idx i st)
      (Layer.OfDense d, Some (Optimizer.OfSGD sgd), log)
    = Ok (Layer.OfDense
            (Dense.mk (Dense.InputSize d) (Dense.OutputSize d) W' B'
               (Dense.lastInput d) (Dense.weightsGrad d) (Dense.biasGrad d)),
          Some (Optimizer.OfSGD sgd'), log ++ [nW; nB])
    /\ has_shape W' (Dense.InputSize d) (Dense.OutputSize d) = true
    /\ has_shape B' 1 (Dense.OutputSize d) = true
    /\ (forall i j, 0 <= i < Dense.InputSize d -> 0 <= j < Dense.OutputSize d ->
          Matrix.get (Matrix.Data W') i j
          = Ok (Matrix.entry (Dense.Weights d) i j
                + (SGD.Momentum sgd * prior (SGD.Velocity sgd) nW i j
                   - SGD.LearningRate sgd
                     * Matrix.entry (Dense.weightsGrad d) i j))%float)
    /\ (forall j, 0 <= j < Dense.OutputSize d ->
          Matrix.get (Matrix.Data B') 0 j
          = Ok (Matrix.entry (Dense.Bias d) 0 j
                + (SGD.Momentum sgd * prior (SGD.Velocity sgd) nB 0 j
                   - SGD.LearningRate sgd
                     * Matrix.entry (Dense.biasGrad d) 0 j))%float).
Proof.
  intros Hd nW nB HfW HfB.
  destruct (Dense_wf_all d Hd) as (Hi & Ho & HW & HB & HWg & HBg).
  pose proof HW as (HWw & HWr & HWc)%has_shape_spec.
  pose proof HB as (HBw & HBr & HBc)%has_shape_spec.
  pose proof HWg as (HWgw & HWgr & HWgc)%has_shape_spec.
  pose proof HBg as (HBgw & HBgr & HBgc)%has_shape_spec.
  assert (Hne : nB <> nW).
  { intros E. apply param_name_inj in E as [_ E]; [done|auto..]. }
  destruct (SGD_Update_cells sgd nW (Dense.Weights d) (Dense.weightsGrad d))
    as (sgd1 & vW & uW & EW & Hlr1 & Hmom1 & HV1 & _ & HuW & HWcells);
    [done|done|apply same_shape_eq; lia|done|].
  assert (HfB1 : fits (SGD.Velocity sgd1) nB (Dense.Bias d) = true).
  { rewrite HV1, fits_other by done. exact HfB. }
  destruct (SGD_Update_cells sgd1 nB (Dense.Bias d) (Dense.biasGrad d))
    as (sgd2 & vB & uB & EB & _ & _ & _ & _ & HuB & HBcells);
    [done|done|apply same_shape_eq; lia|done|].
  destruct (copy_loop_Ok (Dense.Weights d) uW HWw HuW) as [EcW EmW].
  destruct (copy_loop_Ok (Dense.Bias d) uB HBw HuB) as [EcB EmB].
  exists uW, uB, sgd2. split; [|split; [|split; [|split]]].
  - change (Layer.GetParams (Layer.OfDense d))
      with [Dense.Weights d; Dense.Bias d].
    cbn [range_from].
    rewrite (update_param_SGD idx 0 (Layer.OfDense d) sgd sgd1 log
               "weights" (Dense.Weights d) (Dense.weightsGrad d) uW)
      by done.
    rewrite bind_Ok. cbn [Layer.store_param Z.eqb]. rewrite EmW.
    rewrite (update_param_SGD idx (0 + 1) _ sgd1 sgd2 _
               "bias" (Dense.Bias d) (Dense.biasGrad d) uB)
      by done.
    rewrite bind_Ok.
    cbn [Layer.store_param Z.eqb Z.add Pos.add Dense.InputSize
         Dense.OutputSize Dense.Weights Dense.Bias Dense.lastInput
         Dense.weightsGrad Dense.biasGrad].
    rewrite EmB, <- app_assoc. reflexivity.
  - now rewrite <- HWr, <- HWc.
  - now rewrite <- HBr, <- HBc.
  - intros i j Hi' Hj'. destruct (HWcells i j) as [_ Eu]; [lia..|].
    exact Eu.
  - intros j Hj'. destruct (HBcells 0 j) as [_ Eu]; [lia..|].
    rewrite Eu, Hlr1, Hmom1, HV1, prior_other by done. reflexivity.
Qed.

(** X22. One training step, end to end, on a model of one dense layer with
    a loss [l] and SGD.  For a layer in the state its constructor and its
    methods leave it in, a well-formed batch [X] with [InputSize] columns and
    well-formed targets [y] of [X.Rows] rows and [OutputSize] columns (and
    velocities, if stored, of the shapes of the parameters), [TrainOnBatch]
    succeeds and returns the loss of the predictions [P] made with the
    weights before the step.  With [G] the gradient of the loss at [P], it
    leaves in the layer the gradients
    [gW[i][j] = (sum_b X[b][i] * G[b][j]) / X.Rows] and
    [gB[j] = (sum_b G[b][j]) / X.Rows], and the parameters
    [W[i][j] + (Momentum * v - LearningRate * gW[i][j])] and
    [B[0][j] + (Momentum * v - LearningRate * gB[j])], [v] being the velocity
    stored for the cell, or zero.  The optimizer has been called for
    [layer_0_weights] and then [layer_0_bias]. *)
Theorem TrainOnBatch_SGD_step (d : Dense.t) (l : Loss.t) (sgd : SGD.t)
    (X y : Matrix.t) (log : list string) :
  Dense_wf d = true -> Matrix.wf X = true -> Matrix.wf y = true ->
  Matrix.Cols X = Dense.InputSize d ->
  Matrix.Rows y = Matrix.Rows X -> Matrix.Cols y = Dense.OutputSize d ->
  fits (SGD.Velocity sgd) "layer_0_weights" (Dense.Weights d) = true ->
  fits (SGD.Velocity sgd) "layer_0_bias" (Dense.Bias d) = true ->
  exists P loss G d' sgd',
    (Dense.Forward d X).2 = Ok P
    /\ Loss.Forward l P y = Ok loss
    /\ Loss.Backward l P y = Ok G
    /\ Sequential.TrainOnBatch
         (Sequential.mk [Layer.OfDense d] (Some l)
            (Some (Optimizer.OfSGD sgd)) log) X y
       = (Sequential.mk [Layer.OfDense d'] (Some l)
            (Some (Optimizer.OfSGD sgd'))
            (log ++ ["layer_0_weights"; "layer_0_bias"]),
          Ok loss)
    /\ Dense_wf d' = true
    /\ Dense.lastInput d' = Some X
    /\ (forall i j,
          0 <= i < Dense.InputSize d -> 0 <= j < Dense.OutputSize d ->
          let gW := (fsum (Matrix.Rows X)
                       (fun b => Matrix.entry X b i * Matrix.entry G b j)
                     / float64_of_int (Matrix.Rows X))%float in
          Matrix.get (Matrix.Data (Dense.weightsGrad d')) i j = Ok gW
          /\ Matrix.get (Matrix.Data (Dense.Weights d')) i j
             = Ok (Matrix.entry (Dense.Weights d) i j
                   + (SGD.Momentum sgd
                      * prior (SGD.Velocity sgd) "layer_0_weights" i j
                      - SGD.LearningRate sgd * gW))%float)
    /\ (forall j, 0 <= j < Dense.OutputSize d ->
          let gB := (fsum (Matrix.Rows X) (fun b => Matrix.entry G b j)
                     / float64_of_int (Matrix.Rows X))%float in
          Matrix.get (Matrix.Data (Dense.biasGrad d')) 0 j = Ok gB
          /\ Matrix.get (Matrix.Data (Dense.Bias d')) 0 j
             = Ok (Matrix.entry (Dense.Bias d) 0 j
                   + (SGD.Momentum sgd
                      * prior (SGD.Velocity sgd) "layer_0_bias" 0 j
                      - SGD.LearningRate sgd * gB))%float).
Proof.
  intros Hd HX Hy HcX Hry Hcy HfW HfB.
  (* the forward pass *)
  destruct (Dense_Forward_cells d X Hd HX HcX)
    as (P & EP & HP & HPr & HPc & _).
  pose proof (Dense_Forward_wf d X Hd HX) as Hd0. rewrite EP in Hd0.
  cbn [fst] in Hd0. set (d0 := Dense.set_lastInput d X) in *.
  (* the loss and its gradient *)
  assert (Hs : Matrix.same_shape P y = true) by (apply same_shape_eq; lia).
  destruct (Loss_Forward_Ok l P y HP Hy Hs) as [loss El].
  destruct (Loss_Backward_Ok l P y HP Hy Hs) as (G & EG & HG & HGs).
  apply same_shape_eq in HGs as [HGr HGc].
  (* the backward pass *)
  destruct (Dense_Backward_cells d0 X G Hd0 eq_refl HG)
    as (d1 & gi & EB & Hd1 & HW1 & HB1 & HgW & HgB & _);
    [subst d0; cbn; lia|lia|].
  pose proof (Dense_Backward_keeps d0 G) as Hkeep. rewrite EB in Hkeep.
  cbn [fst] in Hkeep. destruct Hkeep as (Hi1 & Ho1 & _ & _ & Hl1).
  (* the update *)
  destruct (update_Dense_SGD d1 sgd log 0 Hd1)
    as (W' & B' & sgd' & EU & HW' & HB' & HWcells & HBcells).
  { now rewrite HW1. }
  { now rewrite HB1. }
  set (d' := Dense.mk (Dense.InputSize d1) (Dense.OutputSize d1) W' B'
               (Dense.lastInput d1) (Dense.weightsGrad d1)
               (Dense.biasGrad d1)) in *.
  exists P, loss, G, d', sgd'.
  split; [now rewrite EP|]. split; [done|]. split; [done|]. split.
  { unfold Sequential.TrainOnBatch, Sequential.Forward.
    cbn [Sequential.Layers Sequential.forward_from Layer.Forward Layer.lift].
    rewrite EP. step_cbn.
    rewrite !bind_Ok, El, EG.
    unfold Sequential.Backward. step_cbn.
    rewrite EB. step_cbn.
    rewrite bind_Ok. unfold Sequential.UpdateWeights. step_cbn.
    rewrite EU, !bind_Ok. reflexivity. }
  destruct (Dense_wf_all d1 Hd1) as (Hi & Ho & _ & _ & HWg & HBg).
  split.
  { unfold Dense_wf. subst d'.
    cbn [Dense.InputSize Dense.OutputSize Dense.Weights Dense.Bias
         Dense.lastInput Dense.weightsGrad Dense.biasGrad].
    rewrite HW', HB', HWg, HBg, Hl1. subst d0. cbn [Dense.lastInput
      Dense.set_lastInput].
    rewrite HX, Hi1. cbn [Dense.InputSize Dense.set_lastInput].
    rewrite HcX, Z.eqb_refl. cbn in Hi1, Ho1.
    repeat match goal with
           | |- context [?a <=? ?b] => destruct (Z.leb_spec a b); [|lia]
           end.
    reflexivity. }
  split; [subst d'; cbn; now rewrite Hl1|].
  assert (Hi0 : Dense.InputSize d0 = Dense.InputSize d) by done.
  assert (Ho0 : Dense.OutputSize d0 = Dense.OutputSize d) by done.
  assert (HW0 : Dense.Weights d0 = Dense.Weights d) by done.
  assert (HB0 : Dense.Bias d0 = Dense.Bias d) by done.
  split.
  - intros i j Hi' Hj' gW. subst d'. cbn [Dense.weightsGrad Dense.Weights].
    assert (EgW : Matrix.get (Matrix.Data (Dense.weightsGrad d1)) i j = Ok gW).
    { rewrite HgW by (rewrite ?Hi0, ?Ho0; lia). subst gW.
      now rewrite HGr, HPr. }
    split; [exact EgW|].
    rewrite HWcells by lia.
    rewrite (entry_get _ _ _ _ EgW), HW1, HW0. reflexivity.
  - intros j Hj' gB. subst d'. cbn [Dense.biasGrad Dense.Bias].
    assert (EgB : Matrix.get (Matrix.Data (Dense.biasGrad d1)) 0 j = Ok gB).
    { rewrite HgB by (rewrite ?Ho0; lia). subst gB.
      now rewrite HGr, HPr. }
    split; [exact EgB|].
    rewrite HBcells by lia.
    rewrite (entry_get _ _ _ _ EgB), HB1, HB0. reflexivity.
Qed.

End Step.

Lemma TrainOnBatch_SGD_step_witness :
  Dense_wf Examples.dense21 = true
  /\ Matrix.wf Examples.A22 = true /\ Matrix.wf Examples.B21 = true
  /\ exists s' loss,
       @Sequential.TrainOnBatch example_math Examples.model_sgd
         Examples.A22 Examples.B21 = (s', Ok loss)
       /\ Sequential.updateCalls s' = ["layer_0_weights"; "layer_0_bias"].
Proof.
  split; [reflexivity|]. split; [reflexivity|]. split; [reflexivity|].
  destruct (@TrainOnBatch_SGD_step example_math Examples.dense21
              (Loss.OfMSE MSE.mk) (SGD.NewSGD Examples.tenth 0)
              Examples.A22 Examples.B21 []
              eq_refl eq_refl eq_refl eq_refl eq_refl eq_refl eq_refl eq_refl)
    as (P & loss & G & d' & sgd' & _ & _ & _ & E & _).
  eexists _, loss. split; [exact E|reflexivity].
Defined.

(** ** The order of [float64] values *)

Lemma SFcompare_nan_l a b : a = S754_nan -> SFcompare a b = None.
Proof. intros ->. reflexivity. Qed.

Lemma SFcompare_None a b :
  SFcompare a b = None <-> a = S754_nan \/ b = S754_nan.
Proof.
  split.
  - destruct a as [[]|[]| |[] ma ea], b as [[]|[]| |[] mb eb];
      cbn; intros E; try discriminate E; auto.
  - intros [-> | ->]; [reflexivity|]. now destruct a as [?|?| |? ? ?].
Qed.

Lemma SFcompare_swap a b :
  SFcompare b a = option_map CompOpp (SFcompare a b).
Proof.
  destruct a as [[]|[]| |[] ma ea], b as [[]|[]| |[] mb eb]; try reflexivity;
    cbn; rewrite (Z.compare_antisym ea eb);
    destruct (ea ?= eb); cbn; try reflexivity;
    change (Pos.compare_cont Eq mb ma) with (Pos.compare mb ma);
    change (Pos.compare_cont Eq ma mb) with (Pos.compare ma mb);
    rewrite (Pos.compare_antisym ma mb);
    now destruct (Pos.compare ma mb).
Qed.

Lemma SFleb_trans a b c :
  SFleb a b = true -> SFleb b c = true -> SFleb a c = true.
Proof.
  unfold SFleb.
  destruct a as [[]|[]| |[] ma ea], b as [[]|[]| |[] mb eb],
           c as [[]|[]| |[] mc ec]; cbn; try done;
    change (Pos.compare_cont Eq) with Pos.compare;
    destruct (Z.compare_spec ea eb), (Z.compare_spec eb ec),
             (Z.compare_spec ea ec); try done; try lia;
    subst;
    destruct (Pos.compare_spec ma mb), (Pos.compare_spec mb mc),
             (Pos.compare_spec ma mc); cbn; try done; try lia.
Qed.

Lemma is_nan_spec (x : float) :
  is_nan x = true <-> Prim2SF x = S754_nan.
Proof.
  unfold is_nan. rewrite FloatAxioms.eqb_spec. unfold SFeqb.
  destruct (Prim2SF x) as [[]|[]| |[] m e]; cbn; try (split; done).
  - rewrite Z.compare_refl. change (Pos.compare_cont Eq m m) with (Pos.compare m m).
    rewrite Pos.compare_refl. split; done.
  - rewrite Z.compare_refl. change (Pos.compare_cont Eq m m) with (Pos.compare m m).
    rewrite Pos.compare_refl. split; done.
Qed.

Lemma is_nan_false (x : float) :
  is_nan x = false <-> Prim2SF x <> S754_nan.
Proof.
  rewrite <- is_nan_spec. destruct (is_nan x); split; done.
Qed.

Lemma leb_refl (x : float) : is_nan x = false -> (x <=? x)%float = true.
Proof.
  intros Hx%is_nan_false. rewrite FloatAxioms.leb_spec. unfold SFleb.
  pose proof (SFcompare_swap (Prim2SF x) (Prim2SF x)) as E.
  destruct (SFcompare (Prim2SF x) (Prim2SF x)) as [[]|] eqn:Ec; try done.
  apply SFcompare_None in Ec as [?|?]; done.
Qed.

Lemma leb_trans (x y z : float) :
  (x <=? y)%float = true -> (y <=? z)%float = true -> (x <=? z)%float = true.
Proof. rewrite !FloatAxioms.leb_spec. apply SFleb_trans. Qed.

Lemma ltb_false_leb (x y : float) :
  is_nan x = false -> is_nan y = false ->
  (x <? y)%float = false -> (y <=? x)%float = true.
Proof.
  intros Hx%is_nan_false Hy%is_nan_false.
  rewrite FloatAxioms.ltb_spec, FloatAxioms.leb_spec. unfold SFltb, SFleb.
  rewrite (SFcompare_swap (Prim2SF x) (Prim2SF y)).
  destruct (SFcompare (Prim2SF x) (Prim2SF y)) as [[]|] eqn:Ec; try done.
  apply SFcompare_None in Ec as [?|?]; done.
Qed.

Lemma ltb_nan_r (x y : float) : is_nan y = true -> (x <? y)%float = false.
Proof.
  intros Hy%is_nan_spec. rewrite FloatAxioms.ltb_spec. unfold SFltb.
  rewrite Hy. now destruct (Prim2SF x) as [?|?| |? ? ?].
Qed.

Lemma ltb_nan_l (x y : float) : is_nan x = true -> (x <? y)%float = false.
Proof.
  intros Hx%is_nan_spec. rewrite FloatAxioms.ltb_spec. unfold SFltb.
  now rewrite Hx.
Qed.

Lemma ltb_not_nan (x y : float) :
  (x <? y)%float = true -> is_nan x = false /\ is_nan y = false.
Proof.
  intros E. destruct (is_nan x) eqn:Hx.
  { now rewrite ltb_nan_l in E. }
  destruct (is_nan y) eqn:Hy; [|done]. now rewrite ltb_nan_r in E.
Qed.

Lemma running_max_nan (xs : list float) (m : float) :
  is_nan m = true -> foldl max_step m xs = m.
Proof.
  intros Hm. induction xs as [|x xs IH]; [done|]. cbn [foldl].
  unfold max_step at 2. now rewrite ltb_nan_l.
Qed.

Lemma running_max_spec (xs : list float) :
  forall m, is_nan m = false ->
  let r := foldl max_step m xs in
  is_nan r = false
  /\ (r = m \/ r ∈ xs)
  /\ (m <=? r)%float = true
  /\ forall x, x ∈ xs -> is_nan x = false -> (x <=? r)%float = true.
Proof.
  induction xs as [|x xs IH]; intros m Hm.
  - cbn. split; [done|]. split; [now left|]. split; [now apply leb_refl|].
    intros x Hx. by apply elem_of_nil in Hx.
  - cbn [foldl]. set (m1 := max_step m x).
    assert (Hm1 : is_nan m1 = false
                  /\ (m1 = m \/ m1 = x)
                  /\ (m <=? m1)%float = true
                  /\ (is_nan x = false -> (x <=? m1)%float = true)).
    { subst m1. unfold max_step. destruct (m <? x)%float eqn:E.
      - destruct (ltb_not_nan _ _ E) as [_ Hx].
        split; [done|]. split; [now right|]. split; [now apply ltb_leb|].
        intros _. now apply leb_refl.
      - split; [done|]. split; [now left|]. split; [now apply leb_refl|].
        intros Hx. now apply ltb_false_leb. }
    destruct Hm1 as (Hn1 & Hin1 & Hle1 & Hx1).
    destruct (IH m1 Hn1) as (Hn & Hin & Hle & Hall).
    split; [done|]. split; [|split].
    + destruct Hin as [->|Hin]; [|right; now apply elem_of_cons; right].
      destruct Hin1 as [->| ->]; [now left|right; apply elem_of_cons; now left].
    + eapply leb_trans; eauto.
    + intros y Hy Hny. apply elem_of_cons in Hy as [->|Hy].
      * eapply leb_trans; [now apply Hx1|done].
      * now apply Hall.
Qed.

(** ** Allocating a tensor *)

(** A loop that puts the same value into every slot of a slice. *)
Lemma alloc_loop {A} (x : A) (d0 : list A)
    (body : Z -> A -> list A -> result (list A)) :
  (forall k a d, 0 <= k < Z.of_nat (length d0) -> body k a d = assign d k x) ->
  range_from 0 d0 body d0 = Ok (replicate (length d0) x).
Proof.
  intros Hbody.
  destruct (range_from_inv
    (fun k (d : list A) => length d = length d0 /\
       forall i, (i < Z.to_nat k)%nat -> d !! i = Some x)
    body d0 0 d0) as (d & E & Hlen & Hall).
  - split; [done|]. intros i Hi. lia.
  - intros k a d Hk [Hlen Hall]. rewrite Hbody by lia.
    rewrite assign_in_range by lia.
    eexists. split; [reflexivity|]. split; [now rewrite length_insert|].
    intros i Hi. destruct (decide (i = Z.to_nat k)) as [->|Hne].
    + apply list_lookup_insert_eq. lia.
    + rewrite list_lookup_insert_ne by done. apply Hall. lia.
  - rewrite E. f_equal. apply list_eq. intros i.
    destruct (decide (i < length d0)%nat) as [Hi|Hi].
    + rewrite Hall by lia. symmetry. now apply lookup_replicate_2.
    + rewrite !lookup_ge_None_2; [done|rewrite length_replicate; lia|lia].
Qed.

Lemma range_from_first_Panic {A St} (body : Z -> A -> St -> result St)
    (x : A) (xs : list A) (i : Z) (s : St) :
  body i x s = Panic -> range_from i (x :: xs) body s = Panic.
Proof. intros E. cbn [range_from]. now rewrite E. Qed.

(** The rows of a plane, as [NewTensor3D] and [NewMatrix] allocate them. *)
Lemma plane_alloc {B} (height width : Z) (k : list (list float) -> result B) :
  (plane ← make [] height;
   plane ← range_from 0 plane (fun h _ plane =>
              row ← make 0%float width; assign plane h row) plane;
   k plane)
  = (m ← Matrix.NewMatrix height width; k (Matrix.Data m)).
Proof.
  unfold Matrix.NewMatrix.
  destruct (make [] height) as [plane| |]; [|done..]. rewrite !bind_Ok.
  now destruct (range_from 0 plane _ plane) as [plane'| |].
Qed.

Lemma NewTensor3D_replicate channels height width :
  0 <= channels -> 0 <= height -> 0 <= width ->
  Tensor3D.NewTensor3D channels height width
  = Ok (Tensor3D.mk channels height width
          (replicate (Z.to_nat channels)
             (replicate (Z.to_nat height)
                (replicate (Z.to_nat width) 0%float)))).
Proof.
  intros Hc Hh Hw. unfold Tensor3D.NewTensor3D.
  rewrite (make_Ok ([] : list (list float)) channels), bind_Ok by done.
  rewrite (alloc_loop
    (replicate (Z.to_nat height) (replicate (Z.to_nat width) 0%float))).
  - rewrite bind_Ok, length_replicate. reflexivity.
  - intros k a d Hk.
    rewrite (plane_alloc height width (fun plane => assign d k plane)).
    now rewrite NewMatrix_replicate, bind_Ok.
Qed.

(** X23. [NewTensor3D(channels, height, width)] returns the tensor of that
    shape filled with [+0.0] when no argument is negative.  It panics
    exactly when an allocation it reaches has a negative length: [channels]
    negative; or [channels] positive and [height] negative; or both
    positive and [width] negative.  With no channels, or no rows, the
    later sizes are not looked at. *)
Theorem NewTensor3D_total (channels height width : Z) :
  (0 <= channels /\ 0 <= height /\ 0 <= width ->
     Tensor3D.NewTensor3D channels height width
     = Ok (Tensor3D.mk channels height width
             (replicate (Z.to_nat channels)
                (replicate (Z.to_nat height)
                   (replicate (Z.to_nat width) 0%float)))))
  /\ (Tensor3D.NewTensor3D channels height width = Panic
        <-> channels < 0 \/ (0 < channels /\ height < 0)
            \/ (0 < channels /\ 0 < height /\ width < 0))
  /\ (forall msg, Tensor3D.NewTensor3D channels height width <> Err msg).
Proof.
  assert (Hpanic : channels < 0 \/ (0 < channels /\ height < 0)
                   \/ (0 < channels /\ 0 < height /\ width < 0) ->
                   Tensor3D.NewTensor3D channels height width = Panic).
  { intros Hneg. unfold Tensor3D.NewTensor3D.
    destruct (Z.lt_ge_cases channels 0) as [Hc|Hc].
    { unfold make. destruct (Z.ltb_spec channels 0); [done|lia]. }
    assert (0 < channels) by lia.
    rewrite (make_Ok ([] : list (list float)) channels), bind_Ok by done.
    destruct (Z.to_nat channels) as [|n] eqn:En; [lia|]. cbn [replicate].
    rewrite range_from_first_Panic; [done|].
    rewrite (plane_alloc height width (fun plane => assign _ 0 plane)).
    destruct Hneg as [?|[[_ Hh]|(_ & Hh & Hw)]]; [lia| |].
    - now rewrite NewMatrix_negative_rows.
    - now rewrite NewMatrix_negative_cols. }
  assert (Hzero : channels = 0 ->
            Tensor3D.NewTensor3D channels height width
            = Ok (Tensor3D.mk 0 height width [])).
  { intros ->. reflexivity. }
  assert (Hflat : 0 < channels -> height = 0 ->
            Tensor3D.NewTensor3D channels height width
            = Ok (Tensor3D.mk channels 0 width
                    (replicate (Z.to_nat channels) []))).
  { intros Hc ->. unfold Tensor3D.NewTensor3D.
    rewrite (make_Ok ([] : list (list float)) channels), bind_Ok by lia.
    rewrite (alloc_loop ([] : list (list float))).
    - rewrite bind_Ok, length_replicate. reflexivity.
    - intros k a d Hk. reflexivity. }
  split; [|split].
  - intros (Hc & Hh & Hw). now apply NewTensor3D_replicate.
  - split; [|exact Hpanic]. intros E.
    destruct (Z.lt_trichotomy channels 0) as [?|[Hc|Hc]]; [lia| |].
    { rewrite Hzero in E by done. discriminate E. }
    destruct (Z.lt_trichotomy height 0) as [?|[Hh|Hh]]; [lia| |].
    { rewrite Hflat in E by done. discriminate E. }
    destruct (Z.lt_ge_cases width 0) as [?|Hw]; [lia|].
    rewrite NewTensor3D_replicate in E by lia. discriminate E.
  - intros msg E.
    destruct (Z.lt_trichotomy channels 0) as [?|[Hc|Hc]].
    { rewrite Hpanic in E by lia. discriminate E. }
    { rewrite Hzero in E by done. discriminate E. }
    destruct (Z.lt_trichotomy height 0) as [?|[Hh|Hh]].
    { rewrite Hpanic in E by lia. discriminate E. }
    { rewrite Hflat in E by done. discriminate E. }
    destruct (Z.lt_ge_cases width 0) as [?|Hw].
    { rewrite Hpanic in E by lia. discriminate E. }
    rewrite NewTensor3D_replicate in E by lia. discriminate E.
Qed.

(** ** Max pooling *)

Lemma foldl_concat {A B} (f : A -> B -> A) (ls : list (list B)) :
  forall a, foldl f a (concat ls) = foldl (fun a l => foldl f a l) a ls.
Proof.
  induction ls as [|l ls IH]; intros a; [done|].
  cbn [concat foldl]. now rewrite foldl_app, IH.
Qed.

Lemma foldl_ext_in {A B} (f g : A -> B -> A) (l : list B) :
  (forall a x, x ∈ l -> f a x = g a x) ->
  forall a, foldl f a l = foldl g a l.
Proof.
  induction l as [|x l IH]; intros Hfg a; [done|]. cbn [foldl].
  rewrite Hfg by (apply elem_of_cons; now left).
  apply IH. intros a' y Hy. apply Hfg. apply elem_of_cons. now right.
Qed.

Lemma upto_head n : 1 <= n -> exists rest, upto n = 0 :: rest.
Proof.
  intros Hn. unfold upto.
  destruct (Z.to_nat n) as [|k] eqn:E; [lia|]. cbn. eauto.
Qed.

Section PoolForward.

Variables (pool : MaxPool2D.t) (input : Tensor3D.t).
Hypothesis Hinput : Tensor3D.wf input = true.
Hypothesis Hfit : pool_fits pool input = true.

(** The output size along an axis of length [size]. *)
Let out (size : Z) : Z :=
  (size - MaxPool2D.PoolSize pool) `div` MaxPool2D.Stride pool + 1.

Lemma pool_fits_parts :
  1 <= MaxPool2D.Stride pool < 2147483648
  /\ 1 <= MaxPool2D.PoolSize pool
  /\ MaxPool2D.PoolSize pool <= Tensor3D.Height input < 2147483648
  /\ MaxPool2D.PoolSize pool <= Tensor3D.Width input < 2147483648.
Proof.
  unfold pool_fits in Hfit. change (2 ^ 31) with 2147483648 in Hfit.
  rewrite !andb_true_iff, !Z.leb_le, !Z.ltb_lt in Hfit. lia.
Qed.

Lemma pool_out_bounds size :
  MaxPool2D.PoolSize pool <= size < 2147483648 ->
  1 <= out size <= size
  /\ forall o, 0 <= o < out size ->
       0 <= o * MaxPool2D.Stride pool <= size - MaxPool2D.PoolSize pool.
Proof.
  intros Hsize. destruct pool_fits_parts as (HS & HP & _).
  unfold out. set (x := size - MaxPool2D.PoolSize pool).
  assert (Hx : 0 <= x < size) by (subst x; lia).
  pose proof (Z.mul_div_le x (MaxPool2D.Stride pool)) as Hq.
  assert (H0 : 0 <= x `div` MaxPool2D.Stride pool) by (apply Z.div_pos; lia).
  assert (H1 : x `div` MaxPool2D.Stride pool <= x).
  { apply Z.div_le_upper_bound; nia. }
  split; [lia|]. intros o Ho. nia.
Qed.

Lemma pool_out_size_spec size :
  MaxPool2D.PoolSize pool <= size < 2147483648 ->
  MaxPool2D.out_size pool size = Ok (out size).
Proof.
  intros Hsize. destruct pool_fits_parts as (HS & HP & _).
  destruct (pool_out_bounds size Hsize) as [Hout _]. unfold out in *.
  unfold MaxPool2D.out_size, int_div.
  destruct (Z.eqb_spec (MaxPool2D.Stride pool) 0); [lia|].
  rewrite bind_Ok. rewrite (wrap64_small (size - _)) by lia.
  rewrite Z.quot_div_nonneg by lia.
  rewrite (wrap64_small (_ `div` _)) by lia.
  now rewrite wrap64_small by lia.
Qed.

Lemma pool_cell_spec c outH outW :
  0 <= c < Tensor3D.Channels input ->
  0 <= outH < out (Tensor3D.Height input) ->
  0 <= outW < out (Tensor3D.Width input) ->
  MaxPool2D.cell pool input c outH outW = Ok (pool_max pool input c outH outW).
Proof.
  intros Hc HoH HoW.
  destruct pool_fits_parts as (HS & HP & HH & HW).
  destruct (pool_out_bounds _ HH) as [_ HbH].
  destruct (pool_out_bounds _ HW) as [_ HbW].
  specialize (HbH outH HoH). specialize (HbW outW HoW).
  unfold MaxPool2D.cell, pool_max, pool_window.
  rewrite (wrap64_small (outH * _)), (wrap64_small (outW * _)) by lia.
  rewrite tensor_at_get, bind_Ok by (done || lia).
  rewrite foldl_concat, foldl_fmap.
  apply for_fold; [lia|]. intros ph m Hph.
  rewrite foldl_fmap.
  apply for_fold; [lia|]. intros pw m' Hpw.
  rewrite !wrap64_small by lia.
  rewrite tensor_at_get, bind_Ok by (done || lia).
  unfold max_step. now destruct (m' <? _)%float.
Qed.

Lemma MaxPool2D_Forward_cells :
  exists output, MaxPool2D.Forward pool input = Ok output
    /\ Tensor3D.wf output = true
    /\ Tensor3D.Channels output = Tensor3D.Channels input
    /\ Tensor3D.Height output = out (Tensor3D.Height input)
    /\ Tensor3D.Width output = out (Tensor3D.Width input)
    /\ forall c outH outW,
         0 <= c < Tensor3D.Channels input ->
         0 <= outH < out (Tensor3D.Height input) ->
         0 <= outW < out (Tensor3D.Width input) ->
         Tensor3D.get (Tensor3D.Data output) c outH outW
           = Ok (pool_max pool input c outH outW).
Proof.
  destruct pool_fits_parts as (HS & HP & HH & HW).
  destruct (pool_out_bounds _ HH) as [HoH _].
  destruct (pool_out_bounds _ HW) as [HoW _].
  pose proof Hinput as (HC & _)%Tensor3D_wf_shaped3.
  unfold MaxPool2D.Forward.
  rewrite !pool_out_size_spec, !bind_Ok by done.
  destruct (NewTensor3D_spec (Tensor3D.Channels input)
              (out (Tensor3D.Height input)) (out (Tensor3D.Width input)))
    as (R & ER & HRc & HRh & HRw & HRd); [lia..|].
  rewrite ER, bind_Ok.
  destruct (fill3 (Tensor3D.Channels input)
              (out (Tensor3D.Height input)) (out (Tensor3D.Width input))
              (pool_max pool input)
              (fun c outH outW data =>
                 maxVal ← MaxPool2D.cell pool input c outH outW;
                 Tensor3D.set data c outH outW maxVal)
              (Tensor3D.Data R)) as (d & E & Hd & Hcells); [lia..|done| |].
  - intros c i j data Hc Hi Hj. now rewrite pool_cell_spec, bind_Ok.
  - rewrite E, bind_Ok. eexists. split; [reflexivity|]. simpl.
    rewrite HRc, HRh, HRw. split; [|done].
    apply Tensor3D_wf_shaped3. simpl.
    split; [lia|]. split; [lia|]. split; [lia|done].
Qed.

Lemma pool_window_corner c outH outW :
  exists rest,
    pool_window pool input c outH outW
    = tensor_at input c (outH * MaxPool2D.Stride pool)
                        (outW * MaxPool2D.Stride pool) :: rest.
Proof.
  destruct pool_fits_parts as (_ & HP & _).
  unfold pool_window.
  destruct (upto_head _ HP) as [rest ->]. cbn [fmap list_fmap concat app].
  rewrite !Z.add_0_r. eauto.
Qed.

End PoolForward.

(** X24. Max pooling with a stride of at least 1 and a window of at least
    one cell that is no larger than the input (sizes below [2^31]), on a
    well-formed input: [Forward] returns a well-formed tensor with the
    channels of the input and [(size - PoolSize) / Stride + 1] cells along
    each axis.  Each cell holds the running maximum over its window, taken
    row by row from the entry at the corner of the window.  If that corner
    is a NaN the cell is that NaN, whatever else the window holds;
    otherwise the cell is an entry of the window, is not a NaN, and no
    entry of the window that is not a NaN is above it. *)
Theorem MaxPool2D_Forward_spec (pool : MaxPool2D.t) (input : Tensor3D.t) :
  Tensor3D.wf input = true -> pool_fits pool input = true ->
  let out size :=
    (size - MaxPool2D.PoolSize pool) `div` MaxPool2D.Stride pool + 1 in
  exists output, MaxPool2D.Forward pool input = Ok output
    /\ Tensor3D.wf output = true
    /\ Tensor3D.Channels output = Tensor3D.Channels input
    /\ Tensor3D.Height output = out (Tensor3D.Height input)
    /\ Tensor3D.Width output = out (Tensor3D.Width input)
    /\ forall c outH outW,
         0 <= c < Tensor3D.Channels input ->
         0 <= outH < out (Tensor3D.Height input) ->
         0 <= outW < out (Tensor3D.Width input) ->
         let window := pool_window pool input c outH outW in
         let corner := tensor_at input c (outH * MaxPool2D.Stride pool)
                                         (outW * MaxPool2D.Stride pool) in
         exists v,
           Tensor3D.get (Tensor3D.Data output) c outH outW = Ok v
           /\ v = foldl max_step corner window
           /\ (is_nan corner = true -> v = corner)
           /\ (is_nan corner = false ->
                 is_nan v = false /\ v ∈ window
                 /\ forall x, x ∈ window -> is_nan x = false ->
                      (x <=? v)%float = true).
Proof.
  intros Hinput Hfit out.
  destruct (MaxPool2D_Forward_cells pool input Hinput Hfit)
    as (output & E & Hwf & HC & HH & HW & Hcells).
  exists output. do 5 (split; [done|]).
  intros c outH outW Hc HoH HoW window corner.
  exists (pool_max pool input c outH outW).
  split; [now apply Hcells|]. split; [reflexivity|]. split.
  - intros Hnan. unfold pool_max. now apply running_max_nan.
  - intros Hnan. unfold pool_max. fold corner. fold window.
    destruct (running_max_spec window corner Hnan) as (Hn & Hin & _ & Hall).
    split; [done|]. split; [|done].
    destruct Hin as [->|Hin]; [|done].
    destruct (pool_window_corner pool input Hfit c outH outW) as [rest Ew].
    subst window corner. rewrite Ew. apply elem_of_cons. now left.
Qed.

Lemma MaxPool2D_Forward_spec_witness :
  Tensor3D.wf Examples.input22 = true
  /\ pool_fits (MaxPool2D.mk 2 1) Examples.input22 = true
  /\ MaxPool2D.Forward (MaxPool2D.mk 2 1) Examples.input22
     = Ok (Tensor3D.mk 1 1 1 [[[4%float]]])
  /\ exists output,
       MaxPool2D.Forward (MaxPool2D.mk 2 1) Examples.input22 = Ok output
       /\ Tensor3D.wf output = true.
Proof.
  split; [reflexivity|]. split; [reflexivity|]. split; [reflexivity|].
  destruct (MaxPool2D_Forward_spec (MaxPool2D.mk 2 1) Examples.input22
              eq_refl eq_refl) as (output & E & Hwf & _).
  exists output. split; [exact E|exact Hwf].
Defined.

(** ** A stride of zero *)

Lemma zero_stride :
  (forall (conv : ConvLayer.t) (input : Tensor3D.t),
     ConvLayer.Stride conv = 0 ->
     Tensor3D.Channels input = ConvLayer.InChannels conv ->
     ConvLayer.Forward conv input = Panic)
  /\ (forall (pool : MaxPool2D.t) (input : Tensor3D.t),
        MaxPool2D.Stride pool = 0 ->
        MaxPool2D.Forward pool input = Panic).
Proof.
  split.
  - intros conv input Hs Hc. unfold ConvLayer.Forward, ConvLayer.out_size.
    now rewrite Hc, Z.eqb_refl, Hs.
  - intros pool input Hs. unfold MaxPool2D.Forward, MaxPool2D.out_size.
    now rewrite Hs.
Qed.

(** ** A pooling window larger than the input *)

Lemma loop_all_Ok {St} (body : Z -> St -> result St) n :
  forall i s s', loop n i body s = Ok s' ->
  forall k, i <= k < i + Z.of_nat n -> exists s1 s2, body k s1 = Ok s2.
Proof.
  induction n as [|n IH]; intros i s s' E k Hk; [lia|].
  cbn [loop] in E. apply bind_eq_Ok in E as (s1 & E1 & E).
  destruct (decide (k = i)) as [->|Hne]; [eauto|].
  apply (IH (i + 1) s1 s' E). lia.
Qed.

Lemma for_all_Ok {St} (body : Z -> St -> result St) lo hi s s' :
  for_ lo hi body s = Ok s' ->
  forall k, lo <= k < hi -> exists s1 s2, body k s1 = Ok s2.
Proof.
  intros E k Hk. apply (loop_all_Ok body _ lo s s' E). lia.
Qed.

Lemma no_err_get3 d c h w : no_err (Tensor3D.get d c h w).
Proof. unfold Tensor3D.get. no_err_auto. Qed.

Lemma get3_Ok_range d n r c f i j x :
  shaped3 d n r c -> Tensor3D.get d f i j = Ok x ->
  0 <= f < n /\ 0 <= i < r /\ 0 <= j < c.
Proof.
  intros [Hlen Hplanes] E. unfold Tensor3D.get in E.
  apply bind_eq_Ok in E as (plane & Eplane & E).
  apply index_Ok_inv in Eplane as [Hf Eplane].
  pose proof (Forall_lookup_1 _ _ _ _ Hplanes Eplane) as Hp. simpl in Hp.
  apply (get_Ok_range _ _ _ _ _ _ Hp) in E. lia.
Qed.

Lemma not_Ok_no_err_Panic {A} (r : result A) :
  no_err r -> (forall a, r <> Ok a) -> r = Panic.
Proof. intros Hne Hok. destruct r as [a|msg|]; [by destruct (Hok a)|by destruct (Hne msg)|done]. Qed.

Lemma window_too_large (pool : MaxPool2D.t) (input : Tensor3D.t) :
  Tensor3D.wf input = true ->
  1 <= Tensor3D.Channels input ->
  1 <= MaxPool2D.Stride pool < 2 ^ 31 ->
  Tensor3D.Height input < 2 ^ 31 -> Tensor3D.Width input < 2 ^ 31 ->
  MaxPool2D.PoolSize pool < 2 ^ 31 ->
  Tensor3D.Height input < MaxPool2D.PoolSize pool
    < Tensor3D.Height input + MaxPool2D.Stride pool ->
  MaxPool2D.PoolSize pool
    < Tensor3D.Width input + MaxPool2D.Stride pool ->
  MaxPool2D.out_size pool (Tensor3D.Height input) = Ok 1
  /\ MaxPool2D.Forward pool input = Panic.
Proof.
  change (2 ^ 31) with 2147483648.
  intros Hinput HC HS HHmax HWmax HPmax HP HPW.
  pose proof Hinput as (_ & HH & HW & Hd)%Tensor3D_wf_shaped3.
  set (H := Tensor3D.Height input) in *.
  set (W := Tensor3D.Width input) in *.
  set (P := MaxPool2D.PoolSize pool) in *.
  set (S := MaxPool2D.Stride pool) in *.
  assert (EH : MaxPool2D.out_size pool H = Ok 1).
  { unfold MaxPool2D.out_size, int_div. fold P S.
    destruct (Z.eqb_spec S 0); [lia|]. rewrite bind_Ok.
    rewrite (wrap64_small (H - P)) by lia.
    assert ((H - P) ÷ S = 0) as ->; [|reflexivity].
    rewrite <- (Z.opp_involutive (H - P)), Z.quot_opp_l by lia.
    rewrite Z.quot_small by lia. reflexivity. }
  split; [exact EH|].
  assert (EW : exists ow, MaxPool2D.out_size pool W = Ok ow
                          /\ 1 <= ow < 2147483648).
  { unfold MaxPool2D.out_size, int_div. fold P S.
    destruct (Z.eqb_spec S 0); [lia|]. rewrite bind_Ok.
    rewrite (wrap64_small (W - P)) by lia.
    destruct (Z.le_gt_cases P W) as [Hle|Hgt].
    - rewrite Z.quot_div_nonneg by lia.
      assert (0 <= (W - P) `div` S <= W - P).
      { split; [apply Z.div_pos; lia|apply Z.div_le_upper_bound; nia]. }
      rewrite (wrap64_small (_ `div` _)) by lia.
      rewrite wrap64_small by lia. eexists. split; [reflexivity|lia].
    - assert ((W - P) ÷ S = 0) as ->.
      { rewrite <- (Z.opp_involutive (W - P)), Z.quot_opp_l by lia.
        rewrite Z.quot_small by lia. reflexivity. }
      exists 1. split; [reflexivity|lia]. }
  destruct EW as (ow & EW & How).
  unfold MaxPool2D.Forward. fold H W. rewrite EH, EW, !bind_Ok.
  destruct (NewTensor3D_spec (Tensor3D.Channels input) 1 ow)
    as (R & ER & _); [lia..|].
  rewrite ER, bind_Ok.
  rewrite for_first_Panic; [done|lia|].
  apply for_first_Panic; [lia|]. apply for_first_Panic; [lia|].
  assert (Ecell : MaxPool2D.cell pool input 0 0 0 = Panic); [|now rewrite Ecell].
  apply not_Ok_no_err_Panic.
  - unfold MaxPool2D.cell.
    apply no_err_bind; [apply no_err_get3|]. intros m.
    apply no_err_for. intros ph m1. apply no_err_for. intros pw m2.
    apply no_err_bind; [apply no_err_get3|]. intros x.
    destruct (m2 <? x)%float; [apply no_err_get3|apply no_err_Ok].
  - intros v E. unfold MaxPool2D.cell in E.
    apply bind_eq_Ok in E as (m & _ & E). fold P S in E.
    destruct (for_all_Ok _ _ _ _ _ E H) as (m1 & m2 & E1); [lia|].
    destruct (for_all_Ok _ _ _ _ _ E1 0) as (m3 & m4 & E2); [lia|].
    apply bind_eq_Ok in E2 as (x & Ex & _).
    rewrite Z.mul_0_l, !Z.add_0_l, (wrap64_small 0), (wrap64_small H) in Ex
      by lia.
    apply (get3_Ok_range _ _ _ _ _ _ _ _ Hd) in Ex. fold H in Ex. lia.
Qed.

(** X25. Two ways to make a layer of src/unnamed/part_000 panic.  A
    stride of zero is a division by zero: [ConvLayer.Forward], on an input
    with the layer's number of channels, and [MaxPool2D.Forward], on any
    input, panic while they compute the output size.  A pooling window
    larger than the input, but by less than the stride, makes
    [MaxPool2D.Forward] panic as well: the integer division that gives the
    output size truncates towards zero, so the output is taken to have one
    row of cells, and the loops over the window then read a row of the
    input that does not exist. *)
Theorem stride_and_window_panics :
  (forall (conv : ConvLayer.t) (input : Tensor3D.t),
     ConvLayer.Stride conv = 0 ->
     Tensor3D.Channels input = ConvLayer.InChannels conv ->
     ConvLayer.Forward conv input = Panic)
  /\ (forall (pool : MaxPool2D.t) (input : Tensor3D.t),
        MaxPool2D.Stride pool = 0 ->
        MaxPool2D.Forward pool input = Panic)
  /\ (forall (pool : MaxPool2D.t) (input : Tensor3D.t),
        Tensor3D.wf input = true ->
        1 <= Tensor3D.Channels input ->
        1 <= MaxPool2D.Stride pool < 2 ^ 31 ->
        Tensor3D.Height input < 2 ^ 31 -> Tensor3D.Width input < 2 ^ 31 ->
        MaxPool2D.PoolSize pool < 2 ^ 31 ->
        Tensor3D.Height input < MaxPool2D.PoolSize pool
          < Tensor3D.Height input + MaxPool2D.Stride pool ->
        MaxPool2D.PoolSize pool
          < Tensor3D.Width input + MaxPool2D.Stride pool ->
        MaxPool2D.out_size pool (Tensor3D.Height input) = Ok 1
        /\ MaxPool2D.Forward pool input = Panic).
Proof.
  split; [apply zero_stride|]. split; [apply zero_stride|].
  apply window_too_large.
Qed.

Lemma stride_and_window_panics_witness :
  Tensor3D.wf Examples.input22 = true
  /\ MaxPool2D.Forward (MaxPool2D.mk 3 2) Examples.input22 = Panic.
Proof.
  split; [reflexivity|].
  refine (proj2 (proj2 (proj2 stride_and_window_panics) (MaxPool2D.mk 3 2)
                   Examples.input22 eq_refl _ _ _ _ _ _ _)); cbn; lia.
Defined.

(** ** The constructors that draw random numbers *)

Section RandomFill.
Context `{GoRand}.

Lemma source_after_succ (draw : Source -> float * Source) (n : nat) :
  forall src,
  source_after draw (S n) src = (draw (source_after draw n src)).2.
Proof. induction n as [|n IH]; intros src; [done|]. cbn. apply IH. Qed.

(** Two nested loops that fill an [r] x [c] buffer in row-major order, each
    cell from the next number the source gives. *)
Lemma random_fill (draw : Source -> float * Source) (f : float -> float)
    (r c : Z) (d0 : list (list float)) (src : Source) :
  0 <= r -> 0 <= c -> shaped d0 r c ->
  exists d',
    for_ 0 r (fun i st =>
      for_ 0 c (fun j '(data, src) =>
        let '(x, src) := draw src in
        data ← Matrix.set data i j (f x);
        Ok (data, src)) st) (d0, src)
    = Ok (d', source_after draw (Z.to_nat (r * c)) src)
    /\ shaped d' r c
    /\ forall i j, 0 <= i < r -> 0 <= j < c ->
         Matrix.get d' i j = Ok (f (drawn draw (Z.to_nat (i * c + j)) src)).
Proof.
  intros Hr Hc H0.
  set (v := fun i j => f (drawn draw (Z.to_nat (i * c + j)) src)).
  destruct (for2_inv
    (fun k (st : list (list float) * Source) =>
       st.2 = source_after draw (Z.to_nat k) src /\ filled r c v d0 k st.1)
    (fun i j '(data, src) =>
       let '(x, src) := draw src in
       data ← Matrix.set data i j (f x);
       Ok (data, src))
    r c (d0, src)) as ([d' src'] & E & Hsrc & Hd'); [done|done| | |].
  - split; [done|]. now apply filled_init.
  - intros i j [data s] Hi Hj [Hs Hd]. cbn [fst snd] in Hs, Hd.
    destruct (draw s) as [x s'] eqn:Ex.
    assert (Hk : 0 <= i * c + j) by nia.
    destruct (filled_step r c v d0 (i * c + j) data i j) as (d1 & E1 & Hd1 & _);
      [done..|].
    assert (Ev : v i j = f x).
    { subst v. cbn beta. unfold drawn. now rewrite <- Hs, Ex. }
    rewrite Ev in E1. rewrite E1, bind_Ok.
    eexists. split; [reflexivity|]. cbn [fst snd]. split; [|done].
    replace (Z.to_nat (i * c + j + 1)) with (S (Z.to_nat (i * c + j))) by lia.
    now rewrite source_after_succ, <- Hs, Ex.
  - cbn [fst snd] in Hsrc, Hd'. subst src'. exists d'.
    split; [exact E|]. split; [apply Hd'|].
    intros i j. now apply (filled_done r c v d0).
Qed.

End RandomFill.

Section RandomConstructors.
Context `{GoMath} `{GoRand}.

Lemma RandomMatrix_cells (rows cols : Z) (src : Source) :
  0 <= rows -> 0 <= cols ->
  exists m,
    RandomMatrix rows cols src
    = Ok (m, source_after Float64 (Z.to_nat (rows * cols)) src)
    /\ Matrix.wf m = true
    /\ Matrix.Rows m = rows /\ Matrix.Cols m = cols
    /\ forall i j, 0 <= i < rows -> 0 <= j < cols ->
         Matrix.get (Matrix.Data m) i j
         = Ok (drawn Float64 (Z.to_nat (i * cols + j)) src * 2 - 1)%float.
Proof.
  intros Hr Hc. unfold RandomMatrix.
  rewrite NewMatrix_replicate, bind_Ok by done.
  cbn [Matrix.Data Matrix.Rows Matrix.Cols].
  destruct (random_fill Float64 (fun x => x * 2 - 1)%float rows cols
              (replicate (Z.to_nat rows) (replicate (Z.to_nat cols) 0%float))
              src) as (d & E & Hd & Hcells); [done|done| |].
  { split; [rewrite length_replicate; lia|].
    apply Forall_replicate. rewrite length_replicate. lia. }
  rewrite E, bind_Ok. eexists. split; [reflexivity|].
  split; [|done]. apply wf_shaped. done.
Qed.

(** X26. [RandomMatrix(rows, cols)], for arguments that are not negative,
    makes exactly [rows * cols] calls of [rand.Float64] and returns the
    well-formed [rows] x [cols] matrix whose entry [(i, j)] is [x * 2 - 1]
    for the number [x] that call number [i * cols + j] returned: the cells
    are filled in row-major order.  With a negative [rows], or a negative
    [cols] and a positive [rows], it panics. *)
Theorem RandomMatrix_spec (rows cols : Z) (src : Source) :
  (0 <= rows /\ 0 <= cols ->
   exists m,
     RandomMatrix rows cols src
     = Ok (m, source_after Float64 (Z.to_nat (rows * cols)) src)
     /\ Matrix.wf m = true
     /\ Matrix.Rows m = rows /\ Matrix.Cols m = cols
     /\ forall i j, 0 <= i < rows -> 0 <= j < cols ->
          Matrix.get (Matrix.Data m) i j
          = Ok (drawn Float64 (Z.to_nat (i * cols + j)) src * 2 - 1)%float)
  /\ (rows < 0 \/ (0 < rows /\ cols < 0) ->
      RandomMatrix rows cols src = Panic).
Proof.
  split.
  - intros [Hr Hc]. now apply RandomMatrix_cells.
  - intros Hneg. unfold RandomMatrix.
    destruct Hneg as [Hr|[Hr Hc]].
    + now rewrite NewMatrix_negative_rows.
    + now rewrite NewMatrix_negative_cols.
Qed.

(** X27. [NewDense(inputSize, outputSize)], for sizes that are not
    negative, returns a layer in the state that [Forward] and [Backward]
    rely on and keep: weights and weight gradient of [inputSize] x
    [outputSize], bias and bias gradient of 1 x [outputSize], no cached
    input.  The bias and both gradients are zero; weight [(i, j)] is
    [x * Sqrt(2 / inputSize)] for the number [x] that call number
    [i * outputSize + j] of [rand.NormFloat64] returned, and no other
    random number is drawn.  With a negative size it panics. *)
Theorem NewDense_spec (inputSize outputSize : Z) (src : Source) :
  (0 <= inputSize /\ 0 <= outputSize ->
   exists d,
     NewDense inputSize outputSize src
     = Ok (d, source_after NormFloat64
                (Z.to_nat (inputSize * outputSize)) src)
     /\ Dense_wf d = true
     /\ Dense.InputSize d = inputSize /\ Dense.OutputSize d = outputSize
     /\ Dense.lastInput d = None
     /\ Dense.Bias d = zeros 1 outputSize
     /\ Dense.weightsGrad d = zeros inputSize outputSize
     /\ Dense.biasGrad d = zeros 1 outputSize
     /\ forall i j, 0 <= i < inputSize -> 0 <= j < outputSize ->
          Matrix.get (Matrix.Data (Dense.Weights d)) i j
          = Ok (drawn NormFloat64 (Z.to_nat (i * outputSize + j)) src
                * Sqrt (2 / float64_of_int inputSize))%float)
  /\ (inputSize < 0 \/ outputSize < 0 ->
      NewDense inputSize outputSize src = Panic).
Proof.
  split.
  - intros [Hi Ho]. unfold NewDense.
    rewrite (NewMatrix_replicate inputSize outputSize),
      (NewMatrix_replicate 1 outputSize) by lia.
    rewrite bind_Ok.
    cbn [Matrix.Data Matrix.Rows Matrix.Cols].
    destruct (random_fill NormFloat64
                (fun x => x * Sqrt (2 / float64_of_int inputSize))%float
                inputSize outputSize
                (replicate (Z.to_nat inputSize)
                   (replicate (Z.to_nat outputSize) 0%float))
                src) as (data & E & Hd & Hcells); [done|done| |].
    { split; [rewrite length_replicate; lia|].
      apply Forall_replicate. rewrite length_replicate. lia. }
    rewrite E, !bind_Ok.
    eexists. split; [reflexivity|].
    cbn [Dense.InputSize Dense.OutputSize Dense.lastInput Dense.Bias
         Dense.weightsGrad Dense.biasGrad Dense.Weights Matrix.Data].
    split; [|done].
    assert (Hz : forall r c, 0 <= r -> 0 <= c ->
              has_shape (zeros r c) r c = true).
    { intros r c Hr Hc. apply has_shape_spec. split; [|done].
      apply wf_shaped. cbn. split; [done|]. split; [done|].
      split; [rewrite length_replicate; lia|].
      apply Forall_replicate. rewrite length_replicate. lia. }
    unfold Dense_wf.
    cbn [Dense.InputSize Dense.OutputSize Dense.lastInput Dense.Bias
         Dense.weightsGrad Dense.biasGrad Dense.Weights].
    fold (zeros 1 outputSize). fold (zeros inputSize outputSize).
    rewrite !Hz by lia.
    assert (has_shape (Matrix.mk inputSize outputSize data)
              inputSize outputSize = true) as ->.
    { apply has_shape_spec. split; [|done]. apply wf_shaped. done. }
    destruct (Z.leb_spec 0 inputSize); [|lia].
    destruct (Z.leb_spec 0 outputSize); [|lia]. reflexivity.
  - intros Hneg. unfold NewDense.
    destruct (Z.lt_trichotomy inputSize 0) as [Hi|[->|Hi]].
    + now rewrite (NewMatrix_negative_rows inputSize outputSize).
    + destruct Hneg as [?|Ho]; [lia|].
      rewrite NewMatrix_no_rows, bind_Ok. cbn [Matrix.Data].
      rewrite for_empty, bind_Ok by lia.
      now rewrite (NewMatrix_negative_cols 1 outputSize) by lia.
    + destruct Hneg as [?|Ho]; [lia|].
      now rewrite (NewMatrix_negative_cols inputSize outputSize).
Qed.

End RandomConstructors.

Lemma NewDense_spec_witness :
  exists d out,
    @NewDense example_math example_rand 2 1 3 = Ok (d, 5)
    /\ Dense_wf d = true
    /\ (Dense.Forward d Examples.A22).2 = Ok out
    /\ Matrix.Rows out = 2 /\ Matrix.Cols out = 1.
Proof.
  destruct (proj1 (@NewDense_spec example_math example_rand 2 1 3))
    as (d & E & Hd & Hi & Ho & _); [lia|].
  destruct (Dense_Forward_cells d Examples.A22 Hd eq_refl)
    as (out & Eo & _ & Hr & Hc & _); [now rewrite Hi|].
  exists d, out. split; [exact E|]. split; [exact Hd|].
  split; [now rewrite Eo|]. split; [exact Hr|]. now rewrite Hc, Ho.
Defined.

(** ** [Fit]: the batches *)

Lemma zeros_shaped r c :
  0 <= r -> 0 <= c ->
  shaped (replicate (Z.to_nat r) (replicate (Z.to_nat c) 0%float)) r c.
Proof.
  intros Hr Hc. split; [rewrite length_replicate; lia|].
  apply Forall_replicate. rewrite length_replicate. lia.
Qed.

(** The loop that copies row [j] of [M] into row [j - i] of a buffer. *)
Lemma copy_row (M : Matrix.t) (i e j : Z) (v : Z -> Z -> float) d0 d :
  Matrix.wf M = true ->
  0 <= i <= j -> j < e -> e <= Matrix.Rows M ->
  Matrix.Rows M < 9223372036854775808 ->
  (forall r c, v r c = Matrix.entry M (i + r) c) ->
  filled (e - i) (Matrix.Cols M) v d0 ((j - i) * Matrix.Cols M) d ->
  exists d',
    for_ 0 (Matrix.Cols M) (fun k dx =>
      x ← Matrix.get (Matrix.Data M) j k;
      Matrix.set dx (wrap64 (j - i)) k x) d = Ok d'
    /\ filled (e - i) (Matrix.Cols M) v d0 ((j + 1 - i) * Matrix.Cols M) d'.
Proof.
  intros HM Hij Hje He Hmax Hv Hd.
  pose proof HM as (_ & HC & _)%wf_shaped.
  destruct (for_inv
    (fun k dx => filled (e - i) (Matrix.Cols M) v d0
                   ((j - i) * Matrix.Cols M + k) dx)
    (fun k dx =>
       x ← Matrix.get (Matrix.Data M) j k;
       Matrix.set dx (wrap64 (j - i)) k x)
    0 (Matrix.Cols M) d) as (d' & E & Hd'); [done| | |].
  - now rewrite Z.add_0_r.
  - intros k dx Hk Hdx.
    rewrite (get_entry M j k), bind_Ok by (done || lia).
    rewrite wrap64_small by lia.
    destruct (filled_step (e - i) (Matrix.Cols M) v d0
                ((j - i) * Matrix.Cols M + k) dx (j - i) k)
      as (d1 & E1 & Hd1 & _); [done|done|lia|done|].
    rewrite Hv in E1. replace (i + (j - i)) with j in E1 by lia.
    exists d1. split; [done|]. now rewrite Z.add_assoc.
  - exists d'. split; [done|].
    now replace ((j + 1 - i) * Matrix.Cols M)
      with ((j - i) * Matrix.Cols M + Matrix.Cols M) by lia.
Qed.

Lemma rows_of_get (M : Matrix.t) (i e r c : Z) :
  0 <= i -> 0 <= r < e - i ->
  Matrix.get (Matrix.Data (rows_of M i e)) r c
  = Matrix.get (Matrix.Data M) (i + r) c.
Proof.
  intros Hi Hr. unfold rows_of, Matrix.get, index. cbn [Matrix.Data].
  destruct (Z.ltb_spec r 0); [lia|]. destruct (Z.ltb_spec (i + r) 0); [lia|].
  rewrite lookup_take_lt by lia. rewrite lookup_drop.
  now replace (Z.to_nat i + Z.to_nat r)%nat with (Z.to_nat (i + r)) by lia.
Qed.

Lemma rows_of_wf (M : Matrix.t) (i e : Z) :
  Matrix.wf M = true -> 0 <= i <= e -> e <= Matrix.Rows M ->
  Matrix.wf (rows_of M i e) = true.
Proof.
  intros (HR & HC & Hlen & Hrows)%wf_shaped Hie He.
  apply wf_shaped. cbn. split; [lia|]. split; [done|]. split.
  - rewrite length_take, length_drop. lia.
  - apply Forall_take, Forall_drop. done.
Qed.

Section Batch.
Variables X y : Matrix.t.
Variables i e : Z.
Hypothesis HX : Matrix.wf X = true.
Hypothesis Hy : Matrix.wf y = true.
Hypothesis Hie : 0 <= i <= e.
Hypothesis HeX : e <= Matrix.Rows X.
Hypothesis Hey : e <= Matrix.Rows y.
Hypothesis HmaxX : Matrix.Rows X < 9223372036854775808.
Hypothesis Hmaxy : Matrix.Rows y < 9223372036854775808.

Lemma batch_rows :
  Sequential.batch X y i e = Ok (rows_of X i e, rows_of y i e).
Proof.
  pose proof HX as (_ & HCX & _)%wf_shaped.
  pose proof Hy as (_ & HCy & _)%wf_shaped.
  unfold Sequential.batch. rewrite wrap64_small by lia.
  rewrite !NewMatrix_replicate, !bind_Ok by lia.
  cbn [Matrix.Data Matrix.Rows Matrix.Cols].
  set (zX := replicate (Z.to_nat (e - i))
               (replicate (Z.to_nat (Matrix.Cols X)) 0%float)).
  set (zy := replicate (Z.to_nat (e - i))
               (replicate (Z.to_nat (Matrix.Cols y)) 0%float)).
  set (vX := fun r c => Matrix.entry X (i + r) c).
  set (vy := fun r c => Matrix.entry y (i + r) c).
  assert (HzX : shaped zX (e - i) (Matrix.Cols X)) by (apply zeros_shaped; lia).
  assert (Hzy : shaped zy (e - i) (Matrix.Cols y)) by (apply zeros_shaped; lia).
  destruct (for_inv
    (fun j (st : list (list float) * list (list float)) =>
       filled (e - i) (Matrix.Cols X) vX zX ((j - i) * Matrix.Cols X) st.1
       /\ filled (e - i) (Matrix.Cols y) vy zy ((j - i) * Matrix.Cols y) st.2)
    (fun j '(dx, dy) =>
       dx ← for_ 0 (Matrix.Cols X) (fun k dx =>
               x ← Matrix.get (Matrix.Data X) j k;
               Matrix.set dx (wrap64 (j - i)) k x) dx;
       dy ← for_ 0 (Matrix.Cols y) (fun k dy =>
               x ← Matrix.get (Matrix.Data y) j k;
               Matrix.set dy (wrap64 (j - i)) k x) dy;
       Ok (dx, dy))
    i e (zX, zy)) as ([dx dy] & E & Hdx & Hdy); [lia| | |].
  - rewrite Z.sub_diag, !Z.mul_0_l. cbn [fst snd].
    split; apply filled_init; (done || lia).
  - intros j [dx dy] Hj [Hdx Hdy]. cbn [fst snd] in Hdx, Hdy.
    destruct (copy_row X i e j vX zX dx) as (dx' & Ex & Hdx');
      [done|lia|lia|done|done|done|done|].
    destruct (copy_row y i e j vy zy dy) as (dy' & Ey & Hdy');
      [done|lia|lia|done|done|done|done|].
    rewrite Ex, bind_Ok, Ey, bind_Ok. eexists. split; [reflexivity|].
    cbn [fst snd]. done.
  - cbn [fst snd] in Hdx, Hdy. rewrite E, bind_Ok. f_equal. f_equal.
    + unfold rows_of. f_equal.
      apply (shaped_ext _ _ (e - i) (Matrix.Cols X)); [apply Hdx| |].
      * pose proof (rows_of_wf X i e HX Hie HeX) as (_ & _ & Hs)%wf_shaped.
        exact Hs.
      * intros r c Hr Hc.
        rewrite (filled_done (e - i) (Matrix.Cols X) vX zX HCX dx r c Hdx Hr Hc).
        change (take _ _) with (Matrix.Data (rows_of X i e)).
        rewrite rows_of_get by lia. subst vX. cbn beta.
        symmetry. apply get_entry; [done|lia|lia].
    + unfold rows_of. f_equal.
      apply (shaped_ext _ _ (e - i) (Matrix.Cols y)); [apply Hdy| |].
      * pose proof (rows_of_wf y i e Hy Hie Hey) as (_ & _ & Hs)%wf_shaped.
        exact Hs.
      * intros r c Hr Hc.
        rewrite (filled_done (e - i) (Matrix.Cols y) vy zy HCy dy r c Hdy Hr Hc).
        change (take _ _) with (Matrix.Data (rows_of y i e)).
        rewrite rows_of_get by lia. subst vy. cbn beta.
        symmetry. apply get_entry; [done|lia|lia].
Qed.

End Batch.

(** ** [Fit]: the epochs *)

Lemma batch_count_spec (n b : Z) :
  0 <= n -> 1 <= b ->
  let count := (n + b - 1) `div` b in
  0 <= count <= n /\ n <= count * b
  /\ forall j, 0 <= j < count -> j * b < n.
Proof.
  intros Hn Hb count.
  pose proof (Z.mul_div_le (n + b - 1) b ltac:(lia)) as Hle.
  pose proof (Z.mul_succ_div_gt (n + b - 1) b ltac:(lia)) as Hgt.
  fold count in Hle, Hgt.
  assert (0 <= count) by (apply Z.div_pos; lia).
  split; [nia|]. split; [nia|]. intros j Hj. nia.
Qed.

Section FitBatches.
Context `{GoMath}.

Lemma train_batches_eq fuel X y batchSize i s totalLoss numBatches :
  Sequential.train_batches fuel X y batchSize i s totalLoss numBatches
  = if negb (i <? Matrix.Rows X) then Some (s, Ok (totalLoss, numBatches))
    else
      match fuel with
      | O => None
      | S fuel =>
          let end_ := wrap64 (i + batchSize) in
          let end_ := if Matrix.Rows X <? end_ then Matrix.Rows X else end_ in
          match Sequential.batch X y i end_ with
          | Ok (batchX, batchY) =>
              let '(s, r) := Sequential.TrainOnBatch s batchX batchY in
              match r with
              | Ok loss =>
                  Sequential.train_batches fuel X y batchSize
                    (wrap64 (i + batchSize)) s (totalLoss + loss)%float
                    (wrap64 (numBatches + 1))
              | Err msg => Some (s, Err msg)
              | Panic => Some (s, Panic)
              end
          | Err msg => Some (s, Err msg)
          | Panic => Some (s, Panic)
          end
      end.
Proof. now destruct fuel. Qed.

Variables X y : Matrix.t.
Variable batchSize : Z.
Hypothesis HX : Matrix.wf X = true.
Hypothesis Hy : Matrix.wf y = true.
Hypothesis Hrows : Matrix.Rows X <= Matrix.Rows y.
Hypothesis Hb : 1 <= batchSize < 4611686018427387904.
Hypothesis HmaxX : Matrix.Rows X < 4611686018427387904.
Hypothesis Hmaxy : Matrix.Rows y < 9223372036854775808.

Let count := (Matrix.Rows X + batchSize - 1) `div` batchSize.

Let batch_at (k : Z) : Matrix.t * Matrix.t :=
  let i := k * batchSize in
  let end_ := Z.min (i + batchSize) (Matrix.Rows X) in
  (rows_of X i end_, rows_of y i end_).

Lemma train_batches_on (m : nat) :
  forall (j : Z) (fuel : nat) s totalLoss numBatches,
  0 <= j -> Z.of_nat m + j = count -> (m <= fuel)%nat ->
  0 <= numBatches -> numBatches + Z.of_nat m < 9223372036854775808 ->
  Sequential.train_batches fuel X y batchSize (j * batchSize) s totalLoss
    numBatches
  = Some (train_on (batch_at <$> (Z.of_nat <$> seq (Z.to_nat j) m))
            s totalLoss numBatches).
Proof.
  pose proof HX as (HR & _)%wf_shaped.
  destruct (batch_count_spec (Matrix.Rows X) batchSize HR (proj1 Hb))
    as (Hcount & Hend & Hin). fold count in Hcount, Hend, Hin.
  induction m as [|m IH]; intros j fuel s tl nb Hj Hm Hfuel Hnb Hmax;
    rewrite train_batches_eq.
  - assert (j = count) as -> by lia.
    destruct (Z.ltb_spec (count * batchSize) (Matrix.Rows X)); [lia|].
    reflexivity.
  - assert (Hlt : j * batchSize < Matrix.Rows X) by (apply Hin; lia).
    destruct (Z.ltb_spec (j * batchSize) (Matrix.Rows X)); [|lia].
    cbn [negb]. destruct fuel as [|fuel]; [lia|].
    assert (Hi : 0 <= j * batchSize) by nia.
    rewrite (wrap64_small (j * batchSize + batchSize)) by lia.
    cbv zeta.
    assert (Eend : (if Matrix.Rows X <? j * batchSize + batchSize
                    then Matrix.Rows X else j * batchSize + batchSize)
                   = Z.min (j * batchSize + batchSize) (Matrix.Rows X)).
    { destruct (Z.ltb_spec (Matrix.Rows X) (j * batchSize + batchSize)); lia. }
    rewrite Eend.
    rewrite (batch_rows X y (j * batchSize)
               (Z.min (j * batchSize + batchSize) (Matrix.Rows X)))
      by (done || lia).
    cbn [seq fmap list_fmap train_on]. rewrite Z2Nat.id by done.
    unfold batch_at at 1. cbv zeta.
    destruct (Sequential.TrainOnBatch s _ _) as [s1 [loss|msg|]];
      [|reflexivity..].
    replace (j * batchSize + batchSize) with ((j + 1) * batchSize) by lia.
    rewrite (wrap64_small (nb + 1)) by lia.
    rewrite (IH (j + 1)) by lia.
    now replace (Z.to_nat (j + 1)) with (S (Z.to_nat j)) by lia.
Qed.

Lemma epoch_batches_seq :
  epoch_batches X y batchSize
  = batch_at <$> (Z.of_nat <$> seq 0 (Z.to_nat count)).
Proof. reflexivity. Qed.

Lemma train_epochs_on (fuel : nat) (epochs : Z) (verbose : bool) (n : nat) :
  (Z.to_nat count <= fuel)%nat ->
  forall epoch s out,
  0 <= epoch -> epoch + Z.of_nat n < 9223372036854775808 ->
  Sequential.train_epochs fuel X y epochs batchSize verbose n epoch s out
  = Some (fit_on (epoch_batches X y batchSize) epochs verbose n epoch s out).
Proof.
  pose proof HX as (HR & _)%wf_shaped.
  destruct (batch_count_spec (Matrix.Rows X) batchSize HR (proj1 Hb))
    as (Hcount & _). fold count in Hcount.
  intros Hfuel. induction n as [|n IH]; intros epoch s out He Hmax; [done|].
  cbn [Sequential.train_epochs fit_on].
  change 0 with (0 * batchSize) at 1.
  rewrite (train_batches_on (Z.to_nat count) 0) by lia.
  change (Z.to_nat 0) with 0%nat. rewrite <- epoch_batches_seq.
  destruct (train_on (epoch_batches X y batchSize) s 0%float 0)
    as [s1 [[tl nb]|msg|]]; [|reflexivity..].
  rewrite wrap64_small by lia. apply IH; lia.
Qed.

Lemma epoch_batches_shapes bx by_ :
  (bx, by_) ∈ epoch_batches X y batchSize ->
  Matrix.wf bx = true /\ Matrix.wf by_ = true
  /\ Matrix.Rows bx = Matrix.Rows by_
  /\ 1 <= Matrix.Rows bx <= batchSize
  /\ Matrix.Cols bx = Matrix.Cols X /\ Matrix.Cols by_ = Matrix.Cols y.
Proof.
  pose proof HX as (HR & _)%wf_shaped.
  destruct (batch_count_spec (Matrix.Rows X) batchSize HR (proj1 Hb))
    as (Hcount & Hend & Hin). fold count in Hcount, Hend, Hin.
  unfold epoch_batches. fold count.
  intros (k & [= -> ->] & Hk)%list_elem_of_fmap.
  unfold upto in Hk. apply list_elem_of_fmap in Hk as (k' & -> & Hk').
  apply elem_of_seq in Hk'.
  assert (Hlt : Z.of_nat k' * batchSize < Matrix.Rows X) by (apply Hin; lia).
  assert (0 <= Z.of_nat k' * batchSize) by nia.
  split; [apply rows_of_wf; (done || lia)|].
  split; [apply rows_of_wf; (done || lia)|].
  cbn. lia.
Qed.

End FitBatches.

Section FitTheorems.
Context `{GoMath}.

(** X28. The block of [Fit] that creates a batch copies rows: for
    well-formed [X] and [y] and a range [i <= end] within the rows of both,
    it returns the rows [i, end) of [X] and the rows [i, end) of [y] as two
    new well-formed matrices with the columns of [X] and of [y]. *)
Theorem Fit_batch_rows (X y : Matrix.t) (i end_ : Z) :
  Matrix.wf X = true -> Matrix.wf y = true ->
  0 <= i <= end_ -> end_ <= Matrix.Rows X -> end_ <= Matrix.Rows y ->
  Matrix.Rows X < 2 ^ 63 -> Matrix.Rows y < 2 ^ 63 ->
  Sequential.batch X y i end_ = Ok (rows_of X i end_, rows_of y i end_)
  /\ Matrix.wf (rows_of X i end_) = true
  /\ Matrix.wf (rows_of y i end_) = true
  /\ forall r c, 0 <= r < end_ - i ->
       Matrix.get (Matrix.Data (rows_of X i end_)) r c
       = Matrix.get (Matrix.Data X) (i + r) c
       /\ Matrix.get (Matrix.Data (rows_of y i end_)) r c
          = Matrix.get (Matrix.Data y) (i + r) c.
Proof.
  change (2 ^ 63) with 9223372036854775808.
  intros HX Hy Hie HeX Hey HmaxX Hmaxy.
  split; [now apply batch_rows|].
  split; [now apply rows_of_wf|]. split; [now apply rows_of_wf|].
  intros r c Hr. split; apply rows_of_get; lia.
Qed.

(** X29. [Fit] with a batch size of at least 1 ends, and is [TrainOnBatch]
    batch after batch.  For well-formed [X] and [y], [y] with at least the
    rows of [X] (sizes below [2^62]): each epoch calls [TrainOnBatch] on
    the rows [0, batchSize), [batchSize, 2 * batchSize), ... of [X] and
    [y], the last batch ending with the rows of [X], so on
    [ceil(X.Rows / batchSize)] batches, each of 1 to [batchSize] rows; the
    model one call leaves is the model of the next; the first call that
    fails ends [Fit] with its error; after an epoch the sum of the losses
    divided by the number of batches is printed if [verbose]. *)
Theorem Fit_batches (fuel : nat) (s : Sequential.t) (X y : Matrix.t)
    (epochs batchSize : Z) (verbose : bool) :
  Matrix.wf X = true -> Matrix.wf y = true ->
  Matrix.Rows X <= Matrix.Rows y ->
  1 <= batchSize < 2 ^ 62 ->
  Matrix.Rows X < 2 ^ 62 -> Matrix.Rows y < 2 ^ 63 -> epochs < 2 ^ 63 ->
  let batches := epoch_batches X y batchSize in
  (length batches <= fuel)%nat ->
  Sequential.Fit fuel s X y epochs batchSize verbose
  = Some (fit_on batches epochs verbose (Z.to_nat epochs) 0 s [])
  /\ Z.of_nat (length batches)
     = (Matrix.Rows X + batchSize - 1) `div` batchSize
  /\ forall batchX batchY, (batchX, batchY) ∈ batches ->
       Matrix.wf batchX = true /\ Matrix.wf batchY = true
       /\ Matrix.Rows batchX = Matrix.Rows batchY
       /\ 1 <= Matrix.Rows batchX <= batchSize
       /\ Matrix.Cols batchX = Matrix.Cols X
       /\ Matrix.Cols batchY = Matrix.Cols y.
Proof.
  change (2 ^ 62) with 4611686018427387904.
  change (2 ^ 63) with 9223372036854775808.
  intros HX Hy Hrows Hb HmaxX Hmaxy Hepochs batches Hfuel.
  pose proof HX as (HR & _)%wf_shaped.
  destruct (batch_count_spec (Matrix.Rows X) batchSize HR (proj1 Hb))
    as (Hcount & _).
  assert (Hlen : length batches
                 = Z.to_nat ((Matrix.Rows X + batchSize - 1) `div` batchSize)).
  { subst batches. unfold epoch_batches, upto.
    now rewrite !length_fmap, length_seq. }
  split; [|split].
  - unfold Sequential.Fit.
    apply train_epochs_on; (done || lia).
  - lia.
  - intros bx by_ Hin. now apply (epoch_batches_shapes X y batchSize).
Qed.

Lemma train_batches_zero (X y : Matrix.t) (fuel : nat) :
  1 <= Matrix.Rows X ->
  forall s totalLoss numBatches s' r,
  Sequential.train_batches fuel X y 0 0 s totalLoss numBatches = Some (s', r) ->
  forall v, r <> Ok v.
Proof.
  intros HR. induction fuel as [|fuel IH]; intros s tl nb s' r E v;
    rewrite train_batches_eq in E;
    destruct (Z.ltb_spec 0 (Matrix.Rows X)); try lia; cbn [negb] in E;
    [done|].
  change (wrap64 (0 + 0)) with 0 in E. cbv zeta in E.
  destruct (Sequential.batch X y 0 _) as [[bx by_]|msg|];
    [|now injection E as <- <-..].
  destruct (Sequential.TrainOnBatch s bx by_) as [s1 [loss|msg|]];
    [|now injection E as <- <-..].
  now apply (IH _ _ _ _ _ E).
Qed.

(** X30. [Fit] does not guard its batch size.  With [batchSize = 0], at
    least one epoch and at least one row in [X], the loop over the batches
    never advances: [Fit] cannot return [nil], whatever the model, and on
    a compiled model without layers that takes the loss of an empty batch
    (the mean squared error of no rows) it does not return at all.  With a
    negative [batchSize] it panics on the first batch, in [NewMatrix], before
    the model is touched. *)
Theorem Fit_batch_size_not_positive (s : Sequential.t) (X y : Matrix.t)
    (epochs : Z) (verbose : bool) :
  1 <= epochs -> 1 <= Matrix.Rows X ->
  (forall fuel s' out,
     Sequential.Fit fuel s X y epochs 0 verbose <> Some (s', out, Ok ()))
  /\ (forall mse,
        Sequential.Layers s = [] ->
        Sequential.Loss s = Some (Loss.OfMSE mse) ->
        Matrix.wf X = true -> Matrix.wf y = true ->
        Matrix.Cols X = Matrix.Cols y ->
        Matrix.Rows X < 2 ^ 63 -> Matrix.Rows y < 2 ^ 63 ->
        forall fuel, Sequential.Fit fuel s X y epochs 0 verbose = None)
  /\ (forall fuel batchSize,
        - 2 ^ 63 <= batchSize < 0 ->
        Sequential.Fit (S fuel) s X y epochs batchSize verbose
        = Some (s, [], Panic)).
Proof.
  change (2 ^ 63) with 9223372036854775808.
  intros He HR. unfold Sequential.Fit.
  destruct (Z.to_nat epochs) as [|n] eqn:En; [lia|].
  cbn [Sequential.train_epochs]. split; [|split].
  - intros fuel s' out E.
    destruct (Sequential.train_batches fuel X y 0 0 s 0%float 0)
      as [[s1 r]|] eqn:Eb; [|done].
    pose proof (train_batches_zero X y fuel HR _ _ _ _ _ Eb) as Hr.
    destruct r as [[tl nb]|msg|]; [by destruct (Hr (tl, nb))|..];
      now injection E.
  - intros mse Hlayers Hloss HX Hy Hcols HmaxX Hmaxy fuel.
    assert (Hdiv : forall tl nb,
              Sequential.train_batches fuel X y 0 0 s tl nb = None);
      [|now rewrite Hdiv].
    pose proof HX as (_ & HCX & _)%wf_shaped.
    pose proof Hy as (HRy & HCy & _)%wf_shaped.
    induction fuel as [|fuel IH]; intros tl nb; rewrite train_batches_eq;
      destruct (Z.ltb_spec 0 (Matrix.Rows X)); try lia; cbn [negb]; [done|].
    change (wrap64 (0 + 0)) with 0. cbv zeta.
    destruct (Z.ltb_spec (Matrix.Rows X) 0); [lia|].
    rewrite (batch_rows X y 0 0) by (done || lia).
    assert (Etrain : exists loss,
              Sequential.TrainOnBatch s (rows_of X 0 0) (rows_of y 0 0)
              = (s, Ok loss)).
    { unfold Sequential.TrainOnBatch.
      rewrite (Forward_no_layers s _ Hlayers).
      unfold Sequential.loss_of. rewrite Hloss, !bind_Ok.
      cbn [Loss.Forward Loss.Backward].
      assert (Hbx : Matrix.wf (rows_of X 0 0) = true)
        by (apply rows_of_wf; (done || lia)).
      assert (Hby : Matrix.wf (rows_of y 0 0) = true)
        by (apply rows_of_wf; (done || lia)).
      assert (Hs : Matrix.same_shape (rows_of X 0 0) (rows_of y 0 0) = true).
      { apply same_shape_eq. cbn. done. }
      destruct (MSE_Forward_Ok mse _ _ Hbx Hby Hs) as [loss El].
      destruct (MSE_Backward_cells mse _ _ Hbx Hby Hs) as (G & EG & _).
      rewrite El, EG. unfold Sequential.Backward, Sequential.UpdateWeights.
      rewrite Hlayers. cbn. exists loss.
      destruct s as [layers l o calls]. cbn in *. now subst layers. }
    destruct Etrain as [loss ->]. apply IH.
  - intros fuel batchSize Hb. rewrite train_batches_eq.
    destruct (Z.ltb_spec 0 (Matrix.Rows X)); [|lia]. cbn [negb].
    rewrite Z.add_0_l, wrap64_small by lia. cbv zeta.
    destruct (Z.ltb_spec (Matrix.Rows X) batchSize); [lia|].
    unfold Sequential.batch. rewrite Z.sub_0_r, wrap64_small by lia.
    now rewrite (NewMatrix_negative_rows batchSize (Matrix.Cols X)) by lia.
Qed.

End FitTheorems.

(** Bounds on the sizes of an example. *)
Ltac closed_bound :=
  first [ lia
        | reflexivity
        | vm_compute; discriminate
        | vm_compute; lia
        | split; closed_bound ].

Lemma Fit_batch_rows_witness :
  Matrix.wf Examples.A22 = true /\ Matrix.wf Examples.B21 = true
  /\ @Sequential.batch Examples.A22 Examples.B21 1 2
     = Ok (Matrix.mk 1 2 [[3; 4]]%float, Matrix.mk 1 1 [[6%float]]).
Proof.
  split; [reflexivity|]. split; [reflexivity|].
  refine (proj1 (Fit_batch_rows Examples.A22 Examples.B21 1 2
                   eq_refl eq_refl _ _ _ _ _)); closed_bound.
Defined.

Lemma Fit_batches_witness :
  Matrix.wf Examples.A22 = true /\ Matrix.wf Examples.B21 = true
  /\ epoch_batches Examples.A22 Examples.B21 1
     = [(Matrix.mk 1 2 [[1; 2]]%float, Matrix.mk 1 1 [[5%float]]);
        (Matrix.mk 1 2 [[3; 4]]%float, Matrix.mk 1 1 [[6%float]])]
  /\ @Sequential.Fit example_math 2 Examples.model_sgd Examples.A22
       Examples.B21 3 1 true
     = Some (@fit_on example_math
               (epoch_batches Examples.A22 Examples.B21 1) 3 true 3 0
               Examples.model_sgd []).
Proof.
  split; [reflexivity|]. split; [reflexivity|]. split; [reflexivity|].
  refine (proj1 (@Fit_batches example_math 2 Examples.model_sgd Examples.A22
                   Examples.B21 3 1 true eq_refl eq_refl _ _ _ _ _ _));
    closed_bound.
Defined.

Lemma Fit_batch_size_not_positive_witness :
  @Sequential.Fit example_math 3
    (Sequential.mk [] (Some (Loss.OfMSE MSE.mk)) None [])
    Examples.A22 Examples.A22 1 0 false = None
  /\ @Sequential.Fit example_math 3
       (Sequential.mk [] (Some (Loss.OfMSE MSE.mk)) None [])
       Examples.A22 Examples.A22 1 (-1) false
     = Some (Sequential.mk [] (Some (Loss.OfMSE MSE.mk)) None [], [], Panic).
Proof.
  assert (H1 : 1 <= 1) by lia.
  assert (H2 : 1 <= Matrix.Rows Examples.A22) by (cbn; lia).
  destruct (@Fit_batch_size_not_positive example_math
              (Sequential.mk [] (Some (Loss.OfMSE MSE.mk)) None [])
              Examples.A22 Examples.A22 1 false H1 H2) as (_ & Hloop & Hneg).
  split.
  - apply (Hloop MSE.mk); closed_bound.
  - apply (Hneg 2%nat (-1)). closed_bound.
Defined.

(** * Rounding of [float64] operations, over the reals *)

(** ** Powers of two *)

Section Pow2.
Import Reals Lra.
Local Open Scope R_scope.

Lemma pow2_pos (e : Z) : 0 < pow2 e.
Proof. apply powerRZ_lt. lra. Qed.

Lemma pow2_add (a b : Z) : pow2 (a + b) = pow2 a * pow2 b.
Proof. apply powerRZ_add. lra. Qed.

Lemma pow2_0 : pow2 0 = 1.
Proof. reflexivity. Qed.

Lemma pow2_1 : pow2 1 = 2.
Proof. exact (powerRZ_1 2). Qed.

Lemma pow2_succ (e : Z) : pow2 (e + 1) = 2 * pow2 e.
Proof. rewrite pow2_add, pow2_1. lra. Qed.

Lemma pow2_pred (e : Z) : pow2 (e - 1) = pow2 e / 2.
Proof.
  replace e with (e - 1 + 1)%Z at 2 by lia. rewrite pow2_succ. lra.
Qed.

Lemma pow2_IZR (k : Z) : (0 <= k)%Z -> pow2 k = IZR (2 ^ k).
Proof.
  intros Hk. unfold pow2. destruct k as [|p|p]; [reflexivity| |lia].
  now rewrite <- Zpower_pos_powerRZ.
Qed.

Lemma pow2_ge_1 (k : Z) : (0 <= k)%Z -> 1 <= pow2 k.
Proof.
  intros Hk. rewrite pow2_IZR by done. apply IZR_le.
  pose proof (Z.pow_pos_nonneg 2 k). lia.
Qed.

Lemma pow2_le (a b : Z) : (a <= b)%Z -> pow2 a <= pow2 b.
Proof.
  intros Hab. replace b with (a + (b - a))%Z by lia. rewrite pow2_add.
  pose proof (pow2_pos a). pose proof (pow2_ge_1 (b - a) ltac:(lia)). nra.
Qed.

Lemma pow2_lt (a b : Z) : (a < b)%Z -> pow2 a < pow2 b.
Proof.
  intros Hab. replace b with (a + 1 + (b - a - 1))%Z by lia.
  rewrite pow2_add, pow2_succ.
  pose proof (pow2_pos a). pose proof (pow2_ge_1 (b - a - 1) ltac:(lia)). nra.
Qed.

Lemma pow2_neg (a : Z) : pow2 (- a) = / pow2 a.
Proof. apply powerRZ_neg'. Qed.

Lemma pow2_sub (a b : Z) : pow2 (a - b) = pow2 a / pow2 b.
Proof.
  replace (a - b)%Z with (a + - b)%Z by lia.
  now rewrite pow2_add, pow2_neg.
Qed.

End Pow2.

(** ** Binary digits *)

Lemma digits2_pos_bounds (m : positive) :
  2 ^ (Z.pos (digits2_pos m) - 1) <= Z.pos m < 2 ^ Z.pos (digits2_pos m).
Proof.
  induction m as [m IH|m IH|]; cbn [digits2_pos].
  - rewrite Pos2Z.inj_succ.
    replace (Z.succ (Z.pos (digits2_pos m)) - 1) with (Z.pos (digits2_pos m) - 1 + 1) by lia.
    rewrite Z.pow_succ_r by lia. rewrite Z.pow_add_r by lia. lia.
  - rewrite Pos2Z.inj_succ.
    replace (Z.succ (Z.pos (digits2_pos m)) - 1) with (Z.pos (digits2_pos m) - 1 + 1) by lia.
    rewrite Z.pow_succ_r by lia. rewrite Z.pow_add_r by lia. lia.
  - cbn. lia.
Qed.

Lemma Zdigits2_bounds (m : Z) :
  0 < m -> 2 ^ (Zdigits2 m - 1) <= m < 2 ^ Zdigits2 m.
Proof.
  destruct m as [|p|p]; [lia| |lia]. intros _. apply digits2_pos_bounds.
Qed.

Lemma Zdigits2_nonneg (m : Z) : 0 <= Zdigits2 m.
Proof. destruct m; cbn; lia. Qed.

Lemma Zdigits2_upper (m : Z) : 0 <= m -> m < 2 ^ Zdigits2 m.
Proof.
  intros Hm. destruct (Z.eq_dec m 0) as [->|Hne]; [cbn; lia|].
  apply Zdigits2_bounds. lia.
Qed.

(** If [m < 2^k] then [m] has at most [k] digits. *)
Lemma Zdigits2_le (m k : Z) : 0 <= m -> 0 <= k -> m < 2 ^ k -> Zdigits2 m <= k.
Proof.
  intros Hm Hk Hlt. destruct (Z.eq_dec m 0) as [->|Hne]; [cbn; lia|].
  pose proof (Zdigits2_bounds m ltac:(lia)) as [Hlo _].
  destruct (Z.le_gt_cases (Zdigits2 m) k) as [|Hgt]; [done|].
  assert (2 ^ k <= 2 ^ (Zdigits2 m - 1)) by (apply Z.pow_le_mono_r; lia).
  lia.
Qed.

Lemma Zdigits2_ge (m k : Z) : 0 <= k -> 2 ^ k <= m -> k + 1 <= Zdigits2 m.
Proof.
  intros Hk Hle.
  assert (0 < m) by (pose proof (Z.pow_pos_nonneg 2 k); lia).
  pose proof (Zdigits2_bounds m ltac:(lia)) as [_ Hhi].
  pose proof (Zdigits2_nonneg m).
  destruct (Z.le_gt_cases (k + 1) (Zdigits2 m)) as [|Hgt]; [done|].
  assert (2 ^ Zdigits2 m <= 2 ^ k) by (apply Z.pow_le_mono_r; lia).
  lia.
Qed.

(** ** Shifting a mantissa to the right *)

Section Shift.
Import Reals Lra.
Local Open Scope R_scope.

Lemma IZR_xO (p : positive) : IZR (Z.pos p~0) = 2 * IZR (Z.pos p).
Proof. rewrite Pos2Z.inj_xO, mult_IZR. lra. Qed.

Lemma IZR_xI (p : positive) : IZR (Z.pos p~1) = 2 * IZR (Z.pos p) + 1.
Proof. rewrite Pos2Z.inj_xI, plus_IZR, mult_IZR. lra. Qed.

(** One shift to the right halves the real that the record locates. *)
Lemma shr_1_located (mrs : shr_record) (t : R) :
  (0 <= shr_m mrs)%Z -> located mrs t ->
  located (shr_1 mrs) (t / 2) /\ (0 <= shr_m (shr_1 mrs))%Z.
Proof.
  destruct mrs as [m r s]. unfold located. cbn [shr_m shr_r shr_s].
  intros Hm (Hb & Hr & Hs).
  destruct m as [|[p|p|]|p]; [| | | |lia]; cbn [shr_1 shr_m shr_r shr_s];
    try rewrite (IZR_xO p) in *; try rewrite (IZR_xI p) in *;
    (split; [|lia]).
  - (* m = 0 *)
    split; [lra|]. split.
    + split; [discriminate|]. intros. lra.
    + rewrite orb_true_iff, Hr, Hs. split.
      * intros [?|[? ?]]; split; lra.
      * intros [? ?]. destruct (Rle_dec (0 + / 2) t); [now left|].
        right. split; [lra|]. lra.
  - (* 2p+1 *)
    split; [lra|]. split.
    + split; [intros _; lra|done].
    + rewrite orb_true_iff, Hr, Hs. split.
      * intros [?|[? ?]]; split; lra.
      * intros [? ?].
        destruct (Rle_dec (2 * IZR (Z.pos p) + 1 + / 2) t); [now left|].
        right. split; lra.
  - (* 2p *)
    split; [lra|]. split.
    + split; [discriminate|]. intros. lra.
    + rewrite orb_true_iff, Hr, Hs. split.
      * intros [?|[? ?]]; split; lra.
      * intros [? ?].
        destruct (Rle_dec (2 * IZR (Z.pos p) + / 2) t); [now left|].
        right. split; lra.
  - (* 1 *)
    split; [lra|]. split.
    + split; [intros _; lra|done].
    + rewrite orb_true_iff, Hr, Hs. split.
      * intros [?|[? ?]]; split; lra.
      * intros [? ?].
        destruct (Rle_dec (1 + / 2) t); [now left|].
        right. split; lra.
Qed.

Lemma iter_shr_1_located (p : positive) :
  forall (mrs : shr_record) (t : R),
  (0 <= shr_m mrs)%Z -> located mrs t ->
  located (SpecFloat.iter_pos shr_1 p mrs) (t / pow2 (Z.pos p))
  /\ (0 <= shr_m (SpecFloat.iter_pos shr_1 p mrs))%Z.
Proof.
  induction p as [p IH|p IH|]; intros mrs t Hm Hl; cbn [SpecFloat.iter_pos].
  - destruct (shr_1_located mrs t Hm Hl) as [H1 Hm1].
    destruct (IH _ _ Hm1 H1) as [H2 Hm2].
    destruct (IH _ _ Hm2 H2) as [H3 Hm3].
    split; [|done].
    replace (t / pow2 (Z.pos p~1)) with (t / 2 / pow2 (Z.pos p) / pow2 (Z.pos p));
      [done|].
    rewrite Pos2Z.inj_xI.
    replace (2 * Z.pos p + 1)%Z with (Z.pos p + Z.pos p + 1)%Z by lia.
    rewrite pow2_succ, pow2_add.
    pose proof (pow2_pos (Z.pos p)). field. lra.
  - destruct (IH _ _ Hm Hl) as [H2 Hm2].
    destruct (IH _ _ Hm2 H2) as [H3 Hm3].
    split; [|done].
    replace (t / pow2 (Z.pos p~0)) with (t / pow2 (Z.pos p) / pow2 (Z.pos p));
      [done|].
    rewrite Pos2Z.inj_xO.
    replace (2 * Z.pos p)%Z with (Z.pos p + Z.pos p)%Z by lia.
    rewrite pow2_add.
    pose proof (pow2_pos (Z.pos p)). field. lra.
  - rewrite pow2_1. now apply shr_1_located.
Qed.

(** [shr] by [n] bits, [n] not negative. *)
Lemma shr_located (mrs : shr_record) (e n : Z) (t : R) :
  (0 <= shr_m mrs)%Z -> (0 <= n)%Z -> located mrs t ->
  located (shr mrs e n).1 (t / pow2 n)
  /\ (0 <= shr_m (shr mrs e n).1)%Z
  /\ (shr mrs e n).2 = (e + n)%Z.
Proof.
  intros Hm Hn Hl. destruct n as [|p|p]; [| |lia]; cbn [shr fst snd].
  - rewrite pow2_0, Z.add_0_r. split; [|done].
    now replace (t / 1) with t by lra.
  - destruct (iter_shr_1_located p mrs t Hm Hl) as [H1 H2]. done.
Qed.

End Shift.

(** ** Rounding to nearest-even *)

Lemma fexp_ge_emin (e : Z) : -1074 <= fexp FloatOps.prec FloatOps.emax e.
Proof. unfold fexp, SpecFloat.emin, FloatOps.prec, FloatOps.emax. lia. Qed.

Lemma fexp_ge (e : Z) : e - 53 <= fexp FloatOps.prec FloatOps.emax e.
Proof. unfold fexp, SpecFloat.emin, FloatOps.prec, FloatOps.emax. lia. Qed.

Lemma fexp_eq (e : Z) : fexp FloatOps.prec FloatOps.emax e = Z.max (e - 53) (-1074).
Proof. reflexivity. Qed.

Lemma shr_nonpos (mrs : shr_record) (e n : Z) : n <= 0 -> shr mrs e n = (mrs, e).
Proof. intros Hn. destruct n as [|p|p]; [done|lia|done]. Qed.

Section Rounding.
Import Reals Lra.
Local Open Scope R_scope.

(** The mantissa chosen by rounding to nearest-even is within a half of
    the real it rounds. *)
Lemma round_nearest_even_located (mrs : shr_record) (T : R) :
  (0 <= shr_m mrs)%Z -> located mrs T ->
  (0 <= round_nearest_even (shr_m mrs) (loc_of_shr_record mrs))%Z
  /\ IZR (round_nearest_even (shr_m mrs) (loc_of_shr_record mrs)) - / 2
     <= T
     <= IZR (round_nearest_even (shr_m mrs) (loc_of_shr_record mrs)) + / 2.
Proof.
  destruct mrs as [m r s]. unfold located. cbn [shr_m shr_r shr_s].
  intros Hm (Hb & Hr & Hs).
  destruct r, s; cbn [loc_of_shr_record round_nearest_even].
  - split; [lia|]. rewrite plus_IZR.
    assert (IZR m + / 2 <= T) by now apply Hr.
    lra.
  - assert (IZR m + / 2 <= T) by now apply Hr.
    assert (T = IZR m + / 2).
    { destruct (Req_dec T (IZR m + / 2)) as [|Hne]; [done|].
      assert (false = true); [|discriminate]. apply Hs. split; lra. }
    destruct (Z.even m); (split; [lia|]); rewrite ?plus_IZR; lra.
  - split; [lia|].
    assert (~ IZR m + / 2 <= T) by (intros ?%Hr; discriminate).
    lra.
  - split; [lia|].
    assert (~ IZR m + / 2 <= T) by (intros ?%Hr; discriminate).
    lra.
Qed.

Lemma located_of_loc_m (m : Z) (l : location) : shr_m (shr_record_of_loc m l) = m.
Proof. now destruct l as [|[]]. Qed.

Lemma loc_of_shr_record_Exact (m : Z) :
  shr_record_of_loc m loc_Exact = Build_shr_record m false false.
Proof. reflexivity. Qed.

(** What [binary_round_aux] returns for a mantissa that is not to be
    shifted to the left: the nearest multiple of [2^E] of the real it is
    given, [E] being the exponent of the format at that magnitude. *)
Lemma binary_round_aux_spec (s : bool) (mx ex : Z) (lx : location) (t : R) :
  (0 <= mx)%Z -> located (shr_record_of_loc mx lx) t ->
  let E := fexp FloatOps.prec FloatOps.emax (Zdigits2 mx + ex) in
  (ex <= E)%Z ->
  exists m : Z,
    (0 <= m <= 2 ^ 53)%Z
    /\ IZR m - / 2 <= t / pow2 (E - ex) <= IZR m + / 2
    /\ binary_round_aux FloatOps.prec FloatOps.emax s mx ex lx
       = if (m =? 0)%Z then S754_zero s
         else if (m <? 2 ^ 53)%Z then
           (if (E <=? FloatOps.emax - FloatOps.prec)%Z then S754_finite s (Z.to_pos m) E
            else S754_infinity s)
         else
           (if (E + 1 <=? FloatOps.emax - FloatOps.prec)%Z
            then S754_finite s (Z.to_pos (2 ^ 52)) (E + 1)
            else S754_infinity s).
Proof.
  intros Hmx Hl E HE.
  unfold binary_round_aux, shr_fexp. fold E.
  assert (Hm0 : (0 <= shr_m (shr_record_of_loc mx lx))%Z)
    by now rewrite located_of_loc_m.
  destruct (shr_located (shr_record_of_loc mx lx) ex (E - ex) t Hm0
              ltac:(lia) Hl) as (Hl1 & Hm1 & He1).
  destruct (shr (shr_record_of_loc mx lx) ex (E - ex)) as [mrs' e'] eqn:Eshr.
  cbn [fst snd] in Hl1, Hm1, He1.
  assert (e' = E) as -> by lia.
  set (T := t / pow2 (E - ex)) in *.
  destruct (round_nearest_even_located mrs' T Hm1 Hl1) as [Hpos Habs].
  set (m := round_nearest_even (shr_m mrs') (loc_of_shr_record mrs')) in *.
  (* the bound on the rounded mantissa *)
  assert (HT : T < IZR (2 ^ 53)).
  { destruct Hl as ((_ & Hlt) & _). rewrite located_of_loc_m in Hlt.
    pose proof (Zdigits2_upper mx Hmx) as Hd.
    pose proof (Zdigits2_nonneg mx) as Hd0.
    assert (t < pow2 (Zdigits2 mx)).
    { rewrite pow2_IZR by done.
      apply Rlt_le_trans with (IZR mx + 1); [done|].
      rewrite <- plus_IZR. apply IZR_le. lia. }
    pose proof (fexp_ge (Zdigits2 mx + ex)) as HgeE. fold E in HgeE.
    assert (pow2 (Zdigits2 mx) <= pow2 (53 + (E - ex)))
      by (apply pow2_le; lia).
    rewrite pow2_add in *. rewrite <- (pow2_IZR 53) by lia.
    pose proof (pow2_pos (E - ex)). pose proof (pow2_pos 53).
    unfold T. apply Rmult_lt_reg_r with (pow2 (E - ex)); [done|].
    replace (t / pow2 (E - ex) * pow2 (E - ex)) with t by (field; lra).
    lra. }
  assert (Hm53 : (m <= 2 ^ 53)%Z).
  { assert (IZR m < IZR (2 ^ 53 + 1)) by (rewrite plus_IZR; lra).
    apply lt_IZR in H. lia. }
  exists m. split; [lia|]. split; [exact Habs|].
  pose proof (fexp_ge_emin (Zdigits2 mx + ex)) as Hemin. fold E in Hemin.
  destruct (Z.eqb_spec m 0) as [Hz|Hnz].
  - rewrite Hz. cbn [Zdigits2 Z.add].
    rewrite shr_nonpos by (rewrite fexp_eq; lia). reflexivity.
  - destruct (Z.ltb_spec m (2 ^ 53)) as [Hlt|Hge].
    + assert (Zdigits2 m <= 53)%Z by (apply Zdigits2_le; lia).
      rewrite shr_nonpos by (rewrite fexp_eq; lia).
      rewrite loc_of_shr_record_Exact. cbn [shr_m].
      destruct m as [|p|p]; [lia| |lia]. reflexivity.
    + assert (m = 2 ^ 53)%Z as -> by lia.
      change (Zdigits2 (2 ^ 53)) with 54%Z.
      replace (fexp FloatOps.prec FloatOps.emax (54 + E) - E)%Z with 1%Z
        by (rewrite fexp_eq; lia).
      reflexivity.
Qed.

End Rounding.

(** ** The numbers of the format and their order *)

(** The mantissa and exponent of a number of the format. *)
Lemma bounded_inv (m : positive) (e : Z) :
  SpecFloat.bounded FloatOps.prec FloatOps.emax m e = true ->
  Z.pos (digits2_pos m) <= 53 /\ -1074 <= e <= 971
  /\ (Z.pos (digits2_pos m) = 53 \/ e = -1074).
Proof.
  unfold SpecFloat.bounded, canonical_mantissa. rewrite andb_true_iff, fexp_eq.
  intros [Hc He]. apply Z.eqb_eq in Hc. apply Z.leb_le in He.
  change (FloatOps.emax - FloatOps.prec) with 971 in He. lia.
Qed.

Lemma bounded_mantissa (m : positive) (e : Z) :
  SpecFloat.bounded FloatOps.prec FloatOps.emax m e = true -> Z.pos m < 2 ^ 53.
Proof.
  intros (Hd & _ & _)%bounded_inv.
  pose proof (digits2_pos_bounds m) as [_ Hhi].
  assert (2 ^ Z.pos (digits2_pos m) <= 2 ^ 53) by (apply Z.pow_le_mono_r; lia).
  lia.
Qed.

Lemma bounded_normal (m : positive) (e : Z) :
  SpecFloat.bounded FloatOps.prec FloatOps.emax m e = true -> -1074 < e -> 2 ^ 52 <= Z.pos m.
Proof.
  intros (Hd & He & Hc)%bounded_inv Hlt.
  pose proof (digits2_pos_bounds m) as [Hlo _].
  destruct Hc as [Hc|Hc]; [|lia]. rewrite Hc in Hlo. exact Hlo.
Qed.

Section Order.
Import Reals Lra.
Local Open Scope R_scope.

Lemma canonical_lt (m1 m2 : positive) (e1 e2 : Z) :
  SpecFloat.bounded FloatOps.prec FloatOps.emax m1 e1 = true -> SpecFloat.bounded FloatOps.prec FloatOps.emax m2 e2 = true ->
  (e1 < e2)%Z ->
  IZR (Z.pos m1) * pow2 e1 < IZR (Z.pos m2) * pow2 e2.
Proof.
  intros H1 H2 Hlt.
  pose proof (bounded_mantissa m1 e1 H1) as Hm1.
  pose proof (bounded_inv m1 e1 H1) as (_ & He1 & _).
  pose proof (bounded_normal m2 e2 H2 ltac:(lia)) as Hm2.
  apply IZR_lt in Hm1. apply IZR_le in Hm2.
  rewrite <- pow2_IZR in Hm1, Hm2 by lia.
  assert (pow2 (53 + e1) <= pow2 (52 + e2)) by (apply pow2_le; lia).
  rewrite !pow2_add in H.
  pose proof (pow2_pos e1). pose proof (pow2_pos e2).
  pose proof (pow2_pos 52). pose proof (pow2_pos 53).
  nra.
Qed.

Lemma Pos_compare_IZR (m1 m2 : positive) :
  match Pos.compare m1 m2 with
  | Lt => IZR (Z.pos m1) < IZR (Z.pos m2)
  | Eq => IZR (Z.pos m1) = IZR (Z.pos m2)
  | Gt => IZR (Z.pos m1) > IZR (Z.pos m2)
  end.
Proof.
  destruct (Pos.compare_spec m1 m2) as [->|H|H]; [done| |].
  - apply IZR_lt. lia.
  - apply Rlt_gt, IZR_lt. lia.
Qed.

(** The order of two positive numbers of the format. *)
Lemma compare_pos (m1 m2 : positive) (e1 e2 : Z) :
  SpecFloat.bounded FloatOps.prec FloatOps.emax m1 e1 = true -> SpecFloat.bounded FloatOps.prec FloatOps.emax m2 e2 = true ->
  match (match Z.compare e1 e2 with
         | Lt => Lt
         | Gt => Gt
         | Eq => Pos.compare_cont Eq m1 m2
         end) with
  | Lt => IZR (Z.pos m1) * pow2 e1 < IZR (Z.pos m2) * pow2 e2
  | Eq => IZR (Z.pos m1) * pow2 e1 = IZR (Z.pos m2) * pow2 e2
  | Gt => IZR (Z.pos m1) * pow2 e1 > IZR (Z.pos m2) * pow2 e2
  end.
Proof.
  intros H1 H2. destruct (Z.compare_spec e1 e2) as [->|Hlt|Hgt].
  - change (Pos.compare_cont Eq m1 m2) with (Pos.compare m1 m2).
    pose proof (Pos_compare_IZR m1 m2) as Hc. pose proof (pow2_pos e2).
    destruct (Pos.compare m1 m2); [now rewrite Hc|nra|nra].
  - now apply canonical_lt.
  - apply Rlt_gt. now apply canonical_lt.
Qed.

Lemma SF2R_pos (m : positive) (e : Z) : 0 < SF2R (S754_finite false m e).
Proof.
  cbn [SF2R cond_Zopp]. pose proof (pow2_pos e).
  assert (0 < IZR (Z.pos m)) by (apply IZR_lt; lia). nra.
Qed.

Lemma SF2R_neg (m : positive) (e : Z) : SF2R (S754_finite true m e) < 0.
Proof.
  cbn [SF2R cond_Zopp]. pose proof (pow2_pos e).
  assert (IZR (- Z.pos m) < 0) by (apply IZR_lt; lia). nra.
Qed.

(** On the finite numbers of the format, [SFcompare] is the order of the
    reals. *)
Lemma SFcompare_finite (x y : spec_float) :
  valid_binary x = true -> valid_binary y = true ->
  sf_finite x = true -> sf_finite y = true ->
  match SFcompare x y with
  | Some Lt => SF2R x < SF2R y
  | Some Eq => SF2R x = SF2R y
  | Some Gt => SF2R x > SF2R y
  | None => False
  end.
Proof.
  intros Hx Hy Fx Fy.
  destruct x as [sx|sx| |sx mx ex], y as [sy|sy| |sy my ey];
    try discriminate; cbn [SFcompare].
  - reflexivity.
  - destruct sy; [apply Rlt_gt, SF2R_neg|apply SF2R_pos].
  - destruct sx; [apply SF2R_neg|apply Rlt_gt, SF2R_pos].
  - cbn [valid_binary] in Hx, Hy.
    destruct sx, sy.
    + (* both negative *)
      pose proof (compare_pos mx my ex ey Hx Hy) as Hc.
      cbn [SF2R cond_Zopp]. rewrite !opp_IZR.
      destruct (ex ?= ey)%Z; [|lra|lra].
      destruct (Pos.compare_cont Eq mx my); cbn [CompOpp]; lra.
    + pose proof (SF2R_neg mx ex). pose proof (SF2R_pos my ey). lra.
    + pose proof (SF2R_pos mx ex). pose proof (SF2R_neg my ey). lra.
    + exact (compare_pos mx my ex ey Hx Hy).
Qed.

Lemma SFleb_finite (x y : spec_float) :
  valid_binary x = true -> valid_binary y = true ->
  sf_finite x = true -> sf_finite y = true ->
  SFleb x y = true <-> SF2R x <= SF2R y.
Proof.
  intros Hx Hy Fx Fy. pose proof (SFcompare_finite x y Hx Hy Fx Fy) as Hc.
  unfold SFleb. destruct (SFcompare x y) as [[]|]; [| | |done];
    (split; [intros ?; lra|intros ?; first [done|lra]]).
Qed.

Lemma SFltb_finite (x y : spec_float) :
  valid_binary x = true -> valid_binary y = true ->
  sf_finite x = true -> sf_finite y = true ->
  SFltb x y = true <-> SF2R x < SF2R y.
Proof.
  intros Hx Hy Fx Fy. pose proof (SFcompare_finite x y Hx Hy Fx Fy) as Hc.
  unfold SFltb. destruct (SFcompare x y) as [[]|]; [| | |done];
    (split; [intros ?; first [done|lra]|intros ?; first [done|lra]]).
Qed.

End Order.

(** ** Roundings *)

Section Rounds.
Import Reals Lra.
Local Open Scope R_scope.

Lemma located_bounds (mx : Z) (lx : location) (t : R) :
  located (shr_record_of_loc mx lx) t -> IZR mx <= t < IZR mx + 1.
Proof. intros (Hb & _). now rewrite located_of_loc_m in Hb. Qed.

(** [binary_round_aux], on a mantissa that needs no shift to the left, is
    a rounding of the real that the mantissa and its location stand
    for. *)
Lemma binary_round_aux_rounds (s : bool) (mx ex : Z) (lx : location) (t : R) :
  (0 <= mx)%Z -> located (shr_record_of_loc mx lx) t ->
  (ex <= fexp FloatOps.prec FloatOps.emax (Zdigits2 mx + ex))%Z ->
  rounds (t * pow2 ex) s (binary_round_aux FloatOps.prec FloatOps.emax s mx ex lx).
Proof.
  intros Hmx Hl HE.
  destruct (binary_round_aux_spec s mx ex lx t Hmx Hl HE)
    as (m & Hm & Hnear & Hres).
  set (E := fexp FloatOps.prec FloatOps.emax (Zdigits2 mx + ex)) in *.
  pose proof (located_bounds mx lx t Hl) as [Hlo Hhi].
  pose proof (fexp_ge_emin (Zdigits2 mx + ex)) as Hemin. fold E in Hemin.
  pose proof (fexp_ge (Zdigits2 mx + ex)) as Hge. fold E in Hge.
  pose proof (pow2_pos ex) as Hpex. pose proof (pow2_pos E) as HpE.
  pose proof (Zdigits2_nonneg mx) as Hd0.
  exists E, m. split; [done|]. split; [done|].
  assert (0 <= IZR mx) by (apply IZR_le; lia).
  split; [nra|]. split.
  { replace (t * pow2 ex / pow2 E) with (t / pow2 (E - ex)); [done|].
    rewrite pow2_sub. field. lra. }
  split; [|split; [|exact Hres]].
  - destruct (Z.eq_dec E (-1074)) as [|Hne]; [now left|right].
    assert (HEeq : E = (Zdigits2 mx + ex - 53)%Z)
      by (unfold E in *; rewrite fexp_eq in *; lia).
    assert (Hpos : (0 < mx)%Z).
    { destruct (Z.eq_dec mx 0) as [->|]; [|lia]. cbn in HEeq. lia. }
    pose proof (Zdigits2_bounds mx Hpos) as [Hdlo _].
    apply IZR_le in Hdlo. rewrite <- pow2_IZR in Hdlo by lia.
    replace (E + 52)%Z with (Zdigits2 mx - 1 + ex)%Z by lia.
    rewrite pow2_add. nra.
  - pose proof (Zdigits2_upper mx Hmx) as Hdhi.
    assert (Ha : IZR mx + 1 <= pow2 (Zdigits2 mx)).
    { rewrite pow2_IZR by done. rewrite <- plus_IZR. apply IZR_le. lia. }
    assert (Hb : pow2 (Zdigits2 mx + ex) <= pow2 (E + 53))
      by (apply pow2_le; lia).
    rewrite pow2_add in Hb. nra.
Qed.

End Rounds.

(** ** Aligning a mantissa to the left *)

Lemma digits2_pos_iter_xO (d : positive) (m : positive) :
  Z.pos (digits2_pos (Pos.iter xO m d)) = Z.pos (digits2_pos m) + Z.pos d.
Proof.
  revert m. induction d as [|d IH] using Pos.peano_ind; intros m.
  - cbn. lia.
  - rewrite Pos.iter_succ. cbn [digits2_pos]. rewrite Pos2Z.inj_succ, IH. lia.
Qed.

Lemma Zpos_iter_xO (d : positive) (m : positive) :
  Z.pos (Pos.iter xO m d) = Z.pos m * 2 ^ Z.pos d.
Proof.
  revert m. induction d as [|d IH] using Pos.peano_ind; intros m.
  - cbn. lia.
  - rewrite Pos.iter_succ, Pos2Z.inj_xO, IH, Pos2Z.inj_succ, Z.pow_succ_r by lia.
    lia.
Qed.

Section Align.
Import Reals Lra.
Local Open Scope R_scope.

Lemma shl_align_value (m : positive) (e e' : Z) :
  IZR (Z.pos (shl_align m e e').1) * pow2 (shl_align m e e').2
  = IZR (Z.pos m) * pow2 e.
Proof.
  unfold shl_align. destruct (e' - e)%Z as [|d|d] eqn:Hd; [done|done|].
  cbn [fst snd]. rewrite Zpos_iter_xO, mult_IZR.
  rewrite <- pow2_IZR by lia.
  replace e with (Z.pos d + e')%Z by lia. rewrite pow2_add. lra.
Qed.

Lemma shl_align_le (m : positive) (e e' : Z) :
  (e' <= e)%Z ->
  shl_align m e e' = (Z.to_pos (Z.pos m * 2 ^ (e - e')), e').
Proof.
  intros Hle. unfold shl_align.
  destruct (e' - e)%Z as [|d|d] eqn:Hd; [|lia|].
  - assert (e = e') as -> by lia. rewrite Z.sub_diag. cbn. f_equal. lia.
  - f_equal. rewrite <- (Pos2Z.id (Pos.iter xO m d)), Zpos_iter_xO.
    f_equal. f_equal. f_equal. lia.
Qed.

(** [binary_round] is a rounding of the number it is given. *)
Lemma binary_round_rounds (s : bool) (m : positive) (e : Z) :
  rounds (IZR (Z.pos m) * pow2 e) s
    (binary_round FloatOps.prec FloatOps.emax s m e).
Proof.
  unfold binary_round.
  pose proof (shl_align_value m e
                (fexp FloatOps.prec FloatOps.emax (Z.pos (digits2_pos m) + e)))
    as Hv.
  destruct (shl_align m e
              (fexp FloatOps.prec FloatOps.emax (Z.pos (digits2_pos m) + e)))
    as [mz ez] eqn:Hal.
  cbn [fst snd] in Hv. rewrite <- Hv.
  apply binary_round_aux_rounds; [lia| |].
  - cbn [shr_record_of_loc located shr_m shr_r shr_s]. unfold located.
    cbn [shr_m shr_r shr_s]. split; [lra|]. split.
    + split; [discriminate|]. intros. lra.
    + split; [discriminate|]. intros [? _]. lra.
  - unfold shl_align in Hal.
    destruct (fexp FloatOps.prec FloatOps.emax (Z.pos (digits2_pos m) + e) - e)%Z
      as [|d|d] eqn:Hd; injection Hal as <- <-.
    + cbn [Zdigits2]. lia.
    + cbn [Zdigits2]. lia.
    + cbn [Zdigits2]. rewrite digits2_pos_iter_xO.
      replace (Z.pos (digits2_pos m) + Z.pos d
               + fexp FloatOps.prec FloatOps.emax (Z.pos (digits2_pos m) + e))%Z
        with (Z.pos (digits2_pos m) + e)%Z by lia.
      lia.
Qed.

End Align.

(** ** What a rounding is known to be *)

Lemma sf_nonneg_finite (x : spec_float) : sf_nonneg x = true -> sf_finite x = true.
Proof. now destruct x as [| | |[]]. Qed.

Section Packed.
Import Reals Lra.
Local Open Scope R_scope.

Lemma SF2R_nonneg (x : spec_float) : sf_nonneg x = true -> 0 <= SF2R x.
Proof.
  destruct x as [| | |[] m e]; try discriminate; intros _; cbn [SF2R]; [lra|].
  pose proof (SF2R_pos m e). cbn [SF2R] in H. lra.
Qed.

Lemma packed_cases (s : bool) (m E : Z) :
  (0 <= m <= 2 ^ 53)%Z ->
  (packed s m E = S754_infinity s
   /\ (971 < E \/ (m = 2 ^ 53 /\ E = 971))%Z)
  \/ (sf_finite (packed s m E) = true
      /\ SF2R (packed s m E) = IZR (cond_Zopp s m) * pow2 E
      /\ (s = false -> sf_nonneg (packed s m E) = true)
      /\ ((m < 2 ^ 53 /\ E <= 971) \/ (m = 2 ^ 53 /\ E <= 970) \/ m = 0)%Z).
Proof.
  intros Hm. unfold packed. change (FloatOps.emax - FloatOps.prec)%Z with 971%Z.
  destruct (Z.eqb_spec m 0) as [->|Hnz].
  { right. change ((0 =? 0)%Z) with true. cbn iota.
    split; [done|]. split; [|split; [done|lia]].
    destruct s; cbn [SF2R cond_Zopp]; change (- 0)%Z with 0%Z; lra. }
  destruct (Z.ltb_spec m (2 ^ 53)) as [Hlt|Hge].
  - destruct (Z.leb_spec E 971) as [HE|HE]; [right|left; split; [done|lia]].
    split; [done|]. split; [|split; [now intros ->|lia]].
    cbn [SF2R]. rewrite Z2Pos.id by lia. reflexivity.
  - assert (m = 2 ^ 53)%Z as -> by lia.
    destruct (Z.leb_spec (E + 1) 971) as [HE|HE]; [right|left; split; [done|lia]].
    split; [done|]. split; [|split; [now intros ->|lia]].
    cbn [SF2R]. rewrite Z2Pos.id by lia. rewrite pow2_succ.
    destruct s; cbn [cond_Zopp]; rewrite ?opp_IZR;
      change (2 ^ 53)%Z with (2 * 2 ^ 52)%Z; rewrite (mult_IZR 2); lra.
Qed.

Lemma pow2_lt_inv (a b : Z) : pow2 a < pow2 b -> (a < b)%Z.
Proof.
  intros Hlt. destruct (Z.lt_ge_cases a b) as [|Hge]; [done|].
  pose proof (pow2_le b a Hge). lra.
Qed.

Lemma pow2_le_inv (a b : Z) : pow2 a <= pow2 b -> (a <= b)%Z.
Proof.
  intros Hle. destruct (Z.le_gt_cases a b) as [|Hgt]; [done|].
  pose proof (pow2_lt b a Hgt). lra.
Qed.

(** A rounding never gives a NaN, and it has the sign it is given. *)
Lemma rounds_sign (X : R) (s : bool) (z : spec_float) :
  rounds X s z ->
  z = S754_infinity s \/ z = S754_zero s
  \/ exists m e, z = S754_finite s m e.
Proof.
  intros (E & m & _ & Hm & _ & _ & _ & _ & ->). unfold packed.
  repeat match goal with |- context [if ?b then _ else _] => destruct b end;
    eauto.
Qed.

(** It is finite below the largest power of two of the format. *)
Lemma rounds_finite (X : R) (s : bool) (z : spec_float) :
  rounds X s z -> X < pow2 1023 -> sf_finite z = true.
Proof.
  intros (E & m & HE & Hm & HX & Hnear & Hnorm & Hup & ->) Hlt.
  destruct (packed_cases s m E Hm) as [[_ Hov]|[Hf _]]; [|done].
  exfalso. destruct Hnorm as [->|Hnorm]; [lia|].
  assert (pow2 (E + 52) < pow2 1023) by lra.
  apply pow2_lt_inv in H. lia.
Qed.

(** The error of a rounding that is finite: half a unit in the last
    place. *)
Lemma rounds_error (X : R) (z : spec_float) :
  rounds X false z -> sf_finite z = true ->
  - (pow2 (-53) * X + pow2 (-1075)) <= SF2R z - X
  <= pow2 (-53) * X + pow2 (-1075).
Proof.
  intros (E & m & HE & Hm & HX & Hnear & Hnorm & Hup & ->) Hfin.
  destruct (packed_cases false m E Hm) as [[Hinf _]|(_ & Hv & _)];
    [rewrite Hinf in Hfin; discriminate|].
  rewrite Hv. cbn [cond_Zopp].
  pose proof (pow2_pos E) as HpE. pose proof (pow2_pos (-53)).
  pose proof (pow2_pos (-1075)).
  assert (Hhalf : - (pow2 E / 2) <= IZR m * pow2 E - X <= pow2 E / 2).
  { assert (X = X / pow2 E * pow2 E) by (field; lra). nra. }
  destruct Hnorm as [->|Hnorm].
  - replace (pow2 (-1074) / 2) with (pow2 (-1075)) in Hhalf
      by (rewrite <- pow2_pred; reflexivity).
    nra.
  - assert (pow2 E / 2 <= pow2 (-53) * X).
    { replace (pow2 E / 2) with (pow2 (-53) * pow2 (E + 52)).
      - nra.
      - rewrite <- pow2_add, <- pow2_pred. f_equal. lia. }
    lra.
Qed.

(** On a multiple of the smallest positive number of the format there is
    no absolute error. *)
Lemma rounds_error_grid (X : R) (z : spec_float) (k : Z) :
  rounds X false z -> sf_finite z = true ->
  X = IZR k * pow2 (-1074) ->
  - (pow2 (-53) * X) <= SF2R z - X <= pow2 (-53) * X.
Proof.
  intros (E & m & HE & Hm & HX & Hnear & Hnorm & Hup & ->) Hfin Hk.
  destruct (packed_cases false m E Hm) as [[Hinf _]|(_ & Hv & _)];
    [rewrite Hinf in Hfin; discriminate|].
  rewrite Hv. cbn [cond_Zopp].
  pose proof (pow2_pos E) as HpE. pose proof (pow2_pos (-53)).
  assert (Hhalf : - (pow2 E / 2) <= IZR m * pow2 E - X <= pow2 E / 2).
  { assert (X = X / pow2 E * pow2 E) by (field; lra). nra. }
  destruct Hnorm as [->|Hnorm].
  - assert (X / pow2 (-1074) = IZR k).
    { rewrite Hk. field. pose proof (pow2_pos (-1074)). lra. }
    rewrite H0 in Hnear.
    assert (m = k).
    { assert (IZR m < IZR (k + 1)) by (rewrite plus_IZR; lra).
      assert (IZR k < IZR (m + 1)) by (rewrite plus_IZR; lra).
      apply lt_IZR in H1, H2. lia. }
    subst m. rewrite <- Hk. nra.
  - assert (pow2 E / 2 <= pow2 (-53) * X).
    { replace (pow2 E / 2) with (pow2 (-53) * pow2 (E + 52)).
      - nra.
      - rewrite <- pow2_add, <- pow2_pred. f_equal. lia. }
    lra.
Qed.

(** A number of the format is a multiple of the unit of every exponent
    below its own. *)
Lemma SF2R_multiple (mg : positive) (eg E : Z) :
  (E <= eg)%Z ->
  IZR (Z.pos mg) * pow2 eg = IZR (Z.pos mg * 2 ^ (eg - E)) * pow2 E.
Proof.
  intros Hle. rewrite mult_IZR, <- pow2_IZR by lia.
  replace eg with (eg - E + E)%Z at 1 by lia. rewrite pow2_add. lra.
Qed.

(** A rounding is monotone against the numbers of the format: below. *)
Lemma rounds_ge (X : R) (z g : spec_float) :
  rounds X false z ->
  valid_binary g = true -> sf_nonneg g = true -> SF2R g <= X ->
  z = S754_infinity false \/ (sf_finite z = true /\ SF2R g <= SF2R z).
Proof.
  intros (E & m & HE & Hm & HX & Hnear & Hnorm & Hup & ->) Hg Hgn Hle.
  destruct (packed_cases false m E Hm) as [[Hinf _]|(Hf & Hv & _)];
    [now left|right]. split; [done|].
  rewrite Hv. cbn [cond_Zopp].
  pose proof (pow2_pos E) as HpE.
  assert (HXT : X = X / pow2 E * pow2 E) by (field; lra).
  destruct g as [sg| | |[] mg eg]; try discriminate.
  { cbn [SF2R]. assert (0 <= IZR m) by (apply IZR_le; lia). nra. }
  cbn [valid_binary] in Hg. cbn [SF2R cond_Zopp] in Hle |- *.
  pose proof (bounded_mantissa mg eg Hg) as Hmg.
  pose proof (bounded_inv mg eg Hg) as (_ & Heg & _).
  destruct (Z.le_gt_cases E eg) as [Hcase|Hcase].
  - rewrite (SF2R_multiple mg eg E Hcase) in Hle |- *.
    set (G := (Z.pos mg * 2 ^ (eg - E))%Z) in *.
    assert (IZR G <= X / pow2 E).
    { apply Rmult_le_reg_r with (pow2 E); [done|]. lra. }
    assert (IZR G < IZR (m + 1)) by (rewrite plus_IZR; lra).
    apply lt_IZR in H0. assert (IZR G <= IZR m) by (apply IZR_le; lia).
    nra.
  - destruct Hnorm as [->|Hnorm]; [lia|].
    assert (pow2 52 <= X / pow2 E).
    { apply Rmult_le_reg_r with (pow2 E); [done|].
      rewrite <- pow2_add. replace (52 + E)%Z with (E + 52)%Z by lia. lra. }
    rewrite pow2_IZR in H by lia.
    assert (IZR (2 ^ 52) < IZR (m + 1)) by (rewrite plus_IZR; lra).
    apply lt_IZR in H0.
    assert (IZR (2 ^ 52) <= IZR m) by (apply IZR_le; lia).
    apply IZR_lt in Hmg. rewrite <- !pow2_IZR in * by lia.
    assert (pow2 (53 + eg) <= pow2 (52 + E)) by (apply pow2_le; lia).
    rewrite !pow2_add in H2. pose proof (pow2_pos eg).
    pose proof (pow2_pos 52). pose proof (pow2_pos 53). nra.
Qed.

(** A rounding is monotone against the numbers of the format: above.  It
    is finite then. *)
Lemma rounds_le (X : R) (z g : spec_float) :
  rounds X false z ->
  valid_binary g = true -> sf_nonneg g = true -> X <= SF2R g ->
  sf_finite z = true /\ SF2R z <= SF2R g.
Proof.
  intros (E & m & HE & Hm & HX & Hnear & Hnorm & Hup & ->) Hg Hgn Hle.
  pose proof (pow2_pos E) as HpE.
  assert (HXT : X = X / pow2 E * pow2 E) by (field; lra).
  destruct g as [sg| | |[] mg eg]; try discriminate.
  { cbn [SF2R] in Hle |- *. assert (X = 0) by lra. subst X.
    replace (0 / pow2 E) with 0 in Hnear by (field; lra).
    assert (IZR m < IZR 1) by lra. apply lt_IZR in H.
    assert (m = 0)%Z as -> by lia. cbn. split; [done|lra]. }
  cbn [valid_binary] in Hg. cbn [SF2R cond_Zopp] in Hle |- *.
  pose proof (bounded_mantissa mg eg Hg) as Hmg.
  pose proof (bounded_inv mg eg Hg) as (_ & Heg & _).
  destruct (Z.le_gt_cases E eg) as [Hcase|Hcase].
  - rewrite (SF2R_multiple mg eg E Hcase) in Hle |- *.
    set (G := (Z.pos mg * 2 ^ (eg - E))%Z) in *.
    assert (X / pow2 E <= IZR G).
    { apply Rmult_le_reg_r with (pow2 E); [done|]. lra. }
    assert (IZR m < IZR (G + 1)) by (rewrite plus_IZR; lra).
    apply lt_IZR in H0. assert (HmG : (m <= G)%Z) by lia.
    assert (Hfin : ((m < 2 ^ 53 /\ E <= 971) \/ (m = 2 ^ 53 /\ E <= 970)
                    \/ m = 0)%Z).
    { destruct (Z.eq_dec m (2 ^ 53)) as [->|Hne]; [|left; lia].
      right. left. split; [done|].
      destruct (Z.eq_dec eg E) as [->|]; [|lia].
      unfold G in HmG. rewrite Z.sub_diag in HmG. lia. }
    destruct (packed_cases false m E Hm) as [[_ Hov]|(Hf & Hv & _)]; [lia|].
    split; [done|]. rewrite Hv. cbn [cond_Zopp].
    apply IZR_le in HmG. nra.
  - exfalso. destruct Hnorm as [->|Hnorm]; [lia|].
    apply IZR_lt in Hmg. rewrite <- !pow2_IZR in * by lia.
    assert (pow2 (53 + eg) <= pow2 (E + 52)) by (apply pow2_le; lia).
    rewrite pow2_add in H. pose proof (pow2_pos eg). pose proof (pow2_pos 53).
    nra.
Qed.

End Packed.

(** ** Addition and subtraction *)

Section Operations.
Import Reals Lra.
Local Open Scope R_scope.

Lemma shl_align_min_l (mx my : positive) (ex ey : Z) :
  IZR (Z.pos (shl_align mx ex (Z.min ex ey)).1) * pow2 (Z.min ex ey)
  = IZR (Z.pos mx) * pow2 ex.
Proof.
  rewrite <- (shl_align_value mx ex (Z.min ex ey)).
  rewrite (shl_align_le mx ex (Z.min ex ey)) by lia. reflexivity.
Qed.

Lemma shl_align_min_r (mx my : positive) (ex ey : Z) :
  IZR (Z.pos (shl_align my ey (Z.min ex ey)).1) * pow2 (Z.min ex ey)
  = IZR (Z.pos my) * pow2 ey.
Proof.
  rewrite <- (shl_align_value my ey (Z.min ex ey)).
  rewrite (shl_align_le my ey (Z.min ex ey)) by lia. reflexivity.
Qed.

(** The sum of two numbers that are not negative is exact or a rounding
    of the sum of the reals. *)
Lemma SFadd_nonneg (x y : spec_float) :
  sf_nonneg x = true -> sf_nonneg y = true ->
  (sf_nonneg (SFadd FloatOps.prec FloatOps.emax x y) = true
   /\ SF2R (SFadd FloatOps.prec FloatOps.emax x y) = SF2R x + SF2R y
   /\ (SFadd FloatOps.prec FloatOps.emax x y = x
       \/ SFadd FloatOps.prec FloatOps.emax x y = y
       \/ SFadd FloatOps.prec FloatOps.emax x y = S754_zero false))
  \/ rounds (SF2R x + SF2R y) false (SFadd FloatOps.prec FloatOps.emax x y).
Proof.
  intros Hx Hy.
  destruct x as [sx| | |[] mx ex], y as [sy| | |[] my ey]; try discriminate.
  - left. destruct sx, sy; cbn; (split; [done|]); (split; [lra|]); auto.
  - left. cbn. split; [done|]. split; [lra|]. auto.
  - left. cbn. split; [done|]. split; [lra|]. auto.
  - right. cbn [SFadd cond_Zopp binary_normalize Z.add].
    pose proof (binary_round_rounds false
      ((shl_align mx ex (Z.min ex ey)).1 + (shl_align my ey (Z.min ex ey)).1)
      (Z.min ex ey)) as Hr.
    rewrite Pos2Z.inj_add, plus_IZR, Rmult_plus_distr_r in Hr.
    rewrite (shl_align_min_l mx my), (shl_align_min_r mx my) in Hr.
    exact Hr.
Qed.

Lemma SF2R_finite_sign (s : bool) (m : positive) (e : Z) :
  SF2R (S754_finite s m e) <= 0 -> s = true.
Proof.
  destruct s; [done|]. pose proof (SF2R_pos m e). lra.
Qed.

(** The difference of two finite numbers, the first no larger than the
    second, is a zero or negative; it is not a NaN. *)
Lemma SFsub_nonpos (x y : spec_float) :
  sf_finite x = true -> sf_finite y = true -> SF2R x <= SF2R y ->
  sf_nonpos (SFsub FloatOps.prec FloatOps.emax x y) = true.
Proof.
  intros Hx Hy Hle.
  destruct x as [sx| | |sx mx ex], y as [sy| | |sy my ey]; try discriminate.
  - now destruct sx, sy.
  - cbn [SFsub sf_nonpos]. destruct sy; [|done].
    pose proof (SF2R_neg my ey). cbn [SF2R] in Hle, H. lra.
  - cbn [SFsub sf_nonpos]. now rewrite (SF2R_finite_sign sx mx ex Hle).
  - cbn [SFsub].
    set (ez := Z.min ex ey).
    set (M := (cond_Zopp sx (Z.pos (shl_align mx ex ez).1)
               - cond_Zopp sy (Z.pos (shl_align my ey ez).1))%Z).
    assert (HM : IZR M * pow2 ez = SF2R (S754_finite sx mx ex)
                                    - SF2R (S754_finite sy my ey)).
    { unfold M. rewrite minus_IZR, Rmult_minus_distr_r. cbn [SF2R].
      pose proof (shl_align_min_l mx my ex ey) as Hl.
      pose proof (shl_align_min_r mx my ex ey) as Hr. fold ez in Hl, Hr.
      destruct sx, sy; cbn [cond_Zopp]; rewrite ?opp_IZR; lra. }
    assert (HM0 : (M <= 0)%Z).
    { pose proof (pow2_pos ez).
      destruct (Z.le_gt_cases M 0) as [|Hgt]; [done|].
      apply IZR_lt in Hgt. nra. }
    destruct M as [|p|p]; [done|lia|].
    cbn [binary_normalize].
    destruct (rounds_sign _ _ _ (binary_round_rounds true p ez))
      as [->|[->|(m & e & ->)]]; done.
Qed.

Lemma new_location_eq (m2 r : Z) :
  new_location m2 r
  = if Z.even m2 then
      (if (r =? 0)%Z then loc_Exact else loc_Inexact (2 * r ?= m2)%Z)
    else
      (if (r =? 0)%Z then loc_Exact
       else loc_Inexact (match (2 * r + 1 ?= m2)%Z with
                         | Lt => Lt
                         | Eq => Lt
                         | Gt => Gt
                         end)).
Proof.
  unfold new_location, new_location_even, new_location_odd.
  change (IntDef.Z.even m2) with (Z.even m2).
  destruct (Z.even m2); reflexivity.
Qed.

(** The position of a quotient between two integers. *)
Lemma new_location_located (m2 q r : Z) (t : R) :
  (0 < m2)%Z -> (0 <= r < m2)%Z ->
  t = IZR q + IZR r / IZR m2 ->
  located (shr_record_of_loc q (new_location m2 r)) t.
Proof.
  intros Hm2 Hr ->.
  assert (H2 : 0 < IZR m2) by (apply IZR_lt; lia).
  assert (Hr0 : 0 <= IZR r) by (apply IZR_le; lia).
  assert (Hr1 : IZR r < IZR m2) by (apply IZR_lt; lia).
  assert (Hfrac : 0 <= IZR r / IZR m2 < 1).
  { split.
    - apply Rmult_le_reg_r with (IZR m2); [done|].
      replace (IZR r / IZR m2 * IZR m2) with (IZR r) by (field; lra). lra.
    - apply Rmult_lt_reg_r with (IZR m2); [done|].
      replace (IZR r / IZR m2 * IZR m2) with (IZR r) by (field; lra). lra. }
  assert (Hhalf : forall c : comparison,
            (2 * r ?= m2)%Z = c ->
            match c with
            | Lt => IZR r / IZR m2 < / 2
            | Eq => IZR r / IZR m2 = / 2
            | Gt => / 2 < IZR r / IZR m2
            end).
  { intros c <-.
    destruct (Z.compare_spec (2 * r) m2) as [He|Hl|Hg].
    - rewrite <- He, mult_IZR. field.
      intros H0. rewrite <- He, mult_IZR in H2. lra.
    - apply IZR_lt in Hl. rewrite mult_IZR in Hl.
      apply Rmult_lt_reg_r with (IZR m2); [done|].
      replace (IZR r / IZR m2 * IZR m2) with (IZR r) by (field; lra). lra.
    - apply IZR_lt in Hg. rewrite mult_IZR in Hg.
      apply Rmult_lt_reg_r with (IZR m2); [done|].
      replace (IZR r / IZR m2 * IZR m2) with (IZR r) by (field; lra). lra. }
  assert (Hzero : r = 0%Z -> IZR r / IZR m2 = 0).
  { intros ->. field. lra. }
  assert (Hnz : r <> 0%Z -> 0 < IZR r / IZR m2).
  { intros Hne. assert (0 < IZR r) by (apply IZR_lt; lia).
    apply Rmult_lt_reg_r with (IZR m2); [done|].
    replace (IZR r / IZR m2 * IZR m2) with (IZR r) by (field; lra). lra. }
  assert (Hloc : match new_location m2 r with
                 | loc_Exact => IZR r / IZR m2 = 0
                 | loc_Inexact Lt => 0 < IZR r / IZR m2 < / 2
                 | loc_Inexact Eq => IZR r / IZR m2 = / 2
                 | loc_Inexact Gt => / 2 < IZR r / IZR m2
                 end).
  { rewrite new_location_eq.
    destruct (Z.eqb_spec r 0) as [Hz|Hne].
    { destruct (Z.even m2); now apply Hzero. }
    specialize (Hnz Hne).
    destruct (Z.even m2) eqn:Heven.
    - pose proof (Hhalf _ eq_refl) as Hc.
      destruct (2 * r ?= m2)%Z; [done|lra|done].
    - assert (Hodd : Z.odd m2 = true) by (rewrite <- Z.negb_even, Heven; done).
      apply Z.odd_spec in Hodd as [k Hk].
      destruct (Z.compare_spec (2 * r + 1) m2) as [He|Hl|Hg].
      + pose proof (Hhalf Lt ltac:(apply Z.compare_lt_iff; lia)). lra.
      + pose proof (Hhalf Lt ltac:(apply Z.compare_lt_iff; lia)). lra.
      + pose proof (Hhalf Gt ltac:(apply Z.compare_gt_iff; lia)). lra. }
  unfold located.
  destruct (new_location m2 r) as [|[]]; cbn [shr_record_of_loc shr_m shr_r shr_s];
    (split; [lra|]); split;
    try (split; [discriminate|intros; lra]);
    try (split; [intros _; lra|done]);
    try (split; [intros _; split; lra|done]);
    try (split; [discriminate|intros [? ?]; lra]).
Qed.

End Operations.

(** ** Division *)

Lemma fexp_mono (a b : Z) :
  a <= b -> fexp FloatOps.prec FloatOps.emax a <= fexp FloatOps.prec FloatOps.emax b.
Proof. intros Hab. rewrite !fexp_eq. lia. Qed.

Lemma SFdiv_core_eq (m1 e1 m2 e2 : Z) :
  SFdiv_core_binary FloatOps.prec FloatOps.emax m1 e1 m2 e2
  = let e' := Z.min (fexp FloatOps.prec FloatOps.emax
                       (Zdigits2 m1 + e1 - (Zdigits2 m2 + e2))) (e1 - e2) in
    let m' := m1 * 2 ^ (e1 - e2 - e') in
    (m' / m2, e', new_location m2 (m' mod m2)).
Proof.
  unfold SFdiv_core_binary.
  set (e' := IntDef.Z.min _ _).
  assert (He' : e' = Z.min (fexp FloatOps.prec FloatOps.emax
                              (Zdigits2 m1 + e1 - (Zdigits2 m2 + e2)))
                           (e1 - e2)) by reflexivity.
  set (s := IntDef.Z.sub (IntDef.Z.sub e1 e2) e').
  assert (Hs : s = e1 - e2 - e') by reflexivity.
  cbv zeta.
  assert (Hs0 : 0 <= s) by lia.
  assert (Hm' : match s with
                | 0 => m1
                | Z.pos _ => IntDef.Z.shiftl m1 s
                | Z.neg _ => 0
                end = m1 * 2 ^ s).
  { destruct s as [|p|p]; [lia| |lia].
    change (IntDef.Z.shiftl m1 (Z.pos p)) with (Z.shiftl m1 (Z.pos p)).
    now rewrite Z.shiftl_mul_pow2 by lia. }
  rewrite Hm'. clearbody s e'.
  change (IntDef.Z.div_eucl (m1 * 2 ^ s) m2) with (Z.div_eucl (m1 * 2 ^ s) m2).
  unfold Z.div, Z.modulo.
  now destruct (Z.div_eucl (m1 * 2 ^ s) m2) as [q r].
Qed.

Section Division.
Import Reals Lra.
Local Open Scope R_scope.

(** The quotient of two positive numbers is a rounding of the quotient of
    the reals. *)
Lemma SFdiv_pos (mx my : positive) (ex ey : Z) :
  rounds (SF2R (S754_finite false mx ex) / SF2R (S754_finite false my ey))
    false
    (SFdiv FloatOps.prec FloatOps.emax (S754_finite false mx ex)
       (S754_finite false my ey)).
Proof.
  cbn [SFdiv xorb SF2R cond_Zopp]. rewrite SFdiv_core_eq. cbv zeta.
  set (d1 := Zdigits2 (Z.pos mx)). set (d2 := Zdigits2 (Z.pos my)).
  set (e' := Z.min (fexp FloatOps.prec FloatOps.emax (d1 + ex - (d2 + ey)))
                   (ex - ey)).
  set (s := (ex - ey - e')%Z).
  set (m' := (Z.pos mx * 2 ^ s)%Z).
  assert (Hs : (0 <= s)%Z) by lia.
  assert (Hpow : (0 < 2 ^ s)%Z) by (apply Z.pow_pos_nonneg; lia).
  assert (Hm' : (0 < m')%Z) by (unfold m'; lia).
  pose proof (Z.div_mod m' (Z.pos my) ltac:(lia)) as Hdm.
  pose proof (Z.mod_pos_bound m' (Z.pos my) ltac:(lia)) as Hmod.
  assert (Hq : (0 <= m' / Z.pos my)%Z) by (apply Z.div_pos; lia).
  set (q := (m' / Z.pos my)%Z) in *. set (r := (m' mod Z.pos my)%Z) in *.
  assert (Hmy : 0 < IZR (Z.pos my)) by (apply IZR_lt; lia).
  set (t := IZR q + IZR r / IZR (Z.pos my)).
  assert (Ht : t = IZR m' / IZR (Z.pos my)).
  { unfold t. rewrite Hdm, plus_IZR, mult_IZR. field. lra. }
  replace (IZR (Z.pos mx) * pow2 ex / (IZR (Z.pos my) * pow2 ey))
    with (t * pow2 e').
  2:{ rewrite Ht. unfold m'. rewrite mult_IZR, <- pow2_IZR by done.
      assert (Hex : pow2 ex = pow2 s * pow2 ey * pow2 e').
      { rewrite <- !pow2_add. f_equal. lia. }
      rewrite Hex. pose proof (pow2_pos ey). field. lra. }
  apply binary_round_aux_rounds; [done| |].
  - apply new_location_located; [lia|done|done].
  - (* the quotient has the digits it needs *)
    apply Z.le_trans
      with (fexp FloatOps.prec FloatOps.emax (d1 + ex - (d2 + ey))); [lia|].
    apply fexp_mono.
    enough (d1 + s - d2 <= Zdigits2 q)%Z by lia.
    pose proof (Zdigits2_nonneg q) as Hdq.
    destruct (Z.le_gt_cases (d1 + s - d2) 0) as [|Hk]; [lia|].
    pose proof (Zdigits2_bounds (Z.pos mx) ltac:(lia)) as [Hlo1 _].
    pose proof (Zdigits2_bounds (Z.pos my) ltac:(lia)) as [_ Hhi2].
    fold d1 in Hlo1. fold d2 in Hhi2.
    assert (Hd2 : (0 <= d2)%Z) by apply Zdigits2_nonneg.
    assert (Hd1 : (1 <= d1)%Z) by (unfold d1; cbn; lia).
    enough (2 ^ (d1 + s - d2 - 1) <= q)%Z
      by (pose proof (Zdigits2_ge q (d1 + s - d2 - 1) ltac:(lia) H); lia).
    apply Z.div_le_lower_bound; [lia|].
    assert (Hsplit : (2 ^ (d1 - 1) * 2 ^ s
                      = 2 ^ (d1 + s - d2 - 1) * 2 ^ d2)%Z).
    { rewrite <- !Z.pow_add_r by lia. f_equal. lia. }
    assert (0 < 2 ^ (d1 + s - d2 - 1))%Z by (apply Z.pow_pos_nonneg; lia).
    unfold m'. nia.
Qed.

End Division.

(** ** The operations of [float64] on finite numbers *)

Lemma is_finite_spec (x : float) :
  PrimFloat.is_finite x = sf_finite (Prim2SF x).
Proof.
  unfold PrimFloat.is_finite, is_infinity.
  rewrite FloatAxioms.eqb_spec, FloatAxioms.abs_spec.
  change (Prim2SF infinity) with (S754_infinity false).
  destruct (is_nan x) eqn:Hn.
  - apply is_nan_spec in Hn. now rewrite Hn.
  - apply is_nan_false in Hn.
    destruct (Prim2SF x) as [[]|[]| |[] m e]; done.
Qed.

Lemma is_finite_not_nan (x : float) :
  PrimFloat.is_finite x = true -> is_nan x = false.
Proof.
  rewrite is_finite_spec. intros Hf. apply is_nan_false. intros E.
  now rewrite E in Hf.
Qed.

Section FloatLevel.
Import Reals Lra.
Local Open Scope R_scope.

Lemma leb_value (x y : float) :
  PrimFloat.is_finite x = true -> PrimFloat.is_finite y = true ->
  (x <=? y)%float = true <-> value x <= value y.
Proof.
  rewrite !is_finite_spec, FloatAxioms.leb_spec. intros Hx Hy.
  apply SFleb_finite; auto using FloatAxioms.Prim2SF_valid.
Qed.

Lemma ltb_value (x y : float) :
  PrimFloat.is_finite x = true -> PrimFloat.is_finite y = true ->
  (x <? y)%float = true <-> value x < value y.
Proof.
  rewrite !is_finite_spec, FloatAxioms.ltb_spec. intros Hx Hy.
  apply SFltb_finite; auto using FloatAxioms.Prim2SF_valid.
Qed.

Lemma value_zero : value 0 = 0.
Proof. reflexivity. Qed.

Lemma value_one : value 1 = 1.
Proof.
  unfold value. change (Prim2SF 1) with (S754_finite false (Z.to_pos (2 ^ 52)) (-52)).
  cbn [SF2R cond_Zopp]. rewrite Z2Pos.id by lia.
  rewrite <- (pow2_IZR 52), <- pow2_add by lia. reflexivity.
Qed.

(** A number between [0] and [1]. *)
Lemma unit_interval (x : float) :
  (0 <=? x)%float = true /\ (x <=? 1)%float = true
  <-> sf_nonneg (Prim2SF x) = true /\ value x <= 1.
Proof.
  split.
  - intros [H0 H1].
    assert (Hn : sf_nonneg (Prim2SF x) = true).
    { rewrite FloatAxioms.leb_spec in H0, H1.
      change (Prim2SF 0) with (S754_zero false) in H0.
      change (Prim2SF 1) with (S754_finite false (Z.to_pos (2 ^ 52)) (-52)) in H1.
      destruct (Prim2SF x) as [[]|[]| |[] m e]; done. }
    split; [done|].
    rewrite <- value_one. apply leb_value; [|done|done].
    rewrite is_finite_spec. now apply sf_nonneg_finite.
  - intros [Hn H1].
    assert (Hf : PrimFloat.is_finite x = true)
      by (rewrite is_finite_spec; now apply sf_nonneg_finite).
    split.
    + apply leb_value; [done|done|]. rewrite value_zero.
      now apply SF2R_nonneg.
    + apply leb_value; [done|done|]. now rewrite value_one.
Qed.

Lemma value_nonneg (x : float) :
  sf_nonneg (Prim2SF x) = true -> 0 <= value x.
Proof. apply SF2R_nonneg. Qed.

(** The difference of two finite numbers in order is a zero or negative,
    and the difference of a finite number with itself is [+0.0]. *)
Lemma sub_nonpos (x y : float) :
  PrimFloat.is_finite x = true -> PrimFloat.is_finite y = true ->
  (x <=? y)%float = true ->
  is_nan (x - y) = false /\ (x - y <=? 0)%float = true.
Proof.
  intros Hx Hy Hle. pose proof Hle as Hv. apply leb_value in Hv; [|done..].
  rewrite is_finite_spec in Hx, Hy.
  pose proof (SFsub_nonpos (Prim2SF x) (Prim2SF y) Hx Hy Hv) as Hs.
  split.
  - apply is_nan_false. rewrite FloatAxioms.sub_spec. unfold SF64sub.
    intros E. now rewrite E in Hs.
  - rewrite FloatAxioms.leb_spec, FloatAxioms.sub_spec. unfold SF64sub.
    change (Prim2SF 0) with (S754_zero false).
    destruct (SFsub prec emax (Prim2SF x) (Prim2SF y)) as [[]|[]| |[] m e];
      done.
Qed.

Lemma sub_self (x : float) :
  PrimFloat.is_finite x = true -> (x - x)%float = 0%float.
Proof.
  rewrite is_finite_spec. intros Hx. apply FloatAxioms.Prim2SF_inj.
  rewrite FloatAxioms.sub_spec. unfold SF64sub.
  change (Prim2SF 0) with (S754_zero false).
  destruct (Prim2SF x) as [[]|[]| |s m e]; try done.
  cbn [SFsub].
  change (IntDef.Z.sub ?a ?a) with (Z.sub a a).
  now rewrite Z.sub_diag.
Qed.

(** A finite number is a multiple of the smallest positive number. *)
Lemma value_grid (x : float) :
  sf_nonneg (Prim2SF x) = true ->
  exists k : Z, value x = IZR k * pow2 (-1074).
Proof.
  unfold value. pose proof (FloatAxioms.Prim2SF_valid x) as Hv.
  destruct (Prim2SF x) as [s| | |[] m e]; try discriminate; intros _.
  - exists 0%Z. cbn [SF2R]. lra.
  - cbn [valid_binary] in Hv. apply bounded_inv in Hv as (_ & He & _).
    eexists. cbn [SF2R cond_Zopp]. apply SF2R_multiple. lia.
Qed.

(** The sum of two numbers that are not negative: not below either, and
    within a relative error of [2^-53] of the sum of the reals. *)
Lemma add_nonneg (x y : float) :
  sf_nonneg (Prim2SF x) = true -> sf_nonneg (Prim2SF y) = true ->
  value x + value y < pow2 1023 ->
  sf_nonneg (Prim2SF (x + y)) = true
  /\ value x <= value (x + y) /\ value y <= value (x + y)
  /\ - (pow2 (-53) * (value x + value y))
     <= value (x + y) - (value x + value y)
     <= pow2 (-53) * (value x + value y).
Proof.
  intros Hx Hy Hlt.
  pose proof (value_nonneg x Hx) as Hx0. pose proof (value_nonneg y Hy) as Hy0.
  pose proof (pow2_pos (-53)) as Hu.
  unfold value in *. rewrite FloatAxioms.add_spec. unfold SF64add.
  destruct (SFadd_nonneg (Prim2SF x) (Prim2SF y) Hx Hy)
    as [(Hn & Hv & _)|Hr].
  - split; [done|]. rewrite Hv. nra.
  - pose proof (rounds_finite _ _ _ Hr Hlt) as Hf.
    assert (Hn : sf_nonneg (SFadd prec emax (Prim2SF x) (Prim2SF y)) = true).
    { destruct (rounds_sign _ _ _ Hr) as [E|[E|(m & e & E)]];
        rewrite E in Hf |- *; done. }
    split; [done|].
    destruct (rounds_ge _ _ (Prim2SF x) Hr (FloatAxioms.Prim2SF_valid x) Hx
                ltac:(lra)) as [E|[_ Hgx]]; [rewrite E in Hf; done|].
    destruct (rounds_ge _ _ (Prim2SF y) Hr (FloatAxioms.Prim2SF_valid y) Hy
                ltac:(lra)) as [E|[_ Hgy]]; [rewrite E in Hf; done|].
    split; [done|]. split; [done|].
    destruct (value_grid x Hx) as [kx Hkx]. destruct (value_grid y Hy) as [ky Hky].
    unfold value in Hkx, Hky.
    apply (rounds_error_grid _ _ (kx + ky)%Z Hr Hf).
    rewrite plus_IZR, Hkx, Hky. lra.
Qed.

(** The quotient of a number that is not negative by a positive number
    that is not smaller: between [0] and [1], and within a relative error
    of [2^-53], or half the smallest positive number, of the quotient of
    the reals. *)
Lemma div_le_one (x y : float) :
  sf_nonneg (Prim2SF x) = true -> sf_nonneg (Prim2SF y) = true ->
  0 < value y -> value x <= value y ->
  sf_nonneg (Prim2SF (x / y)) = true
  /\ value (x / y) <= 1
  /\ - (pow2 (-53) * (value x / value y) + pow2 (-1075))
     <= value (x / y) - value x / value y
     <= pow2 (-53) * (value x / value y) + pow2 (-1075).
Proof.
  intros Hx Hy Hy0 Hle.
  pose proof (value_nonneg x Hx) as Hx0.
  pose proof (pow2_pos (-53)) as Hu. pose proof (pow2_pos (-1075)) as Heta.
  unfold value in *. rewrite FloatAxioms.div_spec. unfold SF64div.
  destruct (Prim2SF y) as [sy| | |[] my ey] eqn:Ey; try discriminate.
  { cbn [SF2R] in Hy0. lra. }
  destruct (Prim2SF x) as [sx| | |[] mx ex] eqn:Ex; try discriminate.
  { cbn [SFdiv]. change (SF2R (S754_zero sx)) with 0.
    change (SF2R (S754_zero (xorb sx false))) with 0.
    unfold Rdiv. rewrite Rmult_0_l.
    split; [done|]. split; [lra|]. lra. }
  pose proof (SFdiv_pos mx my ex ey) as Hr.
  set (Q := SF2R (S754_finite false mx ex) / SF2R (S754_finite false my ey)) in *.
  assert (HQ : 0 <= Q <= 1).
  { unfold Q. split.
    - apply Rmult_le_reg_r with (SF2R (S754_finite false my ey)); [done|].
      replace (_ / _ * _) with (SF2R (S754_finite false mx ex)) by (field; lra).
      lra.
    - apply Rmult_le_reg_r with (SF2R (S754_finite false my ey)); [done|].
      replace (_ / _ * _) with (SF2R (S754_finite false mx ex)) by (field; lra).
      lra. }
  assert (H1 : valid_binary (Prim2SF 1) = true) by apply FloatAxioms.Prim2SF_valid.
  assert (Hv1 : SF2R (Prim2SF 1) = 1) by exact value_one.
  destruct (rounds_le Q _ (Prim2SF 1) Hr H1 eq_refl ltac:(lra)) as [Hf Hle1].
  assert (Hn : sf_nonneg (SFdiv prec emax (S754_finite false mx ex)
                            (S754_finite false my ey)) = true).
  { destruct (rounds_sign _ _ _ Hr) as [E|[E|(m & e & E)]];
      rewrite E in Hf |- *; done. }
  split; [done|]. split; [lra|].
  exact (rounds_error Q _ Hr Hf).
Qed.

End FloatLevel.

(** ** Sums and quotients of numbers between 0 and 1 *)

Section UnitSums.
Import Reals Lra.
Local Open Scope R_scope.

Lemma pow2_m53 : pow2 (-53) = / 9007199254740992.
Proof.
  transitivity (/ pow2 53); [exact (pow2_neg 53)|].
  rewrite pow2_IZR by lia. reflexivity.
Qed.

Lemma pow2_m1075_le : pow2 (-1075) <= pow2 (-53).
Proof. apply pow2_le. lia. Qed.

Lemma pow2_1023_ge : 4503599627370496 <= pow2 1023.
Proof.
  change 4503599627370496 with (IZR (2 ^ 52)).
  rewrite <- pow2_IZR by lia. apply pow2_le. lia.
Qed.

Lemma real_sum_nonneg (es : list float) :
  Forall (fun e => sf_nonneg (Prim2SF e) = true /\ value e <= 1) es ->
  0 <= real_sum es <= IZR (Z.of_nat (length es))
  /\ forall e, e ∈ es -> value e <= real_sum es.
Proof.
  induction 1 as [|e es [He1 He2] Hes IH]; cbn [real_sum foldr length].
  - change (Z.of_nat 0) with 0%Z. split; [lra|].
    intros e He. by apply elem_of_nil in He.
  - fold (real_sum es). destruct IH as [IH1 IH2].
    pose proof (value_nonneg e He1) as He0.
    rewrite Nat2Z.inj_succ, succ_IZR. split; [lra|].
    intros e' [->|He']%elem_of_cons; [lra|].
    specialize (IH2 e' He'). lra.
Qed.

(** The sum in the order of the list, from an accumulator that is within
    a relative error of [2 j 2^-53] of the real [T]. *)
Lemma fold_sum_unit (es : list float) :
  forall (acc : float) (j : Z) (T : R),
  Forall (fun e => sf_nonneg (Prim2SF e) = true /\ value e <= 1) es ->
  sf_nonneg (Prim2SF acc) = true ->
  (0 <= j)%Z -> (j + Z.of_nat (length es) <= 2 ^ 50)%Z ->
  0 <= T <= IZR j ->
  - (2 * IZR j * pow2 (-53) * T) <= value acc - T
    <= 2 * IZR j * pow2 (-53) * T ->
  let S := foldl (fun s e => (s + e)%float) acc es in
  let T' := T + real_sum es in
  let n := (j + Z.of_nat (length es))%Z in
  sf_nonneg (Prim2SF S) = true
  /\ value acc <= value S
  /\ (forall e, e ∈ es -> value e <= value S)
  /\ 0 <= T' <= IZR n
  /\ - (2 * IZR n * pow2 (-53) * T') <= value S - T'
     <= 2 * IZR n * pow2 (-53) * T'.
Proof.
  induction es as [|e es IH]; intros acc j T Hes Hacc Hj Hn HT Herr.
  - cbn [foldl real_sum foldr length]. rewrite Z.add_0_r, Rplus_0_r.
    split; [done|]. split; [lra|]. split; [|done].
    intros e He. by apply elem_of_nil in He.
  - apply Forall_cons in Hes as [[He1 He2] Hes].
    cbn [length] in Hn. rewrite Nat2Z.inj_succ in Hn.
    pose proof (value_nonneg e He1) as He0.
    pose proof (value_nonneg acc Hacc) as Hacc0.
    assert (Hjr : 0 <= IZR j <= 1125899906842624).
    { split; [apply IZR_le; lia|]. change 1125899906842624 with (IZR (2 ^ 50)).
      apply IZR_le. lia. }
    rewrite pow2_m53 in Herr.
    assert (Hju : 2 * IZR j * / 9007199254740992 <= / 4) by lra.
    assert (HjT : 2 * IZR j * / 9007199254740992 * T <= T / 4) by nra.
    assert (HX : value acc + value e < pow2 1023).
    { pose proof pow2_1023_ge. nra. }
    destruct (add_nonneg acc e Hacc He1 HX) as (Hn1 & Hge1 & Hge2 & Herr1).
    rewrite pow2_m53 in Herr1.
    set (acc1 := (acc + e)%float) in *.
    assert (HT1 : 0 <= T + value e <= IZR (j + 1)).
    { rewrite plus_IZR. lra. }
    assert (Herr' : - (2 * IZR (j + 1) * pow2 (-53) * (T + value e))
                    <= value acc1 - (T + value e)
                    <= 2 * IZR (j + 1) * pow2 (-53) * (T + value e)).
    { rewrite pow2_m53, plus_IZR.
      assert (HXb : value acc + value e <= 5 / 4 * (T + value e)) by lra.
      assert (HjT' : 2 * IZR j * / 9007199254740992 * T
                     <= 2 * IZR j * / 9007199254740992 * (T + value e)) by nra.
      lra. }
    destruct (IH acc1 (j + 1)%Z (T + value e) Hes Hn1 ltac:(lia) ltac:(lia)
                HT1 Herr') as (HS & Hmono & Hel & HT' & HerrS).
    cbn [foldl real_sum foldr length]. fold (real_sum es). fold acc1.
    rewrite Nat2Z.inj_succ.
    replace (j + Z.succ (Z.of_nat (length es)))%Z
      with (j + 1 + Z.of_nat (length es))%Z by lia.
    replace (T + (value e + real_sum es)) with (T + value e + real_sum es)
      by lra.
    split; [done|]. split; [lra|]. split; [|done].
    intros e' [->|He']%elem_of_cons; [lra|]. now apply Hel.
Qed.

(** The quotients of the numbers of a list by a number that is at least
    [1] and not below any of them. *)
Lemma quotients_unit (S : float) (es : list float) :
  Forall (fun e => sf_nonneg (Prim2SF e) = true /\ value e <= 1) es ->
  sf_nonneg (Prim2SF S) = true -> 1 <= value S ->
  (forall e, e ∈ es -> value e <= value S) ->
  let outs := (fun e => (e / S)%float) <$> es in
  Forall (fun o => sf_nonneg (Prim2SF o) = true /\ value o <= 1) outs
  /\ - (pow2 (-53) * (real_sum es / value S)
        + IZR (Z.of_nat (length es)) * pow2 (-1075))
     <= real_sum outs - real_sum es / value S
     <= pow2 (-53) * (real_sum es / value S)
        + IZR (Z.of_nat (length es)) * pow2 (-1075).
Proof.
  intros Hes HS HS1 Hle. induction es as [|e es IH].
  - cbn. split; [constructor|]. unfold Rdiv. rewrite !Rmult_0_l, Rmult_0_r. lra.
  - apply Forall_cons in Hes as [[He1 He2] Hes].
    destruct (IH Hes) as [IH1 IH2].
    { intros e' He'. apply Hle. now right. }
    destruct (div_le_one e S He1 HS ltac:(lra) (Hle e ltac:(left)))
      as (Hn & H1 & Herr).
    cbn [fmap list_fmap real_sum foldr length].
    fold (real_sum es). fold (real_sum ((fun e => (e / S)%float) <$> es)).
    split; [constructor; done|].
    rewrite Nat2Z.inj_succ, succ_IZR.
    replace ((value e + real_sum es) / value S)
      with (value e / value S + real_sum es / value S) by (field; lra).
    change (list_fmap float float (fun e => (e / S)%float) es)
      with ((fun e => (e / S)%float) <$> es).
    lra.
Qed.

End UnitSums.

(** * C8: softmax *)

(** On an empty input [Softmax] panics at [input[0]]. *)
Lemma Softmax_empty_panics `{GoMath} : Softmax [] = Panic.
Proof. reflexivity. Qed.

(** In binary64 adding a constant to the inputs is rounded before the
    maximum is subtracted: [0.1 + 1e17] and [0.2 + 1e17] are the same
    value, so the shifted input has two equal outputs whatever [math.Exp]
    computes, and the softmax of [0.1, 0.2] could only be unchanged if its
    two entries were equal. *)
Lemma Softmax_shift_rounds `{GoMath} (out : list float) :
  Softmax [0x1.999999999999ap-4; 0x1.999999999999ap-3]%float = Ok out ->
  Softmax [0x1.999999999999ap-4 + 0x1.6345785d8ap+56;
           0x1.999999999999ap-3 + 0x1.6345785d8ap+56]%float = Ok out ->
  exists x, out = [x; x].
Proof.
  intros _ E. vm_compute in E.
  match type of E with Ok [?a; ?b] = _ => exists a end.
  apply (f_equal (fun r => match r with Ok l => l | _ => [] end)) in E.
  now symmetry.
Qed.

(** C8, as the specification states it, fails: the result changes when a
    constant is added to every element.  With [Exp(0) = 1] and
    [Exp(-0.1) = 0.9048374180359595], as [math.Exp] has them, the softmax
    of [[0.1, 0.2]] is [[0.47502081252106, 0.52497918747894]], and the
    softmax of [[0.1 + 1e17, 0.2 + 1e17]] is [[0.5, 0.5]]. *)
Lemma Softmax_shift_counterexample :
  @Softmax exp_math [0x1.999999999999ap-4; 0x1.999999999999ap-3]%float
    = Ok [0x1.e66bdb1aca090p-2; 0x1.0cca12729afb8p-1]%float
  /\ @Softmax exp_math [0x1.999999999999ap-4 + 0x1.6345785d8ap+56;
                        0x1.999999999999ap-3 + 0x1.6345785d8ap+56]%float
       = Ok [0.5; 0.5]%float
  /\ @Softmax exp_math [0x1.999999999999ap-4 + 0x1.6345785d8ap+56;
                        0x1.999999999999ap-3 + 0x1.6345785d8ap+56]%float
       <> @Softmax exp_math [0x1.999999999999ap-4; 0x1.999999999999ap-3]%float.
Proof.
  split; [reflexivity|]. split; [reflexivity|].
  intros E. pose proof (Softmax_shift_rounds (H:=exp_math) _ eq_refl E) as [x Hx].
  assert (Hneq : 0x1.e66bdb1aca090p-2%float <> 0x1.0cca12729afb8p-1%float)
    by now apply float_neq.
  apply Hneq. injection Hx as -> ->. reflexivity.
Qed.

Section SoftmaxClaim.
Context `{GoMath}.

Lemma softmax_values_cells (input : list float) :
  softmax_values input
  = (fun v => (Exp (v - softmax_max input) / softmax_sum input)%float)
      <$> input.
Proof.
  destruct input as [|v0 rest]; [done|].
  unfold softmax_values, softmax_sum, softmax_max.
  now rewrite <- list_fmap_compose.
Qed.

Lemma Softmax_cells (input : list float) :
  input <> [] ->
  Softmax input
  = Ok ((fun v => (Exp (v - softmax_max input) / softmax_sum input)%float)
          <$> input).
Proof.
  intros Hne. destruct input as [|v0 rest]; [done|].
  rewrite (Softmax_formula v0 rest). f_equal.
  exact (softmax_values_cells (v0 :: rest)).
Qed.

(** [Softmax] reads its input only through the differences to the
    maximum. *)
Lemma Softmax_differences (input input' : list float) :
  input <> [] ->
  (fun v => (v - softmax_max input')%float) <$> input'
  = (fun v => (v - softmax_max input)%float) <$> input ->
  Softmax input' = Softmax input.
Proof.
  intros Hne E.
  assert (Hne' : input' <> []).
  { intros ->. destruct input; [done|discriminate E]. }
  assert (Hsplit : forall (g : float -> float) (mx : float) (l : list float),
            (fun v => g (v - mx)%float) <$> l
            = g <$> ((fun v => (v - mx)%float) <$> l)).
  { intros g mx l. now rewrite <- list_fmap_compose. }
  rewrite !Softmax_cells by done. f_equal.
  assert (Esum : softmax_sum input' = softmax_sum input).
  { unfold softmax_sum. rewrite !(Hsplit Exp). now rewrite E. }
  rewrite Esum.
  rewrite !(Hsplit (fun d => (Exp d / softmax_sum input)%float)).
  now rewrite E.
Qed.

(** The maximum [Softmax] subtracts is an element of the input and bounds
    it, when the input is finite. *)
Lemma softmax_max_spec (input : list float) :
  input <> [] ->
  Forall (fun v => PrimFloat.is_finite v = true) input ->
  softmax_max input ∈ input
  /\ forall v, v ∈ input -> (v <=? softmax_max input)%float = true.
Proof.
  intros Hne Hfin. destruct input as [|v0 rest]; [done|].
  assert (H0 : is_nan v0 = false).
  { apply is_finite_not_nan. now apply Forall_cons in Hfin as [? _]. }
  destruct (running_max_spec (v0 :: rest) v0 H0) as (_ & Hin & _ & Hle).
  change (foldl max_step v0 (v0 :: rest)) with (softmax_max (v0 :: rest))
    in Hin, Hle.
  split.
  - destruct Hin as [->|Hin]; [left|done].
  - intros v Hv. apply Hle; [done|]. apply is_finite_not_nan.
    rewrite Forall_forall in Hfin. now apply Hfin.
Qed.

Section SoftmaxRange.
Import Reals Lra.
Local Open Scope R_scope.

(** The exponentials [Softmax] adds up lie between [0] and [1], and the
    one of the maximum is [1]. *)
Lemma softmax_exponentials (input : list float) :
  (forall x, is_nan x = false -> (x <=? 0)%float = true ->
     (0 <=? Exp x)%float = true /\ (Exp x <=? 1)%float = true) ->
  Exp 0 = 1%float ->
  input <> [] ->
  Forall (fun v => PrimFloat.is_finite v = true) input ->
  let exps := (fun v => Exp (v - softmax_max input)) <$> input in
  Forall (fun e => sf_nonneg (Prim2SF e) = true /\ value e <= 1) exps
  /\ 1%float ∈ exps.
Proof.
  intros HExp HExp0 Hne Hfin exps.
  destruct (softmax_max_spec input Hne Hfin) as [Hin Hle].
  assert (Hmax : PrimFloat.is_finite (softmax_max input) = true).
  { rewrite Forall_forall in Hfin. now apply Hfin. }
  split.
  - unfold exps. apply Forall_fmap, Forall_forall. intros v Hv. cbn.
    assert (Hv' : PrimFloat.is_finite v = true).
    { rewrite Forall_forall in Hfin. now apply Hfin. }
    destruct (sub_nonpos v (softmax_max input) Hv' Hmax (Hle v Hv)) as [Hn H0].
    apply unit_interval. now apply HExp.
  - unfold exps. apply list_elem_of_fmap. exists (softmax_max input).
    split; [|done]. now rewrite sub_self, HExp0.
Qed.

(** The values of [Softmax] on a finite input, when [math.Exp] maps what
    is not above zero into [[0, 1]] and zero to [1]. *)
Lemma Softmax_unit_sum (input : list float) :
  (forall x, is_nan x = false -> (x <=? 0)%float = true ->
     (0 <=? Exp x)%float = true /\ (Exp x <=? 1)%float = true) ->
  Exp 0 = 1%float ->
  input <> [] ->
  Forall (fun v => PrimFloat.is_finite v = true) input ->
  (Z.of_nat (length input) <= 2 ^ 50)%Z ->
  exists out, Softmax input = Ok out
    /\ Forall (fun o => (0 <=? o)%float = true /\ (o <=? 1)%float = true) out
    /\ - (IZR (Z.of_nat (length input)) * pow2 (-50))
       <= real_sum out - 1
       <= IZR (Z.of_nat (length input)) * pow2 (-50).
Proof.
  intros HExp HExp0 Hne Hfin Hlen.
  destruct (softmax_exponentials input HExp HExp0 Hne Hfin) as [Hunit Hone].
  set (exps := (fun v => Exp (v - softmax_max input)) <$> input) in *.
  assert (Hn : length exps = length input) by apply length_fmap.
  set (S := softmax_sum input).
  assert (HS : S = foldl (fun s e => (s + e)%float) 0%float exps) by reflexivity.
  destruct (fold_sum_unit exps 0%float 0%Z 0 Hunit eq_refl ltac:(lia)
              ltac:(rewrite Hn; lia) ltac:(lra)
              ltac:(rewrite value_zero; lra))
    as (HSn & _ & HSge & HT & HerrS).
  rewrite <- HS in HSn, HSge, HerrS. rewrite Hn in HT, HerrS.
  rewrite Z.add_0_l, Rplus_0_l in HT, HerrS.
  destruct (real_sum_nonneg exps Hunit) as [_ HTge].
  assert (HT1 : 1 <= real_sum exps).
  { rewrite <- value_one. now apply HTge. }
  assert (HS1 : 1 <= value S).
  { rewrite <- value_one. now apply HSge. }
  destruct (quotients_unit S exps Hunit HSn HS1 HSge) as [Hout Herr].
  rewrite Hn in Herr.
  exists ((fun e => (e / S)%float) <$> exps). split.
  { rewrite (Softmax_cells input Hne). f_equal. unfold exps.
    now rewrite <- list_fmap_compose. }
  split.
  { eapply Forall_impl; [exact Hout|]. intros o Ho. now apply unit_interval. }
  (* the arithmetic *)
  set (n := IZR (Z.of_nat (length input))) in *.
  assert (Hn1 : 1 <= n <= 1125899906842624).
  { unfold n. split.
    - change 1 with (IZR 1). apply IZR_le.
      destruct input; [done|]. cbn [length]. lia.
    - change 1125899906842624 with (IZR (2 ^ 50)). now apply IZR_le. }
  set (T := real_sum exps) in *. set (Sv := value S) in *.
  set (O := real_sum ((fun e => (e / S)%float) <$> exps)) in *.
  rewrite pow2_m53 in HerrS, Herr.
  pose proof pow2_m1075_le as Heta. rewrite pow2_m53 in Heta.
  pose proof (pow2_pos (-1075)) as Heta0.
  assert (H50 : pow2 (-50) = / 1125899906842624).
  { transitivity (/ pow2 50); [exact (pow2_neg 50)|].
    rewrite pow2_IZR by lia. reflexivity. }
  rewrite H50.
  set (rho := T / Sv) in *.
  assert (Hrho : rho * Sv = T) by (unfold rho; field; lra).
  assert (Ha : 2 * n * / 9007199254740992 <= / 4) by lra.
  assert (HaT : 2 * n * / 9007199254740992 * T <= T / 4) by nra.
  assert (Hrho43 : 0 <= rho <= 4 / 3) by nra.
  assert (Hrho1 : - (4 / 3 * (2 * n * / 9007199254740992)) <= rho - 1
                  <= 4 / 3 * (2 * n * / 9007199254740992)).
  { assert (HaT' : 2 * n * / 9007199254740992 * T
                   <= 4 / 3 * (2 * n * / 9007199254740992) * Sv) by nra.
    split; nra. }
  assert (Hneta : n * pow2 (-1075) <= n * / 9007199254740992) by nra.
  lra.
Qed.

End SoftmaxRange.

Section SoftmaxTheorem.
Import Reals.
Local Open Scope R_scope.

(** C8, amended.  On an empty input [Softmax] panics.  On a nonempty
    input it returns a vector of the length of the input whose entry [i]
    is [Exp (v_i - max)] divided by the sum of these exponentials, [max]
    being the maximum and the sum being taken in the order of the input.
    If [math.Exp] maps the numbers that are not above zero into [[0, 1]]
    and zero to [1], then on a nonempty input of finite numbers every
    value of the result is in [[0, 1]] and the values sum, as real
    numbers, to [1] within [n * 2^-50] for an input of [n <= 2^50]
    elements, which is less than [1e-9] up to [2^20] elements.  The
    result is unchanged when a constant [c] is added to every element if
    the addition leaves every difference [v_i - max] as it was, as a
    [float64]; the rounding of [v_i + c] can change it. *)
Theorem Softmax_spec :
  Softmax [] = Panic
  /\ (forall input, input <> [] ->
        exists out, Softmax input = Ok out
          /\ length out = length input
          /\ forall i v, input !! i = Some v ->
               out !! i
               = Some (Exp (v - softmax_max input) / softmax_sum input)%float)
  /\ ((forall x, is_nan x = false -> (x <=? 0)%float = true ->
          (0 <=? Exp x)%float = true /\ (Exp x <=? 1)%float = true) ->
       Exp 0 = 1%float ->
       forall input, input <> [] ->
         Forall (fun v => PrimFloat.is_finite v = true) input ->
         (Z.of_nat (length input) <= 2 ^ 50)%Z ->
         exists out, Softmax input = Ok out
           /\ Forall (fun o => (0 <=? o)%float = true
                               /\ (o <=? 1)%float = true) out
           /\ - (IZR (Z.of_nat (length input)) * pow2 (-50))
              <= real_sum out - 1
              <= IZR (Z.of_nat (length input)) * pow2 (-50)
           /\ ((Z.of_nat (length input) <= 2 ^ 20)%Z ->
               - / 1000000000 <= real_sum out - 1 <= / 1000000000))
  /\ (forall input c, input <> [] ->
        let shifted := (fun v => (v + c)%float) <$> input in
        (forall v, v ∈ input ->
           (v + c - softmax_max shifted)%float
           = (v - softmax_max input)%float) ->
        Softmax shifted = Softmax input).
Proof.
  split; [reflexivity|]. split; [|split].
  - intros input Hne. eexists. split; [exact (Softmax_cells input Hne)|].
    split; [apply length_fmap|].
    intros i v Hi. now rewrite list_lookup_fmap, Hi.
  - intros HExp HExp0 input Hne Hfin Hlen.
    destruct (Softmax_unit_sum input HExp HExp0 Hne Hfin Hlen)
      as (out & E & Hrange & Hsum).
    exists out. split; [exact E|]. split; [exact Hrange|].
    split; [exact Hsum|]. intros H20.
    assert (Hb : IZR (Z.of_nat (length input)) * pow2 (-50) <= / 1000000000).
    { assert (H50 : pow2 (-50) = / 1125899906842624).
      { transitivity (/ pow2 50); [exact (pow2_neg 50)|].
        rewrite pow2_IZR by lia. reflexivity. }
      rewrite H50. apply IZR_le in H20.
      change (IZR (2 ^ 20)) with 1048576 in H20.
      assert (0 <= IZR (Z.of_nat (length input))) by (apply IZR_le; lia).
      Lra.lra. }
    Lra.lra.
  - intros input c Hne shifted Hdiff.
    apply Softmax_differences; [done|].
    change ((fun v => (v - softmax_max shifted)%float)
              <$> ((fun v => (v + c)%float) <$> input)
            = (fun v => (v - softmax_max input)%float) <$> input).
    rewrite <- list_fmap_compose.
    apply list_fmap_ext. intros i v Hi. cbn.
    apply Hdiff. eapply list_elem_of_lookup_2, Hi.
Qed.

End SoftmaxTheorem.

End SoftmaxClaim.

Section SoftmaxWitness.
Import Reals.
Local Open Scope R_scope.

Lemma Softmax_spec_witness :
  @Softmax exp_math [11; 12; 13]%float = @Softmax exp_math [1; 2; 3]%float
  /\ exists out,
       @Softmax exp_math [0x1.999999999999ap-4; 0x1.999999999999ap-3]%float
       = Ok out
       /\ Forall (fun o => (0 <=? o)%float = true /\ (o <=? 1)%float = true)
            out
       /\ - / 1000000000 <= real_sum out - 1 <= / 1000000000.
Proof.
  split.
  - refine (proj2 (proj2 (proj2 (@Softmax_spec exp_math)))
              [1; 2; 3]%float 10%float _ _).
    + discriminate.
    + intros v Hv. cbn.
      repeat (apply elem_of_cons in Hv as [->|Hv]; [reflexivity|]).
      now apply elem_of_nil in Hv.
  - assert (HExp : forall x, is_nan x = false -> (x <=? 0)%float = true ->
              (0 <=? @Exp exp_math x)%float = true
              /\ (@Exp exp_math x <=? 1)%float = true).
    { intros x _ _. cbn [Exp exp_math].
      destruct (x =? 0)%float; [done|].
      destruct (x =? -0x1.999999999999ap-4)%float; done. }
    destruct (proj1 (proj2 (proj2 (@Softmax_spec exp_math))) HExp eq_refl
                [0x1.999999999999ap-4; 0x1.999999999999ap-3]%float
                ltac:(discriminate)
                ltac:(repeat constructor)
                ltac:(cbn; lia))
      as (out & E & Hrange & _ & Hsum).
    exists out. split; [exact E|]. split; [exact Hrange|].
    apply Hsum. cbn. lia.
Defined.

End SoftmaxWitness.
